(** * Bubble graphs, read partitioning and local phasing correctness

    A shallow embedding of the bubble-graph code of margin
    ([impl/bubbleGraph.c], [impl/genomeFragment.c],
    [impl/localPhasingCorrectness.c]) together with the properties that
    its design document states about it.

    Conventions of the embedding:
    - [int64_t] values are [Z]; array cursors that never go negative are
      [nat];
    - a C [double] or [float] that only takes part in sums, products,
      quotients and comparisons is an exact rational of [Q] (rounding is
      not modelled); a quotient whose divisor can be zero goes through
      [ddiv], which keeps the IEEE outcomes apart; where logarithms and
      exponentials come in, it is a real number of [R] or one of the
      IEEE infinities;
    - a [char *] is a [list ascii]; an [stList] is a [list]; an [stHash]
      or [stSet] keyed by pointers is a [gmap] or [gset] keyed by the
      identity of the object pointed to;
    - a [for] loop whose counter the body leaves alone is a fold over
      [zrange];
    - an [assert] is a debugging check that a build may leave out: it
      is not part of the control flow of the embedding, and where a
      property needs what it checks, the property says so. *)

From Stdlib Require Import Reals Lra.
From Stdlib Require Import ZArith QArith Qround Lqa Ascii String List Lia Permutation Sorted.
From stdpp Require Import base tactics option list gmap.
Import ListNotations.

Local Open Scope Z_scope.

(** ** Small C idioms *)

Abbreviation cstring := (list ascii).

Definition cstr (s : string) : cstring := list_ascii_of_string s.

(** [lo, lo+1, ..., hi-1], the values taken by the counter of
    [for (x = lo; x < hi; x++)]. *)
Definition zrange (lo hi : Z) : list Z :=
  map (fun k => lo + Z.of_nat k) (seq 0 (Z.to_nat (hi - lo))).

(** [a[i]] for an [int64_t] index; reads outside the array give [d]. *)
Definition znth {A} (d : A) (l : list A) (i : Z) : A :=
  if i <? 0 then d else nth (Z.to_nat i) l d.

(** [a[i] = x]; a store outside the array is dropped. *)
Definition zset {A} (l : list A) (i : Z) (x : A) : list A :=
  if i <? 0 then l else <[Z.to_nat i := x]> l.

Definition Qgtb (x y : Q) : bool := negb (Qle_bool x y).

Definition toupper (c : ascii) : ascii :=
  let n := nat_of_ascii c in
  if (Nat.leb 97 n && Nat.leb n 122)%bool then ascii_of_nat (n - 32) else c.

Definition ascii_eqb (a b : ascii) : bool := Ascii.eqb a b.

Definition stString_eq (a b : cstring) : bool := bool_decide (a = b).

(** ** Run-length encoded strings *)

(** Modelled from the spec: the [RleString] record and its primitives
    ([rleString_expand], [rleString_construct],
    [rleString_construct_no_rle], [rleString_copySubstring],
    [rleString_eq]) live in the RLE module, which is outside the files
    verified here.  The design document gives an [RleString] a
    compressed base string, a parallel array of repeat counts, and an
    expansion; the two constructors are the RLE-on and RLE-off modes. *)
Record RleString := mkRle {
  rleString : cstring;
  repeatCounts : list Z
}.

Definition rle_length (r : RleString) : Z := Z.of_nat (length (rleString r)).

Definition expandChar (c : ascii) (n : Z) : cstring := repeat c (Z.to_nat n).

Fixpoint expand_pairs (cs : cstring) (ns : list Z) : cstring :=
  match cs, ns with
  | c :: cs', n :: ns' => expandChar c n ++ expand_pairs cs' ns'
  | _, _ => []
  end.

Definition rleString_expand (r : RleString) : cstring :=
  expand_pairs (rleString r) (repeatCounts r).

(** Runs of an expanded string, as (base, count) pairs. *)
Fixpoint runs (s : cstring) : list (ascii * Z) :=
  match s with
  | [] => []
  | c :: s' =>
      match runs s' with
      | (c', n) :: rs => if ascii_eqb c c' then (c, n + 1) :: rs else (c, 1) :: (c', n) :: rs
      | [] => [(c, 1)]
      end
  end.

Definition rleString_construct (s : cstring) : RleString :=
  let rs := runs s in mkRle (map fst rs) (map snd rs).

Definition rleString_construct_no_rle (s : cstring) : RleString :=
  mkRle s (map (fun _ => 1) s).

Definition sublist {A} (start len : Z) (l : list A) : list A :=
  take (Z.to_nat len) (drop (Z.to_nat start) l).

Definition rleString_copySubstring (r : RleString) (start len : Z) : RleString :=
  mkRle (sublist start len (rleString r)) (sublist start len (repeatCounts r)).

Definition rleString_copy (r : RleString) : RleString := r.

Definition rleString_eq (a b : RleString) : bool :=
  bool_decide (rleString a = rleString b) && bool_decide (repeatCounts a = repeatCounts b).

(** ** The partial order alignment *)

(** Modelled from the spec: the [Poa] type is declared outside the files
    verified here.  A node carries its reference base and repeat count,
    one weight per alphabet symbol and per repeat count, candidate
    insertions and deletions with their weights, and the observations of
    the reads aligned to it.  [insert_weight] and [delete_weight] stand
    for the values of [poaInsert_getWeight] and [poaDelete_getWeight]. *)
Record PoaInsert := mkPoaInsert { insert : RleString; insert_weight : Q }.
Record PoaDelete := mkPoaDelete { delete_length : Z; delete_weight : Q }.
Record PoaBaseObservation := mkObs { readNo : Z; offset : Z; weight : Q }.

Record PoaNode := mkPoaNode {
  inserts : list PoaInsert;
  deletes : list PoaDelete;
  base : ascii;
  repeatCount : Z;
  baseWeights : list Q;
  repeatCountWeights : list Q;
  observations : list PoaBaseObservation
}.

Record Poa := mkPoa {
  alphabet : cstring;       (* convertSymbolToChar i = alphabet[i] *)
  maxRepeatCount : nat;
  refString : RleString;
  nodes : list PoaNode
}.

Definition alphabetSize (poa : Poa) : nat := length (alphabet poa).
Definition convertSymbolToChar (poa : Poa) (i : nat) : ascii := nth i (alphabet poa) "-"%char.
Definition node_count (poa : Poa) : Z := Z.of_nat (length (nodes poa)).

Definition emptyNode : PoaNode := mkPoaNode [] [] "N"%char 1 [] [] [].
Definition getNode (poa : Poa) (i : Z) : PoaNode := znth emptyNode (nodes poa) i.

(** ** Candidate iterators *)

(** One run of the [while] loop of [getNextCandidateBase]: [remaining]
    is [alphabetSize - i], so the loop condition is [remaining > 0]. *)
Fixpoint nextCandidateBase (poa : Poa) (node : PoaNode) (candidateWeight : Q)
    (remaining i : nat) : ascii * nat :=
  match remaining with
  | O => ("-"%char, i)
  | S r =>
      let b := convertSymbolToChar poa i in
      if (Qgtb (nth i (baseWeights node) 0%Q) candidateWeight
          || ascii_eqb (toupper (base node)) b)%bool
      then (b, S i)
      else nextCandidateBase poa node candidateWeight r (S i)
  end.

Definition getNextCandidateBase (poa : Poa) (node : PoaNode) (i : nat) (candidateWeight : Q)
    : ascii * nat :=
  nextCandidateBase poa node candidateWeight (alphabetSize poa - i)%nat i.

Fixpoint nextCandidateRepeatCount (node : PoaNode) (candidateWeight : Q)
    (remaining i : nat) : Z * nat :=
  match remaining with
  | O => (-1, i)
  | S r =>
      let rc := Z.of_nat i in
      if (Qgtb (nth i (repeatCountWeights node) 0%Q) candidateWeight
          || (repeatCount node =? rc))%bool
      then (rc, S i)
      else nextCandidateRepeatCount node candidateWeight r (S i)
  end.

Definition getNextCandidateRepeatCount (poa : Poa) (node : PoaNode) (i : nat)
    (candidateWeight : Q) : Z * nat :=
  nextCandidateRepeatCount node (candidateWeight * 2)%Q (maxRepeatCount poa - i)%nat i.

(** [getNextCandidateInsert]: the cursor is bumped by the loop test
    itself, also on the failing test that ends the loop. *)
Fixpoint nextCandidateInsert (node : PoaNode) (candidateWeight : Q)
    (remaining i : nat) : option RleString * nat :=
  match remaining with
  | O => (None, S i)
  | S r =>
      match nth_error (inserts node) i with
      | Some ins =>
          if Qgtb (insert_weight ins) candidateWeight then (Some (insert ins), S i)
          else nextCandidateInsert node candidateWeight r (S i)
      | None => (None, S i)
      end
  end.

Definition getNextCandidateInsert (node : PoaNode) (i : nat) (candidateWeight : Q)
    : option RleString * nat :=
  nextCandidateInsert node candidateWeight (length (inserts node) - i)%nat i.

Fixpoint nextCandidateDelete (node : PoaNode) (candidateWeight : Q)
    (remaining i : nat) : Z * nat :=
  match remaining with
  | O => (-1, S i)
  | S r =>
      match nth_error (deletes node) i with
      | Some del =>
          if Qgtb (delete_weight del) candidateWeight then (delete_length del, S i)
          else nextCandidateDelete node candidateWeight r (S i)
      | None => (-1, S i)
      end
  end.

Definition getNextCandidateDelete (node : PoaNode) (i : nat) (candidateWeight : Q)
    : Z * nat :=
  nextCandidateDelete node candidateWeight (length (deletes node) - i)%nat i.

(** A loop [while ((x = next(&i)) != sentinel) body(x)] runs [body] over
    the values [next] hands out until the sentinel shows up.  [next]
    returns [None] for the sentinel.  Every successful call moves the
    cursor forward, so [fuel] is the distance of the cursor from the end
    of the array. *)
Section Enumerate.
Context {A : Type}.
Variable next : nat -> option (A * nat).

Fixpoint enumerate (fuel i : nat) : list A :=
  match fuel with
  | O => []
  | S f =>
      match next i with
      | None => []
      | Some (a, i') => a :: enumerate f i'
      end
  end.
End Enumerate.

Definition next_base (poa : Poa) (node : PoaNode) (cw : Q) (i : nat) : option (ascii * nat) :=
  let '(b, i') := getNextCandidateBase poa node i cw in
  if ascii_eqb b "-"%char then None else Some (b, i').

Definition next_repeatCount (poa : Poa) (node : PoaNode) (cw : Q) (i : nat) : option (Z * nat) :=
  let '(rc, i') := getNextCandidateRepeatCount poa node i cw in
  if rc =? -1 then None else Some (rc, i').

Definition next_insert (node : PoaNode) (cw : Q) (i : nat) : option (RleString * nat) :=
  let '(r, i') := getNextCandidateInsert node i cw in
  match r with None => None | Some ins => Some (ins, i') end.

(** The deletions loop of [maxCandidateDeleteLength] stops at [-1]. *)
Definition next_delete (node : PoaNode) (cw : Q) (i : nat) : option (Z * nat) :=
  let '(d, i') := getNextCandidateDelete node i cw in
  if d =? -1 then None else Some (d, i').

(** The deletions loop of [getCandidateConsensusSubstrings] runs while
    the length is positive. *)
Definition next_positive_delete (node : PoaNode) (cw : Q) (i : nat) : option (Z * nat) :=
  let '(d, i') := getNextCandidateDelete node i cw in
  if 0 <? d then Some (d, i') else None.

Definition candidateBases (poa : Poa) (node : PoaNode) (cw : Q) : list ascii :=
  enumerate (next_base poa node cw) (alphabetSize poa) 0.

Definition candidateRepeatCounts (poa : Poa) (node : PoaNode) (cw : Q) (start : nat) : list Z :=
  enumerate (next_repeatCount poa node cw) (maxRepeatCount poa) start.

Definition candidateInserts (node : PoaNode) (cw : Q) : list RleString :=
  enumerate (next_insert node cw) (length (inserts node)) 0.

Definition candidateDeletes (node : PoaNode) (cw : Q) : list Z :=
  enumerate (next_delete node cw) (length (deletes node)) 0.

Definition candidatePositiveDeletes (node : PoaNode) (cw : Q) : list Z :=
  enumerate (next_positive_delete node cw) (length (deletes node)) 0.

Definition hasCandidateSubstitution (poa : Poa) (node : PoaNode) (cw : Q) : bool :=
  existsb (fun b => negb (ascii_eqb b (base node))) (candidateBases poa node cw).

Definition hasCandidateRepeatCountChange (poa : Poa) (node : PoaNode) (cw : Q) : bool :=
  existsb (fun rc => negb (rc =? repeatCount node)) (candidateRepeatCounts poa node cw 0).

Definition hasCandidateInsert (node : PoaNode) (cw : Q) : bool :=
  match fst (getNextCandidateInsert node 0 cw) with Some _ => true | None => false end.

(** The C function is declared to return [bool], so the maximum it has
    computed leaves it as "is there a candidate deletion". *)
Definition maxCandidateDeleteLength (node : PoaNode) (cw : Q) : bool :=
  negb (fold_left (fun m d => if m <? d then d else m) (candidateDeletes node cw) 0 =? 0).

(** ** Anchors *)

Definition getCandidateVariantOverlapPositions (poa : Poa) (candidateWeights : list Q)
    : list bool :=
  fold_left
    (fun cvp i =>
       let node := getNode poa i in
       let cw := znth 0%Q candidateWeights i in
       let cvp :=
         if (hasCandidateSubstitution poa node cw
             || hasCandidateRepeatCountChange poa node cw
             || hasCandidateInsert node cw)%bool
         then zset cvp i true else cvp in
       let j := if maxCandidateDeleteLength node cw then 1 else 0 in
       let cvp := if 0 <? j then zset cvp i true else cvp in
       (* while (j > 0) cvp[i + (j--)] = 1 *)
       fold_left (fun cvp j' => zset cvp (i + j') true) (rev (zrange 1 (j + 1))) cvp)
    (zrange 0 (node_count poa))
    (replicate (length (nodes poa)) false).

Definition expand (b : list bool) (length expansion : Z) : list bool :=
  fold_left
    (fun b2 i =>
       if znth false b i then
         fold_left
           (fun b2 j => if ((0 <=? j) && (j <? length))%bool then zset b2 j true else b2)
           (zrange (i - expansion) (i + expansion)) b2
       else b2)
    (zrange 0 length)
    (replicate (Z.to_nat length) false).

(** Modelled from the spec: [VcfEntry] is declared outside the files
    verified here; it carries a 0-based reference position, the allele
    strings and two genotype indices, and, for the VCF-driven builders,
    the allele substrings and the aligned reference interval computed
    beforehand.  [vcf_id] is the identity of the entry (its address).

    The allele lists are [stList]s of untyped pointers, and the code
    reads their elements through [RleString *] in some places and
    through [char *] in others.  An [AlleleCell] keeps what each of the
    two reads of one element finds. *)
Record AlleleCell := mkAlleleCell {
  cell_rle : RleString;     (* the element read through [RleString *] *)
  cell_chars : cstring      (* the element read through [char *] *)
}.

Record VcfEntry := mkVcfEntry {
  vcf_id : nat;
  refPos : Z;
  vcf_alleles : list AlleleCell;
  gt1 : Z;
  gt2 : Z;
  alleleSubstrings : list AlleleCell;
  refAlnStart : Z;
  refAlnStopIncl : Z
}.

(** The list iterator of [updateCandidateVariantPositionsByVcfEntries]
    is the list of entries not yet consumed; its head is [vcfEntry]. *)
Definition updateCandidateVariantPositionsByVcfEntries (candidateVariantPositions : list bool)
    (cvpLength : Z) (vcfEntries : list VcfEntry) : list bool :=
  fst (fold_left
         (fun '(cvp, itor) i =>
            let isVCF := match itor with
                         | e :: _ => refPos e =? i
                         | [] => false
                         end in
            let cvp := zset cvp i isVCF in
            let itor := match itor with
                        | e :: rest => if refPos e <=? i then rest else itor
                        | [] => []
                        end in
            (cvp, itor))
         (zrange 0 cvpLength)
         (candidateVariantPositions, vcfEntries)).

Record PolishParams := mkPolishParams {
  useRunLengthEncoding : bool;
  columnAnchorTrim : Z;
  maxConsensusStrings : Z;
  useReadAlleles : bool;
  useReadAllelesInPhasing : bool;
  filterReadsWhileHaveAtLeastThisCoverage : Z;
  minAvgBaseQuality : Q;
  candidateVariantWeight : Q
}.

(** Returns the anchors together with the candidate variant positions
    handed back through [candidateVariantPositionsPointer]. *)
Definition getFilteredAnchorPositions (poa : Poa) (candidateWeights : list Q)
    (vcfEntries : option (list VcfEntry)) (params : PolishParams)
    : list bool * list bool :=
  let candidateVariantPositions := getCandidateVariantOverlapPositions poa candidateWeights in
  let candidateVariantPositions :=
    match vcfEntries with
    | Some es => updateCandidateVariantPositionsByVcfEntries candidateVariantPositions
                   (node_count poa) es
    | None => candidateVariantPositions
    end in
  let expandedCandidateVariantPositions :=
    expand candidateVariantPositions (node_count poa) (columnAnchorTrim params) in
  let anchors :=
    map (fun i => negb (znth false expandedCandidateVariantPositions i))
        (zrange 0 (node_count poa)) in
  (anchors, candidateVariantPositions).

(** ** Candidate enumerator *)

Definition containsString (strings : list cstring) (s : cstring) : bool :=
  existsb (stString_eq s) strings.

(** The body of [getCandidateConsensusSubstrings] once the suffixes are
    known: every candidate base and repeat count of [node] is put in
    front of every suffix, without edit, followed by a candidate insert,
    or with the head of the suffix deleted. *)
Definition extendByNode (poa : Poa) (node : PoaNode) (candidateWeight : Q)
    (suffixes : list cstring) : list cstring :=
  fold_left
    (fun consensusSubstrings b =>
       fold_left
         (fun consensusSubstrings rc =>
            let bases := expandChar b rc in
            (* no inserts or deletes starting at this node *)
            let consensusSubstrings :=
              fold_left (fun acc suffix => acc ++ [bases ++ suffix]) suffixes consensusSubstrings in
            (* insert cases *)
            let consensusSubstrings :=
              fold_left
                (fun acc ins =>
                   let expandedInsert := rleString_expand ins in
                   fold_left (fun acc suffix => acc ++ [bases ++ expandedInsert ++ suffix])
                             suffixes acc)
                (candidateInserts node candidateWeight) consensusSubstrings in
            (* then deletes *)
            fold_left
              (fun acc deleteLength =>
                 fold_left
                   (fun acc suffixHaplotype =>
                      let s := bases ++
                                 (if 0 <=? Z.of_nat (length suffixHaplotype) - deleteLength
                                  then drop (Z.to_nat deleteLength) suffixHaplotype
                                  else []) in
                      if containsString acc s then acc else acc ++ [s])
                   suffixes acc)
              (candidatePositiveDeletes node candidateWeight) consensusSubstrings)
         (candidateRepeatCounts poa node candidateWeight 1) consensusSubstrings)
    (candidateBases poa node candidateWeight) [].

(** [remaining] is [to - from]; the test [from + 1 < to] of the C code
    is [remaining >= 2].  [None] is the NULL returned for too many
    combinations. *)
Fixpoint candidateConsensusSubstringsFrom (poa : Poa) (candidateWeights : list Q)
    (weightAdjustment : Q) (maximumStringNumber : Z) (remaining : nat) (from : Z)
    : option (list cstring) :=
  let suffixes :=
    match remaining with
    | S (S _ as r) =>
        candidateConsensusSubstringsFrom poa candidateWeights weightAdjustment
          maximumStringNumber r (from + 1)
    | _ => Some [[]]
    end in
  match suffixes with
  | None => None
  | Some suffixes =>
      let node := getNode poa from in
      let candidateWeight := (znth 0%Q candidateWeights from * weightAdjustment)%Q in
      let consensusSubstrings := extendByNode poa node candidateWeight suffixes in
      if maximumStringNumber <? Z.of_nat (length consensusSubstrings) then None
      else Some consensusSubstrings
  end.

Definition getCandidateConsensusSubstrings (poa : Poa) (from to : Z)
    (candidateWeights : list Q) (weightAdjustment : Q) (maximumStringNumber : Z)
    : option (list cstring) :=
  candidateConsensusSubstringsFrom poa candidateWeights weightAdjustment
    maximumStringNumber (Z.to_nat (to - from)) from.

(** The retry loop of the builder:
    [do { alleles = ...; weightAdjustment *= 1.5; } while (alleles == NULL)].
    The loop has no bound of its own; [fuel] is the number of rounds
    looked at, and [None] means that all of them came back NULL. *)
Fixpoint retryCandidateConsensusSubstrings (poa : Poa) (from to : Z)
    (candidateWeights : list Q) (maximumStringNumber : Z) (fuel : nat)
    (weightAdjustment : Q) : option (list cstring) :=
  match fuel with
  | O => None
  | S f =>
      match getCandidateConsensusSubstrings poa from to candidateWeights weightAdjustment
              maximumStringNumber with
      | Some alleles => Some alleles
      | None =>
          retryCandidateConsensusSubstrings poa from to candidateWeights maximumStringNumber f
            (weightAdjustment * (3 # 2))%Q
      end
  end.

(** The reference without edits over the nodes [from .. to-1]: the base
    of every node, repeated its repeat count. *)
Definition referenceSubstring (poa : Poa) (from to : Z) : cstring :=
  flat_map (fun k => expandChar (base (getNode poa k)) (repeatCount (getNode poa k)))
           (zrange from to).

(** A node the enumerator can spell: an upper-case base of the alphabet
    and a repeat count the POA has a weight for. *)
Definition node_wf (poa : Poa) (node : PoaNode) : Prop :=
  In (base node) (alphabet poa) /\ toupper (base node) = base node /\
  1 <= repeatCount node < Z.of_nat (maxRepeatCount poa).

Definition alphabet_wf (poa : Poa) : Prop :=
  ~ In "-"%char (alphabet poa) /\ List.NoDup (alphabet poa).

(** Which alphabet symbols and repeat counts the iterators let through. *)
Definition admit_base (poa : Poa) (node : PoaNode) (cw : Q) (k : nat) : bool :=
  (Qgtb (nth k (baseWeights node) 0%Q) cw
   || ascii_eqb (toupper (base node)) (convertSymbolToChar poa k))%bool.

Definition admit_repeatCount (node : PoaNode) (cw : Q) (k : nat) : bool :=
  (Qgtb (nth k (repeatCountWeights node) 0%Q) (cw * 2)%Q
   || (repeatCount node =? Z.of_nat k))%bool.

(** No weight of the node reaches the threshold: once this holds, only
    the reference base and the reference repeat count are candidates. *)
Definition node_quiet (node : PoaNode) (cw : Q) : Prop :=
  (0 <= cw)%Q /\
  Forall (fun w => w <= cw)%Q (baseWeights node) /\
  Forall (fun w => w <= cw * 2)%Q (repeatCountWeights node) /\
  Forall (fun i => insert_weight i <= cw)%Q (inserts node) /\
  Forall (fun d => delete_weight d <= cw)%Q (deletes node).

(** The weight adjustment in round [k] of the retry loop. *)
Fixpoint weightAdjustmentAt (k : nat) : Q :=
  match k with
  | O => 1%Q
  | S k' => (weightAdjustmentAt k' * (3 # 2))%Q
  end.

(** ** A small alignment used to run the definitions

    Six nodes over the alphabet ACGT; node 3 carries the reference base
    C with repeat count 2, a heavy G, a heavy repeat count 1, a heavy
    insertion and a heavy deletion.  The candidate weight is 5
    everywhere. *)
Definition qs (l : list Z) : list Q := map inject_Z l.

Definition ex_plain_node : PoaNode :=
  mkPoaNode [] [] "A"%char 1 (qs [10; 0; 0; 0]) (qs [0; 10; 0]) [].

Definition ex_variant_node : PoaNode :=
  mkPoaNode [mkPoaInsert (mkRle (cstr "T") [2]) 6] [mkPoaDelete 1 7]
            "C"%char 2 (qs [3; 0; 7; 0]) (qs [0; 11; 0]) [].

Definition ex_snp_node : PoaNode :=
  mkPoaNode [] [] "A"%char 1 (qs [3; 0; 7; 0]) (qs [0; 10; 0]) [].

Definition ex_poa : Poa :=
  mkPoa (cstr "ACGT") 3 (mkRle (cstr "AACAA") [1; 1; 2; 1; 1])
        [ex_plain_node; ex_plain_node; ex_plain_node; ex_variant_node;
         ex_plain_node; ex_plain_node].

Definition ex_snp_poa : Poa :=
  mkPoa (cstr "ACGT") 3 (mkRle (cstr "AAAAA") [1; 1; 1; 1; 1])
        [ex_plain_node; ex_plain_node; ex_plain_node; ex_snp_node;
         ex_plain_node; ex_plain_node].

Definition ex_weights : list Q := qs [5; 5; 5; 5; 5; 5].

Definition ex_params : PolishParams :=
  mkPolishParams true 1 100 false false 100 (10 # 1) (1 # 2).

(** ** Reads and read substrings *)

(** Modelled from the spec: [BamChunkRead] is declared outside the
    files verified here: a read name, an RLE base string, optional
    per-base qualities and an orientation.  [read_id] is the identity of
    the read (its address); hashes and sets of reads are keyed by it. *)
Record BamChunkRead := mkRead {
  read_id : nat;
  readName : string;
  rleRead : RleString;
  qualities : option (list Z);
  forwardStrand : bool;
  (* the per-variant substrings cut from the alignment, with the
     identity of the VCF entry each belongs to *)
  bamChunkReadVcfEntrySubstrings : list (nat * cstring * list Z)
}.

Record BamChunkReadSubstring := mkReadSubstring {
  read : BamChunkRead;
  start : Z;
  length_ : Z;
  substring : option RleString;
  qualValue : Q
}.

Definition emptyRead : BamChunkRead := mkRead 0 EmptyString (mkRle [] []) None true [].

Definition sumZ (l : list Z) : Z := fold_left Z.add l 0.

(** The mean of the qualities is a quotient of two integers; for an
    empty substring the C code divides 0.0 by 0, which [Q] reads as 0. *)
Definition sumQualities (quals : list Z) (start length : Z) : Z :=
  sumZ (map (fun i => znth 0 quals (i + start)) (zrange 0 length)).

Definition bamChunkRead_getSubstring (bamChunkRead : BamChunkRead) (start length : Z)
    : BamChunkReadSubstring :=
  mkReadSubstring bamChunkRead start length None
    match qualities bamChunkRead with
    | Some quals => (inject_Z (sumQualities quals start length) / inject_Z length)%Q
    | None => (-1)%Q
    end.

Definition bamChunkReadSubstring_getRleString (readSubstring : BamChunkReadSubstring) : RleString :=
  match substring readSubstring with
  | Some s => rleString_copy s
  | None => rleString_copySubstring (rleRead (read readSubstring))
              (start readSubstring) (length_ readSubstring)
  end.

(** [poaBaseObservation_cmp]: ascending read number, then descending weight. *)
Definition poaBaseObservation_cmp (obs1 obs2 : PoaBaseObservation) : Z :=
  if negb (readNo obs1 =? readNo obs2) then (if readNo obs1 <? readNo obs2 then -1 else 1)
  else if negb (Qeq_bool (weight obs1) (weight obs2))
       then (if Qgtb (weight obs1) (weight obs2) then -1 else 1)
       else 0.

(** [skipDupes]: the cursor [i] into the observations of a node is kept
    as the observations from [i] on. *)
Fixpoint skipDupes (obs : list PoaBaseObservation) (readNo_ : Z) : list PoaBaseObservation :=
  match obs with
  | o :: rest => if negb (readNo o =? readNo_) then obs else skipDupes rest readNo_
  | [] => []
  end.

(** [readSubstrings_cmpByQual]: descending quality. *)
Definition readSubstrings_cmpByQual (rs1 rs2 : BamChunkReadSubstring) : Z :=
  if Qgtb (qualValue rs2) (qualValue rs1) then 1
  else if Qgtb (qualValue rs1) (qualValue rs2) then -1 else 0.

(** The tail-trimming loop of [filterReadSubstrings]; the list shrinks
    by one in every round, so its length bounds the rounds. *)
Fixpoint dropLowQualityTail (params : PolishParams) (fuel : nat)
    (readSubstrings : list BamChunkReadSubstring) : list BamChunkReadSubstring :=
  match fuel with
  | O => readSubstrings
  | S f =>
      if filterReadsWhileHaveAtLeastThisCoverage params <? Z.of_nat (length readSubstrings) then
        match last readSubstrings with
        | Some rs =>
            if (Qle_bool (minAvgBaseQuality params) (qualValue rs)
                || Qeq_bool (qualValue rs) (-1))%bool
            then readSubstrings
            else dropLowQualityTail params f (removelast readSubstrings)
        | None => readSubstrings
        end
      else readSubstrings
  end.

Definition getRead (bamChunkReads : list BamChunkRead) (readNo_ : Z) : BamChunkRead :=
  znth emptyRead bamChunkReads readNo_.

(** The loops of [getReadSubstrings2] over one node (prefixes or
    suffixes) and over two nodes (the two-pointer walk); every round
    consumes at least one observation. *)
Fixpoint oneNodeWalk (mk : PoaBaseObservation -> BamChunkReadSubstring) (fuel : nat)
    (obs : list PoaBaseObservation) (readSubstrings : list BamChunkReadSubstring)
    : list BamChunkReadSubstring :=
  match fuel, obs with
  | S f, o :: rest => oneNodeWalk mk f (skipDupes rest (readNo o)) (readSubstrings ++ [mk o])
  | _, _ => readSubstrings
  end.

Fixpoint twoNodeWalk (bamChunkReads : list BamChunkRead) (fuel : nat)
    (obsFrom obsTo : list PoaBaseObservation) (readSubstrings : list BamChunkReadSubstring)
    : list BamChunkReadSubstring :=
  match fuel, obsFrom, obsTo with
  | S f, oF :: restF, oT :: restT =>
      if readNo oF =? readNo oT then
        let bamChunkRead := getRead bamChunkReads (readNo oF) in
        let readSubstrings :=
          if 0 <? offset oT - offset oF
          then readSubstrings ++
               [bamChunkRead_getSubstring bamChunkRead (offset oF) (offset oT - offset oF)]
          else readSubstrings in
        twoNodeWalk bamChunkReads f (skipDupes restF (readNo oF)) (skipDupes restT (readNo oT))
                    readSubstrings
      else if readNo oF <? readNo oT then
        twoNodeWalk bamChunkReads f (skipDupes restF (readNo oF)) obsTo readSubstrings
      else
        twoNodeWalk bamChunkReads f obsFrom (skipDupes restT (readNo oT)) readSubstrings
  | _, _, _ => readSubstrings
  end.

(** Modelled from the spec: [stList_sort] belongs to the list library,
    outside the files verified here.  It orders a list by a comparison
    function and, being built on the C library sort, promises nothing
    about elements that compare equal.  This insertion sort is one such
    ordering; the properties below that depend on sorting are stated for
    every sorting function. *)
Fixpoint insert_sorted {A} (cmp : A -> A -> Z) (x : A) (l : list A) : list A :=
  match l with
  | [] => [x]
  | y :: l' => if cmp x y <=? 0 then x :: l else y :: insert_sorted cmp x l'
  end.

Definition insertion_sort {A} (cmp : A -> A -> Z) (l : list A) : list A :=
  fold_right (insert_sorted cmp) [] l.

Section ReadSubstrings.
Variable stList_sort : forall A : Type, (A -> A -> Z) -> list A -> list A.

Definition filterReadSubstrings (readSubstrings : list BamChunkReadSubstring)
    (params : PolishParams) : list BamChunkReadSubstring :=
  let readSubstrings := stList_sort _ readSubstrings_cmpByQual readSubstrings in
  dropLowQualityTail params (length readSubstrings) readSubstrings.

Definition getReadSubstrings2 (bamChunkReads : list BamChunkRead) (poa : Poa) (from to : Z)
    (params : PolishParams) (shouldFilter : bool) : list BamChunkReadSubstring :=
  let finish readSubstrings :=
    if shouldFilter then filterReadSubstrings readSubstrings params else readSubstrings in
  if from =? 0 then
    if node_count poa <=? to then
      finish (map (fun r => bamChunkRead_getSubstring r 0 (rle_length (rleRead r)))
                  bamChunkReads)
    else
      let node := getNode poa to in
      finish (oneNodeWalk
                (fun obs => bamChunkRead_getSubstring (getRead bamChunkReads (readNo obs))
                              0 (offset obs))
                (length (observations node)) (observations node) [])
  else if node_count poa <=? to then
    let node := getNode poa from in
    finish (oneNodeWalk
              (fun obs =>
                 let r := getRead bamChunkReads (readNo obs) in
                 bamChunkRead_getSubstring r (offset obs)
                   (rle_length (rleRead r) - offset obs))
              (length (observations node)) (observations node) [])
  else
    let fromNode := getNode poa from in
    let toNode := getNode poa to in
    finish (twoNodeWalk bamChunkReads
              (length (observations fromNode) + length (observations toNode))
              (observations fromNode) (observations toNode) []).

Definition getReadSubstrings (bamChunkReads : list BamChunkRead) (poa : Poa) (from to : Z)
    (params : PolishParams) : list BamChunkReadSubstring :=
  getReadSubstrings2 bamChunkReads poa from to params true.
End ReadSubstrings.

(** ** Bubbles and bubble graphs *)

Record Bubble {F : Type} := mkBubble {
  refStart : Z;
  bubbleLength : Z;
  refAllele : RleString;
  alleleNo : Z;
  alleles : list RleString;
  readNo_ : Z;
  reads : list BamChunkReadSubstring;
  alleleReadSupports : list F;      (* [allele * readNo + read] *)
  alleleOffset : Z;
  variantPositionOffsets : list Z
}.
Arguments Bubble : clear implicits.
Arguments mkBubble {F}.

Record BubbleGraph {F : Type} := mkBubbleGraph {
  bg_refString : option RleString;
  bubbles : list (Bubble F);
  bubbleNo : Z;
  totalAlleles : Z
}.
Arguments BubbleGraph : clear implicits.
Arguments mkBubbleGraph {F}.

Definition emptyRle : RleString := mkRle [] [].
Definition emptyReadSubstring : BamChunkReadSubstring :=
  mkReadSubstring emptyRead 0 0 None 0.

Definition bubble_getReferenceAlleleIndex {F} (b : Bubble F) : Z :=
  match find (fun i => rleString_eq (refAllele b) (znth emptyRle (alleles b) i))
             (zrange 0 (alleleNo b)) with
  | Some i => i
  | None => -1
  end.

Definition rleString_stringEqualKey (key1 key2 : RleString) : bool :=
  stString_eq (rleString key1) (rleString key2).

Definition rleString_expandedStringEqualKey (r1 r2 : RleString) : bool :=
  if negb (rleString_stringEqualKey r1 r2) then false
  else if negb (rle_length r1 =? rle_length r2) then false
  else forallb (fun i => znth 0 (repeatCounts r1) i =? znth 0 (repeatCounts r2) i)
               (zrange 0 (rle_length r1)).

(** [groupRleStrings]: the hash, in the order in which its keys were
    inserted.  The order in which the C iterator hands out the keys is
    not specified; nothing below depends on it. *)
Fixpoint group_insert (rleStr : RleString) (h : list (RleString * list RleString))
    : list (RleString * list RleString) :=
  match h with
  | [] => [(rleStr, [rleStr])]
  | (key, l) :: h' =>
      if rleString_expandedStringEqualKey key rleStr then (key, l ++ [rleStr]) :: h'
      else (key, l) :: group_insert rleStr h'
  end.

Definition groupRleStrings (rleStrings : list RleString) : list (RleString * list RleString) :=
  fold_left (fun h r => group_insert r h) rleStrings [].

(** [roundf] of the quotient of two non-negative integers. *)
Definition round_div (k n : Z) : Z := (2 * k + n) / (2 * n).

Definition getConsensusRleString (rleStrings : list RleString) : RleString :=
  let r := default emptyRle (last rleStrings) in
  let n := Z.of_nat (length rleStrings) in
  mkRle (rleString r)
        (map (fun j =>
                let k := sumZ (map (fun s => znth 0 (repeatCounts s) j) rleStrings) in
                let k := round_div k n in
                if k =? 0 then 1 else if 255 <? k then 255 else k)
             (zrange 0 (rle_length r))).

Definition getCandidateAllelesFromReadSubstrings (readSubstrings : list BamChunkReadSubstring)
    : list cstring :=
  let rleStrings := map bamChunkReadSubstring_getRleString readSubstrings in
  let h := groupRleStrings rleStrings in
  map (fun '(_, l) => rleString_expand (getConsensusRleString l)) h.

Definition construct_by_mode (useRLE : bool) (s : cstring) : RleString :=
  if useRLE then rleString_construct s else rleString_construct_no_rle s.

Definition appendIfMissing (alleles : list cstring) (expandedExistingRefSubstring : cstring)
    : list cstring :=
  if existsb (stString_eq expandedExistingRefSubstring) alleles then alleles
  else alleles ++ [expandedExistingRefSubstring].

(** Prefix sums of the allele numbers: the second loop at the end of
    every builder. *)
Definition fillAlleleOffsets {F} (bubbles : list (Bubble F)) : list (Bubble F) * Z :=
  fold_left
    (fun '(done, alleleOffset) b =>
       (done ++ [mkBubble (refStart b) (bubbleLength b) (refAllele b) (alleleNo b) (alleles b)
                          (readNo_ b) (reads b) (alleleReadSupports b) alleleOffset
                          (variantPositionOffsets b)],
        alleleOffset + alleleNo b))
    bubbles ([], 0).

Section Builders.
Variable stList_sort : forall A : Type, (A -> A -> Z) -> list A -> list A.

(** The log-probabilities: [F] is the C [float]/[double], [fzero] its
    0.0.  [computeForwardProbability allele read forward] stands for
    the pair-HMM forward probability of the symbol strings of [read]
    and [allele] under the state machine of the strand. *)
Variable F : Type.
Variable fzero : F.
Variable computeForwardProbability : RleString -> RleString -> bool -> F.

Definition cachedScores_search (cachedScores : list (RleString * Z)) (key : RleString)
    : option Z :=
  match find (fun e => rleString_expandedStringEqualKey (fst e) key) cachedScores with
  | Some e => Some (snd e)
  | None => None
  end.

(** The support loop shared by the builders and the rescuers. *)
Definition computeAlleleReadSupports (alleleNo readNo : Z) (alleles : list RleString)
    (reads : list BamChunkReadSubstring) : list F :=
  fst (fold_left
         (fun '(supports, cachedScores) k =>
            let rs := znth emptyReadSubstring reads k in
            let readSubstring := bamChunkReadSubstring_getRleString rs in
            let forward := forwardStrand (read rs) in
            match cachedScores_search cachedScores readSubstring with
            | Some index =>
                (fold_left
                   (fun supports j =>
                      zset supports (j * readNo + k) (znth fzero supports (j * readNo + index)))
                   (zrange 0 alleleNo) supports,
                 cachedScores)
            | None =>
                (fold_left
                   (fun supports j =>
                      zset supports (j * readNo + k)
                           (computeForwardProbability (znth emptyRle alleles j)
                                                      readSubstring forward))
                   (zrange 0 alleleNo) supports,
                 cachedScores ++ [(readSubstring, k)])
            end)
         (zrange 0 readNo)
         (replicate (Z.to_nat (readNo * alleleNo)) fzero, [])).

(** What [bubbleGraph_constructFromPoaAndVCF] does between the
    previous anchor [pAnchor] and the anchor [i].  The outer [option]
    is [None] when the retry loop has not come back within
    [retryRounds] rounds; the inner one is [None] when no bubble is
    made. *)
Definition bubbleBetweenAnchors (poa : Poa) (bamChunkReads : list BamChunkRead)
    (params : PolishParams) (phasing : bool) (candidateWeights : list Q)
    (candidateVariantPositions : list bool) (retryRounds : nat) (pAnchor i : Z)
    : option (option (Bubble F)) :=
  let readSubstrings := getReadSubstrings stList_sort bamChunkReads poa (pAnchor + 1) i params in
  if 0 <? Z.of_nat (length readSubstrings) then
    let useReadAlleles_ :=
      if phasing then useReadAllelesInPhasing params else useReadAlleles params in
    let alleles :=
      if useReadAlleles_ then Some (getCandidateAllelesFromReadSubstrings readSubstrings)
      else retryCandidateConsensusSubstrings poa (pAnchor + 1) i candidateWeights
             (maxConsensusStrings params) retryRounds 1 in
    match alleles with
    | None => None
    | Some alleles =>
        let existingRefSubstring :=
          rleString_copySubstring (refString poa) pAnchor (i - 1 - pAnchor) in
        let expandedExistingRefSubstring := rleString_expand existingRefSubstring in
        let alleles := appendIfMissing alleles expandedExistingRefSubstring in
        if 1 <? Z.of_nat (length alleles) then
          let readNo := Z.of_nat (length readSubstrings) in
          let reads := rev readSubstrings in     (* filled by [stList_pop] *)
          let alleleNo := Z.of_nat (length alleles) in
          let balleles := map (construct_by_mode (useRunLengthEncoding params)) alleles in
          Some (Some
            (mkBubble (pAnchor + 1) (i - 1 - pAnchor) existingRefSubstring
                      alleleNo balleles readNo reads
                      (computeAlleleReadSupports alleleNo readNo balleles reads)
                      0
                      (filter (fun vp => znth false candidateVariantPositions (pAnchor + vp))
                              (zrange 0 (i - 1 - pAnchor)))))
        else Some None
    end
  else Some None.

(** The main loop over the anchors, from the candidate weights on. *)
Definition bubblesFromAnchors (poa : Poa) (bamChunkReads : list BamChunkRead)
    (params : PolishParams) (phasing : bool) (candidateWeights : list Q)
    (anchors candidateVariantPositions : list bool) (retryRounds : nat)
    : option (list (Bubble F)) :=
  match
    fold_left
      (fun st i =>
         match st with
         | None => None
         | Some (pAnchor, bubbles) =>
             if znth false anchors i then
               if negb (i - pAnchor =? 1) then
                 match bubbleBetweenAnchors poa bamChunkReads params phasing candidateWeights
                         candidateVariantPositions retryRounds pAnchor i with
                 | None => None
                 | Some (Some b) => Some (i, bubbles ++ [b])
                 | Some None => Some (i, bubbles)
                 end
               else Some (i, bubbles)
             else Some (pAnchor, bubbles)
         end)
      (zrange 1 (node_count poa))
      (Some (0, []))
  with
  | Some (_, bubbles) => Some bubbles
  | None => None
  end.

Definition getTotalWeight (poa : Poa) (node : PoaNode) : Q :=
  fold_left (fun totalWeight i => (totalWeight + nth i (baseWeights node) 0)%Q)
            (seq 0 (alphabetSize poa)) 0%Q.

Definition getAvgCoverage (poa : Poa) (from to : Z) : Q :=
  (fold_left (fun avgCoverage j => (avgCoverage + getTotalWeight poa (getNode poa j))%Q)
             (zrange from to) 0%Q
   / inject_Z (to - from))%Q.

Definition getCandidateWeights (poa : Poa) (params : PolishParams) : list Q :=
  let n := node_count poa in
  let window := 100 in
  if n <=? window then
    replicate (length (nodes poa))
              (getAvgCoverage poa 0 n * candidateVariantWeight params)%Q
  else
    let candidateWeights :=
      snd (fold_left
             (fun '(totalWeight, cws) i =>
                let totalWeight := (totalWeight + getTotalWeight poa (getNode poa i))%Q in
                if window <=? i then
                  let totalWeight :=
                    (totalWeight - getTotalWeight poa (getNode poa (i - window)))%Q in
                  (totalWeight,
                   zset cws (i - window / 2)
                        (totalWeight / inject_Z window * candidateVariantWeight params)%Q)
                else (totalWeight, cws))
             (zrange 0 n)
             (0%Q, replicate (length (nodes poa)) 0%Q)) in
    fold_left
      (fun cws i =>
         let cws := zset cws i (znth 0%Q cws (window / 2)) in
         zset cws (n - 1 - i) (znth 0%Q cws (n - 1 - window / 2)))
      (zrange 0 (window / 2)) candidateWeights.

Definition sortBaseObservations (poa : Poa) : Poa :=
  mkPoa (alphabet poa) (maxRepeatCount poa) (refString poa)
        (map (fun node =>
                mkPoaNode (inserts node) (deletes node) (base node) (repeatCount node)
                          (baseWeights node) (repeatCountWeights node)
                          (stList_sort _ poaBaseObservation_cmp (observations node)))
             (nodes poa)).

Definition bubbleGraph_constructFromPoaAndVCF (poa : Poa) (bamChunkReads : list BamChunkRead)
    (vcfEntries : option (list VcfEntry)) (params : PolishParams) (phasing : bool)
    (retryRounds : nat) : option (BubbleGraph F) :=
  let candidateWeights := getCandidateWeights poa params in
  let poa := sortBaseObservations poa in
  let '(anchors, candidateVariantPositions) :=
    getFilteredAnchorPositions poa candidateWeights vcfEntries params in
  match bubblesFromAnchors poa bamChunkReads params phasing candidateWeights anchors
          candidateVariantPositions retryRounds with
  | None => None
  | Some bubbles =>
      let '(bubbles, alleleOffset) := fillAlleleOffsets bubbles in
      Some (mkBubbleGraph (Some (refString poa)) bubbles (Z.of_nat (length bubbles))
                          alleleOffset)
  end.

Definition bubbleGraph_constructFromPoa2 (poa : Poa) (bamChunkReads : list BamChunkRead)
    (params : PolishParams) (phasing : bool) (retryRounds : nat) : option (BubbleGraph F) :=
  bubbleGraph_constructFromPoaAndVCF poa bamChunkReads None params phasing retryRounds.

Definition bubbleGraph_constructFromPoa (poa : Poa) (bamChunkReads : list BamChunkRead)
    (params : PolishParams) (retryRounds : nat) : option (BubbleGraph F) :=
  bubbleGraph_constructFromPoa2 poa bamChunkReads params false retryRounds.

(** *** The VCF-driven builders *)

Definition to_uint64 (x : Z) : Z := x mod 2 ^ 64.

Definition emptyCell : AlleleCell := mkAlleleCell emptyRle [].

(** [getAlleleSubstrings2] is outside the files verified here; it
    hands back the allele substrings of an entry and the reference
    interval they span. *)
Variable getAlleleSubstrings2 :
  VcfEntry -> cstring -> Z -> Z -> bool -> list AlleleCell * Z * Z.

Definition bubbleGraph_constructFromPoaAndVCFOnlyVCFAllele (poa : Poa)
    (bamChunkReads : list BamChunkRead) (referenceSeqRLE : RleString)
    (vcfEntries : list VcfEntry) (params : PolishParams) : BubbleGraph F :=
  let referenceSeq := rleString_expand referenceSeqRLE in
  let bubbles :=
    fold_left
      (fun bubbles vcf =>
         let '(alleles, refStartPos, refEndPosIncl) :=
           getAlleleSubstrings2 vcf referenceSeq (Z.of_nat (length referenceSeq))
             (columnAnchorTrim params) (useRunLengthEncoding params) in
         let readSubstrings :=
           getReadSubstrings stList_sort bamChunkReads poa refStartPos refEndPosIncl params in
         if Z.of_nat (length readSubstrings) =? 0 then bubbles
         else
           let existingRefSubstring := rleString_copy (cell_rle (nth 0 alleles emptyCell)) in
           let readNo := to_uint64 (Z.of_nat (length readSubstrings)) in
           let reads := rev readSubstrings in
           let alleleNo := to_uint64 (Z.of_nat (length alleles)) in
           let balleles := map (fun a => rleString_copy (cell_rle a)) alleles in
           bubbles ++
           [mkBubble (to_uint64 refStartPos) (to_uint64 (refEndPosIncl - refStartPos))
                     (rleString_copy existingRefSubstring)
                     alleleNo balleles readNo reads
                     (computeAlleleReadSupports alleleNo readNo balleles reads)
                     0 [refPos vcf]])
      vcfEntries [] in
  let '(bubbles, alleleOffset) := fillAlleleOffsets bubbles in
  mkBubbleGraph (Some (refString poa)) bubbles (to_uint64 (Z.of_nat (length bubbles)))
                alleleOffset.

(** [buildVcfEntryToReadSubstringsMap]: the hash is keyed by the
    identity of the entry. *)
Definition buildVcfEntryToReadSubstringsMap (bamChunkReads : list BamChunkRead)
    (params : PolishParams) : gmap nat (list BamChunkReadSubstring) :=
  fold_left
    (fun m bcr =>
       fold_left
         (fun (m : gmap nat (list BamChunkReadSubstring)) '(vcfEntry, substring_, quals) =>
            let length := Z.of_nat (List.length substring_) in
            let rs :=
              mkReadSubstring bcr (-1) (-1)
                (Some (construct_by_mode (useRunLengthEncoding params) substring_))
                (if negb (nth 0 quals 0 =? 0)
                 then (inject_Z (sumQualities quals 0 length) / inject_Z length)%Q
                 else (-1)%Q) in
            <[vcfEntry := default [] (m !! vcfEntry) ++ [rs]]> m)
         (bamChunkReadVcfEntrySubstrings bcr) m)
    bamChunkReads ∅.

(** Returns the graph and the entries that gave a bubble. *)
Definition bubbleGraph_constructFromVCFAndBamChunkReadVcfEntrySubstrings
    (bamChunkReads : list BamChunkRead) (vcfEntries : list VcfEntry) (params : PolishParams)
    : BubbleGraph F * list VcfEntry :=
  let vcfEntriesToReadSubstrings := buildVcfEntryToReadSubstringsMap bamChunkReads params in
  let '(bubbles, vcfEntriesToBubbleIdx) :=
    fold_left
      (fun '(bubbles, used) vcfEntry =>
         let alleles := alleleSubstrings vcfEntry in
         let readSubstrings :=
           default [] (vcfEntriesToReadSubstrings !! vcf_id vcfEntry) in
         if Z.of_nat (length readSubstrings) =? 0 then (bubbles, used)
         else
           (* char *expandedExistingRefSubstring = stList_get(alleles, 0) *)
           let expandedExistingRefSubstring := cell_chars (nth 0 alleles emptyCell) in
           let readNo := to_uint64 (Z.of_nat (length readSubstrings)) in
           let reads := rev readSubstrings in
           let alleleNo := to_uint64 (Z.of_nat (length alleles)) in
           (* b->alleles[j] = rleString_copy(stList_get(alleles, j)) *)
           let balleles := map (fun a => rleString_copy (cell_rle a)) alleles in
           (bubbles ++
            [mkBubble (to_uint64 (refAlnStart vcfEntry))
                      (to_uint64 (refAlnStopIncl vcfEntry - refAlnStart vcfEntry))
                      (construct_by_mode (useRunLengthEncoding params)
                                         expandedExistingRefSubstring)
                      alleleNo balleles readNo reads
                      (computeAlleleReadSupports alleleNo readNo balleles reads)
                      0 [refPos vcfEntry]],
            used ++ [vcfEntry]))
      vcfEntries ([], []) in
  let '(bubbles, alleleOffset) := fillAlleleOffsets bubbles in
  (mkBubbleGraph None bubbles (to_uint64 (Z.of_nat (length bubbles))) alleleOffset,
   vcfEntriesToBubbleIdx).
End Builders.

(** ** Consensus stitching *)

Definition NUL : ascii := ascii_of_nat 0.

Definition firstChar (r : RleString) : ascii := znth NUL (rleString r) 0.
Definition lastChar (r : RleString) : ascii := znth NUL (rleString r) (rle_length r - 1).

(** [while (k < stop) map[k++] = j++]: returns the map, [j] and [k]. *)
Definition mapRun (poaToConsensusMap : list Z) (j k stop : Z) : list Z * Z * Z :=
  (fold_left (fun m k' => zset m k' (j + (k' - k))) (zrange k stop) poaToConsensusMap,
   j + Z.max 0 (stop - k), Z.max k stop).

Record ConsensusState := mkConsensusState {
  consensusSubstrings : list cstring;
  previousBase : ascii;
  cs_j : Z;                       (* index in the consensus string *)
  cs_k : Z;                       (* index in the reference string *)
  cs_map : list Z
}.

Definition consensusBubbleStep {F} (ref : RleString) (useRLE : bool) (st : ConsensusState)
    (b : Bubble F) (choice : Z) : ConsensusState :=
  (* prefix after the last bubble (or start) but before the new bubble *)
  let st :=
    if cs_k st <? refStart b then
      let refSubString := rleString_copySubstring ref (cs_k st) (refStart b - cs_k st) in
      let k := if (useRLE && ascii_eqb (firstChar refSubString) (previousBase st))%bool
               then cs_k st + 1 else cs_k st in
      let '(m, j, k) := mapRun (cs_map st) (cs_j st) k (refStart b) in
      mkConsensusState (consensusSubstrings st ++ [rleString_expand refSubString])
                       (lastChar refSubString) j k m
    else st in
  (* the bubble string itself *)
  let consensusSubstring := znth emptyRle (alleles b) choice in
  let subs := consensusSubstrings st ++ [rleString_expand consensusSubstring] in
  let squashed := (useRLE && ascii_eqb (firstChar consensusSubstring) (previousBase st))%bool in
  if rleString_eq consensusSubstring (refAllele b) then
    let k := if squashed then cs_k st + 1 else cs_k st in
    let '(m, j, k) := mapRun (cs_map st) (cs_j st) k (refStart b + rle_length (refAllele b)) in
    mkConsensusState subs (lastChar consensusSubstring) j k m
  else
    mkConsensusState subs (lastChar consensusSubstring)
      (cs_j st + (rle_length consensusSubstring + (if squashed then -1 else 0)))
      (cs_k st + rle_length (refAllele b))
      (cs_map st).

(** Returns the new consensus string, the POA-to-consensus map and the
    final [j], which the closing [assert] compares with the length of
    the new string. *)
Definition bubbleGraph_getConsensusString {F} (bg : BubbleGraph F) (consensusPath : list Z)
    (useRLE : bool) : RleString * list Z * Z :=
  let ref := default emptyRle (bg_refString bg) in
  let st0 := mkConsensusState [] "-"%char 0 0 (replicate (length (rleString ref)) (-1)) in
  let st :=
    fold_left
      (fun st i =>
         consensusBubbleStep ref useRLE st (nth (Z.to_nat i) (bubbles bg)
              (mkBubble 0 0 emptyRle 0 [] 0 [] [] 0 []))
           (znth 0 consensusPath i))
      (zrange 0 (bubbleNo bg)) st0 in
  (* the suffix of the reference after the last bubble *)
  let st :=
    if cs_k st <? rle_length ref then
      let refSubString := rleString_copySubstring ref (cs_k st) (rle_length ref - cs_k st) in
      let k := if (useRLE && ascii_eqb (firstChar refSubString) (previousBase st))%bool
               then cs_k st + 1 else cs_k st in
      let '(m, j, k) := mapRun (cs_map st) (cs_j st) k (rle_length ref) in
      mkConsensusState (consensusSubstrings st ++ [rleString_expand refSubString])
                       (previousBase st) j k m
    else st in
  let newExpandedConsensusString := concat (consensusSubstrings st) in
  (construct_by_mode useRLE newExpandedConsensusString, cs_map st, cs_j st).

(** ** A second alignment, with reads

    The reference ACGTA behind the prefix node; node 3 (reference G) has
    a heavy A.  Read 0 is ACGTA with qualities 30, read 1 is ACATA with
    qualities 10. *)
Definition ex_obs (k : Z) : list PoaBaseObservation :=
  [mkObs 0 (k - 1) 1; mkObs 1 (k - 1) 1].

Definition ex_ref_node (k : Z) (b : ascii) (ws : list Z) : PoaNode :=
  mkPoaNode [] [] b 1 (qs ws) (qs [0; 10; 0]) (ex_obs k).

Definition ex_read_poa : Poa :=
  mkPoa (cstr "ACGT") 3 (mkRle (cstr "ACGTA") [1; 1; 1; 1; 1])
        [mkPoaNode [] [] "N"%char 1 (qs [0; 0; 0; 0]) (qs [0; 0; 0]) [];
         ex_ref_node 1 "A"%char [10; 0; 0; 0];
         ex_ref_node 2 "C"%char [0; 10; 0; 0];
         ex_ref_node 3 "G"%char [7; 0; 3; 0];
         ex_ref_node 4 "T"%char [0; 0; 0; 10];
         ex_ref_node 5 "A"%char [10; 0; 0; 0]].

Definition ex_reads : list BamChunkRead :=
  [mkRead 0 "read0" (mkRle (cstr "ACGTA") [1; 1; 1; 1; 1]) (Some [30; 30; 30; 30; 30]) true [];
   mkRead 1 "read1" (mkRle (cstr "ACATA") [1; 1; 1; 1; 1]) (Some [10; 10; 10; 10; 10]) false []].

(** Stand-in for the pair HMM when the example is run: minus the number
    of positions at which read and allele differ. *)
Definition ex_forwardProbability (allele readSub : RleString) (forward : bool) : Z :=
  - Z.of_nat (length (filter (fun '(a, b) => negb (ascii_eqb a b))
                             (combine (rleString_expand allele) (rleString_expand readSub)))).

Definition ex_getAlleleSubstrings2 (v : VcfEntry) (referenceSeq : cstring) (n trim : Z)
    (useRLE : bool) : list AlleleCell * Z * Z :=
  (alleleSubstrings v, refAlnStart v, refAlnStopIncl v).

Definition ex_graph : option (BubbleGraph Z) :=
  bubbleGraph_constructFromPoa (@insertion_sort) Z 0 ex_forwardProbability
    ex_read_poa ex_reads ex_params 3.

(** ** A VCF entry with its read substrings

    One entry at reference position 2 with the allele substrings A and
    C, which are RleStrings.  Read through [char *], such an element
    shows the bytes of the structure itself, which starts with the
    address of its character array (low byte first, up to the first
    zero byte); [ex_struct_bytes] are the bytes of two such addresses.
    Read 0 carries A for the entry, read 1 carries C. *)
Definition ex_struct_bytes (low : nat) : cstring :=
  map ascii_of_nat [low; 18; 160; 112; 85; 85]%nat.

Definition ex_vcf_entry : VcfEntry :=
  mkVcfEntry 0 2 [] 0 1
    [mkAlleleCell (mkRle (cstr "A") [1]) (ex_struct_bytes 192);
     mkAlleleCell (mkRle (cstr "C") [1]) (ex_struct_bytes 224)] 2 2.

Definition ex_vcf_reads : list BamChunkRead :=
  [mkRead 0 "read0" (mkRle (cstr "ACGTA") [1; 1; 1; 1; 1]) (Some [30; 30; 30; 30; 30]) true
          [(0%nat, cstr "A", [30])];
   mkRead 1 "read1" (mkRle (cstr "ACCTA") [1; 1; 1; 1; 1]) (Some [10; 10; 10; 10; 10]) false
          [(0%nat, cstr "C", [10])]].

Definition ex_vcf_graph : BubbleGraph Z * list VcfEntry :=
  bubbleGraph_constructFromVCFAndBamChunkReadVcfEntrySubstrings Z 0 ex_forwardProbability
    ex_vcf_reads [ex_vcf_entry] ex_params.

(** ** Well-formed RLE strings *)

(** An [RleString] as the constructor of the mode makes it: one repeat
    count per character; with run-length encoding, counts of at least 1
    and no character next to itself; without, every count 1. *)
Definition rle_wf (useRLE : bool) (r : RleString) : Prop :=
  length (rleString r) = length (repeatCounts r) /\
  if useRLE
  then Forall (fun n => 1 <= n) (repeatCounts r) /\
       forall i a b, rleString r !! i = Some a -> rleString r !! S i = Some b -> a <> b
  else Forall (fun n => n = 1) (repeatCounts r).

(** ** Graphs whose bubbles lie on the reference *)

(** The bubbles of the list lie on [ref] from position [k] on, in order
    and without overlap: each starts at or after the end of the one
    before, is not empty, and has as reference allele the piece of
    [ref] that starts at its [refStart]. *)
Fixpoint bubbles_on_reference {F} (ref : RleString) (k : Z) (bs : list (Bubble F)) : Prop :=
  match bs with
  | [] => k <= rle_length ref
  | b :: bs' =>
      k <= refStart b /\ 1 <= rle_length (refAllele b) /\
      refAllele b = rleString_copySubstring ref (refStart b) (rle_length (refAllele b)) /\
      bubbles_on_reference ref (refStart b + rle_length (refAllele b)) bs'
  end.

(** The path picks, at every bubble, an allele equal to the reference
    allele. *)
Definition picks_reference {F} (bs : list (Bubble F)) (consensusPath : list Z) : Prop :=
  forall i b, bs !! i = Some b ->
    rleString_eq (znth emptyRle (alleles b) (znth 0 consensusPath (Z.of_nat i))) (refAllele b)
    = true.

(** The bubble with another start coordinate. *)
Definition withRefStart {F} (b : Bubble F) (refStart_ : Z) : Bubble F :=
  mkBubble refStart_ (bubbleLength b) (refAllele b) (alleleNo b) (alleles b) (readNo_ b)
           (reads b) (alleleReadSupports b) (alleleOffset b) (variantPositionOffsets b).

(** The state of the stitcher when the first [K] positions of the
    reference have been copied unchanged. *)
Definition stitched_upto (ref : RleString) (K : Z) (st : ConsensusState) : Prop :=
  0 <= K <= rle_length ref /\ cs_k st = K /\ cs_j st = K /\
  concat (consensusSubstrings st) = rleString_expand (rleString_copySubstring ref 0 K) /\
  previousBase st = (if K =? 0 then "-"%char else znth NUL (rleString ref) (K - 1)).

(** ** Orderings of the reads of a bubble *)

(** Every element stands in relation [R] to its successor. *)
Definition adjacent_ordered {A} (R : A -> A -> Prop) (l : list A) : Prop :=
  forall i x y, l !! i = Some x -> l !! S i = Some y -> R x y.

(** The order the design document gives to the reads of a bubble:
    ascending index of the source read. *)
Definition ascending_read_index (reads : list BamChunkReadSubstring) : Prop :=
  adjacent_ordered (fun x y => (read_id (read x) <= read_id (read y))%nat) reads.

(** The order the builder leaves them in: ascending quality. *)
Definition ascending_quality (reads : list BamChunkReadSubstring) : Prop :=
  adjacent_ordered (fun x y => (qualValue x <= qualValue y)%Q) reads.

(** What the read extraction needs of [stList_sort]: the result is
    ordered by the comparison function. *)
Definition sorts_by_quality
    (stList_sort : forall A : Type, (A -> A -> Z) -> list A -> list A) : Prop :=
  forall l : list BamChunkReadSubstring,
    adjacent_ordered (fun x y => readSubstrings_cmpByQual x y <= 0)
                     (stList_sort _ readSubstrings_cmpByQual l).

(** * Local phasing correctness *)

(** What a run ends with: a value, or the fatal error of [st_errAbort]. *)
Inductive fatal :=
| ErrDecayRange
| ErrOutOfOrder (refPos_ prevPos : Z).

Inductive outcome (A : Type) :=
| Returns (a : A)
| Aborts (e : fatal).
Arguments Returns {A}.
Arguments Aborts {A}.

Definition bind_outcome {A B} (x : outcome A) (f : A -> outcome B) : outcome B :=
  match x with
  | Returns a => f a
  | Aborts e => Aborts e
  end.

(** The result of a division of two C doubles given as rationals: IEEE
    arithmetic gives NaN for 0/0 and an infinity for x/0. *)
Inductive quotient :=
| Finite (q : Q)
| NaN
| Infinite (negative : bool).

Definition ddiv (a b : Q) : quotient :=
  if Qeq_bool b 0 then (if Qeq_bool a 0 then NaN else Infinite (Qgtb 0 a))
  else Finite (a / b).

Record PhasedVariant := mkPhasedVariant {
  pv_refSeqName : string;
  pv_refPos : Z;
  pv_quality : Q;
  pv_alleles : list cstring;       (* refAllele is alleles[0] *)
  pv_gt1 : Z;
  pv_gt2 : Z;
  pv_phaseSet : string
}.

Record PartialPhaseSums := mkPartialPhaseSums {
  queryPhaseSet : string;
  truthPhaseSet : string;
  unphasedSum : Q;
  phaseSum1 : Q;
  phaseSum2 : Q
}.

Definition partialPhaseSums_construct (queryPhaseSet truthPhaseSet : string) : PartialPhaseSums :=
  mkPartialPhaseSums queryPhaseSet truthPhaseSet 0 0 0.

(** [phaseSetIntervals]: first and last index of every phase set; a
    position below its predecessor's is fatal.  The loop runs over the
    variants from index [i] on. *)
Fixpoint phaseSetIntervalsFrom (phasedVariants : list PhasedVariant) (i prevPos : Z)
    (intervals : gmap string (Z * Z)) : outcome (gmap string (Z * Z)) :=
  match phasedVariants with
  | [] => Returns intervals
  | pv :: rest =>
      if pv_refPos pv <? prevPos then Aborts (ErrOutOfOrder (pv_refPos pv) prevPos)
      else
        let intervals :=
          match intervals !! pv_phaseSet pv with
          | None => <[pv_phaseSet pv := (i, i)]> intervals
          | Some (first, _) => <[pv_phaseSet pv := (first, i)]> intervals
          end in
        phaseSetIntervalsFrom rest (i + 1) (pv_refPos pv) intervals
  end.

Definition phaseSetIntervals (phasedVariants : list PhasedVariant)
    : outcome (gmap string (Z * Z)) :=
  phaseSetIntervalsFrom phasedVariants 0 (-1) ∅.

Definition getAllele (pv : PhasedVariant) (gt : Z) : cstring := znth [] (pv_alleles pv) gt.

Record SweepState := mkSweepState {
  sw_i : Z;
  sw_j : Z;
  phaseSetPartialSums : list PartialPhaseSums;
  totalSum : Q;
  partitionSum : Q;
  partitionTotalSum : Q;
  outOfScopeSum : Q;
  numPhased : Z
}.

Definition emptyVariant : PhasedVariant := mkPhasedVariant EmptyString 0 0 [] 0 0 EmptyString.
Definition emptySums : PartialPhaseSums := mkPartialPhaseSums EmptyString EmptyString 0 0 0.

Definition string_eqb (a b : string) : bool := String.eqb a b.

(** The last loop of an iteration of [phasingCorrectnessInternal]: sums
    whose phase sets have been left are folded into the out-of-scope
    accumulator and removed by moving the last sum into their place.
    Every round removes a sum or moves on, so the number of sums bounds
    the rounds. *)
Fixpoint dropOutOfScope (queryPhaseSetIntervals truthPhaseSetIntervals : gmap string (Z * Z))
    (i j : Z) (fuel k : nat) (sums : list PartialPhaseSums) (outOfScopeSum : Q)
    : list PartialPhaseSums * Q :=
  match fuel with
  | O => (sums, outOfScopeSum)
  | S f =>
      match sums !! k with
      | None => (sums, outOfScopeSum)
      | Some s =>
          let queryInterval := default (0, 0) (queryPhaseSetIntervals !! queryPhaseSet s) in
          let truthInterval := default (0, 0) (truthPhaseSetIntervals !! truthPhaseSet s) in
          if ((i <? fst queryInterval) || (snd queryInterval <? i)
              || (j <? fst truthInterval) || (snd truthInterval <? j))%bool
          then
            dropOutOfScope queryPhaseSetIntervals truthPhaseSetIntervals i j f k
              (removelast (<[k := default emptySums (last sums)]> sums))
              (outOfScopeSum + unphasedSum s)%Q
          else
            dropOutOfScope queryPhaseSetIntervals truthPhaseSetIntervals i j f (S k) sums
              outOfScopeSum
      end
  end.

(** One pass over the partial sums for a shared, matchable variant:
    the contribution to the total, and the updated sums. *)
Definition addToPartialSums (qpv tpv : PhasedVariant) (match11 : bool)
    (sums : list PartialPhaseSums) (totalSum : Q) : list PartialPhaseSums * Q * bool :=
  fold_left
    (fun '(done, totalSum, foundCophasedSum) s =>
       if (string_eqb (pv_phaseSet qpv) (queryPhaseSet s)
           && string_eqb (pv_phaseSet tpv) (truthPhaseSet s))%bool
       then
         if match11 then
           (done ++ [mkPartialPhaseSums (queryPhaseSet s) (truthPhaseSet s)
                       (unphasedSum s + 1) (phaseSum1 s + 1) (phaseSum2 s)],
            (totalSum + phaseSum1 s)%Q, true)
         else
           (done ++ [mkPartialPhaseSums (queryPhaseSet s) (truthPhaseSet s)
                       (unphasedSum s + 1) (phaseSum1 s) (phaseSum2 s + 1)],
            (totalSum + phaseSum2 s)%Q, true)
       else
         (done ++ [mkPartialPhaseSums (queryPhaseSet s) (truthPhaseSet s)
                     (unphasedSum s + 1) (phaseSum1 s) (phaseSum2 s)],
          (totalSum + unphasedSum s)%Q, foundCophasedSum))
    sums ([], totalSum, false).

Definition decaySums (decay : Q) (s : PartialPhaseSums) : PartialPhaseSums :=
  mkPartialPhaseSums (queryPhaseSet s) (truthPhaseSet s)
    (unphasedSum s * decay) (phaseSum1 s * decay) (phaseSum2 s * decay).

Definition withSums (st : SweepState) (i j : Z) : SweepState :=
  mkSweepState i j (phaseSetPartialSums st) (totalSum st) (partitionSum st)
               (partitionTotalSum st) (outOfScopeSum st) (numPhased st).

Definition checkOutOfScope (queryPhaseSetIntervals truthPhaseSetIntervals : gmap string (Z * Z))
    (st : SweepState) : SweepState :=
  let '(sums, outOfScope) :=
    dropOutOfScope queryPhaseSetIntervals truthPhaseSetIntervals (sw_i st) (sw_j st)
      (length (phaseSetPartialSums st)) 0 (phaseSetPartialSums st) (outOfScopeSum st) in
  mkSweepState (sw_i st) (sw_j st) sums (totalSum st) (partitionSum st)
               (partitionTotalSum st) outOfScope (numPhased st).

(** One iteration of the [while] loop of [phasingCorrectnessInternal].
    The two [continue] statements jump over the out-of-scope check. *)
Definition sweepStep (queryPhasedVariants truthPhasedVariants : list PhasedVariant) (decay : Q)
    (queryPhaseSetIntervals truthPhaseSetIntervals : gmap string (Z * Z)) (forward : bool)
    (st : SweepState) : SweepState :=
  let incr := if forward then 1 else -1 in
  let qpv := znth emptyVariant queryPhasedVariants (sw_i st) in
  let tpv := znth emptyVariant truthPhasedVariants (sw_j st) in
  if ((pv_refPos qpv <? pv_refPos tpv) && forward
      || (pv_refPos tpv <? pv_refPos qpv) && negb forward)%bool then
    (* variant only in query *)
    checkOutOfScope queryPhaseSetIntervals truthPhaseSetIntervals
      (withSums st (sw_i st + incr) (sw_j st))
  else if ((pv_refPos tpv <? pv_refPos qpv) && forward
           || (pv_refPos qpv <? pv_refPos tpv) && negb forward)%bool then
    (* variant only in truth *)
    checkOutOfScope queryPhaseSetIntervals truthPhaseSetIntervals
      (withSums st (sw_i st) (sw_j st + incr))
  else
    let match11 := stString_eq (getAllele qpv (pv_gt1 qpv)) (getAllele tpv (pv_gt1 tpv)) in
    let match12 := stString_eq (getAllele qpv (pv_gt1 qpv)) (getAllele tpv (pv_gt2 tpv)) in
    let match21 := stString_eq (getAllele qpv (pv_gt2 qpv)) (getAllele tpv (pv_gt1 tpv)) in
    let match22 := stString_eq (getAllele qpv (pv_gt2 qpv)) (getAllele tpv (pv_gt2 tpv)) in
    let i := sw_i st + incr in
    let j := sw_j st + incr in
    if (negb (match11 || match12) || negb (match21 || match22))%bool then withSums st i j
    else if 2 <? Z.b2z match11 + Z.b2z match12 + Z.b2z match21 + Z.b2z match22
    then withSums st i j
    else
      let '(sums, total, foundCophasedSum) :=
        addToPartialSums qpv tpv match11 (phaseSetPartialSums st) (totalSum st) in
      let total := (total + outOfScopeSum st)%Q in
      let partitionTotal := (partitionTotalSum st + partitionSum st)%Q in
      let partition := (partitionSum st + 1)%Q in
      let sums :=
        if foundCophasedSum then sums
        else sums ++ [mkPartialPhaseSums (pv_phaseSet qpv) (pv_phaseSet tpv) 1
                        (if match11 then 1 else 0) (if match11 then 0 else 1)] in
      checkOutOfScope queryPhaseSetIntervals truthPhaseSetIntervals
        (mkSweepState i j (map (decaySums decay) sums) total (partition * decay)
                      partitionTotal (outOfScopeSum st * decay) (numPhased st + 1)).

Definition sweepRunning (queryPhasedVariants truthPhasedVariants : list PhasedVariant)
    (st : SweepState) : bool :=
  ((0 <=? sw_i st) && (sw_i st <? Z.of_nat (length queryPhasedVariants))
   && (0 <=? sw_j st) && (sw_j st <? Z.of_nat (length truthPhasedVariants)))%bool.

(** The [while] loop: every iteration moves [i] or [j] by one step
    towards the end of its list, so the two lengths bound the rounds. *)
Fixpoint sweepLoop (queryPhasedVariants truthPhasedVariants : list PhasedVariant) (decay : Q)
    (queryPhaseSetIntervals truthPhaseSetIntervals : gmap string (Z * Z)) (forward : bool)
    (fuel : nat) (st : SweepState) : SweepState :=
  match fuel with
  | O => st
  | S f =>
      if sweepRunning queryPhasedVariants truthPhasedVariants st then
        sweepLoop queryPhasedVariants truthPhasedVariants decay queryPhaseSetIntervals
          truthPhaseSetIntervals forward f
          (sweepStep queryPhasedVariants truthPhasedVariants decay queryPhaseSetIntervals
             truthPhaseSetIntervals forward st)
      else st
  end.

(** Returns [totalSum], [partitionTotalSum] and the count written to
    [lengthOut]. *)
Definition phasingCorrectnessInternal (queryPhasedVariants truthPhasedVariants : list PhasedVariant)
    (decay : Q) (queryPhaseSetIntervals truthPhaseSetIntervals : gmap string (Z * Z))
    (forward : bool) : Q * Q * Z :=
  let nq := Z.of_nat (length queryPhasedVariants) in
  let nt := Z.of_nat (length truthPhasedVariants) in
  let st0 :=
    if forward then mkSweepState 0 0 [] 0 0 0 0 0
    else mkSweepState (nq - 1) (nt - 1) [] 0 0 0 0 0 in
  let st :=
    sweepLoop queryPhasedVariants truthPhasedVariants decay queryPhaseSetIntervals
      truthPhaseSetIntervals forward
      (length queryPhasedVariants + length truthPhasedVariants) st0 in
  (totalSum st, partitionTotalSum st, numPhased st).

Record SwitchState := mkSwitchState {
  sc_i : nat;
  sc_j : nat;
  prevPhaseSets : option (string * string);   (* NULL until the first variant *)
  prevInPhase : bool;
  numPhasedVariants : Z;
  numCorrectlyPhasedPairs : Z
}.

Definition switchStep (queryPhasedVariants truthPhasedVariants : list PhasedVariant)
    (st : SwitchState) : SwitchState :=
  let qpv := nth (sc_i st) queryPhasedVariants emptyVariant in
  let tpv := nth (sc_j st) truthPhasedVariants emptyVariant in
  if pv_refPos qpv <? pv_refPos tpv then
    mkSwitchState (S (sc_i st)) (sc_j st) (prevPhaseSets st) (prevInPhase st)
                  (numPhasedVariants st) (numCorrectlyPhasedPairs st)
  else if pv_refPos tpv <? pv_refPos qpv then
    mkSwitchState (sc_i st) (S (sc_j st)) (prevPhaseSets st) (prevInPhase st)
                  (numPhasedVariants st) (numCorrectlyPhasedPairs st)
  else
    let match11 := stString_eq (getAllele qpv (pv_gt1 qpv)) (getAllele tpv (pv_gt1 tpv)) in
    let match12 := stString_eq (getAllele qpv (pv_gt1 qpv)) (getAllele tpv (pv_gt2 tpv)) in
    let match21 := stString_eq (getAllele qpv (pv_gt2 qpv)) (getAllele tpv (pv_gt1 tpv)) in
    let match22 := stString_eq (getAllele qpv (pv_gt2 qpv)) (getAllele tpv (pv_gt2 tpv)) in
    let skipped :=
      mkSwitchState (S (sc_i st)) (S (sc_j st)) (prevPhaseSets st) (prevInPhase st)
                    (numPhasedVariants st) (numCorrectlyPhasedPairs st) in
    if (negb (match11 || match12) || negb (match21 || match22))%bool then skipped
    else if 2 <? Z.b2z match11 + Z.b2z match12 + Z.b2z match21 + Z.b2z match22 then skipped
    else
      let correct :=
        match prevPhaseSets st with
        | Some (prevQueryPhaseSet, prevTruthPhaseSet) =>
            if (string_eqb (pv_phaseSet qpv) prevQueryPhaseSet
                && string_eqb (pv_phaseSet tpv) prevTruthPhaseSet)%bool
            then (if Bool.eqb match11 (prevInPhase st) then 1 else 0)
            else 1
        | None => 0
        end in
      mkSwitchState (S (sc_i st)) (S (sc_j st))
                    (Some (pv_phaseSet qpv, pv_phaseSet tpv)) match11
                    (numPhasedVariants st + 1) (numCorrectlyPhasedPairs st + correct).

Fixpoint switchLoop (queryPhasedVariants truthPhasedVariants : list PhasedVariant)
    (fuel : nat) (st : SwitchState) : SwitchState :=
  match fuel with
  | O => st
  | S f =>
      if ((sc_i st <? length queryPhasedVariants)
          && (sc_j st <? length truthPhasedVariants))%nat%bool
      then switchLoop queryPhasedVariants truthPhasedVariants f
             (switchStep queryPhasedVariants truthPhasedVariants st)
      else st
  end.

(** Returns the quotient and the count written to [lengthOut]. *)
Definition switchCorrectness (queryPhasedVariants truthPhasedVariants : list PhasedVariant)
    : quotient * Z :=
  let st :=
    switchLoop queryPhasedVariants truthPhasedVariants
      (length queryPhasedVariants + length truthPhasedVariants)
      (mkSwitchState 0 0 None false 0 0) in
  (ddiv (inject_Z (numCorrectlyPhasedPairs st)) (inject_Z (numPhasedVariants st - 1)),
   numPhasedVariants st).

Definition phasingCorrectness (queryPhasedVariants truthPhasedVariants : list PhasedVariant)
    (decay : Q) : outcome (quotient * Z) :=
  if (Qgtb 0 decay || Qgtb decay 1)%bool then Aborts ErrDecayRange
  else if Qeq_bool decay 0 then
    Returns (switchCorrectness queryPhasedVariants truthPhasedVariants)
  else
    bind_outcome (phaseSetIntervals queryPhasedVariants) (fun queryPhaseSetIntervals =>
    bind_outcome (phaseSetIntervals truthPhasedVariants) (fun truthPhaseSetIntervals =>
      let '(f0, f1, _) :=
        phasingCorrectnessInternal queryPhasedVariants truthPhasedVariants decay
          queryPhaseSetIntervals truthPhaseSetIntervals true in
      let '(r0, r1, n) :=
        phasingCorrectnessInternal queryPhasedVariants truthPhasedVariants decay
          queryPhaseSetIntervals truthPhaseSetIntervals false in
      Returns (ddiv (f0 + r0) (f1 + r1), n))).

(** ** Variant lists used to run the definitions *)

Definition ex_variant (pos : Z) (ps : string) : PhasedVariant :=
  mkPhasedVariant "chr1" pos 30 [cstr "A"; cstr "G"] 0 1 ps.

Definition ex_single : list PhasedVariant := [ex_variant 10 "A"].

Definition ex_two_sets : list PhasedVariant :=
  [ex_variant 10 "A"; ex_variant 20 "A"; ex_variant 30 "B"; ex_variant 40 "B"].

Definition ex_interleaved : list PhasedVariant :=
  [ex_variant 10 "A"; ex_variant 20 "B"; ex_variant 30 "A"; ex_variant 40 "C"].

Definition ex_out_of_order : list PhasedVariant :=
  [ex_variant 10 "A"; ex_variant 30 "A"; ex_variant 20 "A"].

(** The second variant has the same allele twice. *)
Definition ex_with_homozygous : list PhasedVariant :=
  [ex_variant 10 "A"; mkPhasedVariant "chr1" 20 30 [cstr "A"; cstr "G"] 1 1 "A";
   ex_variant 30 "B"; ex_variant 40 "B"].

(** ** Properties of variant lists *)

(** Some variant lies before its predecessor. *)
Definition out_of_order (l : list PhasedVariant) : Prop :=
  exists i x y, l !! i = Some x /\ l !! S i = Some y /\ pv_refPos y < pv_refPos x.

Definition in_position_order (l : list PhasedVariant) : Prop :=
  adjacent_ordered (fun x y => pv_refPos x <= pv_refPos y) l /\
  Forall (fun pv => 0 <= pv_refPos pv) l.

(** The two genotype alleles are different strings, so that the variant
    matches itself in exactly one way. *)
Definition heterozygous (pv : PhasedVariant) : Prop :=
  getAllele pv (pv_gt1 pv) <> getAllele pv (pv_gt2 pv).

(** Every phase set covers a run of consecutive variants. *)
Definition contiguous_phase_sets (l : list PhasedVariant) : Prop :=
  forall a b c x y z, (a <= b <= c)%nat ->
    l !! a = Some x -> l !! b = Some y -> l !! c = Some z ->
    pv_phaseSet x = pv_phaseSet z -> pv_phaseSet y = pv_phaseSet x.

Definition phaseSetAt (l : list PhasedVariant) (k : Z) : string :=
  pv_phaseSet (znth emptyVariant l k).

(** What the interval table says after the first [m] variants: every
    entry is the first and last index of its phase set, and every phase
    set met so far has an entry. *)
Definition intervals_cover (l : list PhasedVariant) (m : Z) (M : gmap string (Z * Z)) : Prop :=
  (forall P a b, M !! P = Some (a, b) ->
     0 <= a <= b /\ b < m /\ phaseSetAt l a = P /\ phaseSetAt l b = P /\
     forall k, 0 <= k < m -> phaseSetAt l k = P -> a <= k <= b) /\
  (forall k, 0 <= k < m -> is_Some (M !! phaseSetAt l k)).

(** The state of a sweep over a list compared with itself, on arrival at
    index [k]: at most one partial sum is alive, it belongs to the phase
    set of [k], and the running total equals the partition total. *)
Definition self_sums_ok (I : gmap string (Z * Z)) (k : Z) (st : SweepState) : Prop :=
  match phaseSetPartialSums st with
  | [] => (partitionSum st == outOfScopeSum st)%Q
  | [s] =>
      queryPhaseSet s = truthPhaseSet s /\
      (exists a b, I !! queryPhaseSet s = Some (a, b) /\ a <= k <= b) /\
      (unphasedSum s == phaseSum1 s)%Q /\
      (partitionSum st == phaseSum1 s + outOfScopeSum st)%Q /\
      (0 <= phaseSum1 s)%Q
  | _ => False
  end.

Definition steps_done (n : Z) (forward : bool) (k : Z) : Z :=
  if forward then k else n - 1 - k.

Definition self_sweep_inv (n : Z) (I : gmap string (Z * Z)) (forward : bool) (k : Z)
    (st : SweepState) : Prop :=
  sw_i st = k /\ sw_j st = k /\ self_sums_ok I k st /\
  (totalSum st == partitionTotalSum st)%Q /\
  (0 <= outOfScopeSum st)%Q /\ (0 <= partitionSum st)%Q /\ (0 <= partitionTotalSum st)%Q /\
  numPhased st = steps_done n forward k /\
  (1 <= numPhased st -> (0 < partitionSum st)%Q) /\
  (2 <= numPhased st -> (0 < partitionTotalSum st)%Q).

Definition emptyBubble {F} : Bubble F := mkBubble 0 0 emptyRle 0 [] 0 [] [] 0 [].

(** ** Profile sequences *)

(** Modelled from the spec: [stSite], [stReference] and [stProfileSeq]
    are declared outside the files verified here.  A reference has one
    site per bubble, with the number of alleles of the bubble and the
    global index of its first allele.  A profile sequence belongs to one
    read: the first bubble it covers, the number of bubbles, the global
    index of the first allele of its first bubble, and one byte per
    allele of every bubble covered.  [pseq_id] is the identity of the
    sequence (its address); [bubbleGraph_getProfileSeqs] allocates one
    sequence per read, and the identity of the read stands for it. *)
Record stSite := mkSite {
  alleleNumber : Z;
  site_alleleOffset : Z
}.

Record stReference := mkReference {
  ref_length : Z;
  sites : list stSite
}.

Record stProfileSeq := mkProfileSeq {
  pseq_id : nat;
  pseq_readId : string;
  pseq_refStart : Z;
  pseq_length : Z;
  pseq_alleleOffset : Z;
  profileProbs : list Z
}.

#[global] Instance stProfileSeq_eq_dec : EqDecision stProfileSeq.
Proof. solve_decision. Defined.

#[global] Instance stProfileSeq_countable : Countable stProfileSeq.
Proof.
  refine (inj_countable'
    (fun p => (pseq_id p, pseq_readId p, pseq_refStart p, pseq_length p,
               pseq_alleleOffset p, profileProbs p))
    (fun '(a, b, c, d, e, f) => mkProfileSeq a b c d e f) _).
  by intros [].
Defined.

Definition emptySite : stSite := mkSite 0 0.

(** Modelled from the spec: [stProfileSeq_constructEmptyProfile] is
    outside the files verified here; the sequence it returns starts at
    bubble [referenceStart], covers [length] bubbles, takes its allele
    offset from the site of its first bubble and has a zeroed byte for
    each allele of the sites covered. *)
Definition stProfileSeq_constructEmptyProfile (ref : stReference) (id : nat) (readId : string)
    (referenceStart length : Z) : stProfileSeq :=
  let first := znth emptySite (sites ref) referenceStart in
  let last := znth emptySite (sites ref) (referenceStart + length - 1) in
  let lastAllele := site_alleleOffset last + alleleNumber last in
  mkProfileSeq id readId referenceStart length (site_alleleOffset first)
               (replicate (Z.to_nat (lastAllele - site_alleleOffset first)) 0).

Definition to_uint8 (x : Z) : Z := x mod 2 ^ 8.

Definition bubbleGraph_getReferenceSites {F} (bg : BubbleGraph F) : stReference :=
  mkReference (bubbleNo bg)
    (map (fun i => let b := znth emptyBubble (bubbles bg) i in
                   mkSite (alleleNo b) (alleleOffset b))
         (zrange 0 (bubbleNo bg))).

Section ProfileSeqs.
(** The numbers: [F] is the C [double], with the constant and the
    functions of the numeric library and the arithmetic that the
    profile builder uses.  [roundf x] is [roundf] followed by the
    conversion to [int64_t]. *)
Variable F : Type.
Variable LOG_ZERO : F.
Variable stMath_logAddExact : F -> F -> F.
Variable PROFILE_PROB_SCALAR : F.
Variable fsub fmul : F -> F -> F.
Variable roundf : F -> Z.

(** The last bubble each read is attached to. *)
Definition getReadEnds (bg : BubbleGraph F) : gmap nat Z :=
  fold_left
    (fun readEnds i =>
       let b := znth emptyBubble (bubbles bg) i in
       fold_left
         (fun (readEnds : gmap nat Z) j =>
            let s := znth emptyReadSubstring (reads b) j in
            <[read_id (read s) := i]> readEnds)
         (zrange 0 (readNo_ b)) readEnds)
    (zrange 0 (bubbleNo bg)) ∅.

Definition alleleReadSupport (b : Bubble F) (k j : Z) : F :=
  znth LOG_ZERO (alleleReadSupports b) (readNo_ b * k + j).

(** The normalizing constant of read [j] at bubble [b]. *)
Definition totalLogProb (b : Bubble F) (j : Z) : F :=
  fold_left (fun totalLogProb k => stMath_logAddExact totalLogProb (alleleReadSupport b k j))
            (zrange 0 (alleleNo b)) LOG_ZERO.

(** The value stored for allele [k]: [l > 255 ? 255 : l]. *)
Definition profileProb (b : Bubble F) (j k : Z) : Z :=
  let logProb := alleleReadSupport b k j in
  let l := roundf (fmul PROFILE_PROB_SCALAR (fsub (totalLogProb b j) logProb)) in
  if 255 <? l then 255 else l.

Definition setProfileProbs (pSeq : stProfileSeq) (probs : list Z) : stProfileSeq :=
  mkProfileSeq (pseq_id pSeq) (pseq_readId pSeq) (pseq_refStart pSeq) (pseq_length pSeq)
               (pseq_alleleOffset pSeq) probs.

(** The loop that writes the bytes of read [j] for the alleles of [b]. *)
Definition writeProfileProbs (b : Bubble F) (j : Z) (pSeq : stProfileSeq) : stProfileSeq :=
  let alleleOffset_ := to_uint64 (alleleOffset b - pseq_alleleOffset pSeq) in
  setProfileProbs pSeq
    (fold_left
       (fun probs k => zset probs (alleleOffset_ + k) (to_uint8 (profileProb b j k)))
       (zrange 0 (alleleNo b)) (profileProbs pSeq)).

(** The body of the second pair of loops, for read [j] of bubble [i]. *)
Definition addReadToProfileSeqs (bg : BubbleGraph F) (ref : stReference)
    (readEnds : gmap nat Z) (i : Z) (readsToPSeqs : gmap nat stProfileSeq) (j : Z)
    : gmap nat stProfileSeq :=
  let b := znth emptyBubble (bubbles bg) i in
  let s := znth emptyReadSubstring (reads b) j in
  let pSeq :=
    match readsToPSeqs !! read_id (read s) with
    | Some pSeq => pSeq
    | None =>
        (* we are starting a new read, so make a new profile sequence *)
        let k := default 0 (readEnds !! read_id (read s)) in
        let pSeqLength := to_uint64 (k - i + 1) in
        stProfileSeq_constructEmptyProfile ref (read_id (read s)) (readName (read s))
                                           i pSeqLength
    end in
  <[read_id (read s) := writeProfileProbs b j pSeq]> readsToPSeqs.

(** The hash from reads to profile sequences, keyed by the identity of
    the read. *)
Definition bubbleGraph_getProfileSeqs (bg : BubbleGraph F) (ref : stReference)
    : gmap nat stProfileSeq :=
  let readEnds := getReadEnds bg in
  fold_left
    (fun readsToPSeqs i =>
       fold_left (addReadToProfileSeqs bg ref readEnds i)
                 (zrange 0 (readNo_ (znth emptyBubble (bubbles bg) i))) readsToPSeqs)
    (zrange 0 (bubbleNo bg)) ∅.
End ProfileSeqs.

(** ** Rescue of the filtered reads *)

(** Modelled from the spec: [stGenomeFragment] is declared outside the
    files verified here: the first bubble and the number of bubbles it
    spans, the allele index chosen for each of the two haplotypes at
    every bubble, and the two sets of profile sequences. *)
Record stGenomeFragment := mkGenomeFragment {
  gf_refStart : Z;
  gf_length : Z;
  haplotypeString1 : list Z;
  haplotypeString2 : list Z;
  reads1 : gset stProfileSeq;
  reads2 : gset stProfileSeq
}.

Section PartitionFilteredReads.
Variable stList_sort : forall A : Type, (A -> A -> Z) -> list A -> list A.
Variable computeForwardProbability : RleString -> RleString -> bool -> Q.

(** [stMath_logAddExact x y] is the logarithm of the sum of the
    exponentials of [x] and [y]; it belongs to a library outside the
    files verified here. *)
Variable stMath_logAddExact : Q -> Q -> Q.

(** [stHash_insert(totalReadScore, read, st_calloc(1, sizeof(double)))]
    for every read. *)
Definition initialReadScores (bamChunkReads : list BamChunkRead) : gmap nat Q :=
  fold_left (fun totalReadScore bcr => <[read_id bcr := 0%Q]> totalReadScore)
            bamChunkReads ∅.

(** [*currRS += x] with [currRS = stHash_search(totalReadScore, bcr)];
    the search finds every read of [bamChunkReads]. *)
Definition addToReadScore (totalReadScore : gmap nat Q) (bcr : BamChunkRead) (x : Q)
    : gmap nat Q :=
  match totalReadScore !! read_id bcr with
  | Some currRS => <[read_id bcr := (currRS + x)%Q]> totalReadScore
  | None => totalReadScore
  end.

(** The bubble made for the two haplotype alleles of a primary bubble,
    with the reads taken from the alignment without filtering.  Its
    length and allele offset are not set by the code. *)
Definition filteredReadsBubble (poa : Poa) (bamChunkReads : list BamChunkRead)
    (params : PolishParams) (primaryBubble : Bubble Q) (hap1AlleleNo hap2AlleleNo : Z)
    : Bubble Q :=
  let hap1 := znth emptyRle (alleles primaryBubble) hap1AlleleNo in
  let hap2 := znth emptyRle (alleles primaryBubble) hap2AlleleNo in
  let refStart_ := refStart primaryBubble in
  let alleles_ := [rleString_expand hap1; rleString_expand hap2] in
  let readSubstrings :=
    getReadSubstrings2 stList_sort bamChunkReads poa refStart_
      (refStart_ + bubbleLength primaryBubble + 1) params false in
  (* ref string is 0-based, non-N poa nodes are 1-based *)
  let existingRefSubstring :=
    rleString_copySubstring (refString poa) (refStart_ - 1) (bubbleLength primaryBubble) in
  let alleles_ := appendIfMissing alleles_ (rleString_expand existingRefSubstring) in
  let readNo := to_uint64 (Z.of_nat (length readSubstrings)) in
  let reads_ := rev readSubstrings in
  let alleleNo_ := to_uint64 (Z.of_nat (length alleles_)) in
  let balleles := map (construct_by_mode (useRunLengthEncoding params)) alleles_ in
  mkBubble refStart_ 0 existingRefSubstring alleleNo_ balleles readNo reads_
           (computeAlleleReadSupports Q 0%Q computeForwardProbability
              alleleNo_ readNo balleles reads_)
           0 [].

Definition supportHap1 (b : Bubble Q) (k : Z) : Q :=
  znth 0%Q (alleleReadSupports b) (0 * readNo_ b + k).

Definition supportHap2 (b : Bubble Q) (k : Z) : Q :=
  znth 0%Q (alleleReadSupports b) (1 * readNo_ b + k).

(** "rank reads for each bubble": the loop over the reads of the bubble
    that adds to the two scores of each read. *)
Definition rankRead (b : Bubble Q) (scores : gmap nat Q * gmap nat Q) (k : Z)
    : gmap nat Q * gmap nat Q :=
  let '(totalReadScore_hap1, totalReadScore_hap2) := scores in
  let bcrss := znth emptyReadSubstring (reads b) k in
  let bcr := read bcrss in
  (addToReadScore totalReadScore_hap1 bcr
     (supportHap1 b k - stMath_logAddExact (supportHap1 b k) (supportHap2 b k))%Q,
   addToReadScore totalReadScore_hap2 bcr
     (supportHap2 b k - stMath_logAddExact (supportHap2 b k) (supportHap1 b k))%Q).

Definition rankReads (b : Bubble Q) (scores : gmap nat Q * gmap nat Q)
    : gmap nat Q * gmap nat Q :=
  fold_left (rankRead b) (zrange 0 (readNo_ b)) scores.

(** The body of the loop over the primary bubbles.  The test
    [hap1 == hap2] compares the addresses of two elements of the allele
    array of the primary bubble, which are the same exactly when the
    indices are. *)
Definition scorePrimaryBubble (poa : Poa) (bamChunkReads : list BamChunkRead)
    (gF : stGenomeFragment) (bg : BubbleGraph Q) (params : PolishParams)
    (scores : gmap nat Q * gmap nat Q) (primaryBubbleIdx : Z) : gmap nat Q * gmap nat Q :=
  let primaryBubble := znth emptyBubble (bubbles bg) (gf_refStart gF + primaryBubbleIdx) in
  let hap1AlleleNo := znth 0 (haplotypeString1 gF) primaryBubbleIdx in
  let hap2AlleleNo := znth 0 (haplotypeString2 gF) primaryBubbleIdx in
  (* we only care about hets *)
  if hap1AlleleNo =? hap2AlleleNo then scores
  else rankReads (filteredReadsBubble poa bamChunkReads params primaryBubble
                    hap1AlleleNo hap2AlleleNo) scores.

Definition filteredReadScores (poa : Poa) (bamChunkReads : list BamChunkRead)
    (gF : stGenomeFragment) (bg : BubbleGraph Q) (params : PolishParams)
    : gmap nat Q * gmap nat Q :=
  fold_left (scorePrimaryBubble poa bamChunkReads gF bg params)
    (zrange 0 (gf_length gF))
    (initialReadScores bamChunkReads, initialReadScores bamChunkReads).

(** "get scores and save to appropriate sets". *)
Definition saveRead (scores : gmap nat Q * gmap nat Q) (sets : gset nat * gset nat)
    (bcr : BamChunkRead) : gset nat * gset nat :=
  let '(hap1Reads, hap2Reads) := sets in
  let totalSupportH1 := default 0%Q (fst scores !! read_id bcr) in
  let totalSupportH2 := default 0%Q (snd scores !! read_id bcr) in
  if Qgtb totalSupportH1 totalSupportH2 then ({[read_id bcr]} ∪ hap1Reads, hap2Reads)
  else if Qgtb totalSupportH2 totalSupportH1 then (hap1Reads, {[read_id bcr]} ∪ hap2Reads)
  else (hap1Reads, hap2Reads).

Definition saveToSets (bamChunkReads : list BamChunkRead) (scores : gmap nat Q * gmap nat Q)
    (hap1Reads hap2Reads : gset nat) : gset nat * gset nat :=
  fold_left (saveRead scores) bamChunkReads (hap1Reads, hap2Reads).

(** The two sets after the call. *)
Definition bubbleGraph_partitionFilteredReads (poa : Poa) (bamChunkReads : list BamChunkRead)
    (gF : stGenomeFragment) (bg : BubbleGraph Q) (hap1Reads hap2Reads : gset nat)
    (params : PolishParams) : gset nat * gset nat :=
  saveToSets bamChunkReads (filteredReadScores poa bamChunkReads gF bg params)
             hap1Reads hap2Reads.

(** *** The accumulators as the design document describes them

    For one read: over the heterozygous primary bubbles, and over the
    places [k] at which the read is attached to the bubble made for the
    two haplotype alleles, the sum of [s1 - logsumexp(s1, s2)], and of
    [s2 - logsumexp(s2, s1)], where [s1] and [s2] are the supports of
    the read for the two alleles. *)
Definition logOdds1 (b : Bubble Q) (k : Z) : Q :=
  (supportHap1 b k - stMath_logAddExact (supportHap1 b k) (supportHap2 b k))%Q.

Definition logOdds2 (b : Bubble Q) (k : Z) : Q :=
  (supportHap2 b k - stMath_logAddExact (supportHap2 b k) (supportHap1 b k))%Q.

Definition Qsum (l : list Q) : Q := fold_right Qplus 0%Q l.

Definition attachedAt (b : Bubble Q) (r : nat) : list Z :=
  filter (fun k => bool_decide (read_id (read (znth emptyReadSubstring (reads b) k)) = r))
         (zrange 0 (readNo_ b)).

Definition heterozygousBubbles (poa : Poa) (bamChunkReads : list BamChunkRead)
    (gF : stGenomeFragment) (bg : BubbleGraph Q) (params : PolishParams) : list (Bubble Q) :=
  map (fun i =>
         filteredReadsBubble poa bamChunkReads params
           (znth emptyBubble (bubbles bg) (gf_refStart gF + i))
           (znth 0 (haplotypeString1 gF) i) (znth 0 (haplotypeString2 gF) i))
      (filter (fun i => negb (znth 0 (haplotypeString1 gF) i =? znth 0 (haplotypeString2 gF) i))
              (zrange 0 (gf_length gF))).

Definition acc1 (poa : Poa) (bamChunkReads : list BamChunkRead) (gF : stGenomeFragment)
    (bg : BubbleGraph Q) (params : PolishParams) (r : nat) : Q :=
  Qsum (map (fun b => Qsum (map (logOdds1 b) (attachedAt b r)))
            (heterozygousBubbles poa bamChunkReads gF bg params)).

Definition acc2 (poa : Poa) (bamChunkReads : list BamChunkRead) (gF : stGenomeFragment)
    (bg : BubbleGraph Q) (params : PolishParams) (r : nat) : Q :=
  Qsum (map (fun b => Qsum (map (logOdds2 b) (attachedAt b r)))
            (heterozygousBubbles poa bamChunkReads gF bg params)).
End PartitionFilteredReads.

(** ** The phasing driver *)

(** Modelled from the spec: the read-partitioning HMM is declared
    outside the files verified here.  Of a column the code here uses the
    profile sequences it holds, of the HMM the bubbles it covers and the
    columns reached from the first one by [nColumn->nColumn]; a path is
    the list of the partitions (bit vectors) of its cells. *)
Record stRPColumn := mkColumn {
  depth : Z;
  seqHeaders : list stProfileSeq
}.

Record stRPHmm := mkHmm {
  hmm_refStart : Z;
  hmm_refLength : Z;
  hmm_columns : list stRPColumn
}.

Definition emptyProfileSeq : stProfileSeq := mkProfileSeq 0 EmptyString 0 0 0 [].
Definition emptyColumn : stRPColumn := mkColumn 0 [].

Definition setReads (gF : stGenomeFragment) (reads1_ reads2_ : gset stProfileSeq)
    : stGenomeFragment :=
  mkGenomeFragment (gf_refStart gF) (gf_length gF) (haplotypeString1 gF) (haplotypeString2 gF)
                   reads1_ reads2_.

(** Modelled from the spec: [stGenomeFragment_constructEmpty] is outside
    the files verified here; the fragment covers no bubble and takes
    the two sets it is given. *)
Definition stGenomeFragment_constructEmpty (ref : stReference) (refStart_ length : Z)
    (reads1_ reads2_ : gset stProfileSeq) : stGenomeFragment :=
  mkGenomeFragment refStart_ length [] [] reads1_ reads2_.

Section Phasing.
Variable F : Type.
Variable LOG_ZERO : F.
Variable stMath_logAddExact : F -> F -> F.
Variable PROFILE_PROB_SCALAR : F.
Variable fsub fmul : F -> F -> F.
Variable roundf : F -> Z.

(** Modelled from the spec: the functions of the HMM that the driver
    calls are outside the files verified here, and the design document
    lists them as the interface of the HMM framework: the coverage
    filter, which returns the sequences kept and the sequences
    discarded; the construction of a tiling path of HMMs, the merge of
    two tiling paths and the fusion of a tiling path into one HMM; the
    forward-backward algorithm and the traceback; the fragment built
    from an HMM and a path, with its two sets of reads
    ([stGenomeFragment_construct] of [impl/genomeFragment.c] is an
    earlier one that leaves the sets alone); and the prediction that
    refinement recomputes column by column.  They are parameters. *)
Variable filterReadsByCoverageDepth :
  list stProfileSeq -> list stProfileSeq * list stProfileSeq.
Variable getRPHmms : list stProfileSeq -> list stRPHmm.
Variable mergeTwoTilingPaths : list stRPHmm -> list stRPHmm -> list stRPHmm.
Variable fuseTilingPath : list stRPHmm -> stRPHmm.
Variable stRPHmm_forwardBackward : stRPHmm -> stRPHmm.
Variable stRPHmm_forwardTraceBack : stRPHmm -> list Z.
Variable stGenomeFragment_construct : stRPHmm -> list Z -> stGenomeFragment.
Variable fillInPredictedGenome : stGenomeFragment -> Z -> stRPColumn -> stGenomeFragment.

(** The log probability of a read given a haplotype.  The driver calls
    it with the reference of the fragment; the body in
    [impl/genomeFragment.c] belongs to another encoding of the
    profiles. *)
Variable getLogProbOfReadGivenHaplotype : list Z -> Z -> Z -> stProfileSeq -> Q.

Definition filterReadsByCoverageDepth2 (profileSeqs : list stProfileSeq)
    : gset stProfileSeq :=
  let '(filteredProfileSeqs, discardedProfileSeqs) :=
    filterReadsByCoverageDepth profileSeqs in
  list_to_set discardedProfileSeqs.

(** The subset of [profileSeqs] that the second haplotype string
    explains better than the first. *)
Definition findReadsThatWereMoreProbablyGeneratedByTheOtherHaplotype
    (haplotypeString1_ haplotypeString2_ : list Z) (start_ length : Z)
    (profileSeqs : gset stProfileSeq) : gset stProfileSeq :=
  filter (fun pSeq =>
            let i := getLogProbOfReadGivenHaplotype haplotypeString1_ start_ length pSeq in
            let j := getLogProbOfReadGivenHaplotype haplotypeString2_ start_ length pSeq in
            Is_true (Qgtb j i))
         profileSeqs.

Definition flipReadsBetweenPartitions (partition : Z) (column : stRPColumn)
    (flippingReads : gset stProfileSeq) : Z :=
  fold_left
    (fun partition i =>
       let pSeq := znth emptyProfileSeq (seqHeaders column) i in
       if bool_decide (pSeq ∈ flippingReads)
       then Z.lxor partition (to_uint64 (Z.shiftl 1 i))
       else partition)
    (zrange 0 (depth column)) partition.

(** The update of the path and of the fragment at the end of a round
    of refinement. *)
Definition updatePath (gF : stGenomeFragment) (hmm : stRPHmm) (p : list Z)
    (reads1To2 reads2To1 : gset stProfileSeq) : stGenomeFragment * list Z :=
  fold_left
    (fun '(gF, p) i =>
       let column := znth emptyColumn (hmm_columns hmm) i in
       let pi := flipReadsBetweenPartitions (znth 0 p i) column reads1To2 in
       let pi := flipReadsBetweenPartitions pi column reads2To1 in
       (fillInPredictedGenome gF pi column, zset p i pi))
    (zrange 0 (Z.of_nat (length p))) (gF, p).

(** Modelled from the spec: the refinement that the driver calls takes
    the fragment alone and works on the two sets of the fragment;
    [impl/genomeFragment.c] has the loop, which is the loop of the
    design document, with the two sets as arguments of their own.
    [rounds] counts down the iterations left. *)
Fixpoint refineRounds (rounds : nat) (gF : stGenomeFragment)
    (reads1_ reads2_ : gset stProfileSeq) (hmm : stRPHmm) (p : list Z)
    : stGenomeFragment * gset stProfileSeq * gset stProfileSeq :=
  match rounds with
  | O => (gF, reads1_, reads2_)
  | S rounds =>
      let reads1To2 :=
        findReadsThatWereMoreProbablyGeneratedByTheOtherHaplotype
          (haplotypeString1 gF) (haplotypeString2 gF) (gf_refStart gF) (gf_length gF) reads1_ in
      let reads2To1 :=
        findReadsThatWereMoreProbablyGeneratedByTheOtherHaplotype
          (haplotypeString2 gF) (haplotypeString1 gF) (gf_refStart gF) (gf_length gF) reads2_ in
      if (size reads1To2 + size reads2To1 =? 0)%nat then (gF, reads1_, reads2_)
      else
        (* stSet_removeAll, stSet_removeAll, stSet_insertAll, stSet_insertAll *)
        let reads1_ := reads1_ ∖ reads1To2 in
        let reads2_ := reads2_ ∖ reads2To1 in
        let reads1_ := reads1_ ∪ reads2To1 in
        let reads2_ := reads2_ ∪ reads1To2 in
        let '(gF, p) := updatePath gF hmm p reads1To2 reads2To1 in
        refineRounds rounds gF reads1_ reads2_ hmm p
  end.

Definition stGenomeFragment_refineGenomeFragment (gF : stGenomeFragment) (hmm : stRPHmm)
    (path : list Z) (maxIterations : Z) : stGenomeFragment :=
  let '(gF', reads1_, reads2_) :=
    refineRounds (Z.to_nat maxIterations) gF (reads1 gF) (reads2 gF) hmm path in
  setReads gF' reads1_ reads2_.

(** "Partition reads based upon strand". *)
Definition partitionByStrand (reads_ : list BamChunkRead)
    (readsToPSeqs : gmap nat stProfileSeq) (discardedReadsSet : gset stProfileSeq)
    : list stProfileSeq * list stProfileSeq :=
  fold_left
    (fun '(forwardStrandProfileSeqs, reverseStrandProfileSeqs) r =>
       match readsToPSeqs !! read_id r with
       | Some pSeq =>
           if bool_decide (pSeq ∉ discardedReadsSet) then
             if forwardStrand r
             then (forwardStrandProfileSeqs ++ [pSeq], reverseStrandProfileSeqs)
             else (forwardStrandProfileSeqs, reverseStrandProfileSeqs ++ [pSeq])
           else (forwardStrandProfileSeqs, reverseStrandProfileSeqs)
       | None => (forwardStrandProfileSeqs, reverseStrandProfileSeqs)
       end)
    reads_ ([], []).

(** "For reads that exceeded the coverage depth, add them back to the
    haplotype they fit best". *)
Definition addBackDiscarded (gF : stGenomeFragment) (discardedReadsSet : gset stProfileSeq)
    : stGenomeFragment :=
  fold_left
    (fun gF pSeq =>
       let i := getLogProbOfReadGivenHaplotype (haplotypeString1 gF) (gf_refStart gF)
                  (gf_length gF) pSeq in
       let j := getLogProbOfReadGivenHaplotype (haplotypeString2 gF) (gf_refStart gF)
                  (gf_length gF) pSeq in
       if Qgtb j i then setReads gF (reads1 gF) ({[pSeq]} ∪ reads2 gF)
       else setReads gF ({[pSeq]} ∪ reads1 gF) (reads2 gF))
    (elements discardedReadsSet) gF.

(** [stHash_getValues]. *)
Definition profileSeqsOf (readsToPSeqs : gmap nat stProfileSeq) : list stProfileSeq :=
  map snd (map_to_list readsToPSeqs).

(** The fused HMM of the two strands, after forward-backward. *)
Definition phasingHmm (forwardStrandProfileSeqs reverseStrandProfileSeqs : list stProfileSeq)
    : stRPHmm :=
  let tilingPathForward := getRPHmms forwardStrandProfileSeqs in
  let tilingPathReverse := getRPHmms reverseStrandProfileSeqs in
  let hmm := fuseTilingPath (mergeTwoTilingPaths tilingPathForward tilingPathReverse) in
  stRPHmm_forwardBackward hmm.

(** Returns the fragment; the hash from reads to profile sequences,
    which the code hands back through [readsToPSeqs], is
    [bubbleGraph_getProfileSeqs bg ref]. *)
Definition bubbleGraph_phaseBubbleGraph (bg : BubbleGraph F) (ref : stReference)
    (reads_ : list BamChunkRead) (roundsOfIterativeRefinement : Z) : stGenomeFragment :=
  let readsToPSeqs :=
    bubbleGraph_getProfileSeqs F LOG_ZERO stMath_logAddExact PROFILE_PROB_SCALAR
                               fsub fmul roundf bg ref in
  let profileSeqs := profileSeqsOf readsToPSeqs in
  let discardedReadsSet := filterReadsByCoverageDepth2 profileSeqs in
  let '(forwardStrandProfileSeqs, reverseStrandProfileSeqs) :=
    partitionByStrand reads_ readsToPSeqs discardedReadsSet in
  if Z.of_nat (length profileSeqs) =? 0 then
    stGenomeFragment_constructEmpty ref 0 0 ∅ ∅
  else
    let hmm := phasingHmm forwardStrandProfileSeqs reverseStrandProfileSeqs in
    let path := stRPHmm_forwardTraceBack hmm in
    let gF := stGenomeFragment_construct hmm path in
    let gF := stGenomeFragment_refineGenomeFragment gF hmm path roundsOfIterativeRefinement in
    addBackDiscarded gF discardedReadsSet.
End Phasing.

(** A profile sequence is in exactly one of the two sets of a fragment. *)
Definition in_exactly_one (gF : stGenomeFragment) (pSeq : stProfileSeq) : Prop :=
  (pSeq ∈ reads1 gF /\ (pSeq ∉ reads2 gF)) \/ ((pSeq ∉ reads1 gF) /\ pSeq ∈ reads2 gF).

(** Every read attached to a bubble of the graph is one of [reads_]. *)
Definition reads_of_graph_among {F} (bg : BubbleGraph F) (reads_ : list BamChunkRead) : Prop :=
  forall i j, 0 <= i < bubbleNo bg ->
    0 <= j < readNo_ (znth emptyBubble (bubbles bg) i) ->
    exists bcr, In bcr reads_ /\
      read_id bcr
      = read_id (read (znth emptyReadSubstring (reads (znth emptyBubble (bubbles bg) i)) j)).

(** The two scores held for read [r] are [a1] and [a2]. *)
Definition scores_at (scores : gmap nat Q * gmap nat Q) (r : nat) (a1 a2 : Q) : Prop :=
  exists q1 q2, scores.1 !! r = Some q1 /\ scores.2 !! r = Some q2 /\
                (q1 == a1)%Q /\ (q2 == a2)%Q.

(** *** The two reads of the example, one primary bubble

    The graph of the example alignment with rational supports, and a
    genome fragment that gives allele 0 (CA) to the first haplotype and
    allele 1 (CG) to the second.  [ex_logAdd] stands in for
    [stMath_logAddExact] when the example is run. *)
Definition ex_forwardProbabilityQ (allele readSub : RleString) (forward : bool) : Q :=
  inject_Z (ex_forwardProbability allele readSub forward).

Definition ex_logAdd (x y : Q) : Q := if Qgtb x y then x else y.

Definition ex_primary_graph : BubbleGraph Q :=
  default (mkBubbleGraph None [] 0 0)
    (bubbleGraph_constructFromPoa (@insertion_sort) Q 0%Q ex_forwardProbabilityQ
       ex_read_poa ex_reads ex_params 3).

Definition ex_fragment : stGenomeFragment := mkGenomeFragment 0 1 [0] [1] ∅ ∅.

(** *** A run of the driver on the example graph

    Stand-ins for the numeric library and for the HMM, for running the
    driver on the graph of the example: the coverage filter keeps the
    first sequence only, each strand gives one HMM with one column, the
    fused HMM has the sequences of both in one column, and the fragment
    built from it starts with every sequence in the second set; the log
    probability of a read given a haplotype is minus the byte of the
    read for the allele of the haplotype at the first bubble. *)
Definition ex_LOG_ZERO : Q := (-1000)%Q.

Definition ex_roundf (x : Q) : Z := Qfloor (x + (1 # 2))%Q.

Definition ex_filterReadsByCoverageDepth (profileSeqs : list stProfileSeq)
    : list stProfileSeq * list stProfileSeq :=
  (firstn 1 profileSeqs, skipn 1 profileSeqs).

Definition ex_getRPHmms (profileSeqs : list stProfileSeq) : list stRPHmm :=
  [mkHmm 0 1 [mkColumn (Z.of_nat (length profileSeqs)) profileSeqs]].

Definition ex_fuseTilingPath (tilingPath : list stRPHmm) : stRPHmm :=
  let seqs := flat_map (fun hmm => flat_map seqHeaders (hmm_columns hmm)) tilingPath in
  mkHmm 0 1 [mkColumn (Z.of_nat (length seqs)) seqs].

Definition ex_forwardBackward (hmm : stRPHmm) : stRPHmm := hmm.

Definition ex_construct (hmm : stRPHmm) (path : list Z) : stGenomeFragment :=
  mkGenomeFragment (hmm_refStart hmm) (hmm_refLength hmm) [0] [1]
    ∅ (list_to_set (flat_map seqHeaders (hmm_columns hmm))).

Definition ex_getLogProb (haplotypeString : list Z) (start_ length : Z)
    (pSeq : stProfileSeq) : Q :=
  inject_Z (- znth 0 (profileProbs pSeq) (znth 0 haplotypeString 0)).

Definition ex_profileSeqs : gmap nat stProfileSeq :=
  bubbleGraph_getProfileSeqs Q ex_LOG_ZERO ex_logAdd 30%Q Qminus Qmult ex_roundf
    ex_primary_graph (bubbleGraph_getReferenceSites ex_primary_graph).

Definition ex_phased : stGenomeFragment :=
  bubbleGraph_phaseBubbleGraph Q ex_LOG_ZERO ex_logAdd 30%Q Qminus Qmult ex_roundf
    ex_filterReadsByCoverageDepth ex_getRPHmms (@app stRPHmm) ex_fuseTilingPath
    ex_forwardBackward
    (fun _ => [0]) ex_construct (fun gF _ _ => gF) ex_getLogProb
    ex_primary_graph (bubbleGraph_getReferenceSites ex_primary_graph) ex_reads 2.

(** ** Graphs as the builders leave them *)

(** The allele offsets are the running sums of the allele numbers (below
    2^64), and no read is attached twice to one bubble. *)
Definition graph_wf {F} (bg : BubbleGraph F) : Prop :=
  bubbleNo bg = Z.of_nat (length (bubbles bg)) /\ bubbleNo bg < 2 ^ 64 /\
  (forall i, 0 <= i < bubbleNo bg ->
     0 <= alleleNo (znth emptyBubble (bubbles bg) i) /\
     0 <= alleleOffset (znth emptyBubble (bubbles bg) i) /\
     alleleOffset (znth emptyBubble (bubbles bg) i)
     + alleleNo (znth emptyBubble (bubbles bg) i) < 2 ^ 64) /\
  (forall i, 0 <= i -> i + 1 < bubbleNo bg ->
     alleleOffset (znth emptyBubble (bubbles bg) (i + 1))
     = alleleOffset (znth emptyBubble (bubbles bg) i)
       + alleleNo (znth emptyBubble (bubbles bg) i)) /\
  (forall i j j', 0 <= i < bubbleNo bg ->
     0 <= j < readNo_ (znth emptyBubble (bubbles bg) i) ->
     0 <= j' < readNo_ (znth emptyBubble (bubbles bg) i) ->
     read_id (read (znth emptyReadSubstring (reads (znth emptyBubble (bubbles bg) i)) j))
     = read_id (read (znth emptyReadSubstring (reads (znth emptyBubble (bubbles bg) i)) j')) ->
     j = j').

(** Read [j] of bubble [i] has been handled when the loops of the
    profile builder stand at read [j0] of bubble [i0]. *)
Definition handled {F} (bg : BubbleGraph F) (i0 j0 i j : Z) : Prop :=
  0 <= i < bubbleNo bg /\ 0 <= j < readNo_ (znth emptyBubble (bubbles bg) i) /\
  (i < i0 \/ (i = i0 /\ j < j0)).

Definition readAt {F} (bg : BubbleGraph F) (i j : Z) : nat :=
  read_id (read (znth emptyReadSubstring (reads (znth emptyBubble (bubbles bg) i)) j)).

(** What the hash of the profile builder holds when the loops stand at
    read [j0] of bubble [i0]: every read handled has a sequence, and the
    sequence of a read starts at the first bubble [f] of the read, has
    room up to its last bubble, and holds in the strip of every bubble
    handled for the read the bytes [byte i j k] of that bubble. *)
Definition profileSeqs_upto {F} (bg : BubbleGraph F) (byte : Z -> Z -> Z -> Z)
    (readEnds : gmap nat Z) (i0 j0 : Z) (readsToPSeqs : gmap nat stProfileSeq) : Prop :=
  (forall i j, handled bg i0 j0 i j -> is_Some (readsToPSeqs !! readAt bg i j)) /\
  (forall r pSeq, readsToPSeqs !! r = Some pSeq ->
     exists f e,
       0 <= f <= i0 /\ readEnds !! r = Some e /\ f <= e < bubbleNo bg /\
       pseq_alleleOffset pSeq = alleleOffset (znth emptyBubble (bubbles bg) f) /\
       Z.of_nat (length (profileProbs pSeq))
       = alleleOffset (znth emptyBubble (bubbles bg) e)
         + alleleNo (znth emptyBubble (bubbles bg) e)
         - alleleOffset (znth emptyBubble (bubbles bg) f) /\
       forall i j, handled bg i0 j0 i j -> readAt bg i j = r ->
         f <= i /\
         forall k, 0 <= k < alleleNo (znth emptyBubble (bubbles bg) i) ->
           znth 0 (profileProbs pSeq)
                (alleleOffset (znth emptyBubble (bubbles bg) i)
                 - alleleOffset (znth emptyBubble (bubbles bg) f) + k)
           = byte i j k).

(** ** The numbers of the profile builder, over the reals

    A [double] as a real number, plus and minus infinity, or NaN. *)
Inductive xreal :=
| Fin (x : R)
| NegInf
| PosInf
| xNaN.

(** Modelled from the spec: [LOG_ZERO] and [stMath_logAddExact] belong
    to a numeric library outside the files verified here.  [LOG_ZERO]
    is the logarithm of 0, and [stMath_logAddExact x y] is the
    logarithm of the sum of the exponentials of [x] and [y], computed
    without approximation in the max-shift form. *)
Definition xLOG_ZERO : xreal := NegInf.

Definition xlogAddExact (x y : xreal) : xreal :=
  match x, y with
  | xNaN, _ | _, xNaN => xNaN
  | PosInf, _ | _, PosInf => PosInf
  | NegInf, _ => y
  | _, NegInf => x
  | Fin a, Fin b => Fin (Rmax a b + ln (1 + exp (Rmin a b - Rmax a b)))
  end.

Definition xsub (x y : xreal) : xreal :=
  match x, y with
  | xNaN, _ | _, xNaN => xNaN
  | Fin a, Fin b => Fin (a - b)
  | PosInf, PosInf | NegInf, NegInf => xNaN
  | PosInf, _ | _, NegInf => PosInf
  | NegInf, _ | _, PosInf => NegInf
  end.

Definition xscale (a : R) (inf : xreal) : xreal :=
  if Rlt_dec 0 a then inf
  else if Rlt_dec a 0 then xsub (Fin 0) inf
  else xNaN.

Definition xmul (x y : xreal) : xreal :=
  match x, y with
  | xNaN, _ | _, xNaN => xNaN
  | Fin a, Fin b => Fin (a * b)
  | Fin a, inf | inf, Fin a => xscale a inf
  | PosInf, PosInf | NegInf, NegInf => PosInf
  | PosInf, NegInf | NegInf, PosInf => NegInf
  end.

(** Rounding to the nearest integer, halves away from zero. *)
Definition Rround (x : R) : Z :=
  if Rle_dec 0 x then up (x - 1 / 2) else - up (- x - 1 / 2).

(** [roundf] followed by the conversion to [int64_t].  The conversion
    of a value that is not finite is not defined by C; the value taken
    here is the one that x86-64 gives.  For a finite value the range of
    [int64_t] is not modelled. *)
Definition xroundf (x : xreal) : Z :=
  match x with
  | Fin a => Rround a
  | _ => - 2 ^ 63
  end.

(** The byte of allele [k] for read [j] of bubble [b], with
    [PROFILE_PROB_SCALAR] equal to [scalar]. *)
Definition xprofileProb (scalar : R) (b : Bubble xreal) (j k : Z) : Z :=
  profileProb xreal xLOG_ZERO xlogAddExact (Fin scalar) xsub xmul xroundf b j k.

Definition sum_exp (l : list R) : R := fold_right (fun x s => (exp x + s)%R) 0%R l.

(** *** Two alleles that a read supports equally

    One bubble with the alleles A and C and one read, whose supports
    for the two alleles are both [s]. *)
Definition tie_bubble {F} (s : F) : Bubble F :=
  mkBubble 1 1 (mkRle (cstr "A") [1]) 2 [mkRle (cstr "A") [1]; mkRle (cstr "C") [1]]
           1 [mkReadSubstring (nth 0 ex_reads emptyRead) 0 1 None 30] [s; s] 0 [0].

Definition tie_graph {F} (s : F) : BubbleGraph F :=
  mkBubbleGraph (Some (mkRle (cstr "A") [1])) [tie_bubble s] 1 2.

From Stdlib Require Import Qpower.

(** * Further functions of the three files *)

(** ** The consensus path *)

(** [bubble_getLogLikelihoodOfAllele]: the sum of the supports of the
    reads for the allele (the parameters are not used). *)
Definition bubble_getLogLikelihoodOfAllele (b : Bubble Q) (allele : Z) : Q :=
  fold_left
    (fun logLikelihood i =>
       (logLikelihood + znth 0%Q (alleleReadSupports b) (allele * readNo_ b + i))%Q)
    (zrange 0 (readNo_ b)) 0%Q.

Definition bubble_getIndexOfHighestLikelihoodAllele (b : Bubble Q) : Z :=
  fst (fold_left
         (fun '(maxAllele, maxAlleleLikelihood) i =>
            let alleleLikelihood := bubble_getLogLikelihoodOfAllele b i in
            if Qgtb alleleLikelihood maxAlleleLikelihood then (i, alleleLikelihood)
            else (maxAllele, maxAlleleLikelihood))
         (zrange 1 (alleleNo b))
         (0, bubble_getLogLikelihoodOfAllele b 0)).

Definition bubbleGraph_getConsensusPath (bg : BubbleGraph Q) : list Z :=
  fold_left
    (fun consensusPath i =>
       let b := znth emptyBubble (bubbles bg) i in
       zset consensusPath i (to_uint64 (bubble_getIndexOfHighestLikelihoodAllele b)))
    (zrange 0 (bubbleNo bg))
    (replicate (Z.to_nat (bubbleNo bg)) 0).

(** A bubble with three alleles and two reads; the summed supports of
    the alleles are -4, -3 and -3. *)
Definition ex_likelihood_bubble : Bubble Q :=
  mkBubble 1 1 (mkRle (cstr "A") [1]) 3
           [mkRle (cstr "A") [1]; mkRle (cstr "C") [1]; mkRle (cstr "G") [1]]
           2 [mkReadSubstring (nth 0 ex_reads emptyRead) 0 1 None 30;
              mkReadSubstring (nth 1 ex_reads emptyRead) 0 1 None 30]
           (qs [-3; -1; -1; -2; -2; -1]) 0 [0].

Definition ex_likelihood_graph : BubbleGraph Q :=
  mkBubbleGraph (Some (mkRle (cstr "A") [1])) [ex_likelihood_bubble] 1 3.

(** ** Strand skew *)

Definition to_uint128 (x : Z) : Z := x mod 2 ^ 128.

(** [bionomialCoefficient]: [ans] is a [uint128_t]; [n], [k] and [j] are
    [int64_t], so [n % j] and [n / j] are the signed remainder and
    quotient. *)
Definition bionomialCoefficient (n k : Z) : Z :=
  let k := if n - k <? k then n - k else k in
  fst (fold_left
         (fun '(ans, n) j =>
            (if Z.rem n j =? 0 then to_uint128 (ans * to_uint128 (Z.quot n j))
             else if ans mod j =? 0 then to_uint128 (ans / j * to_uint128 n)
             else to_uint128 (ans * to_uint128 n) / j,
             n - 1))
         (zrange 1 (k + 1)) (1, n)).

(** [binomialPValue]: the sum is a [uint128_t], the quotient a
    [double]. *)
Definition binomialPValue (n k : Z) : Q :=
  let k := if k <? Z.quot n 2 then n - k else k in
  let j := fold_left (fun j i => to_uint128 (j + bionomialCoefficient n i))
                     (zrange k (n + 1)) 0 in
  (inject_Z j / Qpower 2 n)%Q.

(** [bubble_phasedStrandSkew]: the reads of the bubble that are in one
    of the two sets of the fragment, and among them those on the strand
    of their set (forward for the first set, reverse for the second). *)
Definition countPhasedReads {F} (b : Bubble F) (readsToPSeqs : gmap nat stProfileSeq)
    (gf : stGenomeFragment) : Z * Z :=
  fold_left
    (fun '(reads_, positives) i =>
       let r := read (znth emptyReadSubstring (reads b) i) in
       match readsToPSeqs !! read_id r with
       | Some pSeq =>
           if bool_decide (pSeq ∈ reads1 gf) then
             (reads_ + 1, if forwardStrand r then positives + 1 else positives)
           else if bool_decide (pSeq ∈ reads2 gf) then
             (reads_ + 1, if negb (forwardStrand r) then positives + 1 else positives)
           else (reads_, positives)
       | None => (reads_, positives)
       end)
    (zrange 0 (readNo_ b)) (0, 0).

Definition bubble_phasedStrandSkew {F} (b : Bubble F) (readsToPSeqs : gmap nat stProfileSeq)
    (gf : stGenomeFragment) : Q :=
  let '(reads_, positives) := countPhasedReads b readsToPSeqs gf in
  binomialPValue reads_ positives.

(** [bubbleGraph_skewedBubbles]: the count of the bubbles whose p-value
    is below 0.05, divided by the number of bubbles. *)
Definition countSkewedBubbles {F} (bg : BubbleGraph F) (readsToPSeqs : gmap nat stProfileSeq)
    (gf : stGenomeFragment) : Z :=
  fold_left
    (fun skewedBubbles i =>
       skewedBubbles
       + (if Qgtb (5 # 100) (bubble_phasedStrandSkew (znth emptyBubble (bubbles bg) i)
                                                     readsToPSeqs gf)
          then 1 else 0))
    (zrange 0 (bubbleNo bg)) 0.

Definition bubbleGraph_skewedBubbles {F} (bg : BubbleGraph F)
    (readsToPSeqs : gmap nat stProfileSeq) (gf : stGenomeFragment) : quotient :=
  ddiv (inject_Z (countSkewedBubbles bg readsToPSeqs gf)) (inject_Z (bubbleNo bg)).

(** Pascal's triangle, against which [bionomialCoefficient] is
    compared. *)
Fixpoint choose (n k : nat) : nat :=
  match n, k with
  | _, O => 1
  | O, S _ => 0
  | S n', S k' => choose n' k' + choose n' k
  end.

(** The sum of the first [m] entries of row [n] of the triangle. *)
Fixpoint chooseUpTo (n m : nat) : nat :=
  match m with
  | O => 0
  | S m' => chooseUpTo n m' + choose n m'
  end.

(** ** The log probability of a read given a haplotype *)

Section ReadGivenHaplotype.
(** [ALPHABET_SIZE], the substitution model and the decoding of a
    profile probability are outside the files verified here:
    [getSubstitutionProbSlow hapBase k] stands for
    [*getSubstitutionProbSlow(params->readErrorSubModelSlow, hapBase, k)]
    and [getProb profileProbs offset k] for
    [getProb(&profileProbs[offset], k)]. *)
Variable ALPHABET_SIZE : Z.
Variable getSubstitutionProbSlow : Z -> Z -> Q.
Variable getProb : list Z -> Z -> Z -> Q.

(** [getLogProbOfReadGivenHaplotype] as [impl/genomeFragment.c] has
    it. *)
Definition getLogProbOfReadGivenHaplotype (haplotypeString : list Z) (start_ length : Z)
    (profileSeq : stProfileSeq) : Q :=
  fold_left
    (fun totalProb i =>
       (* Get base in the haplotype sequence *)
       let j := i + pseq_refStart profileSeq - start_ in
       if ((0 <=? j) && (j <? length))%bool then
         let hapBase := znth 0 haplotypeString j in
         (* Expectation of a match *)
         fold_left
           (fun totalProb k =>
              (totalProb
               + getSubstitutionProbSlow hapBase k
                 * getProb (profileProbs profileSeq) (i * ALPHABET_SIZE) k)%Q)
           (zrange 0 ALPHABET_SIZE) totalProb
       else totalProb)
    (zrange 0 (pseq_length profileSeq)) 0%Q.
End ReadGivenHaplotype.

(** A column with two reads, for the partitions of the refinement. *)
Definition ex_pseq (id_ : nat) : stProfileSeq := mkProfileSeq id_ EmptyString 0 1 0 [0; 0].

Definition ex_column : stRPColumn := mkColumn 2 [ex_pseq 0; ex_pseq 1].

(** ** The switch correctness *)

(** What the loop of [switchCorrectness] keeps: the pairs counted as
    correctly phased are fewer than the variants counted, and no
    variant is counted before the first pair of phase sets is set. *)
Definition switch_inv (q t : list PhasedVariant) (st : SwitchState) : Prop :=
  (sc_i st <= length q)%nat /\ (sc_j st <= length t)%nat /\
  0 <= numPhasedVariants st /\
  numPhasedVariants st <= Z.of_nat (sc_i st) /\
  numPhasedVariants st <= Z.of_nat (sc_j st) /\
  0 <= numCorrectlyPhasedPairs st <= Z.max 0 (numPhasedVariants st - 1) /\
  (prevPhaseSets st = None -> numPhasedVariants st = 0) /\
  (prevPhaseSets st <> None -> 1 <= numPhasedVariants st).

(** ** Shared contigs *)

(** The sign of [strcmp]. *)
Definition strcmp (a b : string) : Z :=
  match String.compare a b with
  | Lt => -1
  | Eq => 0
  | Gt => 1
  end.

(** What the properties below need of [stList_sort] for the comparison
    [cmp]: the result holds the elements of the list, ordered by
    [cmp]. *)
Definition sorts_with {A} (cmp : A -> A -> Z)
    (stList_sort : forall A : Type, (A -> A -> Z) -> list A -> list A) : Prop :=
  forall l : list A,
    Permutation (stList_sort _ cmp l) l /\
    Sorted (fun a b => cmp a b <= 0) (stList_sort _ cmp l).

Section SharedContigs.
Variable stList_sort : forall A : Type, (A -> A -> Z) -> list A -> list A.
Context {V1 V2 : Type}.

(** [getSharedContigs]: the keys of the two hashes go into two sets of
    strings; the order in which [stHash_getKeys] and the set iterator
    hand out their elements is not specified. *)
Definition getSharedContigs (entry1 : gmap string V1) (entry2 : gmap string V2) : list string :=
  let contigs1 : gset string := list_to_set (map fst (map_to_list entry1)) in
  let contigs2 : gset string := list_to_set (map fst (map_to_list entry2)) in
  let intersection := contigs1 ∩ contigs2 in
  let sharedContigs := elements intersection in
  stList_sort _ strcmp sharedContigs.
End SharedContigs.

Definition ex_contigs1 : gmap string Z :=
  <["chr2"%string := 2]> (<["chr1"%string := 1]> (<["chrX"%string := 3]> ∅)).
Definition ex_contigs2 : gmap string Z :=
  <["chrX"%string := 0]> (<["chr2"%string := 0]> (<["chrY"%string := 0]> ∅)).

(** ** Candidate positions from a VCF *)

(** Two entries at positions 1 and 3. *)
Definition ex_vcf_positions : list VcfEntry :=
  [mkVcfEntry 0 1 [] 0 1 [] 0 0; mkVcfEntry 1 3 [] 0 1 [] 0 0].

(** ** Candidate weights *)

(** The summed base weights of the nodes [lo .. hi - 1]. *)
Definition windowWeight (poa : Poa) (lo hi : Z) : Q :=
  Qsum (map (fun t => getTotalWeight poa (getNode poa t)) (zrange lo hi)).

(** An alignment with 120 nodes. *)
Definition ex_long_poa : Poa :=
  mkPoa (cstr "ACGT") 3 (mkRle (repeat "A"%char 119) (repeat 1 119))
        (repeat ex_plain_node 120).

(** ** Alleles from the reads *)

(** An [RleString] with one repeat count per character, each between
    1 and 255 as a [uint8_t] count of a run is. *)
Definition rle_counts_wf (r : RleString) : Prop :=
  length (repeatCounts r) = length (rleString r) /\
  Forall (fun c => 1 <= c <= 255) (repeatCounts r).

(** Three read substrings, two of them with the same expansion. *)
Definition ex_read_substrings : list BamChunkReadSubstring :=
  [mkReadSubstring (nth 0 ex_reads emptyRead) 0 0 (Some (mkRle (cstr "AC") [2; 1])) 30;
   mkReadSubstring (nth 1 ex_reads emptyRead) 0 0 (Some (mkRle (cstr "AC") [1; 1])) 30;
   mkReadSubstring (nth 1 ex_reads emptyRead) 0 0 (Some (mkRle (cstr "AC") [2; 1])) 20].

(** ** Allele offsets *)

(** The bubble with another allele offset. *)
Definition withAlleleOffset {F} (b : Bubble F) (alleleOffset_ : Z) : Bubble F :=
  mkBubble (refStart b) (bubbleLength b) (refAllele b) (alleleNo b) (alleles b) (readNo_ b)
           (reads b) (alleleReadSupports b) alleleOffset_ (variantPositionOffsets b).

(** The alleles of the graph are numbered consecutively: the allele
    offset of a bubble is the number of alleles of the bubbles before
    it, and [totalAlleles] counts the alleles of all bubbles. *)
Definition offsets_cumulative {F} (bg : BubbleGraph F) : Prop :=
  (forall i b, bubbles bg !! i = Some b ->
     alleleOffset b = sumZ (map alleleNo (take i (bubbles bg)))) /\
  totalAlleles bg = sumZ (map alleleNo (bubbles bg)).

(** ** The cache of the support loop *)

(** The first of the reads [0 .. k] whose substring equals, with its
    repeat counts, the substring of read [k]. *)
Definition firstEqualRead (reads : list BamChunkReadSubstring) (k : Z) : Z :=
  default k
    (find (fun m =>
             rleString_expandedStringEqualKey
               (bamChunkReadSubstring_getRleString (znth emptyReadSubstring reads m))
               (bamChunkReadSubstring_getRleString (znth emptyReadSubstring reads k)))
          (zrange 0 k)).

(** Two reads on opposite strands with the same substring, and a
    forward probability that depends on the strand. *)
Definition ex_strand_reads : list BamChunkReadSubstring :=
  [mkReadSubstring (mkRead 0 "r0" (mkRle (cstr "AC") [1; 1]) None true []) 0 2 None 30;
   mkReadSubstring (mkRead 1 "r1" (mkRle (cstr "AC") [1; 1]) None false []) 0 2 None 30].

Definition ex_strand_probability (allele readSub : RleString) (forward : bool) : Z :=
  if forward then 1 else 2.

(** ** Rescue of the filtered reads from VCF entries *)

Definition emptyVcfEntry : VcfEntry := mkVcfEntry 0 0 [] 0 0 [] 0 0.

Section PartitionFromVcfEntries.
Variable computeForwardProbability : RleString -> RleString -> bool -> Q.
Variable stMath_logAddExact : Q -> Q -> Q.

(** The body of the loop over the primary bubbles, which
    [bubbleGraph_partitionFilteredReadsFromVcfEntries] and
    [bubbleGraph_partitionFilteredReadsFromPhasedVcfEntries] have word
    for word in common.  The list of the entry in the hash is emptied
    by the [stList_pop]s that fill the reads of the bubble. *)
Definition scoreVcfEntryBubble (params : PolishParams) (primaryBubble : Bubble Q)
    (vcfEntry : VcfEntry) (hap1AlleleNo hap2AlleleNo : Z)
    (st : gmap nat Q * gmap nat Q * gmap nat (list BamChunkReadSubstring))
    : gmap nat Q * gmap nat Q * gmap nat (list BamChunkReadSubstring) :=
  let '(scores, vcfEntryToReadSubstrings) := st in
  let hap1 := znth emptyRle (alleles primaryBubble) hap1AlleleNo in
  let hap2 := znth emptyRle (alleles primaryBubble) hap2AlleleNo in
  (* we only care about hets *)
  if hap1AlleleNo =? hap2AlleleNo then st
  else
    let refStart_ := refStart primaryBubble in
    let alleles_ := [rleString_expand hap1; rleString_expand hap2] in
    let readSubstrings := default [] (vcfEntryToReadSubstrings !! vcf_id vcfEntry) in
    (* nothing to phase with *)
    if Z.of_nat (length readSubstrings) =? 0 then st
    else
      let refAllele_ :=
        construct_by_mode (useRunLengthEncoding params)
                          (cell_chars (nth 0 (vcf_alleles vcfEntry) emptyCell)) in
      let readNo := to_uint64 (Z.of_nat (length readSubstrings)) in
      let reads_ := rev readSubstrings in
      let alleleNo_ := to_uint64 (Z.of_nat (length alleles_)) in
      let balleles := map (construct_by_mode (useRunLengthEncoding params)) alleles_ in
      let b :=
        mkBubble refStart_ 0 refAllele_ alleleNo_ balleles readNo reads_
                 (computeAlleleReadSupports Q 0%Q computeForwardProbability
                    alleleNo_ readNo balleles reads_)
                 0 [] in
      (* rank reads for each bubble *)
      (rankReads stMath_logAddExact b scores,
       <[vcf_id vcfEntry := []]> vcfEntryToReadSubstrings).

(** The two sets after the call. *)
Definition bubbleGraph_partitionFilteredReadsFromVcfEntries
    (bamChunkReads : list BamChunkRead) (gF : stGenomeFragment) (bg : BubbleGraph Q)
    (vcfEntriesToBubbles : list VcfEntry) (hap1Reads hap2Reads : gset nat)
    (params : PolishParams) : gset nat * gset nat :=
  let totalReadScore := initialReadScores bamChunkReads in
  let vcfEntryToReadSubstrings := buildVcfEntryToReadSubstringsMap bamChunkReads params in
  let st :=
    fold_left
      (fun st primaryBubbleIdx =>
         let primaryBubble :=
           znth emptyBubble (bubbles bg) (gf_refStart gF + primaryBubbleIdx) in
         let hap1AlleleNo := znth 0 (haplotypeString1 gF) primaryBubbleIdx in
         let hap2AlleleNo := znth 0 (haplotypeString2 gF) primaryBubbleIdx in
         let vcfEntry :=
           znth emptyVcfEntry vcfEntriesToBubbles (gf_refStart gF + primaryBubbleIdx) in
         scoreVcfEntryBubble params primaryBubble vcfEntry hap1AlleleNo hap2AlleleNo st)
      (zrange 0 (gf_length gF))
      (totalReadScore, totalReadScore, vcfEntryToReadSubstrings) in
  saveToSets bamChunkReads (fst st) hap1Reads hap2Reads.

Definition bubbleGraph_partitionFilteredReadsFromPhasedVcfEntries
    (bamChunkReads : list BamChunkRead) (bg : BubbleGraph Q)
    (vcfEntriesToBubbles : list VcfEntry) (hap1Reads hap2Reads : gset nat)
    (params : PolishParams) : gset nat * gset nat :=
  let totalReadScore := initialReadScores bamChunkReads in
  let vcfEntryToReadSubstrings := buildVcfEntryToReadSubstringsMap bamChunkReads params in
  let st :=
    fold_left
      (fun st primaryBubbleIdx =>
         let primaryBubble := znth emptyBubble (bubbles bg) primaryBubbleIdx in
         let vcfEntry := znth emptyVcfEntry vcfEntriesToBubbles primaryBubbleIdx in
         let hap1AlleleNo := gt1 vcfEntry in
         let hap2AlleleNo := gt2 vcfEntry in
         scoreVcfEntryBubble params primaryBubble vcfEntry hap1AlleleNo hap2AlleleNo st)
      (zrange 0 (bubbleNo bg))
      (totalReadScore, totalReadScore, vcfEntryToReadSubstrings) in
  saveToSets bamChunkReads (fst st) hap1Reads hap2Reads.
End PartitionFromVcfEntries.

(** Read [bcr] has a substring cut for the entry with identity [id]. *)
Definition has_substring_for (bcr : BamChunkRead) (id : nat) : Prop :=
  exists substring_ quals, In (id, substring_, quals) (bamChunkReadVcfEntrySubstrings bcr).

(** Every substring filed in the hash under an entry belongs to a read
    of the list that has a substring cut for that entry. *)
Definition substrings_map_ok (bamChunkReads : list BamChunkRead)
    (m : gmap nat (list BamChunkReadSubstring)) : Prop :=
  forall (id : nat) (rs : BamChunkReadSubstring),
    In rs (default [] (m !! id)) ->
    In (read rs) bamChunkReads /\ has_substring_for (read rs) id.

(** Read [r] has a substring cut for one of the entries [ve idx],
    [idx] in [idxs], whose two haplotype alleles [h1 idx] and [h2 idx]
    differ. *)
Definition spans_het (bamChunkReads : list BamChunkRead) (ve : Z -> VcfEntry)
    (h1 h2 : Z -> Z) (idxs : list Z) (r : nat) : Prop :=
  exists (bcr : BamChunkRead) (idx : Z),
    In bcr bamChunkReads /\ read_id bcr = r /\ In idx idxs /\
    h1 idx <> h2 idx /\ has_substring_for bcr (vcf_id (ve idx)).

Definition ex_het_entry : VcfEntry :=
  mkVcfEntry 0 3
    [mkAlleleCell (mkRle (cstr "A") [1]) (cstr "A");
     mkAlleleCell (mkRle (cstr "C") [1]) (cstr "C")] 0 1 [] 2 4.

Definition ex_het_graph : BubbleGraph Q :=
  mkBubbleGraph None
    [mkBubble 3 1 (mkRle (cstr "A") [1]) 2 [mkRle (cstr "A") [1]; mkRle (cstr "C") [1]]
              0 [] [] 0 [3]] 1 2.

(** ** Further examples *)

(** The graph of the example alignment with the start of every bubble
    moved to the 0-based coordinate of its reference allele. *)
Definition ex_reference_graph : BubbleGraph Z :=
  match ex_graph with
  | Some bg =>
      mkBubbleGraph (bg_refString bg)
        (map (fun b => withRefStart b (refStart b - 1)) (bubbles bg))
        (bubbleNo bg) (totalAlleles bg)
  | None => mkBubbleGraph None [] 0 0
  end.

Definition ex_flags : list bool := [false; false; false; true; false; false].

(** ** The reads between two nodes *)

(** The observations are in ascending order of the read number, as
    [sortBaseObservations] leaves them. *)
Definition by_readNo (obs : list PoaBaseObservation) : Prop :=
  StronglySorted (fun o1 o2 => readNo o1 <= readNo o2) obs.

(** The substring of the read between an observation at the first node
    and one at the second. *)
Definition substringBetween (bamChunkReads : list BamChunkRead)
    (p : PoaBaseObservation * PoaBaseObservation) : BamChunkReadSubstring :=
  bamChunkRead_getSubstring (getRead bamChunkReads (readNo (fst p)))
    (offset (fst p)) (offset (snd p) - offset (fst p)).

(** ** The quality filter *)

(** What the loop of [filterReadSubstrings] stops at: a quality of at
    least [minAvgBaseQuality], or the -1 of a read without qualities. *)
Definition passes_quality (params : PolishParams) (rs : BamChunkReadSubstring) : Prop :=
  (minAvgBaseQuality params <= qualValue rs)%Q \/ (qualValue rs == -1)%Q.

Definition ex_strict_params : PolishParams :=
  mkPolishParams true 1 100 false false 1 (25 # 1) (1 # 2).

(** * Properties *)

(** ** Array idioms *)

Lemma In_zrange lo hi x : In x (zrange lo hi) <-> lo <= x < hi.
Proof.
  unfold zrange. rewrite in_map_iff. split.
  - intros (k & <- & Hk). apply in_seq in Hk. lia.
  - intros H. exists (Z.to_nat (x - lo)). split; [lia|]. apply in_seq. lia.
Qed.

Lemma length_zrange lo hi : length (zrange lo hi) = Z.to_nat (hi - lo).
Proof. unfold zrange. by rewrite length_map, length_seq. Qed.

Lemma length_zset {A} (l : list A) i x : length (zset l i x) = length l.
Proof. unfold zset. destruct (i <? 0); [done|]. apply length_insert. Qed.

Lemma znth_zset_eq {A} (d : A) l i x :
  0 <= i < Z.of_nat (length l) -> znth d (zset l i x) i = x.
Proof.
  intros H. unfold znth, zset. destruct (Z.ltb_spec i 0); [lia|].
  apply nth_lookup_Some. apply list_lookup_insert_eq. lia.
Qed.

Lemma znth_zset_ne {A} (d : A) l i j x : i <> j -> znth d (zset l i x) j = znth d l j.
Proof.
  intros H. unfold znth, zset.
  destruct (Z.ltb_spec j 0); [done|]. destruct (Z.ltb_spec i 0); [done|].
  rewrite !nth_lookup. rewrite list_lookup_insert_ne; [done|lia].
Qed.

Lemma znth_replicate {A} (d x : A) n i : 0 <= i < Z.of_nat n -> znth d (replicate n x) i = x.
Proof.
  intros H. unfold znth. destruct (Z.ltb_spec i 0); [lia|].
  apply nth_lookup_Some. apply lookup_replicate_2. lia.
Qed.

(** ** Anchors: what [expand] marks *)

Lemma expand_inner (len : Z) (js : list Z) (b2 : list bool) (k : Z) :
  Z.of_nat (length b2) = len ->
  let r := fold_left
             (fun b2 j => if ((0 <=? j) && (j <? len))%bool then zset b2 j true else b2)
             js b2 in
  length r = length b2 /\
  (znth false r k = true <-> znth false b2 k = true \/ (In k js /\ 0 <= k < len)).
Proof.
  revert b2. induction js as [|j js IH]; intros b2 Hlen; simpl.
  - split; [done|]. tauto.
  - destruct ((0 <=? j) && (j <? len))%bool eqn:E.
    + apply andb_true_iff in E as [E1%Z.leb_le E2%Z.ltb_lt].
      destruct (IH (zset b2 j true)) as [Hl Hk]; [by rewrite length_zset|].
      rewrite Hl, length_zset. split; [done|]. rewrite Hk.
      destruct (Z.eq_dec j k) as [->|Hne].
      * rewrite znth_zset_eq by lia. split; [intros _; right; split; [by left|lia]|by left].
      * rewrite znth_zset_ne by done. split; [intros [?|[? ?]]; tauto|].
        intros [?|[[?|?] ?]]; [tauto|done|tauto].
    + destruct (IH b2 Hlen) as [Hl Hk]. split; [done|]. rewrite Hk.
      split; [intros [?|[? ?]]; tauto|]. intros [?|[[?|?] ?]]; [tauto| |tauto].
      subst. apply andb_false_iff in E as [E%Z.leb_gt|E%Z.ltb_ge]; lia.
Qed.

Lemma expand_outer (b : list bool) (len e : Z) (is_ : list Z) (b2 : list bool) (k : Z) :
  Z.of_nat (length b2) = len ->
  let r := fold_left
             (fun b2 i =>
                if znth false b i then
                  fold_left
                    (fun b2 j => if ((0 <=? j) && (j <? len))%bool then zset b2 j true else b2)
                    (zrange (i - e) (i + e)) b2
                else b2)
             is_ b2 in
  length r = length b2 /\
  (znth false r k = true <->
   znth false b2 k = true \/
   (0 <= k < len /\ exists i, In i is_ /\ znth false b i = true /\ i - e <= k < i + e)).
Proof.
  revert b2. induction is_ as [|i is_ IH]; intros b2 Hlen; simpl.
  - split; [done|]. split; [tauto|]. intros [?|(_ & i & [] & _)]. done.
  - destruct (znth false b i) eqn:Hbi.
    + destruct (expand_inner len (zrange (i - e) (i + e)) b2 k Hlen) as [Hl Hk].
      cbv zeta in Hl, Hk.
      match goal with |- context [fold_left ?f is_ ?acc] =>
        destruct (IH acc) as [Hl' Hk']; [lia|] end.
      cbv zeta in Hl', Hk'. split; [lia|]. rewrite Hk', Hk, In_zrange.
      split.
      * intros [[?|[? ?]]|(? & i' & ? & ? & ?)]; [by left| |].
        -- right. split; [done|]. exists i. split; [by left|done].
        -- right. split; [done|]. exists i'. split; [by right|done].
      * intros [?|(? & i' & [<-|?] & ? & ?)]; [by left; left|by left; right|].
        right. split; [done|]. by exists i'.
    + destruct (IH b2 Hlen) as [Hl' Hk']. cbv zeta in Hl', Hk'. split; [done|].
      rewrite Hk'. split.
      * intros [?|(? & i' & ? & ? & ?)]; [by left|]. right. split; [done|].
        exists i'. split; [by right|done].
      * intros [?|(? & i' & [<-|?] & Hb & ?)]; [by left|congruence|].
        right. split; [done|]. by exists i'.
Qed.

(** [expand] marks exactly the half-open window [i - expansion, i + expansion)
    around every marked [i]. *)
Lemma expand_spec (b : list bool) (len e k : Z) :
  0 <= k < len ->
  (znth false (expand b len e) k = true <->
   exists i, 0 <= i < len /\ znth false b i = true /\ i - e <= k < i + e).
Proof.
  intros Hk. unfold expand.
  destruct (expand_outer b len e (zrange 0 len) (replicate (Z.to_nat len) false) k) as [_ H].
  { rewrite length_replicate. lia. }
  cbv zeta in H. rewrite H. rewrite znth_replicate by lia. split.
  - intros [?|(_ & i & Hi%In_zrange & ? & ?)]; [done|]. by exists i.
  - intros (i & ? & ? & ?). right. split; [done|]. exists i. by rewrite In_zrange.
Qed.

Lemma length_expand (b : list bool) (len e : Z) : length (expand b len e) = Z.to_nat len.
Proof.
  unfold expand.
  destruct (Z_lt_le_dec len 0) as [Hneg|Hpos].
  - replace (zrange 0 len) with (@nil Z); [by simpl; rewrite length_replicate|].
    unfold zrange. by replace (Z.to_nat (len - 0)) with 0%nat by lia.
  - destruct (expand_outer b len e (zrange 0 len) (replicate (Z.to_nat len) false) 0) as [H _].
    { rewrite length_replicate. lia. }
    cbv zeta in H. by rewrite H, length_replicate.
Qed.

Lemma znth_map_zrange {A} (d : A) (f : Z -> A) (n k : Z) :
  0 <= k < n -> znth d (map f (zrange 0 n)) k = f k.
Proof.
  intros H. unfold znth. destruct (Z.ltb_spec k 0); [lia|].
  unfold zrange. rewrite map_map.
  rewrite (nth_indep _ d (f (0 + Z.of_nat 0))) by (rewrite length_map, length_seq; lia).
  rewrite (map_nth (fun k => f (0 + Z.of_nat k)) (seq 0 (Z.to_nat (n - 0))) 0%nat).
  rewrite seq_nth by lia. f_equal. lia.
Qed.

(** The anchors of [getFilteredAnchorPositions]: [q] is an anchor unless
    some flagged [p] has [p - columnAnchorTrim <= q < p + columnAnchorTrim]. *)
Lemma anchors_spec (poa : Poa) (cws : list Q) (vcf : option (list VcfEntry))
    (params : PolishParams) (q : Z) :
  0 <= q < node_count poa ->
  let '(anchors, flagged) := getFilteredAnchorPositions poa cws vcf params in
  znth false anchors q = false <->
  exists p, 0 <= p < node_count poa /\ znth false flagged p = true /\
            p - columnAnchorTrim params <= q < p + columnAnchorTrim params.
Proof.
  intros Hq. unfold getFilteredAnchorPositions.
  rewrite znth_map_zrange by done. rewrite negb_false_iff.
  by rewrite expand_spec.
Qed.

(** ** Candidate enumerator *)

Lemma fold_left_preserves {A B} (P : A -> Prop) (f : A -> B -> A) (l : list B) (a : A) :
  (forall a x, P a -> P (f a x)) -> P a -> P (fold_left f l a).
Proof. intros Hf. revert a. induction l; simpl; auto. Qed.

Lemma fold_left_reaches {A B} (P : A -> Prop) (f : A -> B -> A) (l : list B) (a : A) (x : B) :
  In x l -> (forall a, P (f a x)) -> (forall a y, P a -> P (f a y)) -> P (fold_left f l a).
Proof.
  intros Hin Hx Hf. revert a. induction l as [|y l IH]; simpl; intros a; [done|].
  destruct Hin as [->|Hin]; [|by apply IH].
  apply fold_left_preserves; auto.
Qed.

Lemma convertSymbolToChar_in (poa : Poa) (k : nat) :
  (k < alphabetSize poa)%nat -> In (convertSymbolToChar poa k) (alphabet poa).
Proof. intros H. by apply nth_In. Qed.

Lemma getNextCandidateBase_skip (poa : Poa) (node : PoaNode) (cw : Q) (i : nat) :
  (i < alphabetSize poa)%nat -> admit_base poa node cw i = false ->
  getNextCandidateBase poa node i cw = getNextCandidateBase poa node (S i) cw.
Proof.
  intros Hi Hadm. unfold getNextCandidateBase.
  replace (alphabetSize poa - i)%nat with (S (alphabetSize poa - S i)) by lia.
  simpl. unfold admit_base in Hadm. by rewrite Hadm.
Qed.

Lemma getNextCandidateBase_take (poa : Poa) (node : PoaNode) (cw : Q) (i : nat) :
  (i < alphabetSize poa)%nat -> admit_base poa node cw i = true ->
  getNextCandidateBase poa node i cw = (convertSymbolToChar poa i, S i).
Proof.
  intros Hi Hadm. unfold getNextCandidateBase.
  replace (alphabetSize poa - i)%nat with (S (alphabetSize poa - S i)) by lia.
  simpl. unfold admit_base in Hadm. by rewrite Hadm.
Qed.

(** With no ['-'] in the alphabet the base loop sees exactly the
    admitted symbols, in alphabet order. *)
Lemma enumerate_bases (poa : Poa) (node : PoaNode) (cw : Q) :
  ~ In "-"%char (alphabet poa) ->
  forall n i fuel, (alphabetSize poa - i = n)%nat -> (n <= fuel)%nat ->
  enumerate (next_base poa node cw) fuel i =
  flat_map (fun k => if admit_base poa node cw k then [convertSymbolToChar poa k] else [])
           (seq i n).
Proof.
  intros Hdash. induction n as [|n IH]; intros i fuel Hn Hfuel.
  - simpl. destruct fuel; [done|]. simpl. unfold next_base, getNextCandidateBase.
    rewrite Hn. by simpl.
  - destruct fuel as [|fuel]; [lia|]. simpl seq. simpl flat_map.
    destruct (admit_base poa node cw i) eqn:Hadm.
    + simpl. unfold next_base. rewrite getNextCandidateBase_take by (done || lia).
      destruct (ascii_eqb (convertSymbolToChar poa i) "-") eqn:E.
      * apply Ascii.eqb_eq in E. exfalso. apply Hdash. rewrite <- E.
        apply convertSymbolToChar_in. lia.
      * simpl. f_equal. apply IH; lia.
    + simpl app. rewrite <- (IH (S i) (S fuel)) by lia.
      simpl. unfold next_base. by rewrite getNextCandidateBase_skip by (done || lia).
Qed.

Lemma candidateBases_spec (poa : Poa) (node : PoaNode) (cw : Q) :
  ~ In "-"%char (alphabet poa) ->
  candidateBases poa node cw =
  flat_map (fun k => if admit_base poa node cw k then [convertSymbolToChar poa k] else [])
           (seq 0 (alphabetSize poa)).
Proof. intros H. unfold candidateBases. apply enumerate_bases; [done|lia|lia]. Qed.

Lemma getNextCandidateRepeatCount_skip (poa : Poa) (node : PoaNode) (cw : Q) (i : nat) :
  (i < maxRepeatCount poa)%nat -> admit_repeatCount node cw i = false ->
  getNextCandidateRepeatCount poa node i cw = getNextCandidateRepeatCount poa node (S i) cw.
Proof.
  intros Hi Hadm. unfold getNextCandidateRepeatCount.
  replace (maxRepeatCount poa - i)%nat with (S (maxRepeatCount poa - S i)) by lia.
  simpl. unfold admit_repeatCount in Hadm. by rewrite Hadm.
Qed.

Lemma getNextCandidateRepeatCount_take (poa : Poa) (node : PoaNode) (cw : Q) (i : nat) :
  (i < maxRepeatCount poa)%nat -> admit_repeatCount node cw i = true ->
  getNextCandidateRepeatCount poa node i cw = (Z.of_nat i, S i).
Proof.
  intros Hi Hadm. unfold getNextCandidateRepeatCount.
  replace (maxRepeatCount poa - i)%nat with (S (maxRepeatCount poa - S i)) by lia.
  simpl. unfold admit_repeatCount in Hadm. by rewrite Hadm.
Qed.

Lemma enumerate_repeatCounts (poa : Poa) (node : PoaNode) (cw : Q) :
  forall n i fuel, (maxRepeatCount poa - i = n)%nat -> (n <= fuel)%nat ->
  enumerate (next_repeatCount poa node cw) fuel i =
  flat_map (fun k => if admit_repeatCount node cw k then [Z.of_nat k] else []) (seq i n).
Proof.
  induction n as [|n IH]; intros i fuel Hn Hfuel.
  - simpl. destruct fuel; [done|]. simpl. unfold next_repeatCount, getNextCandidateRepeatCount.
    rewrite Hn. by simpl.
  - destruct fuel as [|fuel]; [lia|]. simpl seq. simpl flat_map.
    destruct (admit_repeatCount node cw i) eqn:Hadm.
    + simpl. unfold next_repeatCount. rewrite getNextCandidateRepeatCount_take by (done || lia).
      destruct (Z.eqb_spec (Z.of_nat i) (-1)); [lia|].
      simpl. f_equal. apply IH; lia.
    + simpl app. rewrite <- (IH (S i) (S fuel)) by lia.
      simpl. unfold next_repeatCount.
      by rewrite getNextCandidateRepeatCount_skip by (done || lia).
Qed.

Lemma candidateRepeatCounts_spec (poa : Poa) (node : PoaNode) (cw : Q) (start : nat) :
  candidateRepeatCounts poa node cw start =
  flat_map (fun k => if admit_repeatCount node cw k then [Z.of_nat k] else [])
           (seq start (maxRepeatCount poa - start)).
Proof. unfold candidateRepeatCounts. apply enumerate_repeatCounts; lia. Qed.

Lemma referenceBase_is_candidate (poa : Poa) (node : PoaNode) (cw : Q) :
  ~ In "-"%char (alphabet poa) -> node_wf poa node ->
  In (base node) (candidateBases poa node cw).
Proof.
  intros Hdash (Hin & Hup & _). rewrite candidateBases_spec by done.
  apply (In_nth _ _ "-"%char) in Hin as (k & Hk & Hnth).
  apply in_flat_map. exists k. split; [apply in_seq; unfold alphabetSize; lia|].
  unfold admit_base, convertSymbolToChar. rewrite Hnth, Hup.
  unfold ascii_eqb. rewrite Ascii.eqb_refl, orb_true_r. by left.
Qed.

Lemma referenceRepeatCount_is_candidate (poa : Poa) (node : PoaNode) (cw : Q) :
  node_wf poa node -> In (repeatCount node) (candidateRepeatCounts poa node cw 1).
Proof.
  intros (_ & _ & Hrc). rewrite candidateRepeatCounts_spec.
  apply in_flat_map. exists (Z.to_nat (repeatCount node)). split; [apply in_seq; lia|].
  unfold admit_repeatCount. rewrite Z2Nat.id by lia.
  rewrite Z.eqb_refl, orb_true_r. by left.
Qed.

Lemma in_app_keep {A} (x : A) (l l' : list A) : In x l -> In x (l ++ l').
Proof. intros. apply in_or_app. by left. Qed.

Ltac keep_member :=
  repeat first
    [ assumption
    | apply in_app_keep
    | (apply fold_left_preserves; [intros ? ? ?|])
    | match goal with |- In _ (if ?c then _ else _) => destruct c end ].

(** The no-edit extension of a candidate base and repeat count with a
    suffix is among the strings built at a node. *)
Lemma extendByNode_no_edit (poa : Poa) (node : PoaNode) (cw : Q) (suffixes : list cstring)
    (b : ascii) (rc : Z) (suffix : cstring) :
  In b (candidateBases poa node cw) ->
  In rc (candidateRepeatCounts poa node cw 1) ->
  In suffix suffixes ->
  In (expandChar b rc ++ suffix) (extendByNode poa node cw suffixes).
Proof.
  intros Hb Hrc Hs. unfold extendByNode.
  apply (fold_left_reaches _ _ _ _ b Hb); [|intros; keep_member].
  intros acc0. apply (fold_left_reaches _ _ _ _ rc Hrc); [|intros; keep_member].
  intros acc1. cbv zeta.
  apply fold_left_preserves; [intros; keep_member|].
  apply fold_left_preserves; [intros; keep_member|].
  apply (fold_left_reaches _ _ _ _ suffix Hs); [|intros; keep_member].
  intros acc2. apply in_or_app. right. by left.
Qed.

Lemma zrange_cons (lo hi : Z) : lo < hi -> zrange lo hi = lo :: zrange (lo + 1) hi.
Proof.
  intros H. unfold zrange.
  replace (Z.to_nat (hi - lo)) with (S (Z.to_nat (hi - (lo + 1)))) by lia.
  simpl. f_equal; [lia|]. rewrite <- seq_shift, map_map. apply map_ext. intros. lia.
Qed.

Lemma zrange_nil (lo hi : Z) : hi <= lo -> zrange lo hi = [].
Proof. intros H. unfold zrange. by replace (Z.to_nat (hi - lo)) with 0%nat by lia. Qed.

Lemma referenceSubstring_cons (poa : Poa) (from to : Z) :
  from < to ->
  referenceSubstring poa from to =
  expandChar (base (getNode poa from)) (repeatCount (getNode poa from))
  ++ referenceSubstring poa (from + 1) to.
Proof. intros H. unfold referenceSubstring. by rewrite zrange_cons. Qed.

Lemma candidateConsensusSubstringsFrom_step (poa : Poa) (cws : list Q) (wa : Q) (maxN : Z)
    (r : nat) (from : Z) :
  candidateConsensusSubstringsFrom poa cws wa maxN (S (S r)) from =
  match candidateConsensusSubstringsFrom poa cws wa maxN (S r) (from + 1) with
  | None => None
  | Some suffixes =>
      let l := extendByNode poa (getNode poa from) (znth 0%Q cws from * wa)%Q suffixes in
      if maxN <? Z.of_nat (length l) then None else Some l
  end.
Proof. reflexivity. Qed.

Lemma candidateConsensusSubstringsFrom_last (poa : Poa) (cws : list Q) (wa : Q) (maxN : Z)
    (from : Z) :
  candidateConsensusSubstringsFrom poa cws wa maxN 1 from =
  let l := extendByNode poa (getNode poa from) (znth 0%Q cws from * wa)%Q [[]] in
  if maxN <? Z.of_nat (length l) then None else Some l.
Proof. reflexivity. Qed.

Lemma candidateConsensusSubstringsFrom_reference (poa : Poa) (cws : list Q) (wa : Q)
    (maxN : Z) :
  ~ In "-"%char (alphabet poa) ->
  forall (remaining : nat) (from : Z) (l : list cstring),
  (1 <= remaining)%nat ->
  (forall k, from <= k < from + Z.of_nat remaining -> node_wf poa (getNode poa k)) ->
  candidateConsensusSubstringsFrom poa cws wa maxN remaining from = Some l ->
  In (referenceSubstring poa from (from + Z.of_nat remaining)) l.
Proof.
  intros Hdash. induction remaining as [|r IH]; intros from l Hr Hwf Hl; [lia|].
  assert (Hnode : node_wf poa (getNode poa from)) by (apply Hwf; lia).
  rewrite referenceSubstring_cons by lia.
  destruct r as [|r'].
  - rewrite candidateConsensusSubstringsFrom_last in Hl. cbv zeta in Hl.
    destruct (_ <? _) in Hl; [done|]. injection Hl as <-.
    replace (from + Z.of_nat 1) with (from + 1) by lia.
    unfold referenceSubstring at 1. rewrite zrange_nil by lia. simpl flat_map.
    apply extendByNode_no_edit;
      [by apply referenceBase_is_candidate|by apply referenceRepeatCount_is_candidate|by left].
  - rewrite candidateConsensusSubstringsFrom_step in Hl.
    destruct (candidateConsensusSubstringsFrom poa cws wa maxN (S r') (from + 1))
      as [suffixes|] eqn:Hsuf; [|done]. cbv zeta in Hl.
    destruct (_ <? _) in Hl; [done|]. injection Hl as <-.
    apply IH in Hsuf; [|lia|intros; apply Hwf; lia].
    replace (from + 1 + Z.of_nat (S r')) with (from + Z.of_nat (S (S r'))) in Hsuf by lia.
    apply extendByNode_no_edit;
      [by apply referenceBase_is_candidate|by apply referenceRepeatCount_is_candidate|done].
Qed.

(** Whenever the enumerator returns a list, the unedited reference of
    the interval is in it. *)
Lemma getCandidateConsensusSubstrings_reference (poa : Poa) (from to : Z) (cws : list Q)
    (wa : Q) (maxN : Z) (l : list cstring) :
  ~ In "-"%char (alphabet poa) ->
  from < to ->
  (forall k, from <= k < to -> node_wf poa (getNode poa k)) ->
  getCandidateConsensusSubstrings poa from to cws wa maxN = Some l ->
  In (referenceSubstring poa from to) l.
Proof.
  intros Hdash Hlt Hwf Hl. unfold getCandidateConsensusSubstrings in Hl.
  apply candidateConsensusSubstringsFrom_reference in Hl; [|done|lia|intros; apply Hwf; lia].
  by replace (from + Z.of_nat (Z.to_nat (to - from))) with to in Hl by lia.
Qed.

Lemma retry_reference (poa : Poa) (from to : Z) (cws : list Q) (maxN : Z) :
  ~ In "-"%char (alphabet poa) ->
  from < to ->
  (forall k, from <= k < to -> node_wf poa (getNode poa k)) ->
  forall (fuel : nat) (wa : Q) (l : list cstring),
  retryCandidateConsensusSubstrings poa from to cws maxN fuel wa = Some l ->
  In (referenceSubstring poa from to) l.
Proof.
  intros Hdash Hlt Hwf. induction fuel as [|fuel IH]; intros wa l Hl; [done|].
  simpl in Hl.
  destruct (getCandidateConsensusSubstrings poa from to cws wa maxN) as [l'|] eqn:Hget.
  - injection Hl as <-. by eapply getCandidateConsensusSubstrings_reference.
  - by eapply IH.
Qed.

(** *** The retry loop ends *)

Lemma Qgtb_false (x y : Q) : Qgtb x y = false <-> (x <= y)%Q.
Proof. unfold Qgtb. by rewrite negb_false_iff, Qle_bool_iff. Qed.

Lemma Qgtb_true (x y : Q) : Qgtb x y = true <-> (y < x)%Q.
Proof.
  unfold Qgtb. rewrite negb_true_iff. split.
  - intros H. apply Qnot_le_lt. intros Hle. apply Qle_bool_iff in Hle. congruence.
  - intros H. destruct (Qle_bool x y) eqn:E; [|done].
    apply Qle_bool_iff in E. exfalso. by apply (Qlt_not_le y x).
Qed.

Lemma nth_quiet (ws : list Q) (c : Q) (k : nat) :
  (0 <= c)%Q -> Forall (fun w => w <= c)%Q ws -> Qgtb (nth k ws 0%Q) c = false.
Proof.
  intros Hc Hall. apply Qgtb_false.
  destruct (Nat.lt_ge_cases k (length ws)) as [Hlt|Hge].
  - rewrite Forall_forall in Hall. apply Hall. apply list_elem_of_In. by apply nth_In.
  - by rewrite nth_overflow.
Qed.

Lemma singleton_filter_NoDup (l : cstring) (b : ascii) :
  List.NoDup l -> In b l ->
  flat_map (fun c => if ascii_eqb b c then [c] else []) l = [b].
Proof.
  induction 1 as [|c l Hnotin Hnd IH]; intros Hin; [done|]. simpl.
  destruct (ascii_eqb b c) eqn:E.
  - apply Ascii.eqb_eq in E. subst c. simpl. f_equal.
    clear IH Hin Hnd. induction l as [|c l IH]; [done|]. simpl.
    destruct (ascii_eqb b c) eqn:E.
    + apply Ascii.eqb_eq in E. subst c. exfalso. apply Hnotin. by left.
    + simpl. apply IH. intros H. apply Hnotin. by right.
  - simpl. apply IH. destruct Hin as [->|Hin]; [|done].
    unfold ascii_eqb in E. by rewrite Ascii.eqb_refl in E.
Qed.

Lemma flat_map_seq_nth {A B} (d : A) (f : A -> list B) (l : list A) :
  flat_map (fun k => f (nth k l d)) (seq 0 (length l)) = flat_map f l.
Proof.
  induction l as [|x l IH]; [done|]. simpl. f_equal.
  rewrite <- seq_shift, flat_map_concat_map, map_map, <- flat_map_concat_map. apply IH.
Qed.

Lemma candidateBases_quiet (poa : Poa) (node : PoaNode) (cw : Q) :
  alphabet_wf poa -> node_wf poa node -> node_quiet node cw ->
  candidateBases poa node cw = [base node].
Proof.
  intros [Hdash Hnd] (Hin & Hup & _) (Hcw & Hb & _).
  rewrite candidateBases_spec by done. unfold admit_base.
  rewrite <- (singleton_filter_NoDup (alphabet poa) (base node)) by done.
  rewrite <- (flat_map_seq_nth "-"%char). unfold alphabetSize.
  apply flat_map_ext. intros k. rewrite nth_quiet by done. by rewrite Hup.
Qed.

Lemma singleton_seq (z : Z) (a n : nat) :
  (a <= Z.to_nat z < a + n)%nat -> 0 <= z ->
  flat_map (fun k => if z =? Z.of_nat k then [Z.of_nat k] else []) (seq a n) = [z].
Proof.
  revert a. induction n as [|n IH]; intros a Hr Hz; [lia|]. simpl.
  destruct (Z.eqb_spec z (Z.of_nat a)) as [->|Hne].
  - simpl. f_equal. clear IH.
    assert (forall m b, (a < b)%nat ->
       flat_map (fun k => if Z.of_nat a =? Z.of_nat k then [Z.of_nat k] else []) (seq b m) = [])
      as Hnone.
    { induction m as [|m IHm]; intros b Hb; [done|]. simpl.
      destruct (Z.eqb_spec (Z.of_nat a) (Z.of_nat b)); [lia|]. simpl. apply IHm. lia. }
    apply Hnone. lia.
  - simpl. apply IH; lia.
Qed.

Lemma candidateRepeatCounts_quiet (poa : Poa) (node : PoaNode) (cw : Q) :
  node_wf poa node -> node_quiet node cw ->
  candidateRepeatCounts poa node cw 1 = [repeatCount node].
Proof.
  intros (_ & _ & Hrc) (Hcw & _ & Hr & _).
  rewrite candidateRepeatCounts_spec. unfold admit_repeatCount.
  rewrite (flat_map_ext _ (fun k => if repeatCount node =? Z.of_nat k then [Z.of_nat k] else [])).
  - apply singleton_seq; lia.
  - intros k. rewrite nth_quiet; [done| |done].
    apply Qmult_le_0_compat; [done|]. by compute.
Qed.

Lemma nextCandidateInsert_quiet (node : PoaNode) (cw : Q) (remaining i : nat) :
  Forall (fun i => insert_weight i <= cw)%Q (inserts node) ->
  fst (nextCandidateInsert node cw remaining i) = None.
Proof.
  intros Hall. revert i. induction remaining as [|r IH]; intros i; [done|]. simpl.
  destruct (nth_error (inserts node) i) as [ins|] eqn:E; [|done].
  assert (Qgtb (insert_weight ins) cw = false) as ->; [|apply IH].
  apply Qgtb_false. rewrite Forall_forall in Hall. apply Hall.
  apply list_elem_of_In. by eapply nth_error_In.
Qed.

Lemma candidateInserts_quiet (node : PoaNode) (cw : Q) :
  node_quiet node cw -> candidateInserts node cw = [].
Proof.
  intros (_ & _ & _ & Hi & _). unfold candidateInserts.
  destruct (length (inserts node)) eqn:E; [done|]. simpl.
  unfold next_insert, getNextCandidateInsert.
  pose proof (nextCandidateInsert_quiet node cw (length (inserts node) - 0) 0 Hi) as H.
  destruct (nextCandidateInsert node cw (length (inserts node) - 0) 0) as [o i'].
  simpl in H. by subst o.
Qed.

Lemma nextCandidateDelete_quiet (node : PoaNode) (cw : Q) (remaining i : nat) :
  Forall (fun d => delete_weight d <= cw)%Q (deletes node) ->
  fst (nextCandidateDelete node cw remaining i) = -1.
Proof.
  intros Hall. revert i. induction remaining as [|r IH]; intros i; [done|]. simpl.
  destruct (nth_error (deletes node) i) as [del|] eqn:E; [|done].
  assert (Qgtb (delete_weight del) cw = false) as ->; [|apply IH].
  apply Qgtb_false. rewrite Forall_forall in Hall. apply Hall.
  apply list_elem_of_In. by eapply nth_error_In.
Qed.

Lemma candidatePositiveDeletes_quiet (node : PoaNode) (cw : Q) :
  node_quiet node cw -> candidatePositiveDeletes node cw = [].
Proof.
  intros (_ & _ & _ & _ & Hd). unfold candidatePositiveDeletes.
  destruct (length (deletes node)) eqn:E; [done|]. simpl.
  unfold next_positive_delete, getNextCandidateDelete.
  pose proof (nextCandidateDelete_quiet node cw (length (deletes node) - 0) 0 Hd) as H.
  destruct (nextCandidateDelete node cw (length (deletes node) - 0) 0) as [d i'].
  simpl in H. by subst d.
Qed.

Lemma extendByNode_quiet (poa : Poa) (node : PoaNode) (cw : Q) (suffix : cstring) :
  alphabet_wf poa -> node_wf poa node -> node_quiet node cw ->
  extendByNode poa node cw [suffix] = [expandChar (base node) (repeatCount node) ++ suffix].
Proof.
  intros Ha Hn Hq. unfold extendByNode.
  rewrite candidateBases_quiet, candidateRepeatCounts_quiet by done.
  by rewrite candidateInserts_quiet, candidatePositiveDeletes_quiet.
Qed.

Lemma candidateConsensusSubstringsFrom_quiet (poa : Poa) (cws : list Q) (wa : Q) (maxN : Z) :
  alphabet_wf poa -> 1 <= maxN ->
  forall (remaining : nat) (from : Z),
  (1 <= remaining)%nat ->
  (forall k, from <= k < from + Z.of_nat remaining ->
     node_wf poa (getNode poa k) /\
     node_quiet (getNode poa k) (znth 0%Q cws k * wa)%Q) ->
  candidateConsensusSubstringsFrom poa cws wa maxN remaining from =
  Some [referenceSubstring poa from (from + Z.of_nat remaining)].
Proof.
  intros Ha Hmax. induction remaining as [|r IH]; intros from Hr Hk; [lia|].
  destruct (Hk from) as [Hwf Hq]; [lia|].
  rewrite referenceSubstring_cons by lia.
  destruct r as [|r'].
  - rewrite candidateConsensusSubstringsFrom_last. cbv zeta.
    rewrite extendByNode_quiet by done. simpl length.
    destruct (Z.ltb_spec maxN (Z.of_nat 1)); [lia|].
    replace (from + Z.of_nat 1) with (from + 1) by lia.
    unfold referenceSubstring at 1. by rewrite zrange_nil by lia.
  - rewrite candidateConsensusSubstringsFrom_step.
    rewrite IH; [|lia|intros; apply Hk; lia]. cbv zeta.
    rewrite extendByNode_quiet by done. simpl length.
    destruct (Z.ltb_spec maxN (Z.of_nat 1)); [lia|].
    by replace (from + 1 + Z.of_nat (S r')) with (from + Z.of_nat (S (S r'))) by lia.
Qed.

Lemma list_bound {A} (f : A -> Q) (l : list A) :
  exists M : Q, (0 <= M)%Q /\ Forall (fun x => f x <= M)%Q l.
Proof.
  induction l as [|x l (M & HM & Hall)].
  - exists 0%Q. split; [apply Qle_refl|constructor].
  - destruct (Qlt_le_dec M (f x)) as [Hlt|Hle].
    + exists (f x). split; [lra|]. constructor; [lra|].
      eapply Forall_impl; [exact Hall|]. intros y Hy. simpl in Hy. lra.
    + exists M. split; [done|]. by constructor.
Qed.

Lemma node_quiet_eventually (node : PoaNode) (c : Q) :
  (0 < c)%Q ->
  exists W : Q, (0 <= W)%Q /\ forall wa : Q, (W <= wa)%Q -> node_quiet node (c * wa).
Proof.
  intros Hc.
  destruct (list_bound (fun w => w) (baseWeights node)) as (M1 & H1 & F1).
  destruct (list_bound (fun w => w) (repeatCountWeights node)) as (M2 & H2 & F2).
  destruct (list_bound insert_weight (inserts node)) as (M3 & H3 & F3).
  destruct (list_bound delete_weight (deletes node)) as (M4 & H4 & F4).
  exists ((M1 + M2 + M3 + M4) / c)%Q.
  assert (Hc' : ~ (c == 0)%Q) by lra.
  split.
  - apply Qle_shift_div_l; [done|]. lra.
  - intros wa Hwa.
    assert (Hbig : (M1 + M2 + M3 + M4 <= c * wa)%Q).
    { assert (E : ((M1 + M2 + M3 + M4) / c * c == M1 + M2 + M3 + M4)%Q) by (field; done).
      assert (Hm : ((M1 + M2 + M3 + M4) / c * c <= wa * c)%Q)
        by (apply Qmult_le_compat_r; lra).
      rewrite E in Hm. by rewrite (Qmult_comm c wa). }
    repeat split.
    + lra.
    + eapply Forall_impl; [exact F1|]. intros w Hw. simpl in Hw. lra.
    + eapply Forall_impl; [exact F2|]. intros w Hw. simpl in Hw. lra.
    + eapply Forall_impl; [exact F3|]. intros w Hw. simpl in Hw. lra.
    + eapply Forall_impl; [exact F4|]. intros w Hw. simpl in Hw. lra.
Qed.

Lemma interval_quiet_eventually (poa : Poa) (cws : list Q) (remaining : nat) (from : Z) :
  (forall k, from <= k < from + Z.of_nat remaining -> (0 < znth 0%Q cws k)%Q) ->
  exists W : Q, (0 <= W)%Q /\
    forall wa : Q, (W <= wa)%Q ->
    forall k, from <= k < from + Z.of_nat remaining ->
    node_quiet (getNode poa k) (znth 0%Q cws k * wa)%Q.
Proof.
  revert from. induction remaining as [|r IH]; intros from Hpos.
  - exists 0%Q. split; [lra|]. intros. lia.
  - destruct (IH (from + 1)) as (W1 & HW1 & Hq1); [intros; apply Hpos; lia|].
    destruct (node_quiet_eventually (getNode poa from) (znth 0%Q cws from))
      as (W2 & HW2 & Hq2); [apply Hpos; lia|].
    exists (W1 + W2)%Q. split; [lra|]. intros wa Hwa k Hk.
    destruct (Z.eq_dec k from) as [->|Hne].
    + apply Hq2. lra.
    + apply Hq1; [lra|lia].
Qed.

Lemma weightAdjustmentAt_lower (k : nat) :
  (1 + inject_Z (Z.of_nat k) * (1 # 2) <= weightAdjustmentAt k)%Q.
Proof.
  induction k as [|k IH].
  - by compute.
  - rewrite Nat2Z.inj_succ. unfold Z.succ. rewrite inject_Z_plus.
    simpl weightAdjustmentAt.
    assert (0 <= inject_Z (Z.of_nat k))%Q.
    { change 0%Q with (inject_Z 0). rewrite <- Zle_Qle. lia. }
    change (inject_Z 1) with 1%Q.
    generalize dependent (inject_Z (Z.of_nat k)). generalize (weightAdjustmentAt k).
    intros w x Hx H0. lra.
Qed.

Lemma weightAdjustmentAt_reaches (W : Q) : exists k : nat, (W <= weightAdjustmentAt k)%Q.
Proof.
  exists (Z.to_nat (2 * Qceiling W)).
  eapply Qle_trans; [|apply weightAdjustmentAt_lower].
  pose proof (Qle_ceiling W) as Hc.
  destruct (Z_lt_le_dec (Qceiling W) 0) as [Hneg|Hpos].
  - replace (Z.to_nat (2 * Qceiling W)) with 0%nat by lia. simpl.
    assert (inject_Z (Qceiling W) <= 0)%Q.
    { change 0%Q with (inject_Z 0). rewrite <- Zle_Qle. lia. }
    change (inject_Z (Z.of_nat 0)) with 0%Q.
    generalize dependent (inject_Z (Qceiling W)). intros c Hc H. lra.
  - rewrite Z2Nat.id by lia. rewrite inject_Z_mult. change (inject_Z 2) with 2%Q.
    generalize dependent (inject_Z (Qceiling W)). intros c Hc. lra.
Qed.

Lemma retry_reaches (poa : Poa) (from to : Z) (cws : list Q) (maxN : Z) (k : nat) :
  forall (wa : Q) (l : list cstring),
  getCandidateConsensusSubstrings poa from to cws
    (Nat.iter k (fun w => (w * (3 # 2))%Q) wa) maxN = Some l ->
  exists l', retryCandidateConsensusSubstrings poa from to cws maxN (S k) wa = Some l'.
Proof.
  induction k as [|k IH]; intros wa l Hl.
  - simpl in Hl. exists l. simpl. by rewrite Hl.
  - simpl retryCandidateConsensusSubstrings.
    destruct (getCandidateConsensusSubstrings poa from to cws wa maxN) as [l0|]; [by exists l0|].
    apply (IH _ l). by rewrite Nat.iter_succ_r in Hl.
Qed.

Lemma weightAdjustmentAt_iter (k : nat) :
  weightAdjustmentAt k = Nat.iter k (fun w => (w * (3 # 2))%Q) 1%Q.
Proof. induction k as [|k IH]; [done|]. simpl. by rewrite IH. Qed.

Lemma retry_more_fuel (poa : Poa) (from to : Z) (cws : list Q) (maxN : Z) :
  forall (fuel fuel' : nat) (wa : Q) (l : list cstring),
  (fuel <= fuel')%nat ->
  retryCandidateConsensusSubstrings poa from to cws maxN fuel wa = Some l ->
  retryCandidateConsensusSubstrings poa from to cws maxN fuel' wa = Some l.
Proof.
  induction fuel as [|fuel IH]; intros fuel' wa l Hle Hl; [done|].
  destruct fuel' as [|fuel']; [lia|]. simpl in *.
  destruct (getCandidateConsensusSubstrings poa from to cws wa maxN); [done|].
  apply IH; [lia|done].
Qed.

(** C7.  Whenever [getCandidateConsensusSubstrings] returns a list for
    an interval [from, to) of well-formed nodes, and whatever the weight
    adjustment, the list contains the unedited reference of the interval
    (the base of every node repeated its repeat count); so does the list
    the retry loop of the builder stops with, whenever it stops.  The
    loop does stop, and for every larger number of rounds with the same
    list, when at least one string is allowed and the candidate weights
    of the interval are positive. *)
Theorem C7_candidates_contain_reference (poa : Poa) (from to : Z) (cws : list Q) (maxN : Z) :
  alphabet_wf poa ->
  0 <= from < to -> to <= node_count poa ->
  (forall k, from <= k < to -> node_wf poa (getNode poa k)) ->
  (forall (wa : Q) (l : list cstring),
     getCandidateConsensusSubstrings poa from to cws wa maxN = Some l ->
     In (referenceSubstring poa from to) l) /\
  (forall (fuel : nat) (l : list cstring),
     retryCandidateConsensusSubstrings poa from to cws maxN fuel 1 = Some l ->
     In (referenceSubstring poa from to) l) /\
  (1 <= maxN ->
   (forall k, from <= k < to -> (0 < znth 0%Q cws k)%Q) ->
   exists (fuel : nat) (l : list cstring),
     In (referenceSubstring poa from to) l /\
     forall fuel', (fuel <= fuel')%nat ->
       retryCandidateConsensusSubstrings poa from to cws maxN fuel' 1 = Some l).
Proof.
  intros Ha Hft Hto Hwf. destruct Ha as [Hdash Hnd].
  split; [|split].
  - intros wa l Hl. eapply getCandidateConsensusSubstrings_reference; eauto. lia.
  - intros fuel l Hl. eapply retry_reference; eauto. lia.
  - intros Hmax Hpos.
    destruct (interval_quiet_eventually poa cws (Z.to_nat (to - from)) from)
      as (W & HW & Hq); [intros; apply Hpos; lia|].
    destruct (weightAdjustmentAt_reaches W) as (k & Hk).
    assert (Hget : getCandidateConsensusSubstrings poa from to cws (weightAdjustmentAt k) maxN
                   = Some [referenceSubstring poa from to]).
    { unfold getCandidateConsensusSubstrings.
      rewrite (candidateConsensusSubstringsFrom_quiet poa cws _ maxN); [|done|done|lia|].
      - by replace (from + Z.of_nat (Z.to_nat (to - from))) with to by lia.
      - intros j Hj. split; [apply Hwf; lia|]. by apply Hq. }
    rewrite weightAdjustmentAt_iter in Hget.
    destruct (retry_reaches _ _ _ _ _ _ _ _ Hget) as (l & Hl).
    exists (S k), l. split; [eapply retry_reference; eauto; lia|].
    intros fuel' Hle. by eapply retry_more_fuel.
Qed.

Lemma C7_candidates_contain_reference_witness :
  (forall (wa : Q) (l : list cstring),
     getCandidateConsensusSubstrings ex_poa 2 5 ex_weights wa 5 = Some l ->
     In (referenceSubstring ex_poa 2 5) l) /\
  (forall (fuel : nat) (l : list cstring),
     retryCandidateConsensusSubstrings ex_poa 2 5 ex_weights 5 fuel 1 = Some l ->
     In (referenceSubstring ex_poa 2 5) l) /\
  (1 <= 5 ->
   (forall k, 2 <= k < 5 -> (0 < znth 0%Q ex_weights k)%Q) ->
   exists (fuel : nat) (l : list cstring),
     In (referenceSubstring ex_poa 2 5) l /\
     forall fuel', (fuel <= fuel')%nat ->
       retryCandidateConsensusSubstrings ex_poa 2 5 ex_weights 5 fuel' 1 = Some l).
Proof.
  apply (C7_candidates_contain_reference ex_poa 2 5 ex_weights 5).
  - split; [vm_compute; intuition discriminate|].
    repeat constructor; vm_compute; intuition discriminate.
  - lia.
  - vm_compute. discriminate.
  - intros k Hk.
    assert (k = 2 \/ k = 3 \/ k = 4) as [->|[->| ->]] by lia;
      (split; [vm_compute; tauto|split; [reflexivity|vm_compute; split; [discriminate|reflexivity]]]).
Defined.

(** What the retry loop does on the example: the first round gives 12
    strings for a cap of 5, the second round gives the reference alone. *)
Example retry_example :
  getCandidateConsensusSubstrings ex_poa 2 5 ex_weights 1 5 = None /\
  retryCandidateConsensusSubstrings ex_poa 2 5 ex_weights 5 2 1 = Some [cstr "ACCA"].
Proof. split; reflexivity. Qed.

(** C6.  [expand] marks the window [i - expansion, i + expansion), open
    on the right, so the position [columnAnchorTrim] to the right of a
    flagged position stays an anchor: with position 3 flagged and a trim
    of 1, positions 2 and 3 are not anchors and position 4 is. *)
Theorem C6_right_edge_is_anchor :
  let '(anchors, flagged) := getFilteredAnchorPositions ex_snp_poa ex_weights None ex_params in
  columnAnchorTrim ex_params = 1 /\
  flagged = [false; false; false; true; false; false] /\
  anchors = [true; true; false; false; true; true] /\
  znth false flagged 3 = true /\ znth false anchors (3 + columnAnchorTrim ex_params) = true.
Proof. vm_compute. repeat split. Qed.

(** ** The order of the reads of a bubble *)

Lemma adjacent_ordered_prefix {A} (R : A -> A -> Prop) (l1 l2 : list A) :
  adjacent_ordered R (l1 ++ l2) -> adjacent_ordered R l1.
Proof.
  intros H i x y Hx Hy. apply (H i); by apply lookup_app_l_Some.
Qed.

Lemma adjacent_ordered_rev {A} (R : A -> A -> Prop) (l : list A) :
  adjacent_ordered R l -> adjacent_ordered (fun x y => R y x) (rev l).
Proof.
  intros H i x y Hx Hy. rewrite rev_alt in Hx, Hy.
  change (rev_append l []) with (reverse l) in Hx, Hy.
  apply reverse_lookup_Some in Hx as [Hx Hi].
  apply reverse_lookup_Some in Hy as [Hy HSi].
  apply (H (length l - S (S i))%nat); [done|].
  by replace (S (length l - S (S i))) with (length l - S i)%nat by lia.
Qed.

Lemma adjacent_ordered_impl {A} (R R' : A -> A -> Prop) (l : list A) :
  (forall x y, R x y -> R' x y) -> adjacent_ordered R l -> adjacent_ordered R' l.
Proof. intros HR H i x y Hx Hy. apply HR. by apply (H i). Qed.

Lemma dropLowQualityTail_prefix (params : PolishParams) (fuel : nat)
    (l : list BamChunkReadSubstring) :
  exists l2, l = dropLowQualityTail params fuel l ++ l2.
Proof.
  revert l. induction fuel as [|fuel IH]; intros l; simpl.
  - exists []. by rewrite app_nil_r.
  - destruct (_ <? _); [|exists []; by rewrite app_nil_r].
    destruct (last l) as [rs|] eqn:Hlast; [|exists []; by rewrite app_nil_r].
    destruct (_ || _)%bool; [exists []; by rewrite app_nil_r|].
    apply last_Some in Hlast as [l' ->]. rewrite removelast_last.
    destruct (IH l') as [l2 Hl2]. exists (l2 ++ [rs]).
    rewrite app_assoc. by rewrite <- Hl2.
Qed.

Lemma cmpByQual_le (x y : BamChunkReadSubstring) :
  readSubstrings_cmpByQual x y <= 0 -> (qualValue y <= qualValue x)%Q.
Proof.
  unfold readSubstrings_cmpByQual. destruct (Qgtb (qualValue y) (qualValue x)) eqn:E; [lia|].
  intros _. by apply Qgtb_false.
Qed.

Section ReadOrder.
Variable stList_sort : forall A : Type, (A -> A -> Z) -> list A -> list A.
Hypothesis Hsort : sorts_by_quality stList_sort.

Lemma filterReadSubstrings_descending (l : list BamChunkReadSubstring) (params : PolishParams) :
  adjacent_ordered (fun x y => (qualValue y <= qualValue x)%Q)
                   (filterReadSubstrings stList_sort l params).
Proof.
  unfold filterReadSubstrings.
  destruct (dropLowQualityTail_prefix params
              (length (stList_sort _ readSubstrings_cmpByQual l))
              (stList_sort _ readSubstrings_cmpByQual l)) as [l2 Hl2].
  apply (adjacent_ordered_prefix _ _ l2). rewrite <- Hl2.
  eapply adjacent_ordered_impl; [apply cmpByQual_le|apply Hsort].
Qed.

Lemma getReadSubstrings_descending (bamChunkReads : list BamChunkRead) (poa : Poa)
    (from to : Z) (params : PolishParams) :
  adjacent_ordered (fun x y => (qualValue y <= qualValue x)%Q)
                   (getReadSubstrings stList_sort bamChunkReads poa from to params).
Proof.
  unfold getReadSubstrings, getReadSubstrings2.
  repeat match goal with |- context [if ?c then _ else _] => destruct c end;
    apply filterReadSubstrings_descending.
Qed.

Context {F : Type} (fzero : F) (computeForwardProbability : RleString -> RleString -> bool -> F).

Lemma bubbleBetweenAnchors_reads (poa : Poa) (bamChunkReads : list BamChunkRead)
    (params : PolishParams) (phasing : bool) (cws : list Q) (cvp : list bool)
    (rounds : nat) (pAnchor i : Z) (b : Bubble F) :
  bubbleBetweenAnchors stList_sort F fzero computeForwardProbability poa bamChunkReads params
    phasing cws cvp rounds pAnchor i = Some (Some b) ->
  reads b = rev (getReadSubstrings stList_sort bamChunkReads poa (pAnchor + 1) i params).
Proof.
  unfold bubbleBetweenAnchors. intros H.
  repeat case_match; simplify_eq; done.
Qed.

Lemma bubblesFromAnchors_each (P : Bubble F -> Prop) (poa : Poa)
    (bamChunkReads : list BamChunkRead) (params : PolishParams) (phasing : bool)
    (cws : list Q) (anchors cvp : list bool) (rounds : nat) (bs : list (Bubble F)) :
  (forall pAnchor i b,
     bubbleBetweenAnchors stList_sort F fzero computeForwardProbability poa bamChunkReads
       params phasing cws cvp rounds pAnchor i = Some (Some b) -> P b) ->
  bubblesFromAnchors stList_sort F fzero computeForwardProbability poa bamChunkReads params
    phasing cws anchors cvp rounds = Some bs ->
  Forall P bs.
Proof.
  intros Hstep. unfold bubblesFromAnchors.
  match goal with |- context [fold_left ?f ?l ?a] =>
    assert (Hinv : match fold_left f l a with
                   | Some (_, bubbles) => Forall P bubbles
                   | None => True
                   end) end.
  { apply fold_left_preserves; [|constructor].
    intros [[pAnchor bubbles]|] i Hacc; [|done].
    destruct (znth false anchors i); [|done].
    destruct (negb _); [|done].
    destruct (bubbleBetweenAnchors _ _ _ _ _ _ _ _ _ _ _ _ _) as [[b|]|] eqn:Hb; [|done|done].
    apply Forall_app. split; [done|]. constructor; [|constructor]. by eapply Hstep. }
  destruct (fold_left _ _ _) as [[? bubbles]|]; [|done].
  intros H. by injection H as <-.
Qed.

Lemma fillAlleleOffsets_each (P : Bubble F -> Prop) (bs : list (Bubble F)) :
  (forall b off, P b ->
     P (mkBubble (refStart b) (bubbleLength b) (refAllele b) (alleleNo b) (alleles b)
                 (readNo_ b) (reads b) (alleleReadSupports b) off
                 (variantPositionOffsets b))) ->
  Forall P bs -> Forall P (fst (fillAlleleOffsets bs)).
Proof.
  intros Hoff Hall. unfold fillAlleleOffsets.
  match goal with |- context [fold_left ?f ?l ?a] =>
    assert (Hinv : forall acc, Forall P (fst acc) -> Forall P (fst (fold_left f l acc))) end.
  { induction Hall as [|b bs' Hb Hbs IH]; intros acc Hacc; [done|]. simpl.
    apply IH. destruct acc as [done_ off]. simpl.
    apply Forall_app. split; [done|]. constructor; [|constructor]. by apply Hoff. }
  apply Hinv. constructor.
Qed.

Lemma constructFromPoaAndVCF_ascending_quality (poa : Poa) (bamChunkReads : list BamChunkRead)
    (vcfEntries : option (list VcfEntry)) (params : PolishParams) (phasing : bool)
    (rounds : nat) (bg : BubbleGraph F) :
  bubbleGraph_constructFromPoaAndVCF stList_sort F fzero computeForwardProbability poa
    bamChunkReads vcfEntries params phasing rounds = Some bg ->
  Forall (fun b => ascending_quality (reads b)) (bubbles bg).
Proof.
  unfold bubbleGraph_constructFromPoaAndVCF.
  destruct (getFilteredAnchorPositions _ _ _ _) as [anchors cvp].
  destruct (bubblesFromAnchors _ _ _ _ _ _ _ _ _ _ _ _) as [bs|] eqn:Hbs; [|done].
  apply (bubblesFromAnchors_each (fun b => ascending_quality (reads b))) in Hbs.
  - apply (fillAlleleOffsets_each (fun b => ascending_quality (reads b))) in Hbs; [|done].
    destruct (fillAlleleOffsets bs) as [bs' off]. intros H. by injection H as <-.
  - intros pAnchor i b Hb. apply bubbleBetweenAnchors_reads in Hb. rewrite Hb.
    apply (adjacent_ordered_rev (fun x y => (qualValue y <= qualValue x)%Q)).
    apply getReadSubstrings_descending.
Qed.
End ReadOrder.

Lemma cmpByQual_total (x y : BamChunkReadSubstring) :
  readSubstrings_cmpByQual x y <= 0 \/ readSubstrings_cmpByQual y x <= 0.
Proof.
  unfold readSubstrings_cmpByQual.
  destruct (Qgtb (qualValue y) (qualValue x)) eqn:E1;
    destruct (Qgtb (qualValue x) (qualValue y)) eqn:E2; try lia.
  apply Qgtb_true in E1, E2. exfalso. lra.
Qed.

Lemma insert_sorted_Sorted {A} (cmp : A -> A -> Z) (x : A) (l : list A) :
  (forall a b, cmp a b <= 0 \/ cmp b a <= 0) ->
  Sorted (fun a b => cmp a b <= 0) l ->
  Sorted (fun a b => cmp a b <= 0) (insert_sorted cmp x l).
Proof.
  intros Htot. induction 1 as [|y l Hs IH Hhd]; simpl.
  - by repeat constructor.
  - destruct (Z.leb_spec (cmp x y) 0) as [Hle|Hgt].
    + constructor; [by constructor|by constructor].
    + assert (Hyx : cmp y x <= 0) by (destruct (Htot x y); lia).
      constructor; [done|].
      destruct l as [|z l]; simpl.
      * by constructor.
      * destruct (Z.leb_spec (cmp x z) 0).
        -- by constructor.
        -- constructor. by inversion Hhd.
Qed.

Lemma insertion_sort_Sorted {A} (cmp : A -> A -> Z) (l : list A) :
  (forall a b, cmp a b <= 0 \/ cmp b a <= 0) ->
  Sorted (fun a b => cmp a b <= 0) (insertion_sort cmp l).
Proof.
  intros Htot. induction l as [|x l IH]; simpl; [constructor|].
  by apply insert_sorted_Sorted.
Qed.

Lemma Sorted_adjacent_ordered {A} (R : A -> A -> Prop) (l : list A) :
  Sorted R l -> adjacent_ordered R l.
Proof.
  induction 1 as [|x l Hs IH Hhd]; intros i a b Ha Hb; [done|].
  destruct i as [|i]; simpl in *.
  - injection Ha as <-. destruct l as [|z l]; [done|]. simpl in Hb. injection Hb as <-.
    by inversion Hhd.
  - by apply (IH i).
Qed.

Lemma insertion_sort_sorts_by_quality : sorts_by_quality (@insertion_sort).
Proof.
  intros l. apply Sorted_adjacent_ordered, insertion_sort_Sorted. apply cmpByQual_total.
Qed.

(** C10 (as the code has it).  The reads of every bubble built from the
    POA are in ascending order of their quality value: the array is
    filled by popping the list that [filterReadSubstrings] has sorted by
    descending quality.  This holds for every sorting function that
    orders by the comparison it is given. *)
Theorem C10_reads_in_ascending_quality
    (stList_sort : forall A : Type, (A -> A -> Z) -> list A -> list A)
    (F : Type) (fzero : F) (computeForwardProbability : RleString -> RleString -> bool -> F)
    (poa : Poa) (bamChunkReads : list BamChunkRead) (vcfEntries : option (list VcfEntry))
    (params : PolishParams) (phasing : bool) (rounds : nat) (bg : BubbleGraph F) :
  sorts_by_quality stList_sort ->
  bubbleGraph_constructFromPoaAndVCF stList_sort F fzero computeForwardProbability poa
    bamChunkReads vcfEntries params phasing rounds = Some bg ->
  forall b, In b (bubbles bg) -> ascending_quality (reads b).
Proof.
  intros Hsort Hbg b Hb.
  pose proof (constructFromPoaAndVCF_ascending_quality stList_sort Hsort fzero
                computeForwardProbability _ _ _ _ _ _ _ Hbg) as Hall.
  rewrite Forall_forall in Hall. apply Hall. by apply list_elem_of_In.
Qed.

Lemma C10_reads_in_ascending_quality_witness :
  sorts_by_quality (@insertion_sort) /\
  exists bg, ex_graph = Some bg /\ bubbles bg <> [] /\
    forall b, In b (bubbles bg) -> ascending_quality (reads b).
Proof.
  split; [apply insertion_sort_sorts_by_quality|].
  eexists. split; [vm_compute; reflexivity|]. split; [discriminate|].
  apply (C10_reads_in_ascending_quality (@insertion_sort) Z 0 ex_forwardProbability
           ex_read_poa ex_reads None ex_params false 3).
  - apply insertion_sort_sorts_by_quality.
  - vm_compute. reflexivity.
Defined.

(** C10 as stated fails: in the graph built from the example alignment
    the only bubble holds read 1 (quality 10) before read 0 (quality 30). *)
Lemma C10_counterexample :
  exists bg, ex_graph = Some bg /\
    map (fun b => map (fun rs => read_id (read rs)) (reads b)) (bubbles bg) = [[1%nat; 0%nat]] /\
    ~ (forall b, In b (bubbles bg) -> ascending_read_index (reads b)).
Proof.
  eexists. split; [vm_compute; reflexivity|]. split; [reflexivity|].
  intros H. specialize (H _ (or_introl eq_refl)).
  specialize (H 0%nat _ _ eq_refl eq_refl). simpl in H. lia.
Qed.

(** * Local phasing correctness *)

Lemma phaseSetIntervalsFrom_below (l : list PhasedVariant) (i prevPos : Z)
    (m : gmap string (Z * Z)) (pv : PhasedVariant) :
  l !! 0%nat = Some pv -> pv_refPos pv < prevPos ->
  phaseSetIntervalsFrom l i prevPos m = Aborts (ErrOutOfOrder (pv_refPos pv) prevPos).
Proof.
  destruct l as [|pv' l]; [done|]. intros [= ->] Hlt. simpl.
  by destruct (Z.ltb_spec (pv_refPos pv) prevPos); [|lia].
Qed.

Lemma phaseSetIntervalsFrom_out_of_order (l : list PhasedVariant) :
  out_of_order l ->
  forall (i prevPos : Z) (m : gmap string (Z * Z)),
  exists e, phaseSetIntervalsFrom l i prevPos m = Aborts e.
Proof.
  intros (k & x & y & Hx & Hy & Hlt). revert l Hx Hy.
  induction k as [|k IH]; intros l Hx Hy i prevPos m.
  - destruct l as [|x' l]; [done|]. injection Hx as ->. simpl.
    destruct (pv_refPos x <? prevPos); [by eexists|].
    eexists. by eapply phaseSetIntervalsFrom_below.
  - destruct l as [|x' l]; [done|]. simpl.
    destruct (pv_refPos x' <? prevPos); [by eexists|]. by apply IH.
Qed.

(** C9 (as the code has it).  For a decay in (0, 1], a variant that lies
    before its predecessor in the query or in the truth list ends the
    run: [phaseSetIntervals] calls [st_errAbort], nothing is skipped and
    no score is returned. *)
Theorem C9_out_of_order_is_fatal (query truth : list PhasedVariant) (decay : Q) :
  (0 < decay)%Q -> (decay <= 1)%Q ->
  out_of_order query \/ out_of_order truth ->
  exists e, phasingCorrectness query truth decay = Aborts e.
Proof.
  intros Hpos Hle Hooo. unfold phasingCorrectness.
  assert (Qgtb 0 decay = false) as -> by (apply Qgtb_false; lra).
  assert (Qgtb decay 1 = false) as -> by (by apply Qgtb_false).
  destruct (Qeq_bool decay 0) eqn:E; [apply Qeq_bool_iff in E; lra|]. simpl.
  unfold phaseSetIntervals.
  destruct (phaseSetIntervalsFrom query 0 (-1) ∅) as [qi|e] eqn:Hq; [|by exists e].
  destruct Hooo as [Hooo|Hooo].
  - destruct (phaseSetIntervalsFrom_out_of_order _ Hooo 0 (-1) ∅) as [e He]. congruence.
  - destruct (phaseSetIntervalsFrom_out_of_order _ Hooo 0 (-1) ∅) as [e He].
    simpl. rewrite He. by exists e.
Qed.

Lemma C9_out_of_order_is_fatal_witness :
  out_of_order ex_out_of_order /\
  exists e, phasingCorrectness ex_out_of_order ex_two_sets (1 # 2) = Aborts e.
Proof.
  assert (H : out_of_order ex_out_of_order).
  { exists 1%nat, (ex_variant 30 "A"), (ex_variant 20 "A"). repeat split. }
  split; [exact H|].
  apply (C9_out_of_order_is_fatal ex_out_of_order ex_two_sets (1 # 2)).
  - reflexivity.
  - discriminate.
  - left. exact H.
Defined.

(** C9 as stated fails: the run on a list whose third variant lies
    before the second is aborted, it does not go on past the record. *)
Lemma C9_counterexample :
  phasingCorrectness ex_out_of_order ex_out_of_order (1 # 2) = Aborts (ErrOutOfOrder 20 30).
Proof. reflexivity. Qed.

(** With decay 0 the order of the positions is not looked at. *)
Example switch_limit_ignores_order :
  phasingCorrectness ex_out_of_order ex_out_of_order 0 = Returns (Finite (2 # 2), 3).
Proof. reflexivity. Qed.

(** ** A list compared with itself *)

Lemma stString_eq_refl (s : cstring) : stString_eq s s = true.
Proof. unfold stString_eq. by apply bool_decide_eq_true. Qed.

Lemma stString_eq_ne (s t : cstring) : s <> t -> stString_eq s t = false.
Proof. intros. unfold stString_eq. by apply bool_decide_eq_false. Qed.

Lemma string_eqb_refl (s : string) : string_eqb s s = true.
Proof. apply String.eqb_refl. Qed.

Lemma switchStep_self (l : list PhasedVariant) (st : SwitchState) :
  Forall heterozygous l ->
  sc_i st = sc_j st -> (sc_i st < length l)%nat ->
  (prevPhaseSets st <> None -> prevInPhase st = true) ->
  switchStep l l st =
  mkSwitchState (S (sc_i st)) (S (sc_i st))
    (Some (pv_phaseSet (nth (sc_i st) l emptyVariant), pv_phaseSet (nth (sc_i st) l emptyVariant)))
    true (numPhasedVariants st + 1)
    (numCorrectlyPhasedPairs st + match prevPhaseSets st with Some _ => 1 | None => 0 end).
Proof.
  intros Hhet Hij Hlt Hprev. unfold switchStep. rewrite <- Hij.
  set (pv := nth (sc_i st) l emptyVariant).
  assert (Hpv : heterozygous pv).
  { rewrite Forall_forall in Hhet. apply Hhet. apply list_elem_of_In. by apply nth_In. }
  rewrite Z.ltb_irrefl. rewrite !stString_eq_refl.
  rewrite (stString_eq_ne _ _ Hpv).
  rewrite (stString_eq_ne (getAllele pv (pv_gt2 pv)) (getAllele pv (pv_gt1 pv)))
    by (intros E; by apply Hpv).
  simpl. f_equal.
  destruct (prevPhaseSets st) as [[pq pt]|]; [|done].
  rewrite Hprev by done. simpl. by destruct (_ && _)%bool.
Qed.

Lemma switchLoop_self (l : list PhasedVariant) :
  Forall heterozygous l ->
  forall (r fuel : nat) (st : SwitchState),
  sc_i st = sc_j st -> (sc_i st <= length l)%nat ->
  (length l - sc_i st = r)%nat -> (r <= fuel)%nat ->
  (prevPhaseSets st <> None -> prevInPhase st = true) ->
  (prevPhaseSets st = None <-> sc_i st = 0%nat) ->
  numPhasedVariants st = Z.of_nat (sc_i st) ->
  numCorrectlyPhasedPairs st = Z.max 0 (Z.of_nat (sc_i st) - 1) ->
  let st' := switchLoop l l fuel st in
  numPhasedVariants st' = Z.of_nat (length l) /\
  numCorrectlyPhasedPairs st' = Z.max 0 (Z.of_nat (length l) - 1).
Proof.
  intros Hhet. induction r as [|r IH]; intros fuel st Hij Hle Hr Hfuel Hprev Hnone Hn Hc;
    cbv zeta.
  - assert (sc_i st = length l) as Hend by lia.
    assert (switchLoop l l fuel st = st) as ->.
    { destruct fuel; [done|]. simpl.
      destruct (Nat.ltb_spec (sc_i st) (length l)); [lia|done]. }
    by rewrite Hn, Hc, Hend.
  - destruct fuel as [|fuel]; [lia|]. simpl.
    rewrite <- Hij.
    destruct (Nat.ltb_spec (sc_i st) (length l)); [|lia]. simpl.
    rewrite switchStep_self by (done || lia).
    apply IH; simpl.
    + done.
    + lia.
    + lia.
    + lia.
    + done.
    + split; [done|lia].
    + lia.
    + rewrite Hc. destruct (prevPhaseSets st) eqn:E.
      * assert (sc_i st <> 0%nat) by (intros E0; apply Hnone in E0; congruence). lia.
      * assert (sc_i st = 0%nat) by (by apply Hnone). lia.
Qed.

Lemma inject_Z_eq0 (m : Z) : (inject_Z m == 0)%Q -> m = 0.
Proof. unfold Qeq. simpl. lia. Qed.

Lemma switchCorrectness_self (l : list PhasedVariant) :
  Forall heterozygous l -> (2 <= length l)%nat ->
  exists q, switchCorrectness l l = (Finite q, Z.of_nat (length l)) /\ (q == 1)%Q.
Proof.
  intros Hhet Hlen. unfold switchCorrectness.
  destruct (switchLoop_self l Hhet (length l) (length l + length l)
              (mkSwitchState 0 0 None false 0 0)) as [Hn Hc]; simpl; try done; try lia.
  rewrite Hn, Hc. rewrite Z.max_r by lia.
  set (m := Z.of_nat (length l) - 1). assert (0 < m) by lia.
  unfold ddiv. destruct (Qeq_bool (inject_Z m) 0) eqn:E.
  - apply Qeq_bool_iff, inject_Z_eq0 in E. lia.
  - eexists. split; [done|]. apply Qmult_inv_r.
    intros E0. apply inject_Z_eq0 in E0. lia.
Qed.

Lemma adjacent_ordered_tail {A} (R : A -> A -> Prop) (x : A) (l : list A) :
  adjacent_ordered R (x :: l) -> adjacent_ordered R l.
Proof. intros H i a b Ha Hb. by apply (H (S i)). Qed.

Lemma phaseSetIntervalsFrom_returns (l : list PhasedVariant) :
  adjacent_ordered (fun x y => pv_refPos x <= pv_refPos y) l ->
  forall (i prevPos : Z) (M : gmap string (Z * Z)),
  (forall pv, l !! 0%nat = Some pv -> prevPos <= pv_refPos pv) ->
  exists I, phaseSetIntervalsFrom l i prevPos M = Returns I.
Proof.
  induction l as [|pv l IH]; intros Hord i prevPos M Hhead; simpl; [by eexists|].
  destruct (Z.ltb_spec (pv_refPos pv) prevPos) as [Hlt|_].
  - specialize (Hhead pv eq_refl). lia.
  - apply IH; [by eapply adjacent_ordered_tail|].
    intros pv' Hpv'. by apply (Hord 0%nat).
Qed.

Lemma znth_app_middle {A} (d : A) (l1 l2 : list A) (x : A) :
  znth d (l1 ++ x :: l2) (Z.of_nat (length l1)) = x.
Proof.
  unfold znth. destruct (Z.ltb_spec (Z.of_nat (length l1)) 0); [lia|].
  rewrite Nat2Z.id. by rewrite app_nth2, Nat.sub_diag by lia.
Qed.

Lemma intervals_cover_step (l : list PhasedVariant) (i : Z) (M : gmap string (Z * Z)) :
  0 <= i ->
  intervals_cover l i M ->
  intervals_cover l (i + 1)
    match M !! phaseSetAt l i with
    | None => <[phaseSetAt l i := (i, i)]> M
    | Some (first, _) => <[phaseSetAt l i := (first, i)]> M
    end.
Proof.
  intros Hi [Hent Hall]. set (P := phaseSetAt l i).
  assert (Hold : forall P' a b, P <> P' -> M !! P' = Some (a, b) ->
            0 <= a <= b /\ b < i + 1 /\ phaseSetAt l a = P' /\ phaseSetAt l b = P' /\
            forall k, 0 <= k < i + 1 -> phaseSetAt l k = P' -> a <= k <= b).
  { intros P' a b Hne HP'. destruct (Hent _ _ _ HP') as (? & ? & ? & ? & Hk').
    split; [lia|]. split; [lia|]. split; [done|]. split; [done|].
    intros k Hk HkP. apply Hk'; [|done].
    destruct (Z.eq_dec k i) as [->|]; [|lia]. by destruct Hne. }
  assert (Hsome : forall v k, 0 <= k < i + 1 -> is_Some (<[P := v]> M !! phaseSetAt l k)).
  { intros v k Hk. destruct (decide (P = phaseSetAt l k)) as [<-|Hne].
    - rewrite lookup_insert_eq. by eexists.
    - rewrite lookup_insert_ne by done. apply Hall.
      destruct (Z.eq_dec k i) as [->|]; [by destruct Hne|lia]. }
  destruct (M !! P) as [[a0 b0]|] eqn:HP.
  - destruct (Hent _ _ _ HP) as (Hab & Hb & Hpa & Hpb & Hk).
    split; [|by apply Hsome].
    intros P' a b. destruct (decide (P = P')) as [<-|Hne].
    + rewrite lookup_insert_eq. intros [= <- <-].
      split; [lia|]. split; [lia|]. split; [done|]. split; [done|].
      intros k Hk1 Hk2. destruct (Z.eq_dec k i); [lia|].
      assert (a0 <= k <= b0) by (apply Hk; [lia|done]). lia.
    + rewrite lookup_insert_ne by done. by apply Hold.
  - split; [|by apply Hsome].
    intros P' a b. destruct (decide (P = P')) as [<-|Hne].
    + rewrite lookup_insert_eq. intros [= <- <-].
      split; [lia|]. split; [lia|]. split; [done|]. split; [done|].
      intros k Hk1 Hk2. destruct (Z.eq_dec k i); [lia|].
      destruct (Hall k) as [x Hx]; [lia|]. rewrite Hk2 in Hx. congruence.
    + rewrite lookup_insert_ne by done. by apply Hold.
Qed.

Lemma phaseSetIntervalsFrom_cover (l : list PhasedVariant) :
  forall (rest done_ : list PhasedVariant) (prevPos : Z) (M I : gmap string (Z * Z)),
  l = done_ ++ rest ->
  intervals_cover l (Z.of_nat (length done_)) M ->
  phaseSetIntervalsFrom rest (Z.of_nat (length done_)) prevPos M = Returns I ->
  intervals_cover l (Z.of_nat (length l)) I.
Proof.
  induction rest as [|pv rest IH]; intros done_ prevPos M I Hl Hcov Hret.
  - simpl in Hret. injection Hret as <-. rewrite app_nil_r in Hl. by subst.
  - simpl in Hret. destruct (pv_refPos pv <? prevPos); [done|].
    assert (Hpv : pv_phaseSet pv = phaseSetAt l (Z.of_nat (length done_))).
    { unfold phaseSetAt. by rewrite Hl, znth_app_middle. }
    rewrite Hpv in Hret.
    assert (Hlen : Z.of_nat (length (done_ ++ [pv])) = Z.of_nat (length done_) + 1).
    { rewrite length_app. simpl. lia. }
    eapply (IH (done_ ++ [pv])).
    + by rewrite <- app_assoc.
    + rewrite Hlen. apply intervals_cover_step; [lia|exact Hcov].
    + rewrite Hlen. exact Hret.
Qed.

Lemma phaseSetIntervals_ordered (l : list PhasedVariant) :
  in_position_order l ->
  exists I, phaseSetIntervals l = Returns I /\ intervals_cover l (Z.of_nat (length l)) I.
Proof.
  intros [Hord Hpos]. unfold phaseSetIntervals.
  destruct (phaseSetIntervalsFrom_returns l Hord 0 (-1) ∅) as [I HI].
  { intros pv Hpv. rewrite Forall_forall in Hpos.
    assert (0 <= pv_refPos pv); [|lia]. apply Hpos. by eapply list_elem_of_lookup_2. }
  exists I. split; [done|].
  apply (phaseSetIntervalsFrom_cover l l [] (-1) ∅ I); [done| |done].
  split; [intros P a b; by rewrite lookup_empty|]. simpl. intros. lia.
Qed.

Lemma znth_lookup {A} (d : A) (l : list A) (k : Z) :
  0 <= k < Z.of_nat (length l) -> l !! Z.to_nat k = Some (znth d l k).
Proof.
  intros H. unfold znth. destruct (Z.ltb_spec k 0); [lia|].
  rewrite nth_lookup. destruct (l !! Z.to_nat k) eqn:E; [done|].
  apply lookup_ge_None in E. lia.
Qed.

Section SelfSweep.
Variable l : list PhasedVariant.
Variable d : Q.
Variable I : gmap string (Z * Z).
Hypothesis Hhet : Forall heterozygous l.
Hypothesis Hd : (0 < d)%Q.
Hypothesis Hcov : intervals_cover l (Z.of_nat (length l)) I.
Hypothesis Hcontig : contiguous_phase_sets l.

Lemma interval_phaseSet (P : string) (a b k : Z) :
  I !! P = Some (a, b) -> a <= k <= b -> phaseSetAt l k = P.
Proof.
  intros HP Hk. destruct Hcov as [Hent _].
  destruct (Hent _ _ _ HP) as (Hab & Hb & Hpa & Hpb & _).
  rewrite <- Hpa. unfold phaseSetAt.
  apply (Hcontig (Z.to_nat a) (Z.to_nat k) (Z.to_nat b)
           (znth emptyVariant l a) (znth emptyVariant l k) (znth emptyVariant l b)).
  - lia.
  - apply znth_lookup. lia.
  - apply znth_lookup. lia.
  - apply znth_lookup. lia.
  - unfold phaseSetAt in Hpa, Hpb. congruence.
Qed.

Lemma interval_of_index (k : Z) :
  0 <= k < Z.of_nat (length l) ->
  exists a b, I !! phaseSetAt l k = Some (a, b) /\ a <= k <= b.
Proof.
  intros Hk. destruct Hcov as [Hent Hall].
  destruct (Hall k Hk) as [[a b] Hab]. exists a, b. split; [done|].
  destruct (Hent _ _ _ Hab) as (_ & _ & _ & _ & Hin). by apply Hin.
Qed.

Lemma heterozygous_at (k : Z) :
  0 <= k < Z.of_nat (length l) -> heterozygous (znth emptyVariant l k).
Proof.
  intros Hk. rewrite Forall_forall in Hhet. apply Hhet.
  eapply list_elem_of_lookup_2. by apply znth_lookup.
Qed.

(** The out-of-scope check on the single sum of the phase set of [k],
    when the sweep moves on to [k']. *)
Lemma checkOutOfScope_single (k k' : Z) (s : PartialPhaseSums) (t p pt o : Q) (n : Z) :
  0 <= k < Z.of_nat (length l) ->
  queryPhaseSet s = phaseSetAt l k -> truthPhaseSet s = phaseSetAt l k ->
  forall st', st' = checkOutOfScope I I (mkSweepState k' k' [s] t p pt o n) ->
  sw_i st' = k' /\ sw_j st' = k' /\ totalSum st' = t /\ partitionSum st' = p /\
  partitionTotalSum st' = pt /\ numPhased st' = n /\
  ((phaseSetPartialSums st' = [] /\ outOfScopeSum st' = (o + unphasedSum s)%Q) \/
   (phaseSetPartialSums st' = [s] /\ outOfScopeSum st' = o /\
    exists a b, I !! queryPhaseSet s = Some (a, b) /\ a <= k' <= b)).
Proof.
  intros Hk Hq Ht st' ->. destruct (interval_of_index k Hk) as (a & b & Hab & Hin).
  unfold checkOutOfScope. cbn -[Z.ltb]. rewrite Hq, Ht, Hab. cbn -[Z.ltb].
  destruct (Z.ltb_spec k' a); cbn -[Z.ltb].
  { repeat split. by left. }
  destruct (Z.ltb_spec b k'); cbn -[Z.ltb].
  { repeat split. by left. }
  repeat split. right. repeat split. exists a, b. split; [done|lia].
Qed.
Lemma sweepStep_self (forward : bool) (k : Z) (st : SweepState) :
  self_sweep_inv (Z.of_nat (length l)) I forward k st ->
  0 <= k < Z.of_nat (length l) ->
  self_sweep_inv (Z.of_nat (length l)) I forward (k + (if forward then 1 else -1))
    (sweepStep l l d I I forward st).
Proof.
  intros (Hi & Hj & Hsums & Htot & Ho & Hp & Hpt & Hn & Hp1 & Hpt2) Hk.
  destruct st as [i j sums t p pt o np]. simpl in Hi, Hj, Htot, Ho, Hp, Hpt, Hn, Hp1, Hpt2.
  subst i j. unfold self_sums_ok in Hsums. simpl in Hsums.
  unfold sweepStep.
  cbn [sw_i sw_j phaseSetPartialSums totalSum partitionSum partitionTotalSum outOfScopeSum
       numPhased].
  set (pv := znth emptyVariant l k).
  pose proof (heterozygous_at k Hk) as Hpv. fold pv in Hpv.
  rewrite Z.ltb_irrefl. rewrite !stString_eq_refl.
  rewrite (stString_eq_ne _ _ Hpv).
  rewrite (stString_eq_ne (getAllele pv (pv_gt2 pv)) (getAllele pv (pv_gt1 pv)))
    by (intros E; by apply Hpv).
  cbn [andb orb negb Z.b2z].
  change (2 <? 1 + 0 + 0 + 1) with false. cbv iota.
  set (k' := k + (if forward then 1 else -1)).
  assert (Hsteps : np + 1 = steps_done (Z.of_nat (length l)) forward k').
  { subst np k'. unfold steps_done. destruct forward; lia. }
  assert (Hpos : (0 < (p + 1) * d)%Q) by (apply Qmult_lt_0_compat; lra).
  assert (Hod : (0 <= o * d)%Q) by (apply Qmult_le_0_compat; lra).
  assert (Hptp : 2 <= np + 1 -> (0 < pt + p)%Q).
  { intros. assert (0 < p)%Q by (apply Hp1; lia). lra. }
  destruct sums as [|s [|s2 sums]]; [| |done].
  - cbn [addToPartialSums fold_left app map].
    match goal with |- self_sweep_inv _ _ _ _ ?X => set (st' := X) end.
    destruct (checkOutOfScope_single k k'
                (decaySums d (mkPartialPhaseSums (pv_phaseSet pv) (pv_phaseSet pv) 1 1 0))
                (t + o) ((p + 1) * d) (pt + p) (o * d) (np + 1) Hk eq_refl eq_refl st' eq_refl)
      as (E1 & E2 & E3 & E4 & E5 & E6 & [[E7 E8]|(E7 & E8 & E9)]);
      unfold self_sweep_inv, self_sums_ok; rewrite E1, E2, E3, E4, E5, E6, E7, E8;
      cbn [decaySums unphasedSum phaseSum1 queryPhaseSet truthPhaseSet] in *.
    + repeat split; try done; try lra.
      rewrite Hsums. ring.
    + assert (0 <= 1 * d)%Q by lra.
      repeat split; try done; try lra.
      rewrite Hsums. ring.
  - destruct Hsums as (Hqt & (a & b & HI & Hab) & Hu & Hpeq & Hp1s).
    assert (HP : pv_phaseSet pv = queryPhaseSet s).
    { change (pv_phaseSet pv) with (phaseSetAt l k). by eapply interval_phaseSet. }
    unfold addToPartialSums. cbn [fold_left app].
    rewrite <- Hqt, HP, string_eqb_refl. cbn [andb app map].
    match goal with |- self_sweep_inv _ _ _ _ ?X => set (st' := X) end.
    assert (Hud : (0 <= (unphasedSum s + 1) * d)%Q) by (apply Qmult_le_0_compat; lra).
    assert (Hpd : (0 <= (phaseSum1 s + 1) * d)%Q) by (apply Qmult_le_0_compat; lra).
    destruct (checkOutOfScope_single k k'
                (decaySums d (mkPartialPhaseSums (queryPhaseSet s) (queryPhaseSet s)
                                (unphasedSum s + 1) (phaseSum1 s + 1) (phaseSum2 s)))
                (t + phaseSum1 s + o) ((p + 1) * d) (pt + p) (o * d) (np + 1) Hk
                (eq_sym HP) (eq_sym HP) st' eq_refl)
      as (E1 & E2 & E3 & E4 & E5 & E6 & [[E7 E8]|(E7 & E8 & E9)]);
      unfold self_sweep_inv, self_sums_ok; rewrite E1, E2, E3, E4, E5, E6, E7, E8;
      cbn [decaySums unphasedSum phaseSum1 queryPhaseSet truthPhaseSet] in *.
    + repeat split; try done; try lra.
      rewrite Hpeq, Hu. ring.
    + repeat split; try done; try lra.
      * rewrite Hu. ring.
      * rewrite Hpeq. ring.
Qed.
Lemma sweepLoop_self (forward : bool) :
  forall (r fuel : nat) (k : Z) (st : SweepState),
  self_sweep_inv (Z.of_nat (length l)) I forward k st ->
  (if forward then 0 <= k else k < Z.of_nat (length l)) ->
  Z.of_nat r = (if forward then Z.of_nat (length l) - k else k + 1) ->
  (r <= fuel)%nat ->
  self_sweep_inv (Z.of_nat (length l)) I forward
    (if forward then Z.of_nat (length l) else -1)
    (sweepLoop l l d I I forward fuel st).
Proof.
  induction r as [|r IH]; intros fuel k st Hinv Hk Hr Hfuel.
  - assert (Hend : k = if forward then Z.of_nat (length l) else -1)
      by (destruct forward; lia).
    assert (sweepLoop l l d I I forward fuel st = st) as ->; [|by rewrite <- Hend].
    destruct fuel; [done|]. simpl. unfold sweepRunning.
    destruct Hinv as (-> & -> & _).
    destruct forward; subst k.
    + destruct (Z.ltb_spec (Z.of_nat (length l)) (Z.of_nat (length l))); [lia|].
      by rewrite !andb_false_r.
    + done.
  - destruct fuel as [|fuel]; [lia|]. simpl.
    assert (Hin : 0 <= k < Z.of_nat (length l)) by (destruct forward; lia).
    assert (sweepRunning l l st = true) as ->.
    { unfold sweepRunning. destruct Hinv as (-> & -> & _).
      destruct (Z.leb_spec 0 k); [|lia].
      destruct (Z.ltb_spec k (Z.of_nat (length l))); [done|lia]. }
    apply (IH fuel (k + (if forward then 1 else -1))).
    + by apply sweepStep_self.
    + destruct forward; lia.
    + destruct forward; lia.
    + lia.
Qed.

Lemma phasingCorrectnessInternal_self (forward : bool) :
  (2 <= length l)%nat ->
  exists total partition : Q,
    phasingCorrectnessInternal l l d I I forward = (total, partition, Z.of_nat (length l)) /\
    (total == partition)%Q /\ (0 < partition)%Q.
Proof.
  intros Hlen. unfold phasingCorrectnessInternal.
  set (st0 := if forward then mkSweepState 0 0 [] 0 0 0 0 0
              else mkSweepState (Z.of_nat (length l) - 1) (Z.of_nat (length l) - 1)
                                [] 0 0 0 0 0).
  set (k0 := if forward then 0 else Z.of_nat (length l) - 1).
  assert (Hinv0 : self_sweep_inv (Z.of_nat (length l)) I forward k0 st0).
  { unfold self_sweep_inv, self_sums_ok, steps_done. subst st0 k0.
    destruct forward; simpl; repeat split; try lia; try lra. }
  pose proof (sweepLoop_self forward (length l) (length l + length l) k0 st0 Hinv0) as Hfin.
  destruct Hfin as (_ & _ & _ & Htot & _ & _ & _ & Hn & _ & Hpos).
  { subst k0. destruct forward; lia. }
  { subst k0. destruct forward; lia. }
  { lia. }
  eexists _, _. split; [|split; [exact Htot|]].
  - f_equal. rewrite Hn. unfold steps_done. destruct forward; lia.
  - apply Hpos. rewrite Hn. unfold steps_done. destruct forward; lia.
Qed.
End SelfSweep.



Lemma ex_two_sets_contiguous : contiguous_phase_sets ex_two_sets.
Proof.
  intros a b c x y z Hle Ha Hb Hc Heq.
  destruct a as [|[|[|[|a]]]]; destruct b as [|[|[|[|b]]]]; destruct c as [|[|[|[|c]]]];
    simpl in *; simplify_eq; try done; lia.
Qed.

Lemma ex_two_sets_ordered : in_position_order ex_two_sets.
Proof.
  split.
  - intros i x y Hx Hy. destruct i as [|[|[|[|i]]]]; simpl in *; simplify_eq; simpl; lia.
  - repeat constructor; simpl; lia.
Qed.

Lemma ex_two_sets_heterozygous : Forall heterozygous ex_two_sets.
Proof. repeat constructor; discriminate. Qed.



(** When phase sets interleave (A, B, A, C) the forward sweep counts the
    B variant twice, once through each of the sums that it has been
    added to, and the score of a list against itself exceeds 1. *)
Example interleaved_phase_sets_overshoot :
  phasingCorrectnessInternal ex_interleaved ex_interleaved 1
    (list_to_map [("A"%string, (0, 2)); ("B"%string, (1, 1)); ("C"%string, (3, 3))])
    (list_to_map [("A"%string, (0, 2)); ("B"%string, (1, 1)); ("C"%string, (3, 3))]) true
  = (7%Q, 6%Q, 4) /\
  phasingCorrectness ex_interleaved ex_interleaved 1 = Returns (Finite (13 # 12), 4).
Proof. split; reflexivity. Qed.

(** A variant that is passed over (here one whose two alleles are the
    same, at the end of phase set A) is passed over together with the
    check for phase sets that have fallen out of scope: the partial sum
    of A lives one variant too long and counts the first variant of B,
    and the score of the list against itself exceeds 1. *)
Example skipped_variant_overshoot :
  phasingCorrectness ex_with_homozygous ex_with_homozygous 1 = Returns (Finite (7 # 6), 3).
Proof. reflexivity. Qed.

(** * The reference allele of a bubble *)

(** ** Encoding an expansion again *)

Lemma ascii_eqb_refl (c : ascii) : ascii_eqb c c = true.
Proof. apply Ascii.eqb_refl. Qed.

Lemma ascii_eqb_ne (a b : ascii) : a <> b -> ascii_eqb a b = false.
Proof. intros H. by apply Ascii.eqb_neq. Qed.

Lemma runs_head (s : cstring) :
  match s with
  | [] => runs s = []
  | c :: _ => exists n rs, runs s = (c, n) :: rs
  end.
Proof.
  destruct s as [|c s]; [done|]. simpl.
  destruct (runs s) as [|[c' m] rs]; [by eexists _, _|].
  destruct (ascii_eqb c c'); by eexists _, _.
Qed.

Lemma runs_repeat (c : ascii) (n : nat) (rest : cstring) :
  (1 <= n)%nat ->
  match rest with [] => True | c' :: _ => c <> c' end ->
  runs (repeat c n ++ rest) = (c, Z.of_nat n) :: runs rest.
Proof.
  intros Hn Hrest. destruct n as [|n]; [lia|]. clear Hn.
  induction n as [|n IH].
  - simpl. pose proof (runs_head rest) as Hh. destruct rest as [|c' rest'].
    + by rewrite Hh.
    + destruct Hh as (m & rs & ->). by rewrite ascii_eqb_ne.
  - change (repeat c (S (S n)) ++ rest) with (c :: (repeat c (S n) ++ rest)).
    cbn [runs]. rewrite IH, ascii_eqb_refl. f_equal. f_equal. lia.
Qed.

Lemma expand_pairs_head (c : ascii) (cs : cstring) (n : Z) (ns : list Z) :
  1 <= n -> exists s, expand_pairs (c :: cs) (n :: ns) = c :: s.
Proof.
  intros Hn. simpl. unfold expandChar.
  destruct (Z.to_nat n) as [|k] eqn:E; [lia|]. simpl. by eexists.
Qed.

Lemma construct_expand_rle (cs : cstring) :
  forall ns : list Z,
  length cs = length ns -> Forall (fun n => 1 <= n) ns ->
  (forall i a b, cs !! i = Some a -> cs !! S i = Some b -> a <> b) ->
  runs (expand_pairs cs ns) = combine cs ns.
Proof.
  induction cs as [|c cs IH]; intros ns Hlen Hpos Hadj; [done|].
  destruct ns as [|n ns]; [done|]. apply Forall_cons in Hpos as [Hn Hpos].
  cbn [expand_pairs combine]. unfold expandChar. rewrite runs_repeat.
  - rewrite Z2Nat.id by lia. f_equal. apply IH; [by injection Hlen|done|].
    intros i a b Ha Hb. by apply (Hadj (S i)).
  - lia.
  - destruct cs as [|c' cs']; [done|]. destruct ns as [|n' ns']; [done|].
    apply Forall_cons in Hpos as [Hn' _].
    destruct (expand_pairs_head c' cs' n' ns' Hn') as (s & ->).
    by apply (Hadj 0%nat).
Qed.

Lemma expand_pairs_units (cs : cstring) :
  forall ns : list Z,
  length cs = length ns -> Forall (fun n => n = 1) ns ->
  expand_pairs cs ns = cs /\ map (fun _ => 1) cs = ns.
Proof.
  induction cs as [|c cs IH]; intros ns Hlen Hall; destruct ns as [|n ns]; try done.
  apply Forall_cons in Hall as [-> Hall]. simpl.
  destruct (IH ns) as [-> ->]; [by injection Hlen|done|done].
Qed.

Lemma map_combine {A B} (l : list A) :
  forall l' : list B, length l = length l' ->
  map fst (combine l l') = l /\ map snd (combine l l') = l'.
Proof.
  induction l as [|x l IH]; intros [|y l'] Hlen; try done. simpl.
  destruct (IH l') as [-> ->]; [by injection Hlen|done].
Qed.

Lemma construct_expand (useRLE : bool) (r : RleString) :
  rle_wf useRLE r -> construct_by_mode useRLE (rleString_expand r) = r.
Proof.
  destruct r as [cs ns]. unfold rle_wf, construct_by_mode, rleString_expand. simpl.
  intros [Hlen Hwf]. destruct useRLE.
  - destruct Hwf as [Hpos Hadj]. unfold rleString_construct.
    rewrite construct_expand_rle by done.
    by destruct (map_combine cs ns Hlen) as [-> ->].
  - unfold rleString_construct_no_rle.
    by destruct (expand_pairs_units cs ns Hlen Hwf) as [-> ->].
Qed.

Lemma sublist_lookup {A} (start len : Z) (l : list A) (i : nat) (x : A) :
  sublist start len l !! i = Some x -> l !! (Z.to_nat start + i)%nat = Some x.
Proof.
  unfold sublist. intros H. apply lookup_take_Some in H as [H _].
  by rewrite lookup_drop in H.
Qed.

Lemma length_sublist {A B} (start len : Z) (l : list A) (l' : list B) :
  length l = length l' -> length (sublist start len l) = length (sublist start len l').
Proof. intros H. unfold sublist. by rewrite !length_take, !length_drop, H. Qed.

Lemma Forall_sublist {A} (P : A -> Prop) (start len : Z) (l : list A) :
  Forall P l -> Forall P (sublist start len l).
Proof. intros H. unfold sublist. by apply Forall_take, Forall_drop. Qed.

Lemma copySubstring_wf (useRLE : bool) (r : RleString) (start len : Z) :
  rle_wf useRLE r -> rle_wf useRLE (rleString_copySubstring r start len).
Proof.
  intros [Hlen Hwf]. split; [by apply length_sublist|]. simpl. destruct useRLE.
  - destruct Hwf as [Hpos Hadj]. split; [by apply Forall_sublist|].
    intros i a b Ha Hb. apply sublist_lookup in Ha, Hb.
    apply (Hadj (Z.to_nat start + i)%nat); [done|]. by rewrite <- Nat.add_succ_r.
  - by apply Forall_sublist.
Qed.

(** ** The reference allele in the bubbles of the other builders *)

Lemma appendIfMissing_In (alleles : list cstring) (x : cstring) :
  In x (appendIfMissing alleles x).
Proof.
  unfold appendIfMissing. destruct (existsb _ _) eqn:E.
  - apply existsb_exists in E as (y & Hy & Heq).
    unfold stString_eq in Heq. apply bool_decide_eq_true in Heq. by subst.
  - apply in_or_app. right. by left.
Qed.

Section ReferenceAllele.
Variable stList_sort : forall A : Type, (A -> A -> Z) -> list A -> list A.
Context {F : Type} (fzero : F) (computeForwardProbability : RleString -> RleString -> bool -> F).
Variable getAlleleSubstrings2 :
  VcfEntry -> cstring -> Z -> Z -> bool -> list AlleleCell * Z * Z.

Lemma bubbleBetweenAnchors_reference (poa : Poa) (bamChunkReads : list BamChunkRead)
    (params : PolishParams) (phasing : bool) (cws : list Q) (cvp : list bool)
    (rounds : nat) (pAnchor i : Z) (b : Bubble F) :
  rle_wf (useRunLengthEncoding params) (refString poa) ->
  bubbleBetweenAnchors stList_sort F fzero computeForwardProbability poa bamChunkReads params
    phasing cws cvp rounds pAnchor i = Some (Some b) ->
  In (refAllele b) (alleles b) /\ 2 <= alleleNo b.
Proof.
  intros Hwf. unfold bubbleBetweenAnchors.
  destruct (0 <? _); [|done].
  match goal with |- match ?o with Some _ => _ | None => _ end = _ -> _ =>
    destruct o as [alleles_|] end; [|done].
  destruct (1 <? _) eqn:Hlen; [|done].
  intros Hb. injection Hb as <-. simpl. split.
  - apply in_map_iff.
    exists (rleString_expand (rleString_copySubstring (refString poa) pAnchor (i - 1 - pAnchor))).
    split; [|apply appendIfMissing_In].
    apply construct_expand. by apply copySubstring_wf.
  - apply Z.ltb_lt in Hlen. lia.
Qed.

(** In every bubble that [bubbleGraph_constructFromPoaAndVCF] makes
    from an alignment whose reference string is well formed for the
    mode, the reference allele is one of at least two alleles. *)
Lemma constructFromPoaAndVCF_reference_allele (poa : Poa) (bamChunkReads : list BamChunkRead)
    (vcfEntries : option (list VcfEntry)) (params : PolishParams) (phasing : bool)
    (rounds : nat) (bg : BubbleGraph F) :
  rle_wf (useRunLengthEncoding params) (refString poa) ->
  bubbleGraph_constructFromPoaAndVCF stList_sort F fzero computeForwardProbability poa
    bamChunkReads vcfEntries params phasing rounds = Some bg ->
  Forall (fun b => In (refAllele b) (alleles b) /\ 2 <= alleleNo b) (bubbles bg).
Proof.
  intros Hwf. unfold bubbleGraph_constructFromPoaAndVCF.
  destruct (getFilteredAnchorPositions _ _ _ _) as [anchors cvp].
  destruct (bubblesFromAnchors _ _ _ _ _ _ _ _ _ _ _ _) as [bs|] eqn:Hbs; [|done].
  pose proof (fillAlleleOffsets_each
                (fun b => In (refAllele b) (alleles b) /\ 2 <= alleleNo b) bs) as Hoff.
  destruct (fillAlleleOffsets bs) as [bs' off]. intros H. injection H as <-. simpl.
  apply Hoff; [done|].
  eapply bubblesFromAnchors_each; [|exact Hbs].
  intros pAnchor i b Hb. eapply bubbleBetweenAnchors_reference; [|exact Hb]. exact Hwf.
Qed.

(** In every bubble that the builder from the VCF entries and the
    alignment makes, the reference allele is the first allele. *)
Lemma constructFromPoaAndVCFOnlyVCFAllele_reference_allele (poa : Poa)
    (bamChunkReads : list BamChunkRead) (referenceSeqRLE : RleString)
    (vcfEntries : list VcfEntry) (params : PolishParams) :
  Forall (fun b => refAllele b = nth 0 (alleles b) emptyRle /\
                   alleleNo b = to_uint64 (Z.of_nat (length (alleles b))))
         (bubbles (bubbleGraph_constructFromPoaAndVCFOnlyVCFAllele stList_sort F fzero
                     computeForwardProbability getAlleleSubstrings2 poa bamChunkReads
                     referenceSeqRLE vcfEntries params)).
Proof.
  unfold bubbleGraph_constructFromPoaAndVCFOnlyVCFAllele.
  match goal with |- context [fillAlleleOffsets ?bs] =>
    pose proof (fillAlleleOffsets_each
      (fun b => refAllele b = nth 0 (alleles b) emptyRle /\
                alleleNo b = to_uint64 (Z.of_nat (length (alleles b)))) bs) as Hoff;
    destruct (fillAlleleOffsets bs) as [bs' off] end.
  simpl. apply Hoff; [done|].
  apply fold_left_preserves; [|constructor].
  intros bs v Hbs.
  destruct (getAlleleSubstrings2 _ _ _ _ _) as [[alleles_ refStartPos] refEndPosIncl].
  destruct (_ =? 0); [done|].
  apply Forall_app. split; [done|]. constructor; [|constructor]. simpl.
  split; [|by rewrite length_map].
  unfold rleString_copy. by destruct alleles_.
Qed.
End ReferenceAllele.

(** C1 (evaluation).  The builder driven by the VCF entries of the
    reads takes the first allele substring of the entry through
    [char *] and run-length encodes what it finds there, whereas the
    alleles of the bubble are copies of the same elements taken through
    [RleString *]: the bubble of the example entry has the two alleles
    A and C, and its reference allele is neither. *)
Theorem C1_vcf_builder_reference_allele_missing :
  exists b,
    bubbles (fst ex_vcf_graph) = [b] /\
    alleleNo b = 2 /\
    alleles b = [mkRle (cstr "A") [1]; mkRle (cstr "C") [1]] /\
    bubble_getReferenceAlleleIndex b = -1 /\
    ~ In (refAllele b) (alleles b).
Proof.
  eexists. split; [vm_compute; reflexivity|].
  repeat split. simpl. intros [H|[H|[]]]; discriminate.
Qed.

(** * Consensus stitching *)

(** ** The reference path on a graph whose bubbles lie on the reference *)

Lemma sublist_app {A} (a b c : Z) (l : list A) :
  0 <= a <= b -> b <= c ->
  sublist a (b - a) l ++ sublist b (c - b) l = sublist a (c - a) l.
Proof.
  intros Hab Hbc. unfold sublist.
  replace (Z.to_nat b) with (Z.to_nat a + Z.to_nat (b - a))%nat by lia.
  rewrite <- drop_drop, take_take_drop. f_equal. lia.
Qed.

Lemma length_sublist_in {A} (a n : Z) (l : list A) :
  0 <= a -> 0 <= n -> a + n <= Z.of_nat (length l) -> Z.of_nat (length (sublist a n l)) = n.
Proof. intros Ha Hn Hl. unfold sublist. rewrite length_take, length_drop. lia. Qed.

Lemma znth_sublist {A} (d : A) (a n i : Z) (l : list A) :
  0 <= a -> 0 <= i < n -> a + n <= Z.of_nat (length l) ->
  znth d (sublist a n l) i = znth d l (a + i).
Proof.
  intros Ha Hi Hl. unfold znth, sublist.
  destruct (Z.ltb_spec i 0); [lia|]. destruct (Z.ltb_spec (a + i) 0); [lia|].
  rewrite !nth_lookup, lookup_take, lookup_drop by lia.
  case_decide; [|lia]. do 2 f_equal. lia.
Qed.

Lemma expand_pairs_app (cs1 cs2 : cstring) (ns1 ns2 : list Z) :
  length cs1 = length ns1 ->
  expand_pairs (cs1 ++ cs2) (ns1 ++ ns2) = expand_pairs cs1 ns1 ++ expand_pairs cs2 ns2.
Proof.
  revert ns1. induction cs1 as [|c cs1 IH]; intros [|n ns1] Hlen; try done.
  simpl. rewrite IH by (by injection Hlen). by rewrite app_assoc.
Qed.

Section ReferencePath.
Variable ref : RleString.
Variable useRLE : bool.
Hypothesis ref_wf : rle_wf useRLE ref.
Hypothesis ref_no_gap : ~ In "-"%char (rleString ref).


Lemma ref_lengths : Z.of_nat (length (repeatCounts ref)) = rle_length ref.
Proof. destruct ref_wf as [H _]. unfold rle_length. by rewrite H. Qed.

Lemma expand_pieces (a b c : Z) :
  0 <= a <= b -> b <= c ->
  rleString_expand (rleString_copySubstring ref a (b - a))
  ++ rleString_expand (rleString_copySubstring ref b (c - b))
  = rleString_expand (rleString_copySubstring ref a (c - a)).
Proof.
  intros Hab Hbc. unfold rleString_expand, rleString_copySubstring. simpl.
  rewrite <- expand_pairs_app.
  - by rewrite !sublist_app.
  - apply length_sublist. by destruct ref_wf.
Qed.

Lemma expand_whole :
  rleString_expand (rleString_copySubstring ref 0 (rle_length ref)) = rleString_expand ref.
Proof.
  unfold rleString_expand, rleString_copySubstring, sublist. simpl.
  rewrite !drop_0, !take_ge; [done| |].
  - pose proof ref_lengths. lia.
  - unfold rle_length. lia.
Qed.

Lemma rle_length_piece (a n : Z) :
  0 <= a -> 0 <= n -> a + n <= rle_length ref ->
  rle_length (rleString_copySubstring ref a n) = n.
Proof. intros. unfold rle_length at 1. simpl. by apply length_sublist_in. Qed.

Lemma firstChar_piece (a n : Z) :
  0 <= a -> 1 <= n -> a + n <= rle_length ref ->
  firstChar (rleString_copySubstring ref a n) = znth NUL (rleString ref) a.
Proof.
  intros. unfold firstChar. simpl. rewrite znth_sublist by (unfold rle_length in *; lia).
  f_equal. lia.
Qed.

Lemma lastChar_piece (a n : Z) :
  0 <= a -> 1 <= n -> a + n <= rle_length ref ->
  lastChar (rleString_copySubstring ref a n) = znth NUL (rleString ref) (a + n - 1).
Proof.
  intros. unfold lastChar. rewrite rle_length_piece by lia. simpl.
  rewrite znth_sublist by (unfold rle_length in *; lia). f_equal. lia.
Qed.

(** With run-length encoding on, no position of the reference has the
    base that the stitcher holds as the previous one. *)
Lemma no_squash (K : Z) :
  0 <= K < rle_length ref ->
  (useRLE && ascii_eqb (znth NUL (rleString ref) K)
                       (if K =? 0 then "-"%char else znth NUL (rleString ref) (K - 1)))%bool
  = false.
Proof.
  intros HK. pose proof ref_wf as [_ Hwf]. pose proof ref_no_gap as Hgap.
  destruct useRLE; [|done]. simpl. apply ascii_eqb_ne.
  destruct Hwf as [_ Hadj]. unfold rle_length in HK.
  destruct (Z.eqb_spec K 0) as [->|Hne].
  - intros E. apply Hgap. rewrite <- E. unfold znth. simpl.
    apply nth_In. lia.
  - intros E. unfold znth in E.
    destruct (Z.ltb_spec K 0); [lia|]. destruct (Z.ltb_spec (K - 1) 0); [lia|].
    rewrite !nth_lookup in E.
    destruct (rleString ref !! Z.to_nat (K - 1)) as [a|] eqn:Ha;
      [|apply lookup_ge_None in Ha; lia].
    destruct (rleString ref !! Z.to_nat K) as [b|] eqn:Hb;
      [|apply lookup_ge_None in Hb; lia].
    simpl in E. subst b. apply (Hadj (Z.to_nat (K - 1)) a a); [done| |done].
    by replace (S (Z.to_nat (K - 1))) with (Z.to_nat K) by lia.
Qed.

Lemma rleString_eq_true (a b : RleString) : rleString_eq a b = true -> a = b.
Proof.
  unfold rleString_eq. intros H. apply andb_true_iff in H as [H1 H2].
  apply bool_decide_eq_true in H1, H2. destruct a, b. simpl in *. by subst.
Qed.

Lemma rleString_eq_refl (a : RleString) : rleString_eq a a = true.
Proof. unfold rleString_eq. by rewrite !bool_decide_eq_true_2. Qed.

Lemma stitched_prefix (st : ConsensusState) (K stop : Z) :
  stitched_upto ref K st -> K < stop <= rle_length ref ->
  let refSubString := rleString_copySubstring ref (cs_k st) (stop - cs_k st) in
  let k := if (useRLE && ascii_eqb (firstChar refSubString) (previousBase st))%bool
           then cs_k st + 1 else cs_k st in
  stitched_upto ref stop
    (let '(m, j, k) := mapRun (cs_map st) (cs_j st) k stop in
     mkConsensusState (consensusSubstrings st ++ [rleString_expand refSubString])
                      (lastChar refSubString) j k m).
Proof.
  intros (HK & Hk & Hj & Hcat & Hprev) Hstop. cbv zeta.
  rewrite Hk, Hj, Hprev, firstChar_piece, no_squash by lia.
  unfold mapRun, stitched_upto. simpl.
  split; [lia|]. split; [lia|]. split; [lia|]. split.
  - rewrite concat_app, Hcat. simpl. rewrite app_nil_r.
    replace K with (K - 0) at 1 by lia.
    rewrite expand_pieces by lia. by rewrite Z.sub_0_r.
  - rewrite lastChar_piece by lia.
    destruct (Z.eqb_spec stop 0); [lia|]. f_equal. lia.
Qed.

Lemma consensusBubbleStep_reference {F} (st : ConsensusState) (b : Bubble F)
    (choice K : Z) :
  stitched_upto ref K st ->
  K <= refStart b -> 1 <= rle_length (refAllele b) ->
  refAllele b = rleString_copySubstring ref (refStart b) (rle_length (refAllele b)) ->
  refStart b + rle_length (refAllele b) <= rle_length ref ->
  rleString_eq (znth emptyRle (alleles b) choice) (refAllele b) = true ->
  stitched_upto ref (refStart b + rle_length (refAllele b))
                (consensusBubbleStep ref useRLE st b choice).
Proof.
  intros Hst HK Hlen Href Hend Hpick. unfold consensusBubbleStep.
  set (st1 := if cs_k st <? refStart b then _ else st).
  assert (H1 : stitched_upto ref (refStart b) st1).
  { subst st1. pose proof Hst as (HK0 & Hk & _).
    destruct (Z.ltb_spec (cs_k st) (refStart b)) as [Hlt|Hge].
    - apply (stitched_prefix st K); [done|lia].
    - by replace (refStart b) with K by lia. }
  clearbody st1.
  apply rleString_eq_true in Hpick. rewrite Hpick, rleString_eq_refl.
  remember (rle_length (refAllele b)) as len eqn:Hl. rewrite Href.
  destruct H1 as (HK1 & Hk & Hj & Hcat & Hprev).
  rewrite Hk, Hj, Hprev.
  rewrite firstChar_piece, no_squash by lia.
  unfold mapRun, stitched_upto. simpl.
  split; [lia|]. split; [lia|]. split; [lia|]. split.
  - rewrite concat_app, Hcat. simpl. rewrite app_nil_r.
    replace (refStart b) with (refStart b - 0) at 1 by lia.
    replace len with (refStart b + len - refStart b) at 1 by lia.
    rewrite expand_pieces by lia. by rewrite Z.sub_0_r.
  - rewrite lastChar_piece by lia.
    destruct (Z.eqb_spec (refStart b + len) 0); [lia|]. done.
Qed.

Lemma bubbles_on_reference_end {F} (bs : list (Bubble F)) :
  forall K, bubbles_on_reference ref K bs -> K <= rle_length ref.
Proof.
  induction bs as [|b bs IH]; intros K H; [done|].
  destruct H as (HK & Hlen & _ & Hrest). apply IH in Hrest. lia.
Qed.

Lemma consensusBubbleSteps_reference {F} (bs : list (Bubble F)) (consensusPath : list Z) :
  forall (rest done_ : list (Bubble F)) (st : ConsensusState) (K : Z),
  bs = done_ ++ rest ->
  stitched_upto ref K st -> bubbles_on_reference ref K rest ->
  picks_reference bs consensusPath ->
  exists K',
    stitched_upto ref K'
      (fold_left
         (fun st i =>
            consensusBubbleStep ref useRLE st
              (nth (Z.to_nat i) bs (mkBubble 0 0 emptyRle 0 [] 0 [] [] 0 []))
              (znth 0 consensusPath i))
         (zrange (Z.of_nat (length done_)) (Z.of_nat (length bs))) st).
Proof.
  induction rest as [|b rest IH]; intros done_ st K Hbs Hst Hon Hpick.
  - rewrite app_nil_r in Hbs. subst done_. rewrite zrange_nil by lia. by exists K.
  - destruct Hon as (HK & Hlen & Href & Hrest).
    assert (Hlook : bs !! length done_ = Some b).
    { rewrite Hbs. by rewrite list_lookup_middle. }
    rewrite zrange_cons by (rewrite Hbs, length_app; simpl; lia).
    cbn [fold_left]. rewrite Nat2Z.id, nth_lookup, Hlook. simpl default.
    replace (Z.of_nat (length done_) + 1) with (Z.of_nat (length (done_ ++ [b])))
      by (rewrite length_app; simpl; lia).
    apply (IH (done_ ++ [b]) _ (refStart b + rle_length (refAllele b))).
    + by rewrite <- app_assoc.
    + apply (consensusBubbleStep_reference st b _ K); try done.
      * by apply bubbles_on_reference_end in Hrest.
      * by apply Hpick.
    + done.
    + done.
Qed.

(** On a graph whose bubbles lie on the reference, the path of the
    reference alleles gives back the reference, of the length that the
    closing [assert] expects. *)
Lemma getConsensusString_reference {F} (bg : BubbleGraph F) (consensusPath : list Z) :
  bg_refString bg = Some ref ->
  bubbleNo bg = Z.of_nat (length (bubbles bg)) ->
  bubbles_on_reference ref 0 (bubbles bg) ->
  picks_reference (bubbles bg) consensusPath ->
  fst (fst (bubbleGraph_getConsensusString bg consensusPath useRLE)) = ref /\
  snd (bubbleGraph_getConsensusString bg consensusPath useRLE) = rle_length ref.
Proof.
  intros Hr Hno Hon Hpick. unfold bubbleGraph_getConsensusString. rewrite Hr, Hno. simpl default.
  destruct (consensusBubbleSteps_reference (bubbles bg) consensusPath (bubbles bg) []
              (mkConsensusState [] "-"%char 0 0
                 (replicate (length (rleString ref)) (-1))) 0) as (K & HK); try done.
  { unfold stitched_upto. simpl. repeat split; try done. unfold rle_length. lia. }
  simpl length in HK. change (Z.of_nat 0) with 0 in HK.
  match type of HK with stitched_upto _ _ ?X => set (st := X) in * end.
  clearbody st. pose proof HK as (HK0 & Hk & Hj & Hcat & _).
  destruct (Z.ltb_spec (cs_k st) (rle_length ref)) as [Hlt|Hge].
  - pose proof (stitched_prefix st K (rle_length ref) HK) as Hp. cbv zeta in Hp.
    destruct Hp as (_ & _ & H3 & H4 & _); [lia|].
    unfold mapRun in *. simpl in *. split; [|exact H3].
    rewrite H4, expand_whole. by apply construct_expand.
  - assert (K = rle_length ref) as -> by lia. split; [|exact Hj].
    simpl. rewrite Hcat, expand_whole. by apply construct_expand.
Qed.
End ReferencePath.

(** The bubble of the example graph, moved to the position of its left
    anchor, lies on the reference, and the path of the reference allele
    then gives the reference back. *)
Example reference_path_from_anchor :
  exists bg b,
    ex_graph = Some bg /\ bubbles bg = [b] /\
    bubbleGraph_getConsensusString
      (mkBubbleGraph (bg_refString bg) [withRefStart b (refStart b - 1)] 1 (totalAlleles bg))
      [1] true
    = (mkRle (cstr "ACGTA") [1; 1; 1; 1; 1], [0; 1; 2; 3; 4], 5).
Proof. eexists _, _. split; [vm_compute; reflexivity|]. split; reflexivity. Qed.

(** C3 (evaluation).  The graph built from the example alignment has
    one bubble, between the anchors 1 and 4, whose reference allele CG
    is [refString[1, 3)] and sits at index 1 of its alleles, while its
    [refStart] is 2.  On the path that picks the reference allele the
    stitcher copies [refString[0, 2)] as the prefix, then the allele,
    then [refString[4, 5)]: the result is A C C G A, run-length encoded
    as four runs, which is the length the closing [assert] expects, and
    it is not the reference A C G T A. *)
Theorem C3_reference_path_changes_reference :
  exists bg b,
    ex_graph = Some bg /\ bubbles bg = [b] /\
    bg_refString bg = Some (mkRle (cstr "ACGTA") [1; 1; 1; 1; 1]) /\
    refStart b = 2 /\ refAllele b = mkRle (cstr "CG") [1; 1] /\
    bubble_getReferenceAlleleIndex b = 1 /\
    bubbleGraph_getConsensusString bg [1] true
      = (mkRle (cstr "ACGA") [1; 2; 1; 1], [0; 1; -1; 2; 3], 4) /\
    rleString_expand (fst (fst (bubbleGraph_getConsensusString bg [1] true))) = cstr "ACCGA" /\
    bubbleGraph_getConsensusString bg [1] false
      = (mkRle (cstr "ACCGA") [1; 1; 1; 1; 1], [0; 1; 2; 3; 4], 5).
Proof.
  eexists _, _. split; [vm_compute; reflexivity|].
  repeat split.
Qed.

(** * Rescue of the filtered reads *)

Lemma initialReadScores_lookup (l : list BamChunkRead) (bcr : BamChunkRead) :
  In bcr l -> initialReadScores l !! read_id bcr = Some 0%Q.
Proof.
  unfold initialReadScores. intros Hin.
  apply (fold_left_reaches (fun m => m !! read_id bcr = Some 0%Q) _ l ∅ bcr Hin).
  - intros m. apply lookup_insert_eq.
  - intros m y Hm. destruct (decide (read_id y = read_id bcr)) as [->|Hne].
    + apply lookup_insert_eq.
    + by rewrite lookup_insert_ne.
Qed.

Lemma addToReadScore_lookup (m : gmap nat Q) (bcr : BamChunkRead) (x : Q) (r : nat) (q : Q) :
  m !! r = Some q ->
  addToReadScore m bcr x !! r
  = Some (if bool_decide (read_id bcr = r) then (q + x)%Q else q).
Proof.
  intros Hm. unfold addToReadScore. case_bool_decide as E.
  - subst r. rewrite Hm. apply lookup_insert_eq.
  - destruct (m !! read_id bcr); [|done]. by rewrite lookup_insert_ne.
Qed.

Section PartitionFilteredReadsProofs.
Variable stList_sort : forall A : Type, (A -> A -> Z) -> list A -> list A.
Variable computeForwardProbability : RleString -> RleString -> bool -> Q.
Variable stMath_logAddExact : Q -> Q -> Q.

Local Abbreviation odds1 := (logOdds1 stMath_logAddExact).
Local Abbreviation odds2 := (logOdds2 stMath_logAddExact).

Lemma rankRead_fold (b : Bubble Q) (r : nat) (ks : list Z) :
  forall (scores : gmap nat Q * gmap nat Q) (a1 a2 : Q),
  scores_at scores r a1 a2 ->
  scores_at (fold_left (rankRead stMath_logAddExact b) ks scores) r
    (a1 + Qsum (map (odds1 b)
                  (filter (fun k => bool_decide
                     (read_id (read (znth emptyReadSubstring (reads b) k)) = r)) ks)))
    (a2 + Qsum (map (odds2 b)
                  (filter (fun k => bool_decide
                     (read_id (read (znth emptyReadSubstring (reads b) k)) = r)) ks))).
Proof.
  induction ks as [|k ks IH]; intros [h1 h2] a1 a2 (q1 & q2 & H1 & H2 & E1 & E2);
    simpl in H1, H2.
  - exists q1, q2. simpl. repeat split; try done; [rewrite E1|rewrite E2]; ring.
  - cbn [fold_left]. rewrite filter_cons.
    pose proof (addToReadScore_lookup h1 (read (znth emptyReadSubstring (reads b) k))
                  (odds1 b k) r q1 H1) as H1'.
    pose proof (addToReadScore_lookup h2 (read (znth emptyReadSubstring (reads b) k))
                  (odds2 b k) r q2 H2) as H2'.
    destruct (IH (rankRead stMath_logAddExact b (h1, h2) k) _ _
                 (ex_intro _ _ (ex_intro _ _ (conj H1' (conj H2' (conj (Qeq_refl _) (Qeq_refl _)))))))
      as (q1' & q2' & F1 & F2 & S1 & S2).
    exists q1', q2'. split; [exact F1|]. split; [exact F2|].
    case_bool_decide as Hr; destruct (decide _) as [Ha|Ha]; simpl in Ha; try done;
      simpl; split; first [rewrite S1, E1|rewrite S2, E2]; ring.
Qed.

Lemma rankReads_scores (b : Bubble Q) (r : nat) (scores : gmap nat Q * gmap nat Q) (a1 a2 : Q) :
  scores_at scores r a1 a2 ->
  scores_at (rankReads stMath_logAddExact b scores) r
    (a1 + Qsum (map (odds1 b) (attachedAt b r)))
    (a2 + Qsum (map (odds2 b) (attachedAt b r))).
Proof. apply rankRead_fold. Qed.

Local Abbreviation scoreBubble :=
  (scorePrimaryBubble stList_sort computeForwardProbability stMath_logAddExact).
Local Abbreviation localBubble := (filteredReadsBubble stList_sort computeForwardProbability).

Lemma scorePrimaryBubble_fold (poa : Poa) (bamChunkReads : list BamChunkRead)
    (gF : stGenomeFragment) (bg : BubbleGraph Q) (params : PolishParams) (r : nat)
    (idxs : list Z) :
  forall (scores : gmap nat Q * gmap nat Q) (a1 a2 : Q),
  scores_at scores r a1 a2 ->
  let hets :=
    map (fun i =>
           localBubble poa bamChunkReads params
             (znth emptyBubble (bubbles bg) (gf_refStart gF + i))
             (znth 0 (haplotypeString1 gF) i) (znth 0 (haplotypeString2 gF) i))
        (filter (fun i => negb (znth 0 (haplotypeString1 gF) i
                                =? znth 0 (haplotypeString2 gF) i)) idxs) in
  scores_at (fold_left (scoreBubble poa bamChunkReads gF bg params) idxs scores) r
    (a1 + Qsum (map (fun b => Qsum (map (odds1 b) (attachedAt b r))) hets))
    (a2 + Qsum (map (fun b => Qsum (map (odds2 b) (attachedAt b r))) hets)).
Proof.
  induction idxs as [|i idxs IH]; intros scores a1 a2 Hs; cbv zeta.
  - destruct Hs as (q1 & q2 & H1 & H2 & E1 & E2).
    exists q1, q2. simpl. repeat split; try done; [rewrite E1|rewrite E2]; ring.
  - cbn [fold_left]. rewrite filter_cons. unfold scorePrimaryBubble at 2.
    destruct (znth 0 (haplotypeString1 gF) i =? znth 0 (haplotypeString2 gF) i) eqn:E.
    + destruct (decide _) as [Ha|Ha]; [done|]. by apply IH.
    + destruct (decide _) as [Ha|Ha]; [|by destruct Ha].
      apply (rankReads_scores (localBubble poa bamChunkReads params
               (znth emptyBubble (bubbles bg) (gf_refStart gF + i))
               (znth 0 (haplotypeString1 gF) i) (znth 0 (haplotypeString2 gF) i)) r) in Hs.
      apply IH in Hs. cbv zeta in Hs.
      destruct Hs as (q1 & q2 & H1 & H2 & E1 & E2).
      exists q1, q2. split; [exact H1|]. split; [exact H2|].
      simpl. split; [rewrite E1|rewrite E2]; ring.
Qed.

Local Abbreviation readScores :=
  (filteredReadScores stList_sort computeForwardProbability stMath_logAddExact).
Local Abbreviation sum1 := (acc1 stList_sort computeForwardProbability stMath_logAddExact).
Local Abbreviation sum2 := (acc2 stList_sort computeForwardProbability stMath_logAddExact).
Local Abbreviation partition :=
  (bubbleGraph_partitionFilteredReads stList_sort computeForwardProbability stMath_logAddExact).

Lemma filteredReadScores_acc (poa : Poa) (bamChunkReads : list BamChunkRead)
    (gF : stGenomeFragment) (bg : BubbleGraph Q) (params : PolishParams) (bcr : BamChunkRead) :
  In bcr bamChunkReads ->
  scores_at (readScores poa bamChunkReads gF bg params) (read_id bcr)
            (sum1 poa bamChunkReads gF bg params (read_id bcr))
            (sum2 poa bamChunkReads gF bg params (read_id bcr)).
Proof.
  intros Hin. unfold filteredReadScores.
  pose proof (initialReadScores_lookup _ _ Hin) as H0.
  pose proof (scorePrimaryBubble_fold poa bamChunkReads gF bg params (read_id bcr)
                (zrange 0 (gf_length gF))
                (initialReadScores bamChunkReads, initialReadScores bamChunkReads) 0%Q 0%Q) as H.
  cbv zeta in H.
  destruct H as (q1 & q2 & H1 & H2 & E1 & E2).
  { exists 0%Q, 0%Q. by repeat split. }
  exists q1, q2. split; [exact H1|]. split; [exact H2|].
  unfold acc1, acc2, heterozygousBubbles. split; [rewrite E1|rewrite E2]; ring.
Qed.

(** The sets after the last loop. *)
Lemma saveToSets_spec (l : list BamChunkRead) (scores : gmap nat Q * gmap nat Q) (r : nat) :
  forall hap1Reads hap2Reads : gset nat,
  let s1 := default 0%Q (scores.1 !! r) in
  let s2 := default 0%Q (scores.2 !! r) in
  let res := saveToSets l scores hap1Reads hap2Reads in
  (r ∈ res.1 <-> r ∈ hap1Reads \/ (In r (map read_id l) /\ (s2 < s1)%Q)) /\
  (r ∈ res.2 <-> r ∈ hap2Reads \/ (In r (map read_id l) /\ (s1 < s2)%Q)).
Proof.
  unfold saveToSets. induction l as [|bcr l IH]; intros hap1Reads hap2Reads; cbv zeta.
  - simpl. split; (split; [by left|by intros [?|[[] _]]]).
  - cbn [fold_left map In]. unfold saveRead at 2 4.
    destruct (Qgtb _ _) eqn:E1; [|destruct (Qgtb (default 0%Q (scores.2 !! read_id bcr)) _) eqn:E2].
    + apply Qgtb_true in E1.
      destruct (IH ({[read_id bcr]} ∪ hap1Reads) hap2Reads) as [I1 I2]. cbv zeta in I1, I2.
      rewrite I1, I2, elem_of_union, elem_of_singleton. split.
      * split; [intros [[->|?]|[? ?]]; auto|intros [?|[[<-|?] ?]]; auto].
      * split; [intros [?|[? ?]]; auto|intros [?|[[<-|?] ?]]; auto].
        exfalso. by apply (Qlt_irrefl (default 0%Q (scores.1 !! read_id bcr))), Qlt_trans with (2 := E1).
    + apply Qgtb_true in E2. apply Qgtb_false in E1.
      destruct (IH hap1Reads ({[read_id bcr]} ∪ hap2Reads)) as [I1 I2]. cbv zeta in I1, I2.
      rewrite I1, I2, elem_of_union, elem_of_singleton. split.
      * split; [intros [?|[? ?]]; auto|intros [?|[[<-|?] ?]]; auto].
        exfalso. by apply (Qlt_not_le _ _ H).
      * split; [intros [[->|?]|[? ?]]; auto|intros [?|[[<-|?] ?]]; auto].
    + apply Qgtb_false in E1, E2.
      destruct (IH hap1Reads hap2Reads) as [I1 I2]. cbv zeta in I1, I2.
      rewrite I1, I2. split.
      * split; [intros [?|[? ?]]; auto|intros [?|[[<-|?] ?]]; auto].
        exfalso. by apply (Qlt_not_le _ _ H).
      * split; [intros [?|[? ?]]; auto|intros [?|[[<-|?] ?]]; auto].
        exfalso. by apply (Qlt_not_le _ _ H).
Qed.

End PartitionFilteredReadsProofs.


(** * The phasing driver *)

Lemma fold_left_preserves_In {A B} (P : A -> Prop) (f : A -> B -> A) (l : list B) (a : A) :
  (forall a x, In x l -> P a -> P (f a x)) -> P a -> P (fold_left f l a).
Proof.
  revert a. induction l as [|y l IH]; simpl; intros a Hf Ha; [done|].
  apply IH; [|apply Hf]; auto.
Qed.

Section ProfileSeqKeys.
Context {F : Type}.
Variable LOG_ZERO : F.
Variable stMath_logAddExact : F -> F -> F.
Variable PROFILE_PROB_SCALAR : F.
Variable fsub fmul : F -> F -> F.
Variable roundf : F -> Z.

(** Every key of the hash is a read attached to some bubble. *)
Lemma getProfileSeqs_keys (bg : BubbleGraph F) (ref : stReference) (r : nat) :
  is_Some (bubbleGraph_getProfileSeqs F LOG_ZERO stMath_logAddExact PROFILE_PROB_SCALAR
             fsub fmul roundf bg ref !! r) ->
  exists i j, 0 <= i < bubbleNo bg /\ 0 <= j < readNo_ (znth emptyBubble (bubbles bg) i) /\
    r = read_id (read (znth emptyReadSubstring (reads (znth emptyBubble (bubbles bg) i)) j)).
Proof.
  unfold bubbleGraph_getProfileSeqs. cbv zeta.
  apply (fold_left_preserves_In
           (fun m : gmap nat stProfileSeq => is_Some (m !! r) -> _)).
  - intros m i Hi Hm.
    apply (fold_left_preserves_In
             (fun m : gmap nat stProfileSeq => is_Some (m !! r) -> _)); [|exact Hm].
    intros m' j Hj Hm' Hr. unfold addReadToProfileSeqs in Hr.
    destruct (decide (read_id (read (znth emptyReadSubstring
                (reads (znth emptyBubble (bubbles bg) i)) j)) = r)) as [E|E].
    + exists i, j. apply In_zrange in Hi, Hj. repeat split; try lia; done.
    + rewrite lookup_insert_ne in Hr by done. by apply Hm'.
  - rewrite lookup_empty. by intros [? ?].
Qed.
End ProfileSeqKeys.

Lemma setReads_reads1 gF r1 r2 : reads1 (setReads gF r1 r2) = r1.
Proof. done. Qed.

Lemma setReads_reads2 gF r1 r2 : reads2 (setReads gF r1 r2) = r2.
Proof. done. Qed.

Lemma swap_disjoint (r1 r2 r12 r21 : gset stProfileSeq) :
  r1 ## r2 -> r12 ⊆ r1 -> r21 ⊆ r2 -> (r1 ∖ r12 ∪ r21) ## (r2 ∖ r21 ∪ r12).
Proof.
  intros Hd H12 H21 x. rewrite !elem_of_union, !elem_of_difference.
  pose proof (Hd x). pose proof (H12 x). pose proof (H21 x). tauto.
Qed.

Lemma swap_union (r1 r2 r12 r21 : gset stProfileSeq) :
  r12 ⊆ r1 -> r21 ⊆ r2 -> (r1 ∖ r12 ∪ r21) ∪ (r2 ∖ r21 ∪ r12) = r1 ∪ r2.
Proof.
  intros H12 H21. apply set_eq. intros x.
  rewrite !elem_of_union, !elem_of_difference.
  pose proof (H12 x). pose proof (H21 x).
  destruct (decide (x ∈ r12)), (decide (x ∈ r21)); tauto.
Qed.

Section PhasingProofs.
Variable F : Type.
Variable LOG_ZERO : F.
Variable stMath_logAddExact : F -> F -> F.
Variable PROFILE_PROB_SCALAR : F.
Variable fsub fmul : F -> F -> F.
Variable roundf : F -> Z.
Variable filterReadsByCoverageDepth :
  list stProfileSeq -> list stProfileSeq * list stProfileSeq.
Variable getRPHmms : list stProfileSeq -> list stRPHmm.
Variable mergeTwoTilingPaths : list stRPHmm -> list stRPHmm -> list stRPHmm.
Variable fuseTilingPath : list stRPHmm -> stRPHmm.
Variable stRPHmm_forwardBackward : stRPHmm -> stRPHmm.
Variable stRPHmm_forwardTraceBack : stRPHmm -> list Z.
Variable stGenomeFragment_construct : stRPHmm -> list Z -> stGenomeFragment.
Variable fillInPredictedGenome : stGenomeFragment -> Z -> stRPColumn -> stGenomeFragment.
Variable getLogProbOfReadGivenHaplotype : list Z -> Z -> Z -> stProfileSeq -> Q.

(** A round of refinement moves reads between the two sets: their
    union stays, and they stay disjoint. *)
Lemma refineRounds_partition (rounds : nat) :
  forall (gF : stGenomeFragment) (r1 r2 : gset stProfileSeq) (hmm : stRPHmm) (p : list Z),
  r1 ## r2 ->
  let res := refineRounds fillInPredictedGenome getLogProbOfReadGivenHaplotype
               rounds gF r1 r2 hmm p in
  res.1.2 ∪ res.2 = r1 ∪ r2 /\ res.1.2 ## res.2.
Proof.
  induction rounds as [|rounds IH]; intros gF r1 r2 hmm p Hdisj; cbv zeta; [done|].
  cbn [refineRounds].
  set (r12 := findReadsThatWereMoreProbablyGeneratedByTheOtherHaplotype _ _ _ _ _ r1).
  set (r21 := findReadsThatWereMoreProbablyGeneratedByTheOtherHaplotype _ _ _ _ _ r2).
  assert (H12 : r12 ⊆ r1).
  { intros x Hx. unfold r12, findReadsThatWereMoreProbablyGeneratedByTheOtherHaplotype in Hx.
    by apply elem_of_filter in Hx as [_ ?]. }
  assert (H21 : r21 ⊆ r2).
  { intros x Hx. unfold r21, findReadsThatWereMoreProbablyGeneratedByTheOtherHaplotype in Hx.
    by apply elem_of_filter in Hx as [_ ?]. }
  clearbody r12 r21. destruct (size r12 + size r21 =? 0)%nat; [done|].
  destruct (updatePath _ _ _ _ _ _) as [gF' p'].
  destruct (IH gF' (r1 ∖ r12 ∪ r21) (r2 ∖ r21 ∪ r12) hmm p') as [HU HD].
  { by apply swap_disjoint. }
  cbv zeta in HU, HD. split; [|exact HD].
  rewrite HU. by apply swap_union.
Qed.

Lemma refineGenomeFragment_partition (gF : stGenomeFragment) (hmm : stRPHmm) (path : list Z)
    (maxIterations : Z) :
  reads1 gF ## reads2 gF ->
  let gF' := stGenomeFragment_refineGenomeFragment fillInPredictedGenome
               getLogProbOfReadGivenHaplotype gF hmm path maxIterations in
  reads1 gF' ∪ reads2 gF' = reads1 gF ∪ reads2 gF /\ reads1 gF' ## reads2 gF'.
Proof.
  intros Hd. unfold stGenomeFragment_refineGenomeFragment.
  pose proof (refineRounds_partition (Z.to_nat maxIterations) gF _ _ hmm path Hd) as H.
  cbv zeta in H. destruct (refineRounds _ _ _ _ _ _ _ _) as [[gF' r1] r2]. exact H.
Qed.

(** The two strand lists hold the sequences of the reads given that
    were not discarded. *)
Lemma partitionByStrand_spec (reads_ : list BamChunkRead)
    (readsToPSeqs : gmap nat stProfileSeq) (discarded : gset stProfileSeq) (pSeq : stProfileSeq) :
  let res := partitionByStrand reads_ readsToPSeqs discarded in
  In pSeq (res.1 ++ res.2) <->
  (pSeq ∉ discarded) /\ exists r, In r reads_ /\ readsToPSeqs !! read_id r = Some pSeq.
Proof.
  unfold partitionByStrand. cbv zeta.
  assert (Hgen : forall l fwd rev,
    let res := fold_left
      (fun '(forwardStrandProfileSeqs, reverseStrandProfileSeqs) r =>
       match readsToPSeqs !! read_id r with
       | Some pSeq =>
           if bool_decide (pSeq ∉ discarded) then
             if forwardStrand r
             then (forwardStrandProfileSeqs ++ [pSeq], reverseStrandProfileSeqs)
             else (forwardStrandProfileSeqs, reverseStrandProfileSeqs ++ [pSeq])
           else (forwardStrandProfileSeqs, reverseStrandProfileSeqs)
       | None => (forwardStrandProfileSeqs, reverseStrandProfileSeqs)
       end) l (fwd, rev) in
    In pSeq (res.1 ++ res.2) <->
    In pSeq (fwd ++ rev) \/
    ((pSeq ∉ discarded) /\ exists r, In r l /\ readsToPSeqs !! read_id r = Some pSeq)).
  { induction l as [|r l IH]; intros fwd rev; cbv zeta.
    - simpl. split; [by left|]. by intros [?|[_ (? & [] & _)]].
    - cbn [fold_left].
      destruct (readsToPSeqs !! read_id r) as [q|] eqn:Hq.
      + case_bool_decide as Hd.
        * assert (Hstep : forall fwd' rev',
                   (In pSeq (fwd' ++ rev') <-> In pSeq (fwd ++ rev) \/ q = pSeq) ->
                   In pSeq (fwd' ++ rev') \/
                   (pSeq ∉ discarded) /\ (exists r0, In r0 l /\ readsToPSeqs !! read_id r0 = Some pSeq)
                   <-> In pSeq (fwd ++ rev) \/
                   (pSeq ∉ discarded) /\
                   (exists r0, In r0 (r :: l) /\ readsToPSeqs !! read_id r0 = Some pSeq)).
          { intros fwd' rev' Hiff. rewrite Hiff. split.
            - intros [[? | <-]|(? & r0 & ? & ?)]; [by left| |].
              + right. split; [done|]. exists r. split; [by left|done].
              + right. split; [done|]. exists r0. split; [by right|done].
            - intros [?|(? & r0 & [<-|?] & ?)]; [by left; left| |].
              + left. right. congruence.
              + right. split; [done|]. by exists r0. }
          destruct (forwardStrand r); rewrite IH; apply Hstep.
          -- rewrite !in_app_iff. simpl. tauto.
          -- rewrite !in_app_iff. simpl. tauto.
        * rewrite IH. split.
          -- intros [?|(? & r0 & ? & ?)]; [by left|]. right. split; [done|].
             exists r0. split; [by right|done].
          -- intros [?|(? & r0 & [<-|?] & ?)]; [by left| |].
             ++ assert (q = pSeq) by congruence. subst q. done.
             ++ right. split; [done|]. by exists r0.
      + rewrite IH. split.
        * intros [?|(? & r0 & ? & ?)]; [by left|]. right. split; [done|].
          exists r0. split; [by right|done].
        * intros [?|(? & r0 & [<-|?] & ?)]; [by left|congruence|].
          right. split; [done|]. by exists r0. }
  rewrite Hgen. simpl. split; [by intros [[]|?]|by right].
Qed.

(** Adding back the discarded sequences: each goes to one set. *)
Lemma insert_other_disjoint (x : stProfileSeq) (r1 r2 : gset stProfileSeq) :
  r1 ## r2 -> x ∉ r1 -> r1 ## {[x]} ∪ r2.
Proof.
  intros Hd Hx y Hy1. rewrite elem_of_union, elem_of_singleton.
  intros [->|Hy2]; [done|]. by apply (Hd y).
Qed.

Lemma addBackDiscarded_fold (l : list stProfileSeq) :
  forall gF : stGenomeFragment,
  NoDup l -> (forall x, x ∈ l -> x ∉ reads1 gF ∪ reads2 gF) ->
  reads1 gF ## reads2 gF ->
  let gF' :=
    fold_left
      (fun gF pSeq =>
         let i := getLogProbOfReadGivenHaplotype (haplotypeString1 gF) (gf_refStart gF)
                    (gf_length gF) pSeq in
         let j := getLogProbOfReadGivenHaplotype (haplotypeString2 gF) (gf_refStart gF)
                    (gf_length gF) pSeq in
         if Qgtb j i then setReads gF (reads1 gF) ({[pSeq]} ∪ reads2 gF)
         else setReads gF ({[pSeq]} ∪ reads1 gF) (reads2 gF)) l gF in
  reads1 gF' ∪ reads2 gF' = reads1 gF ∪ reads2 gF ∪ list_to_set l /\
  reads1 gF' ## reads2 gF'.
Proof.
  induction l as [|x l IH]; intros gF Hnd Hout Hd; cbv zeta.
  - simpl. split; [by rewrite (right_id_L ∅ (∪))|done].
  - cbn [fold_left]. apply NoDup_cons in Hnd as [Hx Hnd].
    assert (Hxo : x ∉ reads1 gF ∪ reads2 gF) by (apply Hout, list_elem_of_here).
    apply not_elem_of_union in Hxo as [Hx1 Hx2].
    assert (Hrest : forall y, y ∈ l -> y ∉ ({[x]} ∪ reads1 gF) ∪ reads2 gF).
    { intros y Hy. specialize (Hout y (list_elem_of_further _ _ _ Hy)).
      apply not_elem_of_union in Hout as [Hy1 Hy2].
      rewrite !elem_of_union, elem_of_singleton. intros [[->|?]|?]; done. }
    destruct (Qgtb _ _).
    + destruct (IH (setReads gF (reads1 gF) ({[x]} ∪ reads2 gF))) as [HU HD]; [done| |..].
      * intros y Hy. rewrite setReads_reads1, setReads_reads2.
        specialize (Hrest y Hy). rewrite !elem_of_union in Hrest |- *. tauto.
      * rewrite setReads_reads1, setReads_reads2. by apply insert_other_disjoint.
      * cbv zeta in HU, HD. split; [|exact HD].
        rewrite HU, setReads_reads1, setReads_reads2. simpl.
        apply set_eq. intros y. rewrite !elem_of_union. tauto.
    + destruct (IH (setReads gF ({[x]} ∪ reads1 gF) (reads2 gF))) as [HU HD]; [done| |..].
      * intros y Hy. rewrite setReads_reads1, setReads_reads2. by apply Hrest.
      * rewrite setReads_reads1, setReads_reads2. symmetry.
        apply insert_other_disjoint; [by symmetry|done].
      * cbv zeta in HU, HD. split; [|exact HD].
        rewrite HU, setReads_reads1, setReads_reads2. simpl.
        apply set_eq. intros y. rewrite !elem_of_union. tauto.
Qed.

Lemma addBackDiscarded_partition (gF : stGenomeFragment) (discarded : gset stProfileSeq) :
  discarded ## reads1 gF ∪ reads2 gF -> reads1 gF ## reads2 gF ->
  let gF' := addBackDiscarded getLogProbOfReadGivenHaplotype gF discarded in
  reads1 gF' ∪ reads2 gF' = reads1 gF ∪ reads2 gF ∪ discarded /\ reads1 gF' ## reads2 gF'.
Proof.
  intros Hdis Hd. unfold addBackDiscarded.
  destruct (addBackDiscarded_fold (elements discarded) gF) as [HU HD].
  - apply NoDup_elements.
  - intros x Hx Hin. apply elem_of_elements in Hx. by apply (Hdis x).
  - done.
  - cbv zeta in HU, HD. split; [|exact HD]. rewrite HU.
    by rewrite list_to_set_elements_L.
Qed.

(** What the driver relies on from the HMM: the fragment built from the
    fused HMM of the two strand lists and its traceback has every
    sequence of the two lists in one of its two sets, and no sequence in
    both. *)
Hypothesis construct_partitions :
  forall forwardStrandProfileSeqs reverseStrandProfileSeqs : list stProfileSeq,
    let hmm := phasingHmm getRPHmms mergeTwoTilingPaths fuseTilingPath
                 stRPHmm_forwardBackward forwardStrandProfileSeqs reverseStrandProfileSeqs in
    let gF := stGenomeFragment_construct hmm (stRPHmm_forwardTraceBack hmm) in
    reads1 gF ∪ reads2 gF
    = list_to_set (forwardStrandProfileSeqs ++ reverseStrandProfileSeqs) /\
    reads1 gF ## reads2 gF.

End PhasingProofs.

Lemma ex_construct_partitions (fwd rev : list stProfileSeq) :
  let hmm := phasingHmm ex_getRPHmms (@app stRPHmm) ex_fuseTilingPath ex_forwardBackward fwd rev in
  let gF := ex_construct hmm [0] in
  reads1 gF ∪ reads2 gF = list_to_set (fwd ++ rev) /\ reads1 gF ## reads2 gF.
Proof.
  cbv zeta. unfold phasingHmm, ex_construct, ex_fuseTilingPath, ex_getRPHmms, ex_forwardBackward.
  simpl.
  rewrite !app_nil_r. split; [by rewrite (left_id_L ∅ (∪))|].
  intros x Hx. by apply not_elem_of_empty in Hx.
Qed.

Lemma ex_reads_of_graph : reads_of_graph_among ex_primary_graph ex_reads.
Proof.
  intros i j Hi Hj. change (bubbleNo ex_primary_graph) with 1 in Hi.
  assert (i = 0) as -> by lia.
  change (readNo_ (znth emptyBubble (bubbles ex_primary_graph) 0)) with 2 in Hj.
  assert (j = 0 \/ j = 1) as [-> | ->] by lia.
  - exists (nth 1 ex_reads emptyRead). split; [right; left; reflexivity|reflexivity].
  - exists (nth 0 ex_reads emptyRead). split; [left; reflexivity|reflexivity].
Qed.


(** In the run of the example the sequence kept by the filter ends in
    the first set, after one round of refinement, and the discarded one
    is added to the second set. *)
Example ex_phased_sets :
  map pseq_id (elements (reads1 ex_phased)) = [1%nat] /\
  map pseq_id (elements (reads2 ex_phased)) = [0%nat].
Proof. split; reflexivity. Qed.

(** * The bytes of a profile sequence *)

(** ** Rounding *)

Lemma up_monotone (x y : R) : (x <= y)%R -> up x <= up y.
Proof.
  intros Hxy. destruct (archimed x) as [_ Hx]. destruct (archimed y) as [Hy _].
  apply Z.lt_succ_r. apply lt_IZR. rewrite succ_IZR. Lra.lra.
Qed.

Lemma Rround_bounds (x : R) :
  (0 <= x)%R -> (x - 1 / 2 < IZR (Rround x) <= x + 1 / 2)%R.
Proof.
  intros Hx. unfold Rround. destruct (Rle_dec 0 x) as [_|Hn]; [|done].
  destruct (archimed (x - 1 / 2)) as [H1 H2]. Lra.lra.
Qed.

Lemma Rround_nonneg (x : R) : (0 <= x)%R -> 0 <= Rround x.
Proof.
  intros Hx. destruct (Rround_bounds x Hx) as [H1 _].
  apply Z.lt_succ_r. apply lt_IZR. rewrite succ_IZR. Lra.lra.
Qed.

Lemma Rround_monotone (x y : R) : (0 <= x)%R -> (x <= y)%R -> Rround x <= Rround y.
Proof.
  intros Hx Hxy. unfold Rround.
  destruct (Rle_dec 0 x) as [_|Hn]; [|done].
  destruct (Rle_dec 0 y) as [_|Hn]; [|exfalso; apply Hn; Lra.lra].
  apply up_monotone. Lra.lra.
Qed.

Lemma Rround_zero (x : R) : (0 <= x)%R -> Rround x = 0 <-> (x < 1 / 2)%R.
Proof.
  intros Hx. destruct (Rround_bounds x Hx) as [H1 H2]. split.
  - intros E. rewrite E in H1. Lra.lra.
  - intros Hlt. pose proof (Rround_nonneg x Hx) as H0.
    assert (Rround x < 1); [|lia].
    apply lt_IZR. Lra.lra.
Qed.

(** ** The logarithm of a sum of exponentials *)

Lemma logAdd_exact (a b : R) :
  (Rmax a b + ln (1 + exp (Rmin a b - Rmax a b)) = ln (exp a + exp b))%R.
Proof.
  assert (Hgen : forall u v : R, (v + ln (1 + exp (u - v)) = ln (exp u + exp v))%R).
  { intros u v. rewrite <- (ln_exp v) at 1.
    rewrite <- ln_mult.
    - f_equal. rewrite Rmult_plus_distr_l, <- exp_plus.
      replace (v + (u - v))%R with u by ring. ring.
    - apply exp_pos.
    - pose proof (exp_pos (u - v)). Lra.lra. }
  unfold Rmax, Rmin. destruct (Rle_dec a b).
  - apply Hgen.
  - rewrite Hgen. f_equal. ring.
Qed.

Lemma sum_exp_nonneg (l : list R) : (0 <= sum_exp l)%R.
Proof.
  induction l as [|x l IH]; simpl; [Lra.lra|]. pose proof (exp_pos x). Lra.lra.
Qed.

Lemma sum_exp_ge (l : list R) (x : R) : In x l -> (exp x <= sum_exp l)%R.
Proof.
  induction l as [|y l IH]; simpl; [done|]. intros [->|Hin].
  - pose proof (sum_exp_nonneg l). Lra.lra.
  - pose proof (exp_pos y). specialize (IH Hin). Lra.lra.
Qed.

Lemma logAdd_fold (x : Z -> R) (ks : list Z) :
  forall t : R,
  fold_left (fun total k => xlogAddExact total (Fin (x k))) ks (Fin t)
  = Fin (ln (exp t + sum_exp (map x ks))).
Proof.
  induction ks as [|k ks IH]; intros t; simpl.
  - f_equal. rewrite Rplus_0_r. symmetry. apply ln_exp.
  - rewrite logAdd_exact, IH. f_equal. f_equal. rewrite exp_ln; [ring|].
    pose proof (exp_pos t). pose proof (exp_pos (x k)). Lra.lra.
Qed.

Lemma logAdd_fold_zero (x : Z -> R) (ks : list Z) :
  ks <> [] ->
  fold_left (fun total k => xlogAddExact total (Fin (x k))) ks xLOG_ZERO
  = Fin (ln (sum_exp (map x ks))).
Proof.
  destruct ks as [|k ks]; [done|]. intros _. simpl. rewrite logAdd_fold. done.
Qed.

Lemma fold_left_ext_in {A B} (f g : A -> B -> A) (l : list B) :
  (forall a x, In x l -> f a x = g a x) -> forall a, fold_left f l a = fold_left g l a.
Proof.
  induction l as [|y l IH]; simpl; intros Hfg a; [done|].
  rewrite Hfg by (by left). apply IH. intros. apply Hfg. by right.
Qed.

Section FiniteSupports.
Variable scalar : R.
Variable b : Bubble xreal.
Variable j : Z.
Variable x : Z -> R.
Hypothesis scalar_nonneg : (0 <= scalar)%R.
Hypothesis supports_finite :
  forall k, 0 <= k < alleleNo b -> alleleReadSupport xreal xLOG_ZERO b k j = Fin (x k).
Hypothesis some_allele : 0 < alleleNo b.

Let total : R := ln (sum_exp (map x (zrange 0 (alleleNo b)))).

Lemma totalLogProb_finite :
  totalLogProb xreal xLOG_ZERO xlogAddExact b j = Fin total.
Proof.
  unfold totalLogProb.
  rewrite (fold_left_ext_in _ (fun t k => xlogAddExact t (Fin (x k)))).
  - apply logAdd_fold_zero. unfold zrange.
    destruct (Z.to_nat (alleleNo b - 0)) eqn:E; [lia|done].
  - intros a k Hk. apply In_zrange in Hk. by rewrite supports_finite.
Qed.

Lemma sum_exp_pos : (0 < sum_exp (map x (zrange 0 (alleleNo b))))%R.
Proof.
  assert (Hin : In (x 0) (map x (zrange 0 (alleleNo b)))).
  { apply in_map, In_zrange. lia. }
  apply sum_exp_ge in Hin. pose proof (exp_pos (x 0)). Lra.lra.
Qed.

Lemma total_ge (k : Z) : 0 <= k < alleleNo b -> (x k <= total)%R.
Proof.
  intros Hk. unfold total.
  assert (Hin : In (x k) (map x (zrange 0 (alleleNo b)))).
  { apply in_map, In_zrange. lia. }
  apply sum_exp_ge in Hin.
  rewrite <- (ln_exp (x k)).
  destruct Hin as [Hlt|Heq].
  - left. apply ln_increasing; [apply exp_pos|done].
  - right. by rewrite Heq.
Qed.

Lemma xprofileProb_finite (k : Z) :
  0 <= k < alleleNo b ->
  xprofileProb scalar b j k
  = if 255 <? Rround (scalar * (total - x k)) then 255 else Rround (scalar * (total - x k)).
Proof.
  intros Hk. unfold xprofileProb, profileProb.
  by rewrite totalLogProb_finite, supports_finite.
Qed.

Lemma xprofileProb_range (k : Z) :
  0 <= k < alleleNo b -> 0 <= xprofileProb scalar b j k <= 255.
Proof.
  intros Hk. rewrite xprofileProb_finite by done.
  assert (0 <= Rround (scalar * (total - x k))).
  { apply Rround_nonneg. apply Rmult_le_pos; [done|]. pose proof (total_ge k Hk). Lra.lra. }
  destruct (Z.ltb_spec 255 (Rround (scalar * (total - x k)))); lia.
Qed.

Lemma xprofileProb_antitone (k m : Z) :
  0 <= k < alleleNo b -> 0 <= m < alleleNo b -> (x k <= x m)%R ->
  xprofileProb scalar b j m <= xprofileProb scalar b j k.
Proof.
  intros Hk Hm Hle. rewrite !xprofileProb_finite by done.
  assert (Rround (scalar * (total - x m)) <= Rround (scalar * (total - x k))).
  { apply Rround_monotone.
    - apply Rmult_le_pos; [done|]. pose proof (total_ge m Hm). Lra.lra.
    - apply Rmult_le_compat_l; [done|]. Lra.lra. }
  destruct (Z.ltb_spec 255 (Rround (scalar * (total - x m))));
    destruct (Z.ltb_spec 255 (Rround (scalar * (total - x k)))); lia.
Qed.

Lemma xprofileProb_zero (m : Z) :
  0 <= m < alleleNo b ->
  xprofileProb scalar b j m = 0 <-> (scalar * (total - x m) < 1 / 2)%R.
Proof.
  intros Hm. rewrite xprofileProb_finite by done.
  assert (Hpos : (0 <= scalar * (total - x m))%R).
  { apply Rmult_le_pos; [done|]. pose proof (total_ge m Hm). Lra.lra. }
  rewrite <- (Rround_zero _ Hpos).
  destruct (Z.ltb_spec 255 (Rround (scalar * (total - x m)))); lia.
Qed.
End FiniteSupports.

(** ** Bounds on the logarithm of 2 *)

Lemma exp_square_bound (y a a' : R) :
  (0 <= a)%R -> (a <= exp y)%R -> (a' <= a * a)%R -> (a' <= exp (y + y))%R.
Proof.
  intros Ha Hy Ha'. rewrite exp_plus.
  apply Rle_trans with (1 := Ha'). apply Rmult_le_compat; done.
Qed.

Lemma exp_7_10_lower : ((200559 / 100000) <= exp (7 / 10))%R.
Proof.
  assert (H0 : ((647 / 640) <= exp (7 / 640))%R).
  { pose proof (exp_ineq1_le (7 / 640)%R). Lra.lra. }
  assert (H1 : ((102199 / 100000) <= exp (7 / 320))%R).
  { replace (7 / 320)%R with ((7 / 640) + (7 / 640))%R by Lra.lra.
    apply (exp_square_bound _ (647 / 640)%R); [Lra.lra|exact H0|Lra.lra]. }
  assert (H2 : ((52223 / 50000) <= exp (7 / 160))%R).
  { replace (7 / 160)%R with ((7 / 320) + (7 / 320))%R by Lra.lra.
    apply (exp_square_bound _ (102199 / 100000)%R); [Lra.lra|exact H1|Lra.lra]. }
  assert (H3 : ((109089 / 100000) <= exp (7 / 80))%R).
  { replace (7 / 80)%R with ((7 / 160) + (7 / 160))%R by Lra.lra.
    apply (exp_square_bound _ (52223 / 50000)%R); [Lra.lra|exact H2|Lra.lra]. }
  assert (H4 : ((29751 / 25000) <= exp (7 / 40))%R).
  { replace (7 / 40)%R with ((7 / 80) + (7 / 80))%R by Lra.lra.
    apply (exp_square_bound _ (109089 / 100000)%R); [Lra.lra|exact H3|Lra.lra]. }
  assert (H5 : ((141619 / 100000) <= exp (7 / 20))%R).
  { replace (7 / 20)%R with ((7 / 40) + (7 / 40))%R by Lra.lra.
    apply (exp_square_bound _ (29751 / 25000)%R); [Lra.lra|exact H4|Lra.lra]. }
  assert (H6 : ((200559 / 100000) <= exp (7 / 10))%R).
  { replace (7 / 10)%R with ((7 / 20) + (7 / 20))%R by Lra.lra.
    apply (exp_square_bound _ (141619 / 100000)%R); [Lra.lra|exact H5|Lra.lra]. }
  exact H6.
Qed.

Lemma exp_neg_lower : ((25101 / 50000) <= exp (- (137 / 200)))%R.
Proof.
  assert (H0 : ((12663 / 12800) <= exp (- (137 / 12800)))%R).
  { pose proof (exp_ineq1_le (- (137 / 12800))%R). Lra.lra. }
  assert (H1 : ((9787 / 10000) <= exp (- (137 / 6400)))%R).
  { replace (- (137 / 6400))%R with ((- (137 / 12800)) + (- (137 / 12800)))%R by Lra.lra.
    apply (exp_square_bound _ (12663 / 12800)%R); [Lra.lra|exact H0|Lra.lra]. }
  assert (H2 : ((19157 / 20000) <= exp (- (137 / 3200)))%R).
  { replace (- (137 / 3200))%R with ((- (137 / 6400)) + (- (137 / 6400)))%R by Lra.lra.
    apply (exp_square_bound _ (9787 / 10000)%R); [Lra.lra|exact H1|Lra.lra]. }
  assert (H3 : ((91747 / 100000) <= exp (- (137 / 1600)))%R).
  { replace (- (137 / 1600))%R with ((- (137 / 3200)) + (- (137 / 3200)))%R by Lra.lra.
    apply (exp_square_bound _ (19157 / 20000)%R); [Lra.lra|exact H2|Lra.lra]. }
  assert (H4 : ((3367 / 4000) <= exp (- (137 / 800)))%R).
  { replace (- (137 / 800))%R with ((- (137 / 1600)) + (- (137 / 1600)))%R by Lra.lra.
    apply (exp_square_bound _ (91747 / 100000)%R); [Lra.lra|exact H3|Lra.lra]. }
  assert (H5 : ((35427 / 50000) <= exp (- (137 / 400)))%R).
  { replace (- (137 / 400))%R with ((- (137 / 800)) + (- (137 / 800)))%R by Lra.lra.
    apply (exp_square_bound _ (3367 / 4000)%R); [Lra.lra|exact H4|Lra.lra]. }
  assert (H6 : ((25101 / 50000) <= exp (- (137 / 200)))%R).
  { replace (- (137 / 200))%R with ((- (137 / 400)) + (- (137 / 400)))%R by Lra.lra.
    apply (exp_square_bound _ (35427 / 50000)%R); [Lra.lra|exact H5|Lra.lra]. }
  exact H6.
Qed.

Lemma ln_2_bounds : (685 / 1000 < ln 2 < 7 / 10)%R.
Proof.
  split.
  - rewrite <- (ln_exp (685 / 1000)%R). apply ln_increasing; [apply exp_pos|].
    pose proof exp_neg_lower as H.
    replace (- (137 / 200))%R with (- (685 / 1000))%R in H by Lra.lra.
    rewrite exp_Ropp in H. pose proof (exp_pos (685 / 1000)%R) as Hp.
    apply (Rmult_le_compat_r _ _ _ (Rlt_le _ _ Hp)) in H.
    rewrite Rinv_l in H by Lra.lra. Lra.lra.
  - rewrite <- (ln_exp (7 / 10)%R). apply ln_increasing; [Lra.lra|].
    pose proof exp_7_10_lower. Lra.lra.
Qed.

Lemma Rround_30_ln_2 : Rround (30 * ln 2) = 21.
Proof.
  pose proof ln_2_bounds as [Hlo Hhi]. unfold Rround.
  destruct (Rle_dec 0 (30 * ln 2)) as [_|Hn]; [|exfalso; apply Hn; Lra.lra].
  symmetry. apply tech_up; Lra.lra.
Qed.

(** ** The bytes written for a read *)

Section WriteProfileProbs.
Variable F : Type.
Variable LOG_ZERO : F.
Variable stMath_logAddExact : F -> F -> F.
Variable PROFILE_PROB_SCALAR : F.
Variable fsub fmul : F -> F -> F.
Variable roundf : F -> Z.

Lemma zset_fold (v : Z -> Z) (off k0 : Z) (ks : list Z) :
  forall probs : list Z,
  In k0 ks -> 0 <= off + k0 < Z.of_nat (length probs) ->
  znth 0 (fold_left (fun probs k => zset probs (off + k) (v k)) ks probs) (off + k0) = v k0.
Proof.
  assert (Hkeep : forall ks probs,
    0 <= off + k0 < Z.of_nat (length probs) -> znth 0 probs (off + k0) = v k0 ->
    znth 0 (fold_left (fun probs k => zset probs (off + k) (v k)) ks probs) (off + k0) = v k0).
  { clear ks. induction ks as [|k ks IH]; intros probs Hlen Hv; simpl; [done|].
    apply IH; [by rewrite length_zset|].
    destruct (decide (k = k0)) as [->|Hne].
    - by apply znth_zset_eq.
    - rewrite znth_zset_ne by lia. done. }
  induction ks as [|k ks IH]; intros probs Hin Hlen; simpl; [done|].
  destruct Hin as [->|Hin].
  - apply Hkeep; [by rewrite length_zset|]. by apply znth_zset_eq.
  - apply IH; [done|by rewrite length_zset].
Qed.

(** After the loop for read [j] of bubble [b], the strip of the bubble
    holds the bytes of the alleles. *)
Lemma writeProfileProbs_strip (b : Bubble F) (j : Z) (pSeq : stProfileSeq) (k : Z) :
  0 <= k < alleleNo b ->
  0 <= to_uint64 (alleleOffset b - pseq_alleleOffset pSeq) + k
    < Z.of_nat (length (profileProbs pSeq)) ->
  znth 0 (profileProbs
            (writeProfileProbs F LOG_ZERO stMath_logAddExact PROFILE_PROB_SCALAR
               fsub fmul roundf b j pSeq))
       (to_uint64 (alleleOffset b - pseq_alleleOffset pSeq) + k)
  = to_uint8 (profileProb F LOG_ZERO stMath_logAddExact PROFILE_PROB_SCALAR
                fsub fmul roundf b j k).
Proof.
  intros Hk Hlen. unfold writeProfileProbs, setProfileProbs. cbn [profileProbs].
  apply (zset_fold (fun k => to_uint8 (profileProb F LOG_ZERO stMath_logAddExact
                                         PROFILE_PROB_SCALAR fsub fmul roundf b j k))).
  - apply In_zrange. lia.
  - done.
Qed.

(** The profile sequence of the read of [tie_graph]. *)
Lemma getProfileSeqs_tie (s : F) :
  bubbleGraph_getProfileSeqs F LOG_ZERO stMath_logAddExact PROFILE_PROB_SCALAR
    fsub fmul roundf (tie_graph s) (bubbleGraph_getReferenceSites (tie_graph s)) !! 0%nat
  = Some (mkProfileSeq 0 "read0" 0 1 0
            [to_uint8 (profileProb F LOG_ZERO stMath_logAddExact PROFILE_PROB_SCALAR
                         fsub fmul roundf (tie_bubble s) 0 0);
             to_uint8 (profileProb F LOG_ZERO stMath_logAddExact PROFILE_PROB_SCALAR
                         fsub fmul roundf (tie_bubble s) 0 1)]).
Proof. reflexivity. Qed.
End WriteProfileProbs.

Lemma fold_zrange_inv {A} (P : Z -> A -> Prop) (f : A -> Z -> A) (lo hi : Z) (a : A) :
  lo <= hi -> P lo a ->
  (forall k a, lo <= k < hi -> P k a -> P (k + 1) (f a k)) ->
  P hi (fold_left f (zrange lo hi) a).
Proof.
  intros Hle Ha Hstep.
  remember (Z.to_nat (hi - lo)) as n eqn:Hn.
  revert lo a Hle Ha Hstep Hn. induction n as [|n IH]; intros lo a Hle Ha Hstep Hn.
  - rewrite zrange_nil by lia. simpl. by replace hi with lo by lia.
  - rewrite zrange_cons by lia. simpl. apply IH; try lia.
    + apply Hstep; [lia|done].
    + intros k a' Hk. apply Hstep. lia.
Qed.

Lemma zset_fold_other (v : Z -> Z) (off n i : Z) :
  forall probs : list Z,
  (i < off \/ off + n <= i) ->
  znth 0 (fold_left (fun probs k => zset probs (off + k) (v k)) (zrange 0 n) probs) i
  = znth 0 probs i.
Proof.
  intros probs Hi.
  apply (fold_left_preserves_In
           (fun l => znth 0 l i = znth 0 probs i)); [|done].
  intros l k Hk Hl. apply In_zrange in Hk. rewrite znth_zset_ne by lia. done.
Qed.

Lemma zset_fold_length (v : Z -> Z) (off : Z) (ks : list Z) (probs : list Z) :
  length (fold_left (fun probs k => zset probs (off + k) (v k)) ks probs) = length probs.
Proof.
  apply (fold_left_preserves (fun l => length l = length probs)); [|done].
  intros l k Hl. by rewrite length_zset.
Qed.

Section GraphProfiles.
Variable F : Type.
Variable LOG_ZERO : F.
Variable stMath_logAddExact : F -> F -> F.
Variable PROFILE_PROB_SCALAR : F.
Variable fsub fmul : F -> F -> F.
Variable roundf : F -> Z.
Variable bg : BubbleGraph F.
Hypothesis bg_wf : graph_wf bg.

Local Abbreviation B i := (znth emptyBubble (bubbles bg) i).
Local Abbreviation byteOf :=
  (fun i j k => to_uint8 (profileProb F LOG_ZERO stMath_logAddExact PROFILE_PROB_SCALAR
                            fsub fmul roundf (B i) j k)).

Lemma offsets_step (i : Z) (d : nat) :
  0 <= i -> i + Z.of_nat d < bubbleNo bg ->
  alleleOffset (B i) + alleleNo (B i)
  <= alleleOffset (B (i + Z.of_nat d)) + alleleNo (B (i + Z.of_nat d)) /\
  (0 < Z.of_nat d -> alleleOffset (B i) + alleleNo (B i) <= alleleOffset (B (i + Z.of_nat d))).
Proof.
  destruct bg_wf as (_ & _ & Hnn & Hcum & _).
  induction d as [|d IH]; intros Hi Hd.
  - replace (i + Z.of_nat 0) with i by lia. split; lia.
  - destruct IH as [IH1 _]; [lia|lia|].
    replace (i + Z.of_nat (S d)) with (i + Z.of_nat d + 1) by lia.
    pose proof (Hcum (i + Z.of_nat d) ltac:(lia) ltac:(lia)) as Hc.
    destruct (Hnn (i + Z.of_nat d + 1)) as (H1 & _); [lia|].
    destruct (Hnn (i + Z.of_nat d)) as (H2 & _); [lia|].
    split; [lia|]. intros _. lia.
Qed.

Lemma offsets_le (i i' : Z) :
  0 <= i <= i' -> i' < bubbleNo bg ->
  alleleOffset (B i) + alleleNo (B i) <= alleleOffset (B i') + alleleNo (B i').
Proof.
  intros Hi Hi'. destruct (offsets_step i (Z.to_nat (i' - i))) as [H _]; [lia|lia|].
  by replace (i + Z.of_nat (Z.to_nat (i' - i))) with i' in H by lia.
Qed.

Lemma offsets_lt (i i' : Z) :
  0 <= i < i' -> i' < bubbleNo bg ->
  alleleOffset (B i) + alleleNo (B i) <= alleleOffset (B i').
Proof.
  intros Hi Hi'. destruct (offsets_step i (Z.to_nat (i' - i))) as [_ H]; [lia|lia|].
  replace (i + Z.of_nat (Z.to_nat (i' - i))) with i' in H by lia. apply H. lia.
Qed.

(** The table of the first pair of loops gives every read a bubble at
    or after each bubble the read is attached to. *)
Lemma getReadEnds_spec (i j : Z) :
  0 <= i < bubbleNo bg -> 0 <= j < readNo_ (B i) ->
  exists e, getReadEnds F bg !! readAt bg i j = Some e /\ i <= e < bubbleNo bg.
Proof.
  intros Hi Hj. unfold getReadEnds.
  assert (Hinv : forall i0,
    0 <= i0 <= bubbleNo bg ->
    (fun i0 (ends : gmap nat Z) =>
       forall i j, handled bg i0 0 i j ->
         exists e, ends !! readAt bg i j = Some e /\ i <= e < i0)
      i0
      (fold_left
         (fun readEnds i =>
            let b := znth emptyBubble (bubbles bg) i in
            fold_left
              (fun (readEnds : gmap nat Z) j =>
                 let s := znth emptyReadSubstring (reads b) j in
                 <[read_id (read s) := i]> readEnds)
              (zrange 0 (readNo_ b)) readEnds)
         (zrange 0 i0) ∅)).
  { intros i0 Hi0. apply fold_zrange_inv; [lia| |].
    - intros i' j' (? & ? & [?|[? ?]]); lia.
    - intros k ends Hk Hends. cbv zeta.
      destruct (Z.le_gt_cases 0 (readNo_ (B k))) as [Hr|Hr].
      + assert (Hin : (fun j0 (ends' : gmap nat Z) =>
                  forall i j, handled bg k j0 i j ->
                    exists e, ends' !! readAt bg i j = Some e /\ i <= e < k + 1)
                 (readNo_ (B k))
                 (fold_left
                    (fun (readEnds : gmap nat Z) j =>
                       <[read_id (read (znth emptyReadSubstring (reads (B k)) j)) := k]> readEnds)
                    (zrange 0 (readNo_ (B k))) ends)).
        { apply fold_zrange_inv; [lia| |].
          - intros i' j' (Hi' & Hj' & [Hlt|[-> Hlt]]); [|lia].
            destruct (Hends i' j') as (e & He & Hle); [repeat split; try lia|].
            exists e. split; [done|lia].
          - intros j0 ends' Hj0 Hends' i' j' (Hi' & Hj' & Hcase).
            destruct (decide (readAt bg i' j' = readAt bg k j0)) as [E|E].
            + exists k. rewrite E. unfold readAt. rewrite lookup_insert_eq.
              split; [done|]. lia.
            + unfold readAt in E |- *. rewrite lookup_insert_ne by done.
              apply Hends'. repeat split; try lia.
              destruct Hcase as [?|[-> ?]]; [by left|right].
              split; [done|]. assert (j' <> j0) by (intros ->; done). lia. }
        intros i' j' (Hi' & Hj' & Hcase). apply Hin. repeat split; try lia.
        destruct Hcase as [Hlt|[-> Hlt]]; [|lia].
        destruct (decide (i' = k)) as [->|Hne]; [right; lia|left; lia].
      + rewrite zrange_nil by lia. simpl.
        intros i' j' (Hi' & Hj' & Hcase).
        destruct (decide (i' = k)) as [->|Hne]; [lia|].
        destruct (Hends i' j') as (e & He & Hle); [repeat split; lia|].
        exists e. split; [done|lia]. }
  apply (Hinv (bubbleNo bg)); [destruct bg_wf; lia|]. repeat split; try lia.
Qed.

Lemma znth_sites (i : Z) :
  0 <= i < bubbleNo bg ->
  znth emptySite (sites (bubbleGraph_getReferenceSites bg)) i
  = mkSite (alleleNo (B i)) (alleleOffset (B i)).
Proof.
  intros Hi. unfold bubbleGraph_getReferenceSites, znth at 1. cbn [sites].
  destruct (Z.ltb_spec i 0); [lia|].
  erewrite nth_indep by (rewrite length_map; unfold zrange; rewrite length_map, length_seq; lia).
  rewrite (map_nth (fun i => mkSite (alleleNo (B i)) (alleleOffset (B i))) _ 0).
  unfold zrange. erewrite nth_indep by (rewrite length_map, length_seq; lia).
  rewrite (map_nth (fun k => 0 + Z.of_nat k) _ 0%nat), seq_nth by lia.
  by replace (0 + Z.of_nat (0 + Z.to_nat i)) with i by lia.
Qed.

Local Abbreviation write b j p :=
  (writeProfileProbs F LOG_ZERO stMath_logAddExact PROFILE_PROB_SCALAR fsub fmul roundf b j p).

Lemma writeProfileProbs_alleleOffset b j p :
  pseq_alleleOffset (write b j p) = pseq_alleleOffset p.
Proof. done. Qed.

Lemma writeProfileProbs_length b j p :
  length (profileProbs (write b j p)) = length (profileProbs p).
Proof. unfold writeProfileProbs, setProfileProbs. cbn [profileProbs]. apply zset_fold_length. Qed.

Lemma writeProfileProbs_other b j p (x : Z) :
  (x < to_uint64 (alleleOffset b - pseq_alleleOffset p)
   \/ to_uint64 (alleleOffset b - pseq_alleleOffset p) + alleleNo b <= x) ->
  znth 0 (profileProbs (write b j p)) x = znth 0 (profileProbs p) x.
Proof.
  intros Hx. unfold writeProfileProbs, setProfileProbs. cbn [profileProbs].
  by apply zset_fold_other.
Qed.

(** One turn of the inner loop. *)
Lemma addReadToProfileSeqs_step (i0 j0 : Z) (m : gmap nat stProfileSeq) :
  0 <= i0 < bubbleNo bg -> 0 <= j0 < readNo_ (B i0) ->
  profileSeqs_upto bg byteOf (getReadEnds F bg) i0 j0 m ->
  profileSeqs_upto bg byteOf (getReadEnds F bg) i0 (j0 + 1)
    (addReadToProfileSeqs F LOG_ZERO stMath_logAddExact PROFILE_PROB_SCALAR fsub fmul roundf
       bg (bubbleGraph_getReferenceSites bg) (getReadEnds F bg) i0 m j0).
Proof.
  intros Hi0 Hj0 [Hdom Hent].
  pose proof bg_wf as (Hlen & Hn64 & Hnn & Hcum & Hinj).
  destruct (getReadEnds_spec i0 j0 Hi0 Hj0) as (e0 & He0 & Hle0).
  unfold addReadToProfileSeqs. cbv zeta. fold (readAt bg i0 j0).
  set (r0 := readAt bg i0 j0) in *.
  (* the sequence that is written to, with its first bubble *)
  assert (Hp : exists p f,
    match m !! r0 with
    | Some pSeq => pSeq
    | None => stProfileSeq_constructEmptyProfile (bubbleGraph_getReferenceSites bg) r0
                (readName (read (znth emptyReadSubstring (reads (B i0)) j0))) i0
                (to_uint64 (default 0 (getReadEnds F bg !! r0) - i0 + 1))
    end = p /\
    0 <= f <= i0 /\
    pseq_alleleOffset p = alleleOffset (B f) /\
    Z.of_nat (length (profileProbs p))
    = alleleOffset (B e0) + alleleNo (B e0) - alleleOffset (B f) /\
    forall i j, handled bg i0 j0 i j -> readAt bg i j = r0 ->
      f <= i /\
      forall k, 0 <= k < alleleNo (B i) ->
        znth 0 (profileProbs p) (alleleOffset (B i) - alleleOffset (B f) + k) = byteOf i j k).
  { destruct (m !! r0) as [p|] eqn:Hm.
    - destruct (Hent r0 p Hm) as (f & e & Hf & He & Hfe & Hoff & Hl & Hstrips).
      rewrite He0 in He. injection He as <-.
      exists p, f. split; [done|]. split; [lia|]. split; [done|]. split; [done|]. exact Hstrips.
    - eexists _, i0. split; [reflexivity|].
      rewrite He0. cbn [default].
      unfold stProfileSeq_constructEmptyProfile. cbv zeta. cbn [pseq_alleleOffset profileProbs].
      unfold to_uint64. rewrite (Z.mod_small (e0 - i0 + 1)) by lia.
      replace (i0 + (e0 - i0 + 1) - 1) with e0 by lia.
      rewrite !znth_sites by lia. cbn [site_alleleOffset alleleNumber].
      split; [lia|]. split; [done|]. split.
      + rewrite length_replicate.
        pose proof (offsets_le i0 e0 ltac:(lia) ltac:(lia)).
        destruct (Hnn i0 ltac:(lia)) as (? & ? & ?). lia.
      + intros i j Hh Hr. destruct (Hdom i j Hh) as [q Hq].
        rewrite Hr in Hq. congruence. }
  destruct Hp as (p & f & -> & Hf & Hoff & Hl & Hstrips).
  assert (Hoff0 : to_uint64 (alleleOffset (B i0) - pseq_alleleOffset p)
                  = alleleOffset (B i0) - alleleOffset (B f)).
  { rewrite Hoff. unfold to_uint64. apply Z.mod_small.
    destruct (Hnn i0 ltac:(lia)) as (? & ? & ?). destruct (Hnn f ltac:(lia)) as (? & ? & ?).
    destruct (decide (f = i0)) as [->|Hne]; [lia|].
    pose proof (offsets_lt f i0 ltac:(lia) ltac:(lia)). lia. }
  split.
  - intros i j (Hi & Hj & Hcase).
    destruct (decide (readAt bg i j = r0)) as [E|E].
    + rewrite E, lookup_insert_eq. by eexists.
    + rewrite lookup_insert_ne by done. apply Hdom. repeat split; try lia.
      destruct Hcase as [?|[-> ?]]; [by left|right]. split; [done|].
      assert (j <> j0) by (intros ->; done). lia.
  - intros r q Hq. destruct (decide (r = r0)) as [->|Hne].
    + rewrite lookup_insert_eq in Hq. injection Hq as <-.
      exists f, e0. split; [lia|]. split; [done|]. split; [lia|].
      split; [done|]. split; [by rewrite writeProfileProbs_length|].
      intros i j (Hi & Hj & Hcase) Hr.
      destruct (decide (i = i0)) as [->|Hne].
      * assert (j = j0) as -> by (apply (Hinj i0); done).
        split; [lia|]. intros k Hk. rewrite <- Hoff0.
        apply writeProfileProbs_strip; [done|]. rewrite Hoff0, Hl.
        pose proof (offsets_le i0 e0 ltac:(lia) ltac:(lia)).
        destruct (Hnn i0 ltac:(lia)) as (? & ? & ?). destruct (Hnn f ltac:(lia)) as (? & ? & ?).
        destruct (decide (f = i0)) as [->|Hne]; [lia|].
        pose proof (offsets_lt f i0 ltac:(lia) ltac:(lia)). lia.
      * assert (Hh : handled bg i0 j0 i j) by (repeat split; lia).
        destruct (Hstrips i j Hh Hr) as [Hfi Hbytes]. split; [done|].
        intros k Hk. rewrite writeProfileProbs_other; [by apply Hbytes|].
        left. rewrite Hoff0. pose proof (offsets_lt i i0 ltac:(lia) ltac:(lia)). lia.
    + rewrite lookup_insert_ne in Hq by done.
      destruct (Hent r q Hq) as (f' & e & Hf' & He & Hfe & Hoff' & Hl' & Hstrips').
      exists f', e. repeat split; try done; try lia.
      all: match goal with H : handled _ _ _ _ _ |- _ => destruct H as (Hi & Hj & Hcase) end;
        assert (Hh : handled bg i0 j0 i j)
          by (repeat split; try lia;
              destruct Hcase as [?|[-> ?]]; [by left|right; split; [done|]];
              assert (j <> j0) by (intros ->; done); lia).
      * by apply (Hstrips' i j Hh).
      * by apply (Hstrips' i j Hh).
Qed.

Lemma profileSeqs_upto_next (i0 j0 : Z) (m : gmap nat stProfileSeq) :
  readNo_ (B i0) <= j0 ->
  profileSeqs_upto bg byteOf (getReadEnds F bg) i0 j0 m ->
  profileSeqs_upto bg byteOf (getReadEnds F bg) (i0 + 1) 0 m.
Proof.
  intros Hj0 [Hdom Hent].
  assert (Hh : forall i j, handled bg (i0 + 1) 0 i j -> handled bg i0 j0 i j).
  { intros i j (Hi & Hj & Hcase). repeat split; try lia.
    destruct (decide (i = i0)) as [->|Hne]; [right; lia|left; lia]. }
  split.
  - intros i j H. by apply Hdom, Hh.
  - intros r p Hp. destruct (Hent r p Hp) as (f & e & Hf & He & Hfe & Hoff & Hl & Hstrips).
    exists f, e. split; [lia|]. split; [done|]. split; [done|]. split; [done|].
    split; [done|]. intros i j H. by apply Hstrips, Hh.
Qed.

(** The hash that [bubbleGraph_getProfileSeqs] returns. *)
Lemma getProfileSeqs_upto :
  profileSeqs_upto bg byteOf (getReadEnds F bg) (bubbleNo bg) 0
    (bubbleGraph_getProfileSeqs F LOG_ZERO stMath_logAddExact PROFILE_PROB_SCALAR fsub fmul
       roundf bg (bubbleGraph_getReferenceSites bg)).
Proof.
  pose proof bg_wf as (Hlen & _).
  unfold bubbleGraph_getProfileSeqs. cbv zeta.
  apply (fold_zrange_inv
           (fun i0 m => profileSeqs_upto bg byteOf (getReadEnds F bg) i0 0 m)); [lia| |].
  - split.
    + intros i j (? & ? & [?|[? ?]]); lia.
    + intros r p Hp. by rewrite lookup_empty in Hp.
  - intros i0 m Hi0 Hm.
    destruct (Z.le_gt_cases 0 (readNo_ (B i0))) as [Hr|Hr].
    + apply (profileSeqs_upto_next i0 (readNo_ (B i0))); [lia|].
      apply (fold_zrange_inv
               (fun j0 m => profileSeqs_upto bg byteOf (getReadEnds F bg) i0 j0 m)); [lia|done|].
      intros j0 m' Hj0 Hm'. by apply addReadToProfileSeqs_step.
    + rewrite zrange_nil by lia. simpl. apply (profileSeqs_upto_next i0 0); [lia|done].
Qed.

(** Every read attached to a bubble has a profile sequence, and the
    strip of the bubble in the sequence holds the byte of each allele
    of the bubble for the read. *)
Lemma getProfileSeqs_bytes (i j : Z) :
  0 <= i < bubbleNo bg -> 0 <= j < readNo_ (B i) ->
  exists pSeq,
    bubbleGraph_getProfileSeqs F LOG_ZERO stMath_logAddExact PROFILE_PROB_SCALAR fsub fmul
      roundf bg (bubbleGraph_getReferenceSites bg) !! readAt bg i j = Some pSeq /\
    forall k, 0 <= k < alleleNo (B i) ->
      znth 0 (profileProbs pSeq) (alleleOffset (B i) - pseq_alleleOffset pSeq + k)
      = byteOf i j k.
Proof.
  intros Hi Hj. destruct getProfileSeqs_upto as [Hdom Hent].
  assert (Hh : handled bg (bubbleNo bg) 0 i j) by (repeat split; lia).
  destruct (Hdom i j Hh) as [p Hp]. exists p. split; [done|].
  destruct (Hent _ p Hp) as (f & e & Hf & He & Hfe & Hoff & Hl & Hstrips).
  destruct (Hstrips i j Hh eq_refl) as [_ Hbytes]. rewrite Hoff. exact Hbytes.
Qed.
End GraphProfiles.

Lemma tie_supports (k : Z) :
  0 <= k < alleleNo (tie_bubble (Fin 0)) ->
  alleleReadSupport xreal xLOG_ZERO (tie_bubble (Fin 0)) k 0 = Fin ((fun _ => 0%R) k).
Proof.
  simpl. intros Hk. assert (k = 0 \/ k = 1) as [-> | ->] by lia; reflexivity.
Qed.

Lemma xprofileProb_tie (k : Z) :
  0 <= k < 2 -> xprofileProb 30 (tie_bubble (Fin 0)) 0 k = 21.
Proof.
  intros Hk.
  rewrite (xprofileProb_finite 30 (tie_bubble (Fin 0)) 0 (fun _ => 0%R)); try done.
  - change (map (fun _ : Z => 0%R) (zrange 0 (alleleNo (tie_bubble (Fin 0)))))
      with [0%R; 0%R].
    unfold sum_exp. cbn [fold_right]. rewrite exp_0.
    replace (1 + (1 + 0))%R with 2%R by Lra.lra. rewrite Rminus_0_r.
    rewrite Rround_30_ln_2. reflexivity.
  - apply tie_supports.
Qed.

Lemma tie_graph_wf : graph_wf (tie_graph (Fin 0)).
Proof.
  split; [done|]. split; [done|]. split; [|split].
  - simpl. intros i Hi. assert (i = 0) as -> by lia. simpl. lia.
  - simpl. intros i Hi Hi'. lia.
  - simpl. intros i j j' Hi. assert (i = 0) as -> by lia. simpl. lia.
Qed.

(** C5 (as the code has it).  In a graph whose bubbles have cumulative
    allele offsets and no read attached twice to one bubble, take a read
    attached to a bubble with finite supports [x k], and a scalar that
    is not negative.  [bubbleGraph_getProfileSeqs] returns a profile
    sequence for the read; the byte it holds for each allele of the
    bubble is the value computed from the support, between 0 and 255;
    the allele with the highest support has the smallest byte of the
    bubble; and that byte is 0 exactly when the scalar times the
    distance from the highest support to the normalizing constant, the
    logarithm of the sum of the exponentials of the supports, is below
    one half. *)
Theorem C5_highest_support_gets_smallest_byte (scalar : R) (bg : BubbleGraph xreal)
    (i j : Z) (x : Z -> R) (m : Z) :
  let b := znth emptyBubble (bubbles bg) i in
  graph_wf bg ->
  (0 <= scalar)%R ->
  0 <= i < bubbleNo bg -> 0 <= j < readNo_ b ->
  (forall k, 0 <= k < alleleNo b -> alleleReadSupport xreal xLOG_ZERO b k j = Fin (x k)) ->
  0 <= m < alleleNo b ->
  (forall k, 0 <= k < alleleNo b -> (x k <= x m)%R) ->
  exists pSeq,
    bubbleGraph_getProfileSeqs xreal xLOG_ZERO xlogAddExact (Fin scalar) xsub xmul xroundf
      bg (bubbleGraph_getReferenceSites bg) !! readAt bg i j = Some pSeq /\
    totalLogProb xreal xLOG_ZERO xlogAddExact b j
    = Fin (ln (sum_exp (map x (zrange 0 (alleleNo b))))) /\
    (forall k, 0 <= k < alleleNo b ->
       znth 0 (profileProbs pSeq) (alleleOffset b - pseq_alleleOffset pSeq + k)
       = xprofileProb scalar b j k /\
       0 <= xprofileProb scalar b j k <= 255 /\
       xprofileProb scalar b j m <= xprofileProb scalar b j k) /\
    (znth 0 (profileProbs pSeq) (alleleOffset b - pseq_alleleOffset pSeq + m) = 0 <->
     (scalar * (ln (sum_exp (map x (zrange 0 (alleleNo b)))) - x m) < 1 / 2)%R).
Proof.
  intros b Hwf Hs Hi Hj Hfin Hm Hmax.
  assert (Hsome : 0 < alleleNo b) by lia.
  destruct (getProfileSeqs_bytes xreal xLOG_ZERO xlogAddExact (Fin scalar) xsub xmul xroundf
              bg Hwf i j Hi Hj) as (pSeq & HpSeq & Hbytes).
  assert (Hbyte : forall k, 0 <= k < alleleNo b ->
            znth 0 (profileProbs pSeq) (alleleOffset b - pseq_alleleOffset pSeq + k)
            = xprofileProb scalar b j k).
  { intros k Hk. etransitivity; [exact (Hbytes k Hk)|]. fold b.
    fold (xprofileProb scalar b j k).
    pose proof (xprofileProb_range scalar b j x Hs Hfin Hsome k Hk).
    unfold to_uint8. apply Z.mod_small. lia. }
  exists pSeq. split; [done|]. split; [by apply totalLogProb_finite|]. split.
  - intros k Hk. split; [by apply Hbyte|]. split.
    + by apply (xprofileProb_range scalar b j x).
    + apply (xprofileProb_antitone scalar b j x Hs Hfin Hsome); auto.
  - rewrite (Hbyte m Hm). by apply (xprofileProb_zero scalar b j x Hs Hfin Hsome).
Qed.

Lemma C5_highest_support_gets_smallest_byte_witness :
  exists pSeq,
    bubbleGraph_getProfileSeqs xreal xLOG_ZERO xlogAddExact (Fin 30) xsub xmul xroundf
      (tie_graph (Fin 0)) (bubbleGraph_getReferenceSites (tie_graph (Fin 0)))
      !! readAt (tie_graph (Fin 0)) 0 0 = Some pSeq /\
    totalLogProb xreal xLOG_ZERO xlogAddExact (tie_bubble (Fin 0)) 0
    = Fin (ln (sum_exp [0%R; 0%R])) /\
    (forall k, 0 <= k < 2 ->
       znth 0 (profileProbs pSeq) (0 - pseq_alleleOffset pSeq + k)
       = xprofileProb 30 (tie_bubble (Fin 0)) 0 k /\
       0 <= xprofileProb 30 (tie_bubble (Fin 0)) 0 k <= 255 /\
       xprofileProb 30 (tie_bubble (Fin 0)) 0 0 <= xprofileProb 30 (tie_bubble (Fin 0)) 0 k) /\
    (znth 0 (profileProbs pSeq) (0 - pseq_alleleOffset pSeq + 0) = 0 <->
     (30 * (ln (sum_exp [0%R; 0%R]) - 0) < 1 / 2)%R).
Proof.
  apply (C5_highest_support_gets_smallest_byte 30 (tie_graph (Fin 0)) 0 0 (fun _ => 0%R) 0).
  - apply tie_graph_wf.
  - Lra.lra.
  - simpl. lia.
  - simpl. lia.
  - apply tie_supports.
  - simpl. lia.
  - intros k Hk. Lra.lra.
Defined.

(** C5 as stated fails: with [PROFILE_PROB_SCALAR] 30 and a read that
    supports the two alleles of a bubble equally, the normalizing
    constant lies ln 2 above both supports, and both bytes of the
    profile sequence are 21. *)
Lemma C5_counterexample :
  exists pSeq,
    bubbleGraph_getProfileSeqs xreal xLOG_ZERO xlogAddExact (Fin 30) xsub xmul xroundf
      (tie_graph (Fin 0)) (bubbleGraph_getReferenceSites (tie_graph (Fin 0))) !! 0%nat
    = Some pSeq /\
    pseq_refStart pSeq = 0 /\ pseq_length pSeq = 1 /\ profileProbs pSeq = [21; 21].
Proof.
  eexists. split; [apply getProfileSeqs_tie|]. split; [done|]. split; [done|].
  cbn [profileProbs]. fold (xprofileProb 30 (tie_bubble (Fin 0)) 0 0).
  fold (xprofileProb 30 (tie_bubble (Fin 0)) 0 1).
  rewrite !xprofileProb_tie by lia. reflexivity.
Qed.
(** * Further properties *)

(** ** The reference allele and the consensus path *)

Lemma find_zrange_Some (f : Z -> bool) (lo hi i : Z) :
  find f (zrange lo hi) = Some i ->
  lo <= i < hi /\ f i = true /\ forall j, lo <= j < i -> f j = false.
Proof.
  remember (Z.to_nat (hi - lo)) as n eqn:Hn. revert lo Hn.
  induction n as [|n IH]; intros lo Hn.
  - rewrite zrange_nil by lia. done.
  - rewrite zrange_cons by lia. simpl. destruct (f lo) eqn:Hlo.
    + intros [= <-]. split; [lia|]. split; [done|]. intros j Hj. lia.
    + intros H. apply IH in H as (Hi & Hf & Hall); [|lia].
      split; [lia|]. split; [done|]. intros j Hj.
      destruct (decide (j = lo)) as [->|Hne]; [done|]. apply Hall. lia.
Qed.

Lemma find_zrange_None (f : Z -> bool) (lo hi : Z) :
  find f (zrange lo hi) = None -> forall j, lo <= j < hi -> f j = false.
Proof.
  intros H j Hj. apply (find_none _ _ H). apply In_zrange. done.
Qed.

(** X1: [bubble_getReferenceAlleleIndex] returns the first index whose
    allele equals the reference allele, and -1 exactly when no allele
    of the bubble does. *)
Theorem X_reference_allele_index {F} (b : Bubble F) :
  let r := bubble_getReferenceAlleleIndex b in
  let matches i := rleString_eq (refAllele b) (znth emptyRle (alleles b) i) in
  (r = -1 /\ forall i, 0 <= i < alleleNo b -> matches i = false) \/
  (0 <= r < alleleNo b /\ matches r = true /\ forall i, 0 <= i < r -> matches i = false).
Proof.
  cbv zeta. unfold bubble_getReferenceAlleleIndex.
  destruct (find _ _) as [i|] eqn:Hfind.
  - right. by apply find_zrange_Some in Hfind.
  - left. split; [done|]. by apply find_zrange_None.
Qed.

(** The state of the loop of [bubble_getIndexOfHighestLikelihoodAllele]
    before allele [k]. *)
Lemma highestLikelihood_loop (b : Bubble Q) (hi : Z) :
  1 <= hi ->
  let st := fold_left
              (fun '(maxAllele, maxAlleleLikelihood) i =>
                 let alleleLikelihood := bubble_getLogLikelihoodOfAllele b i in
                 if Qgtb alleleLikelihood maxAlleleLikelihood then (i, alleleLikelihood)
                 else (maxAllele, maxAlleleLikelihood))
              (zrange 1 hi) (0, bubble_getLogLikelihoodOfAllele b 0) in
  0 <= fst st < hi /\ snd st = bubble_getLogLikelihoodOfAllele b (fst st) /\
  (forall i, 0 <= i < hi ->
     (bubble_getLogLikelihoodOfAllele b i <= snd st)%Q) /\
  (forall i, 0 <= i < fst st ->
     (bubble_getLogLikelihoodOfAllele b i < snd st)%Q).
Proof.
  intros Hhi. cbv zeta.
  apply (fold_zrange_inv
           (fun k (st : Z * Q) =>
              0 <= fst st < k /\ snd st = bubble_getLogLikelihoodOfAllele b (fst st) /\
              (forall i, 0 <= i < k -> (bubble_getLogLikelihoodOfAllele b i <= snd st)%Q) /\
              (forall i, 0 <= i < fst st ->
                 (bubble_getLogLikelihoodOfAllele b i < snd st)%Q))); [done| |].
  - simpl. split; [lia|]. split; [done|]. split.
    + intros i Hi. assert (i = 0) as -> by lia. apply Qle_refl.
    + intros i Hi. lia.
  - intros k [m L] Hk (Hm & HL & Hmax & Hfirst). simpl in *. subst L.
    destruct (Qgtb _ _) eqn:Hgt; simpl.
    + apply Qgtb_true in Hgt. split; [lia|]. split; [done|]. split.
      * intros i Hi. destruct (decide (i = k)) as [->|Hne]; [apply Qle_refl|].
        apply Qlt_le_weak. eapply Qle_lt_trans; [apply Hmax; lia|done].
      * intros i Hi. eapply Qle_lt_trans; [apply Hmax; lia|done].
    + apply Qgtb_false in Hgt. split; [lia|]. split; [done|]. split.
      * intros i Hi. destruct (decide (i = k)) as [->|Hne]; [done|]. apply Hmax. lia.
      * done.
Qed.

Lemma highestLikelihood_spec (b : Bubble Q) :
  0 < alleleNo b ->
  let m := bubble_getIndexOfHighestLikelihoodAllele b in
  0 <= m < alleleNo b /\
  (forall i, 0 <= i < alleleNo b ->
     (bubble_getLogLikelihoodOfAllele b i <= bubble_getLogLikelihoodOfAllele b m)%Q) /\
  (forall i, 0 <= i < m ->
     (bubble_getLogLikelihoodOfAllele b i < bubble_getLogLikelihoodOfAllele b m)%Q).
Proof.
  intros Hn. cbv zeta. unfold bubble_getIndexOfHighestLikelihoodAllele.
  pose proof (highestLikelihood_loop b (alleleNo b) ltac:(lia)) as H. cbv zeta in H.
  destruct (fold_left _ _ _) as [m L]. simpl in *.
  destruct H as (Hm & -> & Hmax & Hfirst). done.
Qed.

Lemma getConsensusPath_loop (bg : BubbleGraph Q) (n : Z) (path0 : list Z) :
  0 <= n <= Z.of_nat (length path0) ->
  let path := fold_left
                (fun consensusPath i =>
                   let b := znth emptyBubble (bubbles bg) i in
                   zset consensusPath i
                        (to_uint64 (bubble_getIndexOfHighestLikelihoodAllele b)))
                (zrange 0 n) path0 in
  length path = length path0 /\
  forall i, 0 <= i < n ->
    znth 0 path i
    = to_uint64 (bubble_getIndexOfHighestLikelihoodAllele (znth emptyBubble (bubbles bg) i)).
Proof.
  intros Hn. cbv zeta.
  apply (fold_zrange_inv
           (fun k (path : list Z) =>
              length path = length path0 /\
              forall i, 0 <= i < k ->
                znth 0 path i
                = to_uint64 (bubble_getIndexOfHighestLikelihoodAllele
                               (znth emptyBubble (bubbles bg) i)))); [lia| |].
  - split; [done|]. intros i Hi. lia.
  - intros k path Hk [Hlen Hdone]. cbv zeta. split; [by rewrite length_zset|].
    intros i Hi. destruct (decide (i = k)) as [->|Hne].
    + apply znth_zset_eq. lia.
    + rewrite znth_zset_ne by done. apply Hdone. lia.
Qed.

(** X2: In a graph whose bubbles have at least one allele each,
    [bubbleGraph_getConsensusPath] gives every bubble an allele of the
    bubble: one whose summed read support no allele of the bubble
    exceeds, and the first such. *)
Theorem X_consensus_path_picks_first_best_allele (bg : BubbleGraph Q) :
  0 <= bubbleNo bg ->
  (forall i, 0 <= i < bubbleNo bg ->
     0 < alleleNo (znth emptyBubble (bubbles bg) i) < 2 ^ 64) ->
  let consensusPath := bubbleGraph_getConsensusPath bg in
  Z.of_nat (length consensusPath) = bubbleNo bg /\
  forall i, 0 <= i < bubbleNo bg ->
    let b := znth emptyBubble (bubbles bg) i in
    let m := znth 0 consensusPath i in
    m = bubble_getIndexOfHighestLikelihoodAllele b /\
    0 <= m < alleleNo b /\
    (forall a, 0 <= a < alleleNo b ->
       (bubble_getLogLikelihoodOfAllele b a <= bubble_getLogLikelihoodOfAllele b m)%Q) /\
    (forall a, 0 <= a < m ->
       (bubble_getLogLikelihoodOfAllele b a < bubble_getLogLikelihoodOfAllele b m)%Q).
Proof.
  intros Hn Hall. cbv zeta. unfold bubbleGraph_getConsensusPath.
  destruct (getConsensusPath_loop bg (bubbleNo bg) (replicate (Z.to_nat (bubbleNo bg)) 0))
    as [Hlen Hpath].
  { rewrite length_replicate. lia. }
  cbv zeta in Hlen, Hpath. split.
  - rewrite Hlen, length_replicate. lia.
  - intros i Hi. rewrite (Hpath i Hi).
    destruct (highestLikelihood_spec (znth emptyBubble (bubbles bg) i)) as (Hm & Hmax & Hfirst).
    { apply Hall. done. }
    unfold to_uint64. rewrite Z.mod_small by (specialize (Hall i Hi); lia). done.
Qed.

Lemma X_consensus_path_picks_first_best_allele_witness :
  Z.of_nat (length (bubbleGraph_getConsensusPath ex_likelihood_graph)) = 1 /\
  forall i, 0 <= i < 1 ->
    let b := znth emptyBubble [ex_likelihood_bubble] i in
    let m := znth 0 (bubbleGraph_getConsensusPath ex_likelihood_graph) i in
    m = bubble_getIndexOfHighestLikelihoodAllele b /\
    0 <= m < alleleNo b /\
    (forall a, 0 <= a < alleleNo b ->
       (bubble_getLogLikelihoodOfAllele b a <= bubble_getLogLikelihoodOfAllele b m)%Q) /\
    (forall a, 0 <= a < m ->
       (bubble_getLogLikelihoodOfAllele b a < bubble_getLogLikelihoodOfAllele b m)%Q).
Proof.
  apply (X_consensus_path_picks_first_best_allele ex_likelihood_graph).
  - simpl. lia.
  - simpl. intros i Hi. assert (i = 0) as -> by lia. simpl. lia.
Defined.

Example ex_consensus_path : bubbleGraph_getConsensusPath ex_likelihood_graph = [1].
Proof. reflexivity. Qed.

(** ** The binomial coefficient *)

Lemma choose_0 (n : nat) : choose n 0 = 1%nat.
Proof. by destruct n. Qed.

Lemma choose_gt (n : nat) : forall k, (n < k)%nat -> choose n k = 0%nat.
Proof.
  induction n as [|n IH]; intros [|k] Hk; try lia; [done|].
  simpl. rewrite !IH by lia. done.
Qed.

Lemma choose_diag (n : nat) : choose n n = 1%nat.
Proof. induction n as [|n IH]; [done|]. simpl. rewrite IH, choose_gt by lia. done. Qed.

Lemma choose_absorb (n : nat) :
  forall k, (S k * choose (S n) (S k) = S n * choose n k)%nat.
Proof.
  induction n as [|n IH]; intros k.
  - destruct k as [|k]; [done|]. simpl. lia.
  - destruct k as [|k].
    + rewrite !choose_0. pose proof (IH 0%nat) as H. rewrite choose_0 in H.
      change (choose (S (S n)) 1) with (choose (S n) 0 + choose (S n) 1)%nat.
      rewrite choose_0. lia.
    + change (choose (S (S n)) (S (S k)))
        with (choose (S n) (S k) + choose (S n) (S (S k)))%nat.
      pose proof (IH k) as H1. pose proof (IH (S k)) as H2.
      change (choose (S n) (S k)) with (choose n k + choose n (S k))%nat in *.
      nia.
Qed.

Lemma choose_sym (n : nat) : forall k, (k <= n)%nat -> choose n k = choose n (n - k).
Proof.
  induction n as [|n IH]; intros k Hk.
  - by replace k with 0%nat by lia.
  - destruct k as [|k].
    + rewrite choose_0. replace (S n - 0)%nat with (S n) by lia. by rewrite choose_diag.
    + destruct (decide (k = n)) as [->|Hne].
      * rewrite choose_diag. replace (S n - S n)%nat with 0%nat by lia. by rewrite choose_0.
      * replace (S n - S k)%nat with (S (n - S k)) by lia. simpl.
        rewrite (IH k) by lia. rewrite (IH (S k)) by lia.
        replace (n - k)%nat with (S (n - S k)) by lia. lia.
Qed.

Lemma choose_le_pow (n : nat) : forall k, (choose n k <= 2 ^ n)%nat.
Proof.
  induction n as [|n IH]; intros [|k]; simpl; try lia.
  - pose proof (Nat.pow_nonzero 2 n). lia.
  - pose proof (IH k). pose proof (IH (S k)). lia.
Qed.

Lemma choose_next (N j : nat) :
  (1 <= j <= N)%nat ->
  Z.of_nat j * Z.of_nat (choose N j)
  = (Z.of_nat N - Z.of_nat j + 1) * Z.of_nat (choose N (j - 1)).
Proof.
  intros Hj. destruct N as [|n]; [lia|]. destruct j as [|k]; [lia|].
  replace (S k - 1)%nat with k by lia.
  pose proof (choose_absorb n k) as H1.
  destruct k as [|k'].
  - rewrite choose_0 in *. lia.
  - pose proof (choose_absorb n k') as H2.
    change (choose (S n) (S k')) with (choose n k' + choose n (S k'))%nat in *.
    nia.
Qed.

Lemma choose_pow_Z (N k : nat) : Z.of_nat (choose N k) <= 2 ^ Z.of_nat N.
Proof.
  pose proof (choose_le_pow N k) as H. apply Nat2Z.inj_le in H.
  rewrite Nat2Z.inj_pow in H. exact H.
Qed.

(** The loop of [bionomialCoefficient] before round [j], when nothing
    has wrapped around. *)
Lemma bionomialCoefficient_loop (n0 k : Z) :
  0 <= k -> 2 * k <= n0 -> n0 <= 120 ->
  fold_left
    (fun '(ans, n) j =>
       (if Z.rem n j =? 0 then to_uint128 (ans * to_uint128 (Z.quot n j))
        else if ans mod j =? 0 then to_uint128 (ans / j * to_uint128 n)
        else to_uint128 (ans * to_uint128 n) / j,
        n - 1))
    (zrange 1 (k + 1)) (1, n0)
  = (Z.of_nat (choose (Z.to_nat n0) (Z.to_nat k)), n0 - k).
Proof.
  intros Hk Hkn Hn.
  replace (Z.to_nat k) with (Z.to_nat (k + 1 - 1)) by lia.
  replace (n0 - k) with (n0 - (k + 1 - 1)) by lia.
  apply (fold_zrange_inv
           (fun j (st : Z * Z) =>
              st = (Z.of_nat (choose (Z.to_nat n0) (Z.to_nat (j - 1))), n0 - (j - 1))));
    [lia| |].
  - simpl. rewrite choose_0. f_equal. lia.
  - intros j [ans n] Hj [= -> ->].
    replace (Z.to_nat (j + 1 - 1)) with (Z.to_nat j) by lia.
    replace (n0 - (j + 1 - 1)) with (n0 - (j - 1) - 1) by lia.
    f_equal.
    set (a := Z.of_nat (choose (Z.to_nat n0) (Z.to_nat (j - 1)))).
    set (c := Z.of_nat (choose (Z.to_nat n0) (Z.to_nat j))).
    set (n := n0 - (j - 1)).
    assert (Hstep : j * c = n * a).
    { pose proof (choose_next (Z.to_nat n0) (Z.to_nat j) ltac:(lia)) as H.
      replace (Z.to_nat j - 1)%nat with (Z.to_nat (j - 1)) in H by lia.
      unfold a, c, n. rewrite !Z2Nat.id in H by lia. lia. }
    assert (Hc : 0 <= c <= 2 ^ 120).
    { split; [unfold c; lia|]. unfold c.
      etransitivity; [apply choose_pow_Z|]. apply Z.pow_le_mono_r; lia. }
    assert (Ha : 0 <= a <= 2 ^ 120).
    { split; [unfold a; lia|]. unfold a.
      etransitivity; [apply choose_pow_Z|]. apply Z.pow_le_mono_r; lia. }
    assert (Hnj : j < n <= 120) by (unfold n; lia).
    assert (Hn128 : to_uint128 n = n) by (unfold to_uint128; apply Z.mod_small; lia).
    rewrite Hn128.
    destruct (Z.eqb_spec (Z.rem n j) 0) as [Hrem|Hrem].
    + rewrite Z.rem_mod_nonneg in Hrem by lia.
      rewrite Z.quot_div_nonneg by lia.
      assert (Hq : n = j * (n / j)) by (apply Z.div_exact; lia).
      assert (Hq0 : 0 <= n / j <= 120).
      { split; [apply Z.div_pos; lia|].
        etransitivity; [apply Z.div_le_upper_bound with (q := n); nia|lia]. }
      assert (Hqu : to_uint128 (n / j) = n / j) by (unfold to_uint128; apply Z.mod_small; lia).
      rewrite Hqu.
      assert (Hca : c = a * (n / j)) by nia.
      rewrite <- Hca. unfold to_uint128. apply Z.mod_small. lia.
    + destruct (Z.eqb_spec (a mod j) 0) as [Hmod|Hmod].
      * assert (Hq : a = j * (a / j)) by (apply Z.div_exact; lia).
        assert (Hca : c = a / j * n) by nia.
        rewrite <- Hca. unfold to_uint128. apply Z.mod_small. lia.
      * assert (Hw : to_uint128 (a * n) = a * n).
        { unfold to_uint128. apply Z.mod_small. split; [nia|].
          assert (a * n <= 2 ^ 120 * 120) by nia. lia. }
        rewrite Hw. replace (a * n) with (c * j) by lia. apply Z.div_mul. lia.
Qed.

Lemma bionomialCoefficient_choose (n k : Z) :
  0 <= k <= n -> n <= 120 ->
  bionomialCoefficient n k = Z.of_nat (choose (Z.to_nat n) (Z.to_nat k)).
Proof.
  intros Hk Hn. unfold bionomialCoefficient.
  destruct (Z.ltb_spec (n - k) k) as [Hlt|Hge].
  - rewrite bionomialCoefficient_loop by lia. cbn [fst].
    rewrite (choose_sym (Z.to_nat n) (Z.to_nat k)) by lia.
    do 2 f_equal. lia.
  - rewrite bionomialCoefficient_loop by lia. done.
Qed.

(** X3: For [0 <= k <= n <= 120] nothing wraps around in
    [bionomialCoefficient], and the result is the binomial coefficient
    of Pascal's triangle. *)
Theorem X_binomial_coefficient (n k : Z) :
  0 <= k <= n -> n <= 120 ->
  bionomialCoefficient n k = Z.of_nat (choose (Z.to_nat n) (Z.to_nat k)).
Proof. apply bionomialCoefficient_choose. Qed.

Lemma X_binomial_coefficient_witness :
  bionomialCoefficient 120 60 = Z.of_nat (choose (Z.to_nat 120) (Z.to_nat 60)).
Proof. apply (X_binomial_coefficient 120 60); lia. Defined.

(** X4: Outside [0 < k < n] the loop of [bionomialCoefficient] does not
    run and the result is 1: also for [k < 0] and for [k > n], where
    the binomial coefficient is 0. *)
Theorem X_binomial_coefficient_outside (n k : Z) :
  k <= 0 \/ n <= k -> bionomialCoefficient n k = 1.
Proof.
  intros Hk. unfold bionomialCoefficient.
  destruct (Z.ltb_spec (n - k) k); rewrite zrange_nil by lia; done.
Qed.

Lemma X_binomial_coefficient_outside_witness :
  (5 <= 0 \/ 3 <= 5) /\ bionomialCoefficient 3 5 = 1.
Proof. split; [lia|]. apply (X_binomial_coefficient_outside 3 5). lia. Defined.

(** ** The p-value of the strand skew *)

Lemma chooseUpTo_pascal (n m : nat) :
  chooseUpTo (S n) (S m) = (chooseUpTo n (S m) + chooseUpTo n m)%nat.
Proof.
  induction m as [|m IH]; [simpl; by rewrite choose_0|].
  change (chooseUpTo (S n) (S (S m)))
    with (chooseUpTo (S n) (S m) + choose (S n) (S m))%nat.
  rewrite IH. simpl. lia.
Qed.

Lemma chooseUpTo_row (n : nat) : chooseUpTo n (S n) = (2 ^ n)%nat.
Proof.
  induction n as [|n IH]; [done|].
  rewrite chooseUpTo_pascal, IH.
  change (chooseUpTo n (S (S n))) with (chooseUpTo n (S n) + choose n (S n))%nat.
  rewrite IH, choose_gt by lia. simpl. lia.
Qed.

Lemma chooseUpTo_mono (n m m' : nat) : (m <= m')%nat -> (chooseUpTo n m <= chooseUpTo n m')%nat.
Proof. induction 1; [done|]. simpl. lia. Qed.

Lemma chooseUpTo_below (n m : nat) : (m <= n)%nat -> (chooseUpTo n m < 2 ^ n)%nat.
Proof.
  intros H. rewrite <- chooseUpTo_row.
  change (chooseUpTo n (S n)) with (chooseUpTo n n + choose n n)%nat.
  rewrite choose_diag. pose proof (chooseUpTo_mono n m n H). lia.
Qed.

(** The sum of [binomialPValue] before term [i]. *)
Lemma binomialPValue_sum (n k : Z) :
  0 <= k <= n + 1 -> 0 <= n <= 120 ->
  fold_left (fun j i => to_uint128 (j + bionomialCoefficient n i)) (zrange k (n + 1)) 0
  = 2 ^ n - Z.of_nat (chooseUpTo (Z.to_nat n) (Z.to_nat k)).
Proof.
  intros Hk Hn.
  assert (Hrow : forall m, 0 <= m <= n + 1 ->
            0 <= Z.of_nat (chooseUpTo (Z.to_nat n) (Z.to_nat m)) <= 2 ^ n).
  { intros m Hm. split; [lia|].
    pose proof (chooseUpTo_mono (Z.to_nat n) (Z.to_nat m) (S (Z.to_nat n)) ltac:(lia)) as H.
    rewrite chooseUpTo_row in H. apply Nat2Z.inj_le in H.
    rewrite Nat2Z.inj_pow, Z2Nat.id in H by lia. exact H. }
  assert (Hfull : Z.of_nat (chooseUpTo (Z.to_nat n) (Z.to_nat (n + 1))) = 2 ^ n).
  { replace (Z.to_nat (n + 1)) with (S (Z.to_nat n)) by lia.
    rewrite chooseUpTo_row, Nat2Z.inj_pow, Z2Nat.id by lia. done. }
  rewrite <- Hfull.
  apply (fold_zrange_inv
           (fun i j => j = Z.of_nat (chooseUpTo (Z.to_nat n) (Z.to_nat i))
                           - Z.of_nat (chooseUpTo (Z.to_nat n) (Z.to_nat k)))); [lia|cbv beta; lia|].
  intros i j Hi ->. rewrite bionomialCoefficient_choose by lia.
  replace (Z.to_nat (i + 1)) with (S (Z.to_nat i)) by lia.
  change (chooseUpTo (Z.to_nat n) (S (Z.to_nat i)))
    with (chooseUpTo (Z.to_nat n) (Z.to_nat i) + choose (Z.to_nat n) (Z.to_nat i))%nat.
  rewrite Nat2Z.inj_add.
  set (u := Z.of_nat (chooseUpTo (Z.to_nat n) (Z.to_nat i))).
  set (c := Z.of_nat (choose (Z.to_nat n) (Z.to_nat i))).
  set (v := Z.of_nat (chooseUpTo (Z.to_nat n) (Z.to_nat k))).
  assert (Hu1 : 0 <= u + c <= 2 ^ n).
  { pose proof (Hrow (i + 1) ltac:(lia)) as H.
    replace (Z.to_nat (i + 1)) with (S (Z.to_nat i)) in H by lia.
    change (chooseUpTo (Z.to_nat n) (S (Z.to_nat i)))
      with (chooseUpTo (Z.to_nat n) (Z.to_nat i) + choose (Z.to_nat n) (Z.to_nat i))%nat in H.
    rewrite Nat2Z.inj_add in H. exact H. }
  assert (Hv : 0 <= v <= u).
  { split; [unfold v; lia|]. unfold u, v. apply Nat2Z.inj_le, chooseUpTo_mono. lia. }
  assert (Hc : 0 <= c) by (unfold c; lia).
  assert (Hp : 2 ^ n <= 2 ^ 120) by (apply Z.pow_le_mono_r; lia).
  unfold to_uint128. rewrite Z.mod_small by lia. lia.
Qed.

Lemma binomialPValue_closed (n k : Z) :
  0 <= k <= n -> n <= 120 ->
  let k' := if k <? Z.quot n 2 then n - k else k in
  let tail := 2 ^ n - Z.of_nat (chooseUpTo (Z.to_nat n) (Z.to_nat k')) in
  (binomialPValue n k == inject_Z tail / inject_Z (2 ^ n))%Q /\ 1 <= tail <= 2 ^ n.
Proof.
  intros Hk Hn. cbv zeta. unfold binomialPValue.
  set (k' := if k <? Z.quot n 2 then n - k else k).
  assert (Hk' : 0 <= k' <= n) by (unfold k'; destruct (k <? Z.quot n 2); lia).
  rewrite binomialPValue_sum by lia. split.
  - rewrite <- (Zpower_Qpower 2 n) by lia. reflexivity.
  - pose proof (chooseUpTo_below (Z.to_nat n) (Z.to_nat k') ltac:(lia)) as H.
    apply Nat2Z.inj_lt in H. rewrite Nat2Z.inj_pow, Z2Nat.id in H by lia.
    change (Z.of_nat 2) with 2 in H. lia.
Qed.

(** X5: For [0 <= k <= n <= 120], [binomialPValue n k] is the share of the
    subsets of [n] elements that have at least [k'] elements, where
    [k'] is [n - k] if [k < n / 2] and [k] otherwise; it lies between
    [2^-n] and 1. *)
Theorem X_binomial_p_value (n k : Z) :
  0 <= k <= n -> n <= 120 ->
  let k' := if k <? Z.quot n 2 then n - k else k in
  (binomialPValue n k
   == inject_Z (2 ^ n - Z.of_nat (chooseUpTo (Z.to_nat n) (Z.to_nat k'))) / inject_Z (2 ^ n))%Q /\
  (/ inject_Z (2 ^ n) <= binomialPValue n k)%Q /\ (binomialPValue n k <= 1)%Q.
Proof.
  intros Hk Hn. destruct (binomialPValue_closed n k Hk Hn) as [Heq Hb]. cbv zeta in *.
  split; [exact Heq|]. rewrite Heq.
  set (t := 2 ^ n - _) in *. clearbody t.
  assert (Hp : 0 < 2 ^ n) by (apply Z.pow_pos_nonneg; lia).
  assert (HpQ : (0 < inject_Z (2 ^ n))%Q) by (rewrite <- (Zlt_Qlt 0); done).
  split.
  - apply Qle_shift_div_l; [done|].
    rewrite Qmult_comm, Qmult_inv_r by (intros H; rewrite H in HpQ; by apply Qlt_irrefl in HpQ).
    rewrite <- (Zle_Qle 1). lia.
  - apply Qle_shift_div_r; [done|]. rewrite Qmult_1_l, <- Zle_Qle. lia.
Qed.

Lemma X_binomial_p_value_witness :
  (binomialPValue 5 1
   == inject_Z (2 ^ 5 - Z.of_nat (chooseUpTo (Z.to_nat 5) (Z.to_nat 4))) / inject_Z (2 ^ 5))%Q /\
  (/ inject_Z (2 ^ 5) <= binomialPValue 5 1)%Q /\ (binomialPValue 5 1 <= 1)%Q.
Proof. apply (X_binomial_p_value 5 1); lia. Defined.

(** The counts of [bubble_phasedStrandSkew]. *)
Lemma countPhasedReads_bounds {F} (b : Bubble F) (readsToPSeqs : gmap nat stProfileSeq)
    (gf : stGenomeFragment) :
  0 <= readNo_ b ->
  let c := countPhasedReads b readsToPSeqs gf in
  0 <= snd c <= fst c /\ fst c <= readNo_ b.
Proof.
  intros Hn. cbv zeta. unfold countPhasedReads.
  apply (fold_zrange_inv (fun i (c : Z * Z) => 0 <= snd c <= fst c /\ fst c <= i));
    [lia|simpl; lia|].
  intros i [r p] Hi [Hp Hr]. simpl in *.
  destruct (readsToPSeqs !! _) as [pSeq|]; [|simpl; lia].
  repeat case_bool_decide; try destruct (forwardStrand _); simpl; lia.
Qed.

Lemma phasedStrandSkew_small {F} (b : Bubble F) (readsToPSeqs : gmap nat stProfileSeq)
    (gf : stGenomeFragment) :
  readNo_ b <= 4 ->
  Qgtb (5 # 100) (bubble_phasedStrandSkew b readsToPSeqs gf) = false.
Proof.
  intros Hn. apply Qgtb_false. unfold bubble_phasedStrandSkew.
  destruct (Z.le_gt_cases 0 (readNo_ b)) as [H0|H0].
  - pose proof (countPhasedReads_bounds b readsToPSeqs gf H0) as H. cbv zeta in H.
    destruct (countPhasedReads b readsToPSeqs gf) as [r p]. simpl in H.
    assert (Hr : r = 0 \/ r = 1 \/ r = 2 \/ r = 3 \/ r = 4) by lia.
    assert (Hp : p = 0 \/ p = 1 \/ p = 2 \/ p = 3 \/ p = 4) by lia.
    destruct Hr as [-> | [-> | [-> | [-> | ->]]]];
      destruct Hp as [-> | [-> | [-> | [-> | ->]]]]; try lia; by vm_compute.
  - unfold countPhasedReads. rewrite zrange_nil by lia. by vm_compute.
Qed.

(** X6: A bubble with fewer than five reads is never counted as skewed: in
    a graph with at least one bubble whose bubbles have at most four
    reads each, [bubbleGraph_skewedBubbles] is 0. *)
Theorem X_skewed_bubbles_need_five_reads {F} (bg : BubbleGraph F)
    (readsToPSeqs : gmap nat stProfileSeq) (gf : stGenomeFragment) :
  0 < bubbleNo bg ->
  (forall i, 0 <= i < bubbleNo bg -> readNo_ (znth emptyBubble (bubbles bg) i) <= 4) ->
  exists q, bubbleGraph_skewedBubbles bg readsToPSeqs gf = Finite q /\ (q == 0)%Q.
Proof.
  intros Hn Hsmall. unfold bubbleGraph_skewedBubbles.
  assert (Hcount : countSkewedBubbles bg readsToPSeqs gf = 0).
  { unfold countSkewedBubbles.
    apply (fold_zrange_inv (fun (_ : Z) (c : Z) => c = 0)); [lia|done|].
    intros i c Hi ->. rewrite phasedStrandSkew_small by (apply Hsmall; lia). done. }
  rewrite Hcount. unfold ddiv.
  destruct (Qeq_bool (inject_Z (bubbleNo bg)) 0) eqn:Hz.
  - apply Qeq_bool_eq in Hz. apply (inject_Z_eq0) in Hz. lia.
  - eexists. split; [done|]. unfold Qdiv. apply Qmult_0_l.
Qed.

Lemma X_skewed_bubbles_need_five_reads_witness :
  exists q, bubbleGraph_skewedBubbles ex_likelihood_graph ∅ ex_fragment = Finite q /\ (q == 0)%Q.
Proof.
  apply (X_skewed_bubbles_need_five_reads ex_likelihood_graph ∅ ex_fragment).
  - simpl. lia.
  - simpl. intros i Hi. assert (i = 0) as -> by lia. simpl. lia.
Defined.

(** ** Refinement of the read partition *)

Lemma testbit_one_shifted (i t : Z) :
  0 <= i -> 0 <= t ->
  Z.testbit (to_uint64 (Z.shiftl 1 i)) t = ((t =? i) && (i <? 64))%bool.
Proof.
  intros Hi Ht. unfold to_uint64. rewrite Z.shiftl_1_l.
  destruct (Z.ltb_spec i 64) as [Hlt|Hge].
  - rewrite Z.mod_small.
    + rewrite Z.pow2_bits_eqb by lia. rewrite andb_true_r, Z.eqb_sym. done.
    + split; [apply Z.pow_nonneg; lia|]. apply Z.pow_lt_mono_r; lia.
  - rewrite andb_false_r.
    replace (2 ^ i) with (2 ^ (i - 64) * 2 ^ 64)
      by (rewrite <- Z.pow_add_r by lia; f_equal; lia).
    rewrite Z.mod_mul by lia. apply Z.bits_0.
Qed.

Lemma flipReadsBetweenPartitions_bits (partition : Z) (column : stRPColumn)
    (flippingReads : gset stProfileSeq) (t : Z) :
  0 <= t ->
  Z.testbit (flipReadsBetweenPartitions partition column flippingReads) t
  = xorb (Z.testbit partition t)
         ((t <? depth column) && (t <? 64)
          && bool_decide (znth emptyProfileSeq (seqHeaders column) t ∈ flippingReads)).
Proof.
  intros Ht. unfold flipReadsBetweenPartitions.
  destruct (Z.le_gt_cases 0 (depth column)) as [Hd|Hd].
  - apply (fold_zrange_inv
             (fun k p =>
                Z.testbit p t
                = xorb (Z.testbit partition t)
                       ((t <? k) && (t <? 64)
                        && bool_decide (znth emptyProfileSeq (seqHeaders column) t
                                        ∈ flippingReads)))); [lia| |].
    + destruct (Z.ltb_spec t 0); [lia|]. simpl. by rewrite xorb_false_r.
    + intros k p Hk Hp. cbv zeta.
      assert (Hbits : forall (x : bool) (u : Z), xorb x false = x) by (intros; apply xorb_false_r).
      destruct (decide (znth emptyProfileSeq (seqHeaders column) k ∈ flippingReads))
        as [Hin|Hin]; [rewrite (bool_decide_true _ Hin)|rewrite (bool_decide_false _ Hin)].
      * rewrite Z.lxor_spec, Hp, testbit_one_shifted by lia.
        destruct (decide (t = k)) as [->|Hne].
        -- rewrite (bool_decide_true _ Hin).
           destruct (Z.ltb_spec k k); [lia|]. destruct (Z.ltb_spec k (k + 1)); [|lia].
           rewrite Z.eqb_refl. destruct (k <? 64), (Z.testbit partition k); done.
        -- destruct (Z.eqb_spec t k); [lia|].
           destruct (Z.ltb_spec t k), (Z.ltb_spec t (k + 1)); try lia;
             destruct (t <? 64), (bool_decide _), (Z.testbit partition t); done.
      * rewrite Hp. destruct (decide (t = k)) as [->|Hne].
        -- rewrite (bool_decide_false _ Hin). by rewrite !andb_false_r.
        -- destruct (Z.ltb_spec t k), (Z.ltb_spec t (k + 1)); try lia; done.
  - rewrite zrange_nil by lia. simpl.
    destruct (Z.ltb_spec t (depth column)); [lia|]. simpl. by rewrite xorb_false_r.
Qed.

(** X7: [flipReadsBetweenPartitions] changes bit [t] of the partition
    exactly when [t] is below the depth of the column (and below 64)
    and read [t] of the column is one of the flipping reads; flipping the
    same reads again gives the partition back. *)
Theorem X_flip_reads_between_partitions (partition : Z) (column : stRPColumn)
    (flippingReads : gset stProfileSeq) :
  (forall t, 0 <= t ->
     Z.testbit (flipReadsBetweenPartitions partition column flippingReads) t
     = xorb (Z.testbit partition t)
            ((t <? depth column) && (t <? 64)
             && bool_decide (znth emptyProfileSeq (seqHeaders column) t ∈ flippingReads))) /\
  flipReadsBetweenPartitions
    (flipReadsBetweenPartitions partition column flippingReads) column flippingReads
  = partition.
Proof.
  split; [intros t Ht; by apply flipReadsBetweenPartitions_bits|].
  apply Z.bits_inj'. intros t Ht. rewrite !flipReadsBetweenPartitions_bits by done.
  rewrite xorb_assoc, xorb_nilpotent, xorb_false_r. done.
Qed.

Example ex_flip : flipReadsBetweenPartitions 1 ex_column {[ex_pseq 0; ex_pseq 1]} = 2.
Proof. reflexivity. Qed.

(** X8: A round of [stGenomeFragment_refineGenomeFragment] moves reads
    between the two sets and loses none: after any number of rounds the
    two sets are disjoint, hold the reads they held together before,
    and their sizes add up to the same number, which is what the
    [assert] of the loop checks. *)
Theorem X_refinement_keeps_the_reads
    (fillInPredictedGenome : stGenomeFragment -> Z -> stRPColumn -> stGenomeFragment)
    (getLogProb : list Z -> Z -> Z -> stProfileSeq -> Q)
    (rounds : nat) (gF : stGenomeFragment) (reads1_ reads2_ : gset stProfileSeq)
    (hmm : stRPHmm) (p : list Z) :
  reads1_ ## reads2_ ->
  let res := refineRounds fillInPredictedGenome getLogProb rounds gF reads1_ reads2_ hmm p in
  snd (fst res) ∪ snd res = reads1_ ∪ reads2_ /\
  snd (fst res) ## snd res /\
  (size (snd (fst res)) + size (snd res) = size reads1_ + size reads2_)%nat.
Proof.
  intros Hd. cbv zeta.
  destruct (refineRounds_partition fillInPredictedGenome getLogProb rounds gF reads1_ reads2_
              hmm p Hd) as [HU HD].
  cbv zeta in HU, HD. split; [exact HU|]. split; [exact HD|].
  rewrite <- !size_union by done. by rewrite HU.
Qed.

Lemma X_refinement_keeps_the_reads_witness :
  let res := refineRounds (fun gF _ _ => gF) ex_getLogProb 2 ex_fragment
               {[ex_pseq 0]} {[ex_pseq 1]} (mkHmm 0 1 [ex_column]) [1] in
  snd (fst res) ∪ snd res = {[ex_pseq 0]} ∪ {[ex_pseq 1]} /\
  snd (fst res) ## snd res /\
  (size (snd (fst res)) + size (snd res)
   = size ({[ex_pseq 0]} : gset stProfileSeq) + size ({[ex_pseq 1]} : gset stProfileSeq))%nat.
Proof.
  apply (X_refinement_keeps_the_reads (fun gF _ _ => gF) ex_getLogProb 2 ex_fragment
           {[ex_pseq 0]} {[ex_pseq 1]} (mkHmm 0 1 [ex_column]) [1]).
  apply disjoint_singleton_l. rewrite elem_of_singleton. discriminate.
Defined.

(** ** Reads outside the fragment *)

Lemma getLogProbOfReadGivenHaplotype_outside (ALPHABET_SIZE : Z)
    (getSubstitutionProbSlow : Z -> Z -> Q) (getProb : list Z -> Z -> Z -> Q)
    (haplotypeString : list Z) (start_ length : Z) (profileSeq : stProfileSeq) :
  pseq_refStart profileSeq + pseq_length profileSeq <= start_
  \/ start_ + length <= pseq_refStart profileSeq ->
  getLogProbOfReadGivenHaplotype ALPHABET_SIZE getSubstitutionProbSlow getProb
    haplotypeString start_ length profileSeq = 0%Q.
Proof.
  intros Hout. unfold getLogProbOfReadGivenHaplotype.
  apply (fold_left_preserves_In (fun q : Q => q = 0%Q)); [|done].
  intros q i Hi ->. apply In_zrange in Hi.
  destruct (Z.leb_spec 0 (i + pseq_refStart profileSeq - start_));
    destruct (Z.ltb_spec (i + pseq_refStart profileSeq - start_) length); simpl; try done.
  lia.
Qed.

(** X9: A read that does not overlap the fragment has log probability 0
    under every haplotype string, so the refinement never finds that
    the other haplotype explains it better and never moves it. *)
Theorem X_read_outside_fragment_never_moves (ALPHABET_SIZE : Z)
    (getSubstitutionProbSlow : Z -> Z -> Q) (getProb : list Z -> Z -> Z -> Q)
    (haplotypeString1_ haplotypeString2_ : list Z) (start_ length : Z)
    (profileSeqs : gset stProfileSeq) (profileSeq : stProfileSeq) :
  pseq_refStart profileSeq + pseq_length profileSeq <= start_
  \/ start_ + length <= pseq_refStart profileSeq ->
  getLogProbOfReadGivenHaplotype ALPHABET_SIZE getSubstitutionProbSlow getProb
    haplotypeString1_ start_ length profileSeq = 0%Q /\
  profileSeq ∉
    findReadsThatWereMoreProbablyGeneratedByTheOtherHaplotype
      (getLogProbOfReadGivenHaplotype ALPHABET_SIZE getSubstitutionProbSlow getProb)
      haplotypeString1_ haplotypeString2_ start_ length profileSeqs.
Proof.
  intros Hout. split; [by apply getLogProbOfReadGivenHaplotype_outside|].
  unfold findReadsThatWereMoreProbablyGeneratedByTheOtherHaplotype.
  rewrite elem_of_filter. intros [Hgt _]. cbv zeta in Hgt.
  rewrite !getLogProbOfReadGivenHaplotype_outside in Hgt by done. done.
Qed.

Lemma X_read_outside_fragment_never_moves_witness :
  getLogProbOfReadGivenHaplotype 4 (fun _ _ => 1%Q) (fun _ _ _ => 1%Q)
    [0; 1] 5 2 (ex_pseq 0) = 0%Q /\
  ex_pseq 0 ∉
    findReadsThatWereMoreProbablyGeneratedByTheOtherHaplotype
      (getLogProbOfReadGivenHaplotype 4 (fun _ _ => 1%Q) (fun _ _ _ => 1%Q))
      [0; 1] [1; 0] 5 2 {[ex_pseq 0]}.
Proof.
  apply (X_read_outside_fragment_never_moves 4 (fun _ _ => 1%Q) (fun _ _ _ => 1%Q)
           [0; 1] [1; 0] 5 2 {[ex_pseq 0]} (ex_pseq 0)).
  simpl. lia.
Defined.

(** ** Phase set intervals and the switch correctness *)

(** X10: For variants in position order (none before position 0),
    [phaseSetIntervals] returns a table in which every phase set of the
    list has the index of its first and of its last variant, and
    nothing else. *)
Theorem X_phase_set_intervals (l : list PhasedVariant) :
  in_position_order l ->
  exists I, phaseSetIntervals l = Returns I /\
    (forall k, 0 <= k < Z.of_nat (length l) ->
       exists a b, I !! phaseSetAt l k = Some (a, b) /\ 0 <= a <= k /\ k <= b /\
                   b < Z.of_nat (length l)) /\
    (forall P a b, I !! P = Some (a, b) ->
       phaseSetAt l a = P /\ phaseSetAt l b = P /\
       forall k, 0 <= k < Z.of_nat (length l) -> phaseSetAt l k = P -> a <= k <= b).
Proof.
  intros Hord. destruct (phaseSetIntervals_ordered l Hord) as (I & HI & Hent & Hall).
  exists I. split; [exact HI|]. split.
  - intros k Hk. destruct (Hall k Hk) as [[a b] Hab].
    destruct (Hent _ a b Hab) as (Ha & Hb & _ & _ & Hin).
    exists a, b. split; [exact Hab|]. specialize (Hin k Hk eq_refl). lia.
  - intros P a b Hab. destruct (Hent P a b Hab) as (_ & _ & H1 & H2 & H3). done.
Qed.

Lemma X_phase_set_intervals_witness :
  exists I, phaseSetIntervals ex_two_sets = Returns I /\
    (forall k, 0 <= k < Z.of_nat (length ex_two_sets) ->
       exists a b, I !! phaseSetAt ex_two_sets k = Some (a, b) /\ 0 <= a <= k /\ k <= b /\
                   b < Z.of_nat (length ex_two_sets)) /\
    (forall P a b, I !! P = Some (a, b) ->
       phaseSetAt ex_two_sets a = P /\ phaseSetAt ex_two_sets b = P /\
       forall k, 0 <= k < Z.of_nat (length ex_two_sets) ->
         phaseSetAt ex_two_sets k = P -> a <= k <= b).
Proof. apply (X_phase_set_intervals ex_two_sets). apply ex_two_sets_ordered. Defined.

Lemma switchStep_inv (q t : list PhasedVariant) (st : SwitchState) :
  (sc_i st < length q)%nat -> (sc_j st < length t)%nat ->
  switch_inv q t st -> switch_inv q t (switchStep q t st).
Proof.
  intros Hi Hj (H1 & H2 & H3 & H4 & H5 & H6 & H7 & H8). unfold switchStep. cbv zeta.
  destruct (_ <? _); [unfold switch_inv; simpl; repeat split; try lia; done|].
  destruct (_ <? _); [unfold switch_inv; simpl; repeat split; try lia; done|].
  destruct (_ || _)%bool; [unfold switch_inv; simpl; repeat split; try lia; done|].
  destruct (2 <? _); [unfold switch_inv; simpl; repeat split; try lia; done|].
  unfold switch_inv. simpl.
  destruct (prevPhaseSets st) as [[pq pt]|] eqn:Hprev.
  - assert (1 <= numPhasedVariants st) by (apply H8; done).
    repeat split; try lia; try done.
    + destruct (_ && _)%bool; [destruct (Bool.eqb _ _)|]; lia.
    + destruct (_ && _)%bool; [destruct (Bool.eqb _ _)|]; lia.
  - assert (numPhasedVariants st = 0) by (apply H7; done).
    repeat split; try lia; done.
Qed.

Lemma switchLoop_inv (q t : list PhasedVariant) (fuel : nat) :
  forall st, switch_inv q t st -> switch_inv q t (switchLoop q t fuel st).
Proof.
  induction fuel as [|fuel IH]; intros st Hst; [done|]. simpl.
  destruct (Nat.ltb_spec (sc_i st) (length q)); [|done].
  destruct (Nat.ltb_spec (sc_j st) (length t)); [|done]. simpl.
  apply IH, switchStep_inv; done.
Qed.

(** X11: [switchCorrectness] counts at most as many variants as the shorter
    list has.  With two or more variants counted the result is a
    number between 0 and 1; with one it is 0/0; with none it is
    0/-1. *)
Theorem X_switch_correctness_range (query truth : list PhasedVariant) :
  let r := fst (switchCorrectness query truth) in
  let n := snd (switchCorrectness query truth) in
  0 <= n <= Z.of_nat (Nat.min (length query) (length truth)) /\
  (2 <= n -> exists v, r = Finite v /\ (0 <= v <= 1)%Q) /\
  (n = 1 -> r = NaN) /\
  (n = 0 -> exists v, r = Finite v /\ (v == 0)%Q).
Proof.
  cbv zeta. unfold switchCorrectness.
  set (st := switchLoop query truth _ _).
  assert (Hst : switch_inv query truth st).
  { apply switchLoop_inv. unfold switch_inv. simpl. repeat split; try lia; done. }
  destruct Hst as (H1 & H2 & H3 & H4 & H5 & H6 & H7 & H8). cbn [fst snd].
  split; [lia|]. unfold ddiv. split; [|split].
  - intros Hn. destruct (Qeq_bool (inject_Z (numPhasedVariants st - 1)) 0) eqn:Hz.
    + apply Qeq_bool_eq, inject_Z_eq0 in Hz. lia.
    + eexists. split; [done|].
      assert (Hd : (0 < inject_Z (numPhasedVariants st - 1))%Q)
        by (rewrite <- (Zlt_Qlt 0); lia).
      split.
      * apply Qle_shift_div_l; [done|]. rewrite Qmult_0_l, <- (Zle_Qle 0). lia.
      * apply Qle_shift_div_r; [done|]. rewrite Qmult_1_l, <- Zle_Qle. lia.
  - intros Hn. rewrite Hn. assert (numCorrectlyPhasedPairs st = 0) as -> by lia. done.
  - intros Hn. rewrite Hn. assert (numCorrectlyPhasedPairs st = 0) as -> by lia.
    eexists. split; [done|]. done.
Qed.

(** ** Shared contigs *)

Lemma strcmp_total (a b : string) : strcmp a b <= 0 \/ strcmp b a <= 0.
Proof.
  unfold strcmp. rewrite (String.compare_antisym a b).
  destruct (String.compare b a); simpl; lia.
Qed.

Lemma insert_sorted_Permutation {A} (cmp : A -> A -> Z) (x : A) (l : list A) :
  Permutation (insert_sorted cmp x l) (x :: l).
Proof.
  induction l as [|y l IH]; simpl; [done|].
  destruct (cmp x y <=? 0); [done|].
  rewrite IH. apply perm_swap.
Qed.

Lemma insertion_sort_Permutation {A} (cmp : A -> A -> Z) (l : list A) :
  Permutation (insertion_sort cmp l) l.
Proof.
  induction l as [|x l IH]; simpl; [done|].
  rewrite insert_sorted_Permutation. by constructor.
Qed.

Lemma insertion_sort_sorts_with {A} (cmp : A -> A -> Z) :
  (forall a b, cmp a b <= 0 \/ cmp b a <= 0) -> sorts_with cmp (@insertion_sort).
Proof.
  intros Htot l. split; [apply insertion_sort_Permutation|by apply insertion_sort_Sorted].
Qed.

Lemma keys_elem_of {V} (m : gmap string V) (x : string) :
  x ∈ (list_to_set (map fst (map_to_list m)) : gset string) <-> is_Some (m !! x).
Proof.
  rewrite elem_of_list_to_set, list_elem_of_In, in_map_iff. split.
  - intros ([k v] & <- & Hin). apply list_elem_of_In, elem_of_map_to_list in Hin.
    simpl. by eexists.
  - intros [v Hv]. exists (x, v). split; [done|].
    by apply list_elem_of_In, elem_of_map_to_list.
Qed.

(** X12: [getSharedContigs] returns the names that are keys of both hashes,
    each once, in strictly ascending [strcmp] order, for every sorting
    function that orders by the comparison it is given. *)
Theorem X_shared_contigs {V1 V2}
    (stList_sort : forall A : Type, (A -> A -> Z) -> list A -> list A)
    (entry1 : gmap string V1) (entry2 : gmap string V2) :
  sorts_with strcmp stList_sort ->
  let sharedContigs := getSharedContigs stList_sort entry1 entry2 in
  (forall x, In x sharedContigs <-> is_Some (entry1 !! x) /\ is_Some (entry2 !! x)) /\
  List.NoDup sharedContigs /\
  adjacent_ordered (fun a b => strcmp a b < 0) sharedContigs.
Proof.
  intros Hsort. cbv zeta. unfold getSharedContigs. cbv zeta.
  set (inter := _ ∩ _).
  destruct (Hsort (elements inter)) as [Hperm Hsorted].
  assert (Hnd : List.NoDup (stList_sort string strcmp (elements inter))).
  { eapply Permutation_NoDup; [symmetry; exact Hperm|].
    apply NoDup_ListNoDup, NoDup_elements. }
  split; [|split; [exact Hnd|]].
  - intros x. rewrite (Permutation_in' (eq_refl x) Hperm).
    rewrite <- list_elem_of_In, elem_of_elements. unfold inter.
    rewrite elem_of_intersection, !keys_elem_of. done.
  - intros i a b Ha Hb.
    pose proof (Sorted_adjacent_ordered _ _ Hsorted i a b Ha Hb) as Hle. simpl in Hle.
    assert (Hne : a <> b).
    { intros ->. apply NoDup_ListNoDup in Hnd.
      pose proof (NoDup_lookup _ _ _ _ Hnd Ha Hb). lia. }
    unfold strcmp in *. destruct (String.compare a b) eqn:Hc; try lia.
    apply String.compare_eq_iff in Hc. done.
Qed.

Lemma X_shared_contigs_witness :
  let sharedContigs := getSharedContigs (@insertion_sort) ex_contigs1 ex_contigs2 in
  (forall x, In x sharedContigs <-> is_Some (ex_contigs1 !! x) /\ is_Some (ex_contigs2 !! x)) /\
  List.NoDup sharedContigs /\
  adjacent_ordered (fun a b => strcmp a b < 0) sharedContigs.
Proof.
  apply (X_shared_contigs (@insertion_sort) ex_contigs1 ex_contigs2).
  apply insertion_sort_sorts_with, strcmp_total.
Defined.

Example ex_shared_contigs :
  getSharedContigs (@insertion_sort) ex_contigs1 ex_contigs2 = ["chr2"; "chrX"]%string.
Proof. by vm_compute. Qed.

(** ** Candidate positions from a VCF *)

Lemma StronglySorted_app_r {A} (R : A -> A -> Prop) (l1 l2 : list A) :
  StronglySorted R (l1 ++ l2) -> StronglySorted R l2.
Proof.
  induction l1 as [|x l1 IH]; [done|]. simpl. intros H.
  apply StronglySorted_inv in H as [H _]. by apply IH.
Qed.

Lemma updateCVP_loop (cvp0 : list bool) (n : Z) (es : list VcfEntry) :
  0 <= n <= Z.of_nat (length cvp0) ->
  StronglySorted (fun x y => refPos x < refPos y) es ->
  Forall (fun e => 0 <= refPos e) es ->
  let st := fold_left
              (fun '(cvp, itor) i =>
                 let isVCF := match itor with
                              | e :: _ => refPos e =? i
                              | [] => false
                              end in
                 let cvp := zset cvp i isVCF in
                 let itor := match itor with
                             | e :: rest => if refPos e <=? i then rest else itor
                             | [] => []
                             end in
                 (cvp, itor))
              (zrange 0 n) (cvp0, es) in
  length (fst st) = length cvp0 /\
  (forall i, 0 <= i < n ->
     (znth false (fst st) i = true <-> exists e, In e es /\ refPos e = i)) /\
  (forall i, n <= i -> znth false (fst st) i = znth false cvp0 i).
Proof.
  intros Hn Hsorted Hpos. cbv zeta.
  apply (fold_zrange_inv
           (fun k (st : list bool * list VcfEntry) =>
              (length (fst st) = length cvp0 /\
               (forall i, 0 <= i < k ->
                  (znth false (fst st) i = true <-> exists e, In e es /\ refPos e = i)) /\
               (forall i, k <= i -> znth false (fst st) i = znth false cvp0 i)) /\
              exists consumed, es = consumed ++ snd st /\
                Forall (fun e => refPos e < k) consumed /\
                Forall (fun e => k <= refPos e) (snd st))); [lia| |].
  - simpl. split; [split; [done|split; [intros; lia|done]]|].
    exists []. split; [done|]. split; [constructor|done].
  - intros k [cvp itor] Hk [(Hlen & Hdone & Hrest) (consumed & Hes & Hcons & Hitor)].
    simpl in *. split; [split; [by rewrite length_zset|split]|].
    + intros i Hi. destruct (decide (i = k)) as [->|Hne].
      * rewrite znth_zset_eq by lia. destruct itor as [|e rest].
        -- split; [done|]. intros (e & Hin & He). rewrite Hes, app_nil_r in Hin.
           rewrite List.Forall_forall in Hcons. specialize (Hcons e Hin). lia.
        -- rewrite Z.eqb_eq. split.
           ++ intros He. exists e. split; [|done]. rewrite Hes. apply in_or_app. right. by left.
           ++ intros (e' & Hin & He'). rewrite Hes in Hin. apply in_app_or in Hin as [Hin|Hin].
              ** rewrite List.Forall_forall in Hcons. specialize (Hcons e' Hin). lia.
              ** destruct Hin as [<-|Hin]; [done|].
                 rewrite Hes in Hsorted. apply StronglySorted_app_r in Hsorted.
                 apply StronglySorted_inv in Hsorted as [_ Hlt].
                 rewrite List.Forall_forall in Hlt. specialize (Hlt e' Hin).
                 apply Forall_inv in Hitor. lia.
      * rewrite znth_zset_ne by done. apply Hdone. lia.
    + intros i Hi. rewrite znth_zset_ne by lia. apply Hrest. lia.
    + destruct itor as [|e rest].
      * exists consumed. split; [done|]. split; [|constructor].
        eapply List.Forall_impl; [|exact Hcons]. simpl. intros. lia.
      * pose proof (Forall_inv Hitor) as He. simpl in He.
        destruct (Z.leb_spec (refPos e) k) as [Hle|Hgt].
        -- exists (consumed ++ [e]). split; [by rewrite <- app_assoc|]. split.
           ++ apply List.Forall_app. split.
              ** eapply List.Forall_impl; [|exact Hcons]. simpl. intros. lia.
              ** constructor; [lia|constructor].
           ++ rewrite Hes in Hsorted. apply StronglySorted_app_r in Hsorted.
              apply StronglySorted_inv in Hsorted as [_ Hlt].
              eapply List.Forall_impl; [|exact Hlt]. simpl. intros. lia.
        -- exists consumed. split; [done|]. split.
           ++ eapply List.Forall_impl; [|exact Hcons]. simpl. intros. lia.
           ++ rewrite Hes in Hsorted. apply StronglySorted_app_r in Hsorted.
              apply StronglySorted_inv in Hsorted as [_ Hlt].
              constructor; [lia|]. eapply List.Forall_impl; [|exact Hlt]. simpl. intros. lia.
Qed.

Lemma length_getCandidateVariantOverlapPositions (poa : Poa) (candidateWeights : list Q) :
  length (getCandidateVariantOverlapPositions poa candidateWeights) = length (nodes poa).
Proof.
  unfold getCandidateVariantOverlapPositions.
  apply (fold_left_preserves (fun cvp => length cvp = length (nodes poa)));
    [|by rewrite length_replicate].
  intros cvp i Hlen. cbv zeta.
  apply (fold_left_preserves (fun cvp => length cvp = length (nodes poa))).
  - intros a x Ha. by rewrite length_zset.
  - destruct (0 <? _); destruct (_ || _)%bool; by rewrite ?length_zset.
Qed.

(** X13: When VCF entries are given, at strictly ascending positions from 0
    on, the positions flagged by [getFilteredAnchorPositions] are the
    positions of the entries and nothing else: what the alignment
    itself suggests is overwritten. *)
Theorem X_vcf_entries_replace_candidates (poa : Poa) (candidateWeights : list Q)
    (vcfEntries : list VcfEntry) (params : PolishParams) :
  StronglySorted (fun x y => refPos x < refPos y) vcfEntries ->
  Forall (fun e => 0 <= refPos e) vcfEntries ->
  let flagged :=
    snd (getFilteredAnchorPositions poa candidateWeights (Some vcfEntries) params) in
  length flagged = length (nodes poa) /\
  forall i, 0 <= i < node_count poa ->
    (znth false flagged i = true <-> exists e, In e vcfEntries /\ refPos e = i).
Proof.
  intros Hsorted Hpos. cbv zeta. unfold getFilteredAnchorPositions. cbv zeta. cbn [snd].
  unfold updateCandidateVariantPositionsByVcfEntries.
  destruct (updateCVP_loop (getCandidateVariantOverlapPositions poa candidateWeights)
              (node_count poa) vcfEntries) as (Hlen & Hin & _); try done.
  { rewrite length_getCandidateVariantOverlapPositions. unfold node_count. lia. }
  cbv zeta in Hlen, Hin. split; [|exact Hin].
  rewrite Hlen. apply length_getCandidateVariantOverlapPositions.
Qed.

Lemma X_vcf_entries_replace_candidates_witness :
  let flagged :=
    snd (getFilteredAnchorPositions ex_poa ex_weights (Some ex_vcf_positions) ex_params) in
  length flagged = length (nodes ex_poa) /\
  forall i, 0 <= i < node_count ex_poa ->
    (znth false flagged i = true <-> exists e, In e ex_vcf_positions /\ refPos e = i).
Proof.
  apply (X_vcf_entries_replace_candidates ex_poa ex_weights ex_vcf_positions ex_params).
  - repeat constructor; simpl; lia.
  - repeat constructor; simpl; lia.
Defined.

(** ** Candidate positions from the alignment *)

Lemma znth_zset {A} (d : A) (l : list A) (i j : Z) (x : A) :
  znth d (zset l i x) j
  = if ((j =? i) && (0 <=? i) && (i <? Z.of_nat (length l)))%bool then x else znth d l j.
Proof.
  destruct (Z.eqb_spec j i) as [->|Hne]; simpl.
  - destruct (Z.leb_spec 0 i); simpl.
    + destruct (Z.ltb_spec i (Z.of_nat (length l))).
      * by apply znth_zset_eq.
      * unfold zset. destruct (Z.ltb_spec i 0); [done|].
        by rewrite list_insert_ge by lia.
    + unfold zset. destruct (Z.ltb_spec i 0); [done|lia].
  - by apply znth_zset_ne.
Qed.

Lemma maxDelete_fold (l : list Z) :
  forall m0, 0 <= m0 ->
  let m := fold_left (fun m d => if m <? d then d else m) l m0 in
  0 <= m /\ (0 < m <-> 0 < m0 \/ exists d, In d l /\ 0 < d).
Proof.
  induction l as [|d l IH]; intros m0 Hm0; simpl.
  - split; [done|]. split; [by left|]. intros [?|(d & [] & _)]. done.
  - destruct (Z.ltb_spec m0 d) as [Hlt|Hge].
    + destruct (IH d ltac:(lia)) as [H0 Hiff]. cbv zeta in *. split; [done|].
      rewrite Hiff. split.
      * intros [Hd|(d' & Hin & Hd')]; right; [exists d|exists d']; auto.
      * intros [Hm|(d' & [<-|Hin] & Hd')]; [left; lia|by left|right; by exists d'].
    + destruct (IH m0 Hm0) as [H0 Hiff]. cbv zeta in *. split; [done|].
      rewrite Hiff. split.
      * intros [Hm|(d' & Hin & Hd')]; [by left|right; exists d'; auto].
      * intros [Hm|(d' & [<-|Hin] & Hd')]; [by left|left; lia|right; by exists d'].
Qed.

Lemma maxCandidateDeleteLength_spec (node : PoaNode) (cw : Q) :
  maxCandidateDeleteLength node cw = true <->
  exists d, In d (candidateDeletes node cw) /\ 0 < d.
Proof.
  unfold maxCandidateDeleteLength.
  destruct (maxDelete_fold (candidateDeletes node cw) 0 ltac:(lia)) as [H0 Hiff].
  cbv zeta in *. rewrite negb_true_iff, Z.eqb_neq. split.
  - intros Hne. destruct (proj1 Hiff ltac:(lia)) as [?|Hd]; [lia|exact Hd].
  - intros Hd. assert (0 < fold_left (fun m d => if m <? d then d else m)
                             (candidateDeletes node cw) 0) by (apply Hiff; by right). lia.
Qed.

(** X14: The positions flagged by [getCandidateVariantOverlapPositions]: a
    node is flagged when it has a candidate substitution, repeat count
    change, insert or deletion, or when the node before it has a
    candidate deletion.  [maxCandidateDeleteLength] is declared to
    return [bool], so a deletion of any length flags its node and the
    one after it, and no more. *)
Theorem X_candidate_variant_positions (poa : Poa) (candidateWeights : list Q) :
  let variantAt i :=
    (hasCandidateSubstitution poa (getNode poa i) (znth 0%Q candidateWeights i)
     || hasCandidateRepeatCountChange poa (getNode poa i) (znth 0%Q candidateWeights i)
     || hasCandidateInsert (getNode poa i) (znth 0%Q candidateWeights i))%bool in
  let deletionAt i :=
    maxCandidateDeleteLength (getNode poa i) (znth 0%Q candidateWeights i) in
  (forall p, 0 <= p < node_count poa ->
     (znth false (getCandidateVariantOverlapPositions poa candidateWeights) p = true <->
      variantAt p = true \/ deletionAt p = true \/ (1 <= p /\ deletionAt (p - 1) = true))) /\
  (forall i, deletionAt i = true <->
     exists d, In d (candidateDeletes (getNode poa i) (znth 0%Q candidateWeights i)) /\ 0 < d).
Proof.
  cbv zeta. split; [|intros i; apply maxCandidateDeleteLength_spec].
  set (variantAt i :=
    (hasCandidateSubstitution poa (getNode poa i) (znth 0%Q candidateWeights i)
     || hasCandidateRepeatCountChange poa (getNode poa i) (znth 0%Q candidateWeights i)
     || hasCandidateInsert (getNode poa i) (znth 0%Q candidateWeights i))%bool).
  set (deletionAt i :=
    maxCandidateDeleteLength (getNode poa i) (znth 0%Q candidateWeights i)).
  unfold getCandidateVariantOverlapPositions.
  set (n := node_count poa).
  set (P := fun k (cvp : list bool) =>
       length cvp = length (nodes poa) /\
       (forall p, 0 <= p < k ->
          (znth false cvp p = true <->
           variantAt p = true \/ deletionAt p = true \/ (1 <= p /\ deletionAt (p - 1) = true))) /\
       (k < n -> (znth false cvp k = true <-> 1 <= k /\ deletionAt (k - 1) = true)) /\
       (forall p, k < p -> znth false cvp p = false)).
  assert (Hinv :
    P n
      (fold_left
         (fun cvp i =>
            let node := getNode poa i in
            let cw := znth 0%Q candidateWeights i in
            let cvp :=
              if (hasCandidateSubstitution poa node cw
                  || hasCandidateRepeatCountChange poa node cw
                  || hasCandidateInsert node cw)%bool
              then zset cvp i true else cvp in
            let j := if maxCandidateDeleteLength node cw then 1 else 0 in
            let cvp := if 0 <? j then zset cvp i true else cvp in
            fold_left (fun cvp j' => zset cvp (i + j') true) (rev (zrange 1 (j + 1))) cvp)
         (zrange 0 n) (replicate (length (nodes poa)) false))).
  { apply (fold_zrange_inv P); unfold P; [unfold n, node_count; lia| |].
    - assert (Hfalse : forall p, znth false (replicate (length (nodes poa)) false) p = false).
      { intros p. unfold znth. destruct (p <? 0); [done|].
        destruct (decide (Z.to_nat p < length (nodes poa))%nat).
        + rewrite nth_lookup. by rewrite lookup_replicate_2.
        + apply nth_overflow. rewrite length_replicate. lia. }
      split; [by rewrite length_replicate|]. split; [intros; lia|]. split.
      + intros _. rewrite Hfalse. split; [done|]. lia.
      + intros p _. apply Hfalse.
    - intros k cvp Hk (Hlen & Hdone & Hat & Hafter). cbv zeta.
      fold (variantAt k). fold (deletionAt k).
      assert (Hkn : 0 <= k < Z.of_nat (length (nodes poa))) by (unfold n, node_count in Hk; lia).
      specialize (Hat ltac:(lia)).
      set (cvp' := fold_left _ _ _).
      assert (Hlen' : length cvp' = length (nodes poa)).
      { unfold cvp'. destruct (variantAt k), (deletionAt k); simpl; by rewrite ?length_zset. }
      assert (Hz : forall p,
                znth false cvp' p
                = if ((p =? k + 1) && deletionAt k && (p <? n))%bool then true
                  else if ((p =? k) && (variantAt k || deletionAt k))%bool then true
                  else znth false cvp p).
      { intros p. unfold cvp'.
        destruct (variantAt k), (deletionAt k); simpl;
          try change (1 + Z.of_nat 0) with 1;
          rewrite ?znth_zset, ?length_zset, ?Hlen;
          fold n; change (Z.of_nat (length (nodes poa))) with n;
          destruct (Z.eqb_spec p (k + 1)); destruct (Z.eqb_spec p k);
          destruct (Z.ltb_spec p n); destruct (Z.ltb_spec k n);
          destruct (Z.ltb_spec (k + 1) n); destruct (Z.leb_spec 0 k);
          destruct (Z.leb_spec 0 (k + 1)); simpl; try lia; try done. }
      split; [exact Hlen'|]. split; [|split].
      + intros p Hp. rewrite Hz.
        destruct (Z.eqb_spec p (k + 1)); [lia|]. simpl.
        destruct (Z.eqb_spec p k) as [->|Hne]; simpl.
        * destruct (variantAt k) eqn:Hv, (deletionAt k) eqn:Hd; simpl.
          -- split; [by left|done].
          -- split; [by left|done].
          -- split; [right; by left|done].
          -- rewrite Hat. split; [intros ?; right; by right|]. intros [?|[?|?]]; done.
        * apply Hdone. lia.
      + intros Hk1. rewrite Hz. rewrite Z.eqb_refl.
        destruct (Z.ltb_spec (k + 1) n); [|lia].
        replace (k + 1 - 1) with k by lia.
        destruct (deletionAt k) eqn:Hd; simpl.
        * split; [|done]. intros _. split; [lia|done].
        * destruct (Z.eqb_spec (k + 1) k); [lia|]. simpl.
          rewrite Hafter by lia. split; [done|]. intros [_ ?]. done.
      + intros p Hp. rewrite Hz.
        destruct (Z.eqb_spec p (k + 1)); [lia|]. destruct (Z.eqb_spec p k); [lia|]. simpl.
        apply Hafter. lia. }
  destruct Hinv as (_ & Hdone & _). exact Hdone.
Qed.

(** ** Candidate weights *)

Lemma zrange_snoc (lo hi : Z) : lo <= hi -> zrange lo (hi + 1) = zrange lo hi ++ [hi].
Proof.
  intros H. unfold zrange.
  replace (Z.to_nat (hi + 1 - lo)) with (S (Z.to_nat (hi - lo))) by lia.
  rewrite seq_S, map_app. simpl. do 2 f_equal. lia.
Qed.

Lemma Qsum_app (l1 l2 : list Q) : (Qsum (l1 ++ l2) == Qsum l1 + Qsum l2)%Q.
Proof.
  induction l1 as [|x l1 IH]; simpl; [ring|]. rewrite IH. ring.
Qed.

Lemma windowWeight_snoc (poa : Poa) (lo hi : Z) :
  lo <= hi ->
  (windowWeight poa lo (hi + 1)
   == windowWeight poa lo hi + getTotalWeight poa (getNode poa hi))%Q.
Proof.
  intros H. unfold windowWeight. rewrite zrange_snoc by done.
  rewrite map_app, Qsum_app. simpl. ring.
Qed.

Lemma windowWeight_cons (poa : Poa) (lo hi : Z) :
  lo < hi ->
  (windowWeight poa lo hi
   == getTotalWeight poa (getNode poa lo) + windowWeight poa (lo + 1) hi)%Q.
Proof.
  intros H. unfold windowWeight. rewrite zrange_cons by done. simpl. ring.
Qed.

(** The first loop of [getCandidateWeights], before node [i]. *)
Lemma candidateWeights_window_loop (poa : Poa) (params : PolishParams) (n : Z) :
  0 <= n <= node_count poa ->
  let st := fold_left
              (fun '(totalWeight, cws) i =>
                 let totalWeight := (totalWeight + getTotalWeight poa (getNode poa i))%Q in
                 if 100 <=? i then
                   let totalWeight :=
                     (totalWeight - getTotalWeight poa (getNode poa (i - 100)))%Q in
                   (totalWeight,
                    zset cws (i - 100 / 2)
                         (totalWeight / inject_Z 100 * candidateVariantWeight params)%Q)
                 else (totalWeight, cws))
              (zrange 0 n) (0%Q, replicate (length (nodes poa)) 0%Q) in
  length (snd st) = length (nodes poa) /\
  forall k, 50 <= k <= n - 51 ->
    (znth 0%Q (snd st) k
     == windowWeight poa (k - 49) (k + 51) / inject_Z 100 * candidateVariantWeight params)%Q.
Proof.
  intros Hn. cbv zeta.
  set (P := fun i (st : Q * list Q) =>
    (fst st == windowWeight poa (Z.max 0 (i - 100)) i)%Q /\
    length (snd st) = length (nodes poa) /\
    forall k, 50 <= k <= i - 51 ->
      (znth 0%Q (snd st) k
       == windowWeight poa (k - 49) (k + 51) / inject_Z 100 * candidateVariantWeight params)%Q).
  enough (HP : P n (fold_left
              (fun '(totalWeight, cws) i =>
                 let totalWeight := (totalWeight + getTotalWeight poa (getNode poa i))%Q in
                 if 100 <=? i then
                   let totalWeight :=
                     (totalWeight - getTotalWeight poa (getNode poa (i - 100)))%Q in
                   (totalWeight,
                    zset cws (i - 100 / 2)
                         (totalWeight / inject_Z 100 * candidateVariantWeight params)%Q)
                 else (totalWeight, cws))
              (zrange 0 n) (0%Q, replicate (length (nodes poa)) 0%Q)))
    by (destruct HP as (_ & H1 & H2); split; [exact H1|exact H2]).
  apply (fold_zrange_inv P); unfold P; [lia| |].
  - simpl. split; [unfold windowWeight; rewrite zrange_nil by lia; reflexivity|].
    split; [by rewrite length_replicate|]. intros k Hk. lia.
  - intros i [tw cws] Hi (Htw & Hlen & Hdone). simpl in Htw, Hlen, Hdone. cbv zeta.
    change (100 / 2) with 50.
    destruct (Z.leb_spec 100 i) as [Hge|Hlt]; cbn [fst snd].
    + assert (Htw' : (tw + getTotalWeight poa (getNode poa i)
                      - getTotalWeight poa (getNode poa (i - 100))
                      == windowWeight poa (i - 99) (i + 1))%Q).
      { rewrite Htw. rewrite Z.max_r by lia.
        rewrite (windowWeight_cons poa (i - 100) i) by lia.
        rewrite (windowWeight_snoc poa (i - 99) i) by lia.
        replace (i - 100 + 1) with (i - 99) by lia. ring. }
      split; [|split].
      * rewrite Htw'. rewrite Z.max_r by lia. by replace (i + 1 - 100) with (i - 99) by lia.
      * by rewrite length_zset.
      * intros k Hk. destruct (decide (k = i - 50)) as [->|Hne].
        -- rewrite znth_zset_eq by (unfold node_count in Hn; lia).
           rewrite Htw'. replace (i - 50 - 49) with (i - 99) by lia.
           replace (i - 50 + 51) with (i + 1) by lia. reflexivity.
        -- rewrite znth_zset_ne by lia. apply Hdone. lia.
    + split; [|split; [done|intros k Hk; lia]].
      rewrite Htw. rewrite !Z.max_l by lia. symmetry. apply windowWeight_snoc. lia.
Qed.

(** The second loop of [getCandidateWeights], before round [i]. *)
Lemma candidateWeights_fill_loop (cws1 : list Q) (n m : Z) :
  100 < n -> n = Z.of_nat (length cws1) -> 0 <= m <= 50 ->
  let cws := fold_left
               (fun cws i =>
                  let cws := zset cws i (znth 0%Q cws (100 / 2)) in
                  zset cws (n - 1 - i) (znth 0%Q cws (n - 1 - 100 / 2)))
               (zrange 0 m) cws1 in
  length cws = length cws1 /\
  (forall k, m <= k <= n - 1 - m -> znth 0%Q cws k = znth 0%Q cws1 k) /\
  (forall k, 0 <= k < m -> znth 0%Q cws k = znth 0%Q cws1 50) /\
  (forall k, n - 1 - m < k < n -> znth 0%Q cws k = znth 0%Q cws1 (n - 51)).
Proof.
  intros Hn Hlen Hm. cbv zeta. change (100 / 2) with 50.
  set (P := fun i (cws : list Q) =>
    length cws = length cws1 /\
    (forall k, i <= k <= n - 1 - i -> znth 0%Q cws k = znth 0%Q cws1 k) /\
    (forall k, 0 <= k < i -> znth 0%Q cws k = znth 0%Q cws1 50) /\
    (forall k, n - 1 - i < k < n -> znth 0%Q cws k = znth 0%Q cws1 (n - 51))).
  apply (fold_zrange_inv P); unfold P; [lia| |].
  - split; [done|]. split; [done|]. split; intros; lia.
  - intros i cws Hi (Hl & Hmid & Hlow & Hhigh).
    split; [by rewrite !length_zset|]. split; [|split].
    + intros k Hk. rewrite !znth_zset_ne by lia. apply Hmid. lia.
    + intros k Hk. rewrite znth_zset_ne by lia.
      destruct (decide (k = i)) as [->|Hne].
      * rewrite znth_zset_eq by lia. apply Hmid. lia.
      * rewrite znth_zset_ne by lia. apply Hlow. lia.
    + intros k Hk. destruct (decide (k = n - 1 - i)) as [->|Hne].
      * rewrite znth_zset_eq by (rewrite length_zset; lia).
        rewrite znth_zset_ne by lia. replace (n - 1 - 50) with (n - 51) by lia.
        apply Hmid. lia.
      * rewrite !znth_zset_ne by lia. apply Hhigh. lia.
Qed.

(** X15: For an alignment of more than 100 nodes, [getCandidateWeights]
    gives node [k] the summed base weights of the 100 nodes
    [k - 49 .. k + 50], divided by 100 and scaled by
    [candidateVariantWeight]; the first 50 nodes take the weight of
    node 50 and the last 50 the weight of the node 51 from the end. *)
Theorem X_candidate_weights_window (poa : Poa) (params : PolishParams) :
  100 < node_count poa ->
  let n := node_count poa in
  let cws := getCandidateWeights poa params in
  length cws = length (nodes poa) /\
  (forall k, 50 <= k <= n - 51 ->
     (znth 0%Q cws k
      == windowWeight poa (k - 49) (k + 51) / inject_Z 100 * candidateVariantWeight params)%Q) /\
  (forall k, 0 <= k < 50 -> znth 0%Q cws k = znth 0%Q cws 50) /\
  (forall k, n - 51 < k < n -> znth 0%Q cws k = znth 0%Q cws (n - 51)).
Proof.
  intros Hn. cbv zeta. unfold getCandidateWeights. cbv zeta.
  destruct (Z.leb_spec (node_count poa) 100) as [?|_]; [lia|].
  destruct (candidateWeights_window_loop poa params (node_count poa) ltac:(lia))
    as [Hlen1 Hwin].
  cbv zeta in Hlen1, Hwin.
  set (cws1 := snd (fold_left _ (zrange 0 (node_count poa)) _)) in *.
  destruct (candidateWeights_fill_loop cws1 (node_count poa) 50 Hn) as (Hlen & Hmid & Hlow & Hhigh);
    [unfold node_count; lia|lia|].
  cbv zeta in Hlen, Hmid, Hlow, Hhigh. change (100 / 2) with 50 in *.
  set (cws := fold_left _ (zrange 0 50) cws1) in *.
  split; [lia|]. split; [|split].
  - intros k Hk. rewrite Hmid by lia. by apply Hwin.
  - intros k Hk. rewrite Hlow by lia. symmetry. apply Hmid. lia.
  - intros k Hk. rewrite Hhigh by lia. symmetry. apply Hmid. lia.
Qed.

Lemma X_candidate_weights_window_witness :
  let n := node_count ex_long_poa in
  let cws := getCandidateWeights ex_long_poa ex_params in
  length cws = length (nodes ex_long_poa) /\
  (forall k, 50 <= k <= n - 51 ->
     (znth 0%Q cws k
      == windowWeight ex_long_poa (k - 49) (k + 51) / inject_Z 100
         * candidateVariantWeight ex_params)%Q) /\
  (forall k, 0 <= k < 50 -> znth 0%Q cws k = znth 0%Q cws 50) /\
  (forall k, n - 51 < k < n -> znth 0%Q cws k = znth 0%Q cws (n - 51)).
Proof. apply (X_candidate_weights_window ex_long_poa ex_params). by vm_compute. Defined.

(** For an alignment of at most 100 nodes every candidate weight is the
    average coverage of the alignment scaled by
    [candidateVariantWeight]. *)
Example ex_candidate_weights_short :
  getCandidateWeights ex_poa ex_params
  = replicate 6 (getAvgCoverage ex_poa 0 6 * candidateVariantWeight ex_params)%Q.
Proof. reflexivity. Qed.

(** ** Alleles from the reads *)

Lemma expandedStringEqualKey_eq (r1 r2 : RleString) :
  rle_counts_wf r1 -> rle_counts_wf r2 ->
  (rleString_expandedStringEqualKey r1 r2 = true <-> r1 = r2).
Proof.
  intros [Hl1 _] [Hl2 _]. unfold rleString_expandedStringEqualKey, rleString_stringEqualKey,
    stString_eq. split.
  - case_bool_decide as Hs; [|done]. simpl.
    destruct (Z.eqb_spec (rle_length r1) (rle_length r2)); [|done]. simpl.
    rewrite forallb_forall. intros Hall.
    destruct r1 as [s1 c1], r2 as [s2 c2]. simpl in *. subst s2. f_equal.
    apply list_eq. intros i. destruct (decide (i < length c1)%nat) as [Hi|Hi].
    + specialize (Hall (Z.of_nat i)). rewrite In_zrange in Hall. unfold rle_length in Hall.
      simpl in Hall. specialize (Hall ltac:(lia)). apply Z.eqb_eq in Hall.
      unfold znth in Hall. destruct (Z.ltb_spec (Z.of_nat i) 0); [lia|].
      rewrite Nat2Z.id in Hall.
      destruct (lookup_lt_is_Some_2 c1 i Hi) as [x Hx].
      destruct (lookup_lt_is_Some_2 c2 i ltac:(lia)) as [y Hy].
      rewrite (nth_lookup_Some _ _ _ _ Hx), (nth_lookup_Some _ _ _ _ Hy) in Hall.
      by rewrite Hx, Hy, Hall.
    + rewrite !lookup_ge_None_2 by lia. done.
  - intros <-. rewrite bool_decide_true by done. simpl. rewrite Z.eqb_refl. simpl.
    apply forallb_forall. intros i _. apply Z.eqb_refl.
Qed.

Lemma sumZ_from (l : list Z) (a : Z) : fold_left Z.add l a = a + sumZ l.
Proof.
  unfold sumZ. revert a. induction l as [|x l IH]; intros a; simpl; [lia|].
  rewrite (IH (a + x)). first [rewrite (IH (0 + x))|rewrite (IH x)]. lia.
Qed.

Lemma sumZ_const {A} (l : list A) (c : Z) :
  sumZ (map (fun _ => c) l) = Z.of_nat (length l) * c.
Proof.
  induction l as [|x l IH]; [done|]. unfold sumZ in *. cbn [map fold_left length].
  rewrite sumZ_from. unfold sumZ. rewrite IH. lia.
Qed.

Lemma round_div_exact (n c : Z) : 0 < n -> round_div (n * c) n = c.
Proof.
  intros Hn. unfold round_div. symmetry. apply (Z.div_unique _ _ c n); lia.
Qed.

(** The consensus of a list of copies of one string is the string. *)
Lemma getConsensusRleString_copies (key : RleString) (l : list RleString) :
  rle_counts_wf key -> l <> [] -> Forall (eq key) l ->
  getConsensusRleString l = key.
Proof.
  intros [Hlen Hcounts] Hne Hall. unfold getConsensusRleString.
  assert (Hlast : last l = Some key).
  { destruct (last l) as [r|] eqn:Hr.
    - f_equal. symmetry. rewrite List.Forall_forall in Hall. apply Hall.
      apply list_elem_of_In. by eapply last_Some_elem_of.
    - apply last_None in Hr. done. }
  rewrite Hlast. simpl. destruct key as [s c]. simpl in *. f_equal.
  assert (Hn : 0 < Z.of_nat (length l)) by (destruct l; [done|simpl; lia]).
  apply list_eq. intros i. rewrite list_lookup_fmap.
  destruct (decide (i < length c)%nat) as [Hi|Hi].
  - unfold zrange, rle_length. simpl. rewrite list_lookup_fmap.
    rewrite lookup_seq_lt by lia. simpl.
    destruct (lookup_lt_is_Some_2 c i Hi) as [x Hx]. rewrite Hx. f_equal.
    replace (map (fun s0 => znth 0 (repeatCounts s0) (0 + Z.of_nat i)) l)
      with (map (fun _ : RleString => x) l).
    + rewrite sumZ_const, round_div_exact by done.
      rewrite List.Forall_forall in Hcounts.
      assert (1 <= x <= 255).
      { apply Hcounts. apply list_elem_of_In. by eapply list_elem_of_lookup_2. }
      destruct (Z.eqb_spec x 0); [lia|]. destruct (Z.ltb_spec 255 x); [lia|]. done.
    + apply map_ext_in. intros r Hr. rewrite List.Forall_forall in Hall.
      rewrite <- (Hall r Hr). simpl. unfold znth.
      destruct (Z.ltb_spec (0 + Z.of_nat i) 0); [lia|].
      replace (Z.to_nat (0 + Z.of_nat i)) with i by lia.
      symmetry. by apply nth_lookup_Some.
  - rewrite (lookup_ge_None_2 c) by lia. unfold zrange, rle_length. simpl.
    rewrite list_lookup_fmap, lookup_seq_ge by lia. done.
Qed.

Lemma group_insert_pairs (r : RleString) (h : list (RleString * list RleString)) :
  forall key l, In (key, l) (group_insert r h) ->
    In (key, l) h \/ (key = r /\ l = [r]) \/
    (exists l0, In (key, l0) h /\ l = l0 ++ [r] /\
                rleString_expandedStringEqualKey key r = true).
Proof.
  induction h as [|[key0 l0] h IH]; intros key l; simpl.
  - intros [[= <- <-]|[]]. right. by left.
  - destruct (rleString_expandedStringEqualKey key0 r) eqn:Heq.
    + intros [[= <- <-]|Hin].
      * right. right. exists l0. split; [by left|done].
      * left. by right.
    + intros [[= <- <-]|Hin]; [left; by left|].
      destruct (IH key l Hin) as [H|[H|(l1 & H1 & H2 & H3)]].
      * left. by right.
      * right. by left.
      * right. right. exists l1. split; [by right|done].
Qed.

Lemma group_insert_represents (r : RleString) (h : list (RleString * list RleString)) :
  exists key l, In (key, l) (group_insert r h) /\
    (key = r \/ rleString_expandedStringEqualKey key r = true).
Proof.
  induction h as [|[key0 l0] h IH]; simpl.
  - exists r, [r]. split; [by left|by left].
  - destruct (rleString_expandedStringEqualKey key0 r) eqn:Heq.
    + exists key0, (l0 ++ [r]). split; [by left|by right].
    + destruct IH as (key & l & Hin & H). exists key, l. split; [by right|done].
Qed.

Lemma group_insert_keeps_keys (r : RleString) (h : list (RleString * list RleString)) :
  forall key l, In (key, l) h -> exists l', In (key, l') (group_insert r h).
Proof.
  induction h as [|[key0 l0] h IH]; intros key l; simpl; [done|].
  destruct (rleString_expandedStringEqualKey key0 r) eqn:Heq.
  - intros [[= <- <-]|Hin]; eexists; [by left|by right].
  - intros [[= <- <-]|Hin]; [eexists; by left|].
    destruct (IH key l Hin) as [l' Hl']. exists l'. by right.
Qed.

(** The groups of [groupRleStrings]: every group holds copies of its
    key, and the keys are the strings grouped. *)
Lemma groupRleStrings_spec (rleStrings : list RleString) :
  Forall rle_counts_wf rleStrings ->
  (forall key l, In (key, l) (groupRleStrings rleStrings) ->
     l <> [] /\ Forall (eq key) l /\ In key rleStrings) /\
  (forall x, In x rleStrings -> exists l, In (x, l) (groupRleStrings rleStrings)).
Proof.
  intros Hwf. unfold groupRleStrings.
  assert (Hgen : forall rs h done_,
    Forall rle_counts_wf rs -> Forall rle_counts_wf done_ ->
    (forall key l, In (key, l) h -> l <> [] /\ Forall (eq key) l /\ In key done_) ->
    (forall x, In x done_ -> exists l, In (x, l) h) ->
    (forall key l, In (key, l) (fold_left (fun h r => group_insert r h) rs h) ->
       l <> [] /\ Forall (eq key) l /\ In key (done_ ++ rs)) /\
    (forall x, In x (done_ ++ rs) ->
       exists l, In (x, l) (fold_left (fun h r => group_insert r h) rs h))).
  { induction rs as [|r rs IH]; intros h done_ Hrs Hdone Hgroups Hkeys.
    - simpl. rewrite app_nil_r. done.
    - simpl. apply List.Forall_cons_iff in Hrs as [Hr Hrs].
      replace (done_ ++ r :: rs) with ((done_ ++ [r]) ++ rs) by (by rewrite <- app_assoc).
      apply IH; [done|apply List.Forall_app; split; [done|constructor; [done|constructor]]| |].
      + intros key l Hin.
        destruct (group_insert_pairs r h key l Hin) as [H|[[-> ->]|(l0 & H1 & -> & H3)]].
        * destruct (Hgroups key l H) as (? & ? & ?). split; [done|]. split; [done|].
          apply in_or_app. by left.
        * split; [done|]. split; [by repeat constructor|]. apply in_or_app. right. by left.
        * destruct (Hgroups key l0 H1) as (H4 & H5 & H6).
          assert (key = r) as ->.
          { apply expandedStringEqualKey_eq; [|done|done].
            rewrite List.Forall_forall in Hdone. by apply Hdone. }
          split; [by destruct l0|]. split; [|apply in_or_app; right; by left].
          apply List.Forall_app. split; [done|by repeat constructor].
      + intros x Hx. apply in_app_or in Hx as [Hx|[<-|[]]].
        * destruct (Hkeys x Hx) as [l Hl]. by apply (group_insert_keeps_keys r h x l).
        * destruct (group_insert_represents r h) as (key & l & Hin & [->|Heq]);
            [by exists l|].
          destruct (group_insert_pairs r h key l Hin) as [H|[[-> ->]|(l0 & H1 & -> & H3)]].
          -- destruct (Hgroups key l H) as (_ & _ & Hk).
             assert (key = r) as ->.
             { apply expandedStringEqualKey_eq; [|done|done].
               rewrite List.Forall_forall in Hdone. by apply Hdone. }
             by exists l.
          -- by eexists.
          -- destruct (Hgroups key l0 H1) as (_ & _ & Hk).
             assert (key = r) as ->.
             { apply expandedStringEqualKey_eq; [|done|done].
               rewrite List.Forall_forall in Hdone. by apply Hdone. }
             by eexists. }
  apply (Hgen rleStrings [] []); [done|constructor|done|done].
Qed.

(** X16: When every read substring has one repeat count per character, each
    between 1 and 255, the alleles that
    [getCandidateAllelesFromReadSubstrings] proposes are the expansions
    of the read substrings: the table groups strings that are equal
    with their repeat counts, so the consensus of a group is the string
    of the group. *)
Theorem X_read_alleles_are_the_read_substrings (readSubstrings : list BamChunkReadSubstring) :
  Forall (fun rs => rle_counts_wf (bamChunkReadSubstring_getRleString rs)) readSubstrings ->
  forall allele,
    In allele (getCandidateAllelesFromReadSubstrings readSubstrings) <->
    exists rs, In rs readSubstrings /\
               allele = rleString_expand (bamChunkReadSubstring_getRleString rs).
Proof.
  intros Hwf allele. unfold getCandidateAllelesFromReadSubstrings. cbv zeta.
  set (rleStrings := map bamChunkReadSubstring_getRleString readSubstrings).
  assert (Hwf' : Forall rle_counts_wf rleStrings).
  { unfold rleStrings. apply List.Forall_map. exact Hwf. }
  destruct (groupRleStrings_spec rleStrings Hwf') as [Hgroups Hkeys].
  rewrite in_map_iff. split.
  - intros ([key l] & <- & Hin). destruct (Hgroups key l Hin) as (Hne & Hall & Hkey).
    unfold rleStrings in Hkey. apply in_map_iff in Hkey as (rs & <- & Hrs).
    exists rs. split; [done|]. f_equal. apply getConsensusRleString_copies; [|done|done].
    rewrite List.Forall_forall in Hwf. by apply Hwf.
  - intros (rs & Hrs & ->).
    destruct (Hkeys (bamChunkReadSubstring_getRleString rs)) as [l Hl].
    { unfold rleStrings. apply in_map_iff. by exists rs. }
    exists (bamChunkReadSubstring_getRleString rs, l). split; [|done].
    destruct (Hgroups _ l Hl) as (Hne & Hall & _). f_equal.
    apply getConsensusRleString_copies; [|done|done].
    rewrite List.Forall_forall in Hwf. by apply Hwf.
Qed.

Lemma X_read_alleles_are_the_read_substrings_witness :
  (In (cstr "AAC") (getCandidateAllelesFromReadSubstrings ex_read_substrings) <->
   exists rs, In rs ex_read_substrings /\
              cstr "AAC" = rleString_expand (bamChunkReadSubstring_getRleString rs)) /\
  getCandidateAllelesFromReadSubstrings ex_read_substrings = [cstr "AAC"; cstr "AC"].
Proof.
  split; [|reflexivity].
  apply (X_read_alleles_are_the_read_substrings ex_read_substrings).
  repeat constructor; simpl; lia.
Defined.

(** ** Allele offsets *)

Lemma fillAlleleOffsets_snoc {F} (bubbles : list (Bubble F)) (b : Bubble F) :
  fillAlleleOffsets (bubbles ++ [b])
  = (fst (fillAlleleOffsets bubbles) ++ [withAlleleOffset b (snd (fillAlleleOffsets bubbles))],
     snd (fillAlleleOffsets bubbles) + alleleNo b).
Proof.
  unfold fillAlleleOffsets. rewrite fold_left_app. simpl.
  by destruct (fold_left _ bubbles _) as [done_ off].
Qed.

Lemma sumZ_snoc (l : list Z) (x : Z) : sumZ (l ++ [x]) = sumZ l + x.
Proof. unfold sumZ. rewrite fold_left_app. done. Qed.

Lemma fillAlleleOffsets_spec {F} (bubbles : list (Bubble F)) :
  length (fst (fillAlleleOffsets bubbles)) = length bubbles /\
  (forall i b, bubbles !! i = Some b ->
     fst (fillAlleleOffsets bubbles) !! i
     = Some (withAlleleOffset b (sumZ (map alleleNo (take i bubbles))))) /\
  snd (fillAlleleOffsets bubbles) = sumZ (map alleleNo bubbles).
Proof.
  induction bubbles as [|b bubbles IH] using rev_ind; [done|].
  destruct IH as (Hlen & Hat & Htotal).
  rewrite fillAlleleOffsets_snoc. cbn [fst snd]. split; [|split].
  - rewrite !length_app, Hlen. done.
  - intros i b' Hi. destruct (decide (i < length bubbles)%nat) as [Hlt|Hge].
    + rewrite lookup_app_l in Hi by done. rewrite lookup_app_l by lia.
      rewrite take_app_le by lia. by apply Hat.
    + rewrite lookup_app_r in Hi by lia. rewrite lookup_app_r by lia.
      rewrite Hlen. destruct (i - length bubbles)%nat eqn:Hd; [|by destruct n].
      simpl in Hi. injection Hi as <-. simpl.
      assert (i = length bubbles) as -> by lia.
      rewrite take_app_length. by rewrite Htotal.
  - rewrite map_app. cbn [map]. rewrite sumZ_snoc, Htotal. done.
Qed.

Lemma fillAlleleOffsets_alleleNo {F} (bubbles : list (Bubble F)) :
  map alleleNo (fst (fillAlleleOffsets bubbles)) = map alleleNo bubbles.
Proof.
  destruct (fillAlleleOffsets_spec bubbles) as (Hlen & Hat & _).
  apply list_eq. intros i. rewrite !list_lookup_fmap.
  destruct (bubbles !! i) as [b|] eqn:Hb.
  - by rewrite (Hat i b Hb).
  - rewrite (lookup_ge_None_2 (fst (fillAlleleOffsets bubbles))); [done|].
    rewrite Hlen. by apply lookup_ge_None_1.
Qed.

Lemma fillAlleleOffsets_cumulative {F} (bubbles : list (Bubble F)) (r : option RleString)
    (n : Z) :
  offsets_cumulative
    (mkBubbleGraph r (fst (fillAlleleOffsets bubbles)) n (snd (fillAlleleOffsets bubbles))).
Proof.
  destruct (fillAlleleOffsets_spec bubbles) as (Hlen & Hat & Htotal).
  split; simpl.
  - intros i b' Hb'.
    destruct (bubbles !! i) as [b|] eqn:Hb.
    + rewrite (Hat i b Hb) in Hb'. injection Hb' as <-. simpl.
      rewrite <- !firstn_map. by rewrite fillAlleleOffsets_alleleNo.
    + apply lookup_ge_None_1 in Hb. apply lookup_lt_Some in Hb'. lia.
  - rewrite Htotal. by rewrite fillAlleleOffsets_alleleNo.
Qed.

(** X17: The loop that ends each of the three builders numbers the alleles
    of the graph consecutively: the allele offset of a bubble is the
    number of alleles of the bubbles before it, and [totalAlleles] is
    the number of alleles of all bubbles. *)
Theorem X_builders_number_the_alleles
    (stList_sort : forall A : Type, (A -> A -> Z) -> list A -> list A)
    (F : Type) (fzero : F) (computeForwardProbability : RleString -> RleString -> bool -> F)
    (getAlleleSubstrings2 : VcfEntry -> cstring -> Z -> Z -> bool -> list AlleleCell * Z * Z)
    (poa : Poa) (bamChunkReads : list BamChunkRead) (referenceSeqRLE : RleString)
    (vcfEntries : list VcfEntry) (params : PolishParams) (phasing : bool) (rounds : nat) :
  (forall vcf bg,
     bubbleGraph_constructFromPoaAndVCF stList_sort F fzero computeForwardProbability
       poa bamChunkReads vcf params phasing rounds = Some bg ->
     offsets_cumulative bg) /\
  offsets_cumulative
    (bubbleGraph_constructFromPoaAndVCFOnlyVCFAllele stList_sort F fzero
       computeForwardProbability getAlleleSubstrings2 poa bamChunkReads referenceSeqRLE
       vcfEntries params) /\
  offsets_cumulative
    (fst (bubbleGraph_constructFromVCFAndBamChunkReadVcfEntrySubstrings F fzero
            computeForwardProbability bamChunkReads vcfEntries params)).
Proof.
  split; [|split].
  - intros vcf bg. unfold bubbleGraph_constructFromPoaAndVCF. cbv zeta.
    destruct (getFilteredAnchorPositions _ _ _ _) as [anchors cvp].
    destruct (bubblesFromAnchors _ _ _ _ _ _ _ _ _ _ _ _) as [bs|]; [|done].
    destruct (fillAlleleOffsets bs) as [bs' off] eqn:Hfill. intros [= <-].
    pose proof (fillAlleleOffsets_cumulative bs (Some (refString (sortBaseObservations
      stList_sort poa))) (Z.of_nat (length bs'))) as H.
    by rewrite Hfill in H.
  - unfold bubbleGraph_constructFromPoaAndVCFOnlyVCFAllele. cbv zeta.
    set (bs := fold_left _ vcfEntries []).
    destruct (fillAlleleOffsets bs) as [bs' off] eqn:Hfill.
    pose proof (fillAlleleOffsets_cumulative bs (Some (refString poa))
                  (to_uint64 (Z.of_nat (length bs')))) as H.
    by rewrite Hfill in H.
  - unfold bubbleGraph_constructFromVCFAndBamChunkReadVcfEntrySubstrings. cbv zeta.
    destruct (fold_left _ vcfEntries _) as [bs used].
    destruct (fillAlleleOffsets bs) as [bs' off] eqn:Hfill. cbn [fst].
    pose proof (fillAlleleOffsets_cumulative bs None (to_uint64 (Z.of_nat (length bs')))) as H.
    by rewrite Hfill in H.
Qed.

(** ** The cache of the support loop *)

Lemma expandedStringEqualKey_sym (r1 r2 : RleString) :
  rleString_expandedStringEqualKey r1 r2 = true ->
  rleString_expandedStringEqualKey r2 r1 = true.
Proof.
  unfold rleString_expandedStringEqualKey, rleString_stringEqualKey, stString_eq.
  case_bool_decide as Hs; [|done]. simpl.
  destruct (Z.eqb_spec (rle_length r1) (rle_length r2)) as [Hl|]; [|done]. simpl.
  rewrite !forallb_forall. intros Hall.
  rewrite bool_decide_true by done. simpl. rewrite <- Hl, Z.eqb_refl. simpl.
  apply forallb_forall. intros i Hi. rewrite Z.eqb_sym. by apply Hall.
Qed.

Lemma expandedStringEqualKey_trans (r1 r2 r3 : RleString) :
  rleString_expandedStringEqualKey r1 r2 = true ->
  rleString_expandedStringEqualKey r2 r3 = true ->
  rleString_expandedStringEqualKey r1 r3 = true.
Proof.
  unfold rleString_expandedStringEqualKey, rleString_stringEqualKey, stString_eq.
  case_bool_decide as Hs; [|done]. simpl.
  destruct (Z.eqb_spec (rle_length r1) (rle_length r2)) as [Hl|]; [|done]. simpl.
  case_bool_decide as Hs'; [|done]. simpl.
  destruct (Z.eqb_spec (rle_length r2) (rle_length r3)) as [Hl'|]; [|done]. simpl.
  rewrite !forallb_forall. intros H1 H2.
  rewrite bool_decide_true by congruence. simpl.
  replace (rle_length r3) with (rle_length r1) by congruence. rewrite Z.eqb_refl. simpl.
  apply forallb_forall. intros i Hi. apply Z.eqb_eq.
  specialize (H1 i Hi). rewrite <- Hl in H2. specialize (H2 i Hi).
  apply Z.eqb_eq in H1, H2. congruence.
Qed.

Lemma expandedStringEqualKey_refl (r : RleString) :
  rleString_expandedStringEqualKey r r = true.
Proof.
  unfold rleString_expandedStringEqualKey, rleString_stringEqualKey, stString_eq.
  rewrite bool_decide_true by done. simpl. rewrite Z.eqb_refl. simpl.
  apply forallb_forall. intros i _. apply Z.eqb_refl.
Qed.

Lemma support_index_inj (R j k j' k' : Z) :
  0 <= k < R -> 0 <= k' < R -> j * R + k = j' * R + k' -> j = j' /\ k = k'.
Proof.
  intros Hk Hk' H. assert (j = j'); [|lia].
  assert ((j - j') * R = k' - k) by lia.
  destruct (Z.lt_trichotomy j j') as [?|[?|?]]; [|done|]; nia.
Qed.

Lemma support_index_bound (R A j k : Z) :
  0 <= k < R -> 0 <= j < A -> 0 <= j * R + k < R * A.
Proof. intros. nia. Qed.

(** Writing column [k] of the supports: the value for allele [j] may be
    read from the array, as long as it is not read from column [k]. *)
Lemma write_support_column {F} (fzero : F) (v : list F -> Z -> F) (R A k : Z)
    (S0 : list F) :
  0 <= k < R -> 0 <= A -> Z.of_nat (length S0) = R * A ->
  (forall S S' j,
     (forall p, (forall j', 0 <= j' < A -> p <> j' * R + k) ->
        znth fzero S p = znth fzero S' p) ->
     v S j = v S' j) ->
  let S1 := fold_left (fun S j => zset S (j * R + k) (v S j)) (zrange 0 A) S0 in
  length S1 = length S0 /\
  (forall j, 0 <= j < A -> znth fzero S1 (j * R + k) = v S0 j) /\
  (forall p, (forall j', 0 <= j' < A -> p <> j' * R + k) ->
     znth fzero S1 p = znth fzero S0 p).
Proof.
  intros Hk HA Hlen Hv. cbv zeta.
  set (P := fun j0 (S : list F) =>
    length S = length S0 /\
    (forall j, 0 <= j < j0 -> znth fzero S (j * R + k) = v S0 j) /\
    (forall p, (forall j', 0 <= j' < j0 -> p <> j' * R + k) ->
       znth fzero S p = znth fzero S0 p)).
  enough (HP : P A (fold_left (fun S j => zset S (j * R + k) (v S j)) (zrange 0 A) S0)).
  { destruct HP as (H1 & H2 & H3). split; [done|]. split; [done|]. done. }
  apply (fold_zrange_inv P); unfold P; [lia| |].
  - split; [done|]. split; [intros; lia|done].
  - intros j0 S Hj0 (Hl & Hcol & Hout).
    assert (Hvj : v S j0 = v S0 j0).
    { apply Hv. intros p Hp. apply Hout. intros j' Hj'. apply Hp. lia. }
    split; [by rewrite length_zset|]. split.
    + intros j Hj. destruct (decide (j = j0)) as [->|Hne].
      * rewrite znth_zset_eq; [done|].
        pose proof (support_index_bound R A j0 k Hk Hj0). lia.
      * rewrite znth_zset_ne.
        -- apply Hcol. lia.
        -- intros Heq. apply support_index_inj in Heq; lia.
    + intros p Hp. rewrite znth_zset_ne by (apply not_eq_sym, Hp; lia).
      apply Hout. intros j' Hj'. apply Hp. lia.
Qed.

Section SupportCache.
Variable F : Type.
Variable fzero : F.
Variable computeForwardProbability : RleString -> RleString -> bool -> F.
Variable alleleNo_ readNo : Z.
Variable alleles_ : list RleString.
Variable reads_ : list BamChunkReadSubstring.
Hypothesis alleleNo_nonneg : 0 <= alleleNo_.

Local Abbreviation sub k :=
  (bamChunkReadSubstring_getRleString (znth emptyReadSubstring reads_ k)).
Local Abbreviation strand k := (forwardStrand (read (znth emptyReadSubstring reads_ k))).
Local Abbreviation prob j m :=
  (computeForwardProbability (znth emptyRle alleles_ j) (sub m) (strand m)).

Lemma supports_loop (n : Z) :
  0 <= n <= readNo ->
  let st :=
    fold_left
      (fun '(supports, cachedScores) k =>
         let rs := znth emptyReadSubstring reads_ k in
         let readSubstring := bamChunkReadSubstring_getRleString rs in
         let forward := forwardStrand (read rs) in
         match cachedScores_search cachedScores readSubstring with
         | Some index =>
             (fold_left
                (fun supports j =>
                   zset supports (j * readNo + k) (znth fzero supports (j * readNo + index)))
                (zrange 0 alleleNo_) supports,
              cachedScores)
         | None =>
             (fold_left
                (fun supports j =>
                   zset supports (j * readNo + k)
                        (computeForwardProbability (znth emptyRle alleles_ j)
                                                   readSubstring forward))
                (zrange 0 alleleNo_) supports,
              cachedScores ++ [(readSubstring, k)])
         end)
      (zrange 0 n)
      (replicate (Z.to_nat (readNo * alleleNo_)) fzero, []) in
  Z.of_nat (length (fst st)) = readNo * alleleNo_ /\
  (forall e, In e (snd st) ->
     0 <= snd e < n /\ fst e = sub (snd e) /\
     (forall m, 0 <= m < snd e ->
        rleString_expandedStringEqualKey (sub m) (sub (snd e)) = false) /\
     forall j, 0 <= j < alleleNo_ ->
       znth fzero (fst st) (j * readNo + snd e) = prob j (snd e)) /\
  (forall k, 0 <= k < n ->
     exists e, In e (snd st) /\
       rleString_expandedStringEqualKey (fst e) (sub k) = true /\
       forall j, 0 <= j < alleleNo_ ->
         znth fzero (fst st) (j * readNo + k) = znth fzero (fst st) (j * readNo + snd e)).
Proof.
  intros Hn. cbv zeta.
  set (P := fun n (st : list F * list (RleString * Z)) =>
    Z.of_nat (length (fst st)) = readNo * alleleNo_ /\
    (forall e, In e (snd st) ->
       0 <= snd e < n /\ fst e = sub (snd e) /\
       (forall m, 0 <= m < snd e ->
          rleString_expandedStringEqualKey (sub m) (sub (snd e)) = false) /\
       forall j, 0 <= j < alleleNo_ ->
         znth fzero (fst st) (j * readNo + snd e) = prob j (snd e)) /\
    (forall k, 0 <= k < n ->
       exists e, In e (snd st) /\
         rleString_expandedStringEqualKey (fst e) (sub k) = true /\
         forall j, 0 <= j < alleleNo_ ->
           znth fzero (fst st) (j * readNo + k)
           = znth fzero (fst st) (j * readNo + snd e))).
  apply (fold_zrange_inv P); unfold P; [lia| |].
  - simpl. split; [rewrite length_replicate; nia|]. split; [done|]. intros; lia.
  - intros k [S cache] Hk (Hlen & Hcache & Hdone). simpl in Hlen, Hcache, Hdone. cbv zeta.
    unfold cachedScores_search.
    destruct (find _ cache) as [e0|] eqn:Hfind.
    + (* hit *)
      apply find_some in Hfind as [Hin0 Heq0].
      destruct (Hcache e0 Hin0) as (Hidx & Hkey & Hfirst & Hval).
      destruct (write_support_column fzero
                  (fun S j => znth fzero S (j * readNo + snd e0)) readNo alleleNo_ k S)
        as (Hl1 & Hcol & Hout); [lia|done|done| |].
      { intros S1 S2 j Hagree. apply Hagree. intros j' Hj' Heq.
        apply support_index_inj in Heq; lia. }
      cbv zeta in Hl1, Hcol, Hout. cbn [fst snd].
      set (S' := fold_left _ (zrange 0 alleleNo_) S) in *.
      assert (Hkeep : forall j m, 0 <= j < alleleNo_ -> 0 <= m < k ->
                znth fzero S' (j * readNo + m) = znth fzero S (j * readNo + m)).
      { intros j m Hj Hm. apply Hout. intros j' Hj' Heq.
        apply support_index_inj in Heq; lia. }
      split; [lia|]. split.
      * intros e He. destruct (Hcache e He) as (H1 & H2 & H3 & H4).
        split; [lia|]. split; [done|]. split; [done|].
        intros j Hj. rewrite Hkeep by lia. by apply H4.
      * intros k' Hk'. destruct (decide (k' = k)) as [->|Hne].
        -- exists e0. split; [done|]. split; [done|].
           intros j Hj. rewrite Hcol by done. symmetry. apply Hkeep; lia.
        -- destruct (Hdone k' ltac:(lia)) as (e & He & Heq & Hsame).
           exists e. split; [done|]. split; [done|]. intros j Hj.
           destruct (Hcache e He) as (H1 & _).
           rewrite !Hkeep by lia. by apply Hsame.
    + (* miss *)
      destruct (write_support_column fzero
                  (fun (_ : list F) j =>
                     computeForwardProbability (znth emptyRle alleles_ j) (sub k) (strand k))
                  readNo alleleNo_ k S)
        as (Hl1 & Hcol & Hout); [lia|done|done|done|].
      cbv zeta in Hl1, Hcol, Hout. cbn [fst snd].
      set (S' := fold_left _ (zrange 0 alleleNo_) S) in *.
      assert (Hkeep : forall j m, 0 <= j < alleleNo_ -> 0 <= m < k ->
                znth fzero S' (j * readNo + m) = znth fzero S (j * readNo + m)).
      { intros j m Hj Hm. apply Hout. intros j' Hj' Heq.
        apply support_index_inj in Heq; lia. }
      assert (Hnone : forall m, 0 <= m < k ->
                rleString_expandedStringEqualKey (sub m) (sub k) = false).
      { intros m Hm. destruct (Hdone m Hm) as (e & He & Heq & _).
        destruct (rleString_expandedStringEqualKey (sub m) (sub k)) eqn:Hmk; [|done].
        pose proof (find_none _ _ Hfind e He) as Hno. simpl in Hno.
        rewrite (expandedStringEqualKey_trans _ _ _ Heq Hmk) in Hno. done. }
      split; [lia|]. split.
      * intros e He. apply in_app_or in He as [He|[<-|[]]].
        -- destruct (Hcache e He) as (H1 & H2 & H3 & H4).
           split; [lia|]. split; [done|]. split; [done|].
           intros j Hj. rewrite Hkeep by lia. by apply H4.
        -- simpl. split; [lia|]. split; [done|]. split; [exact Hnone|].
           intros j Hj. by apply Hcol.
      * intros k' Hk'. destruct (decide (k' = k)) as [->|Hne].
        -- exists (sub k, k). split; [apply in_or_app; right; by left|].
           split; [apply expandedStringEqualKey_refl|]. done.
        -- destruct (Hdone k' ltac:(lia)) as (e & He & Heq & Hsame).
           exists e. split; [apply in_or_app; by left|]. split; [done|]. intros j Hj.
           destruct (Hcache e He) as (H1 & _).
           rewrite !Hkeep by lia. by apply Hsame.
Qed.

Lemma supports_first_equal_read (j k : Z) :
  0 <= j < alleleNo_ -> 0 <= k < readNo ->
  znth fzero
       (computeAlleleReadSupports F fzero computeForwardProbability alleleNo_ readNo
          alleles_ reads_)
       (j * readNo + k)
  = prob j (firstEqualRead reads_ k).
Proof.
  intros Hj Hk. unfold computeAlleleReadSupports.
  destruct (supports_loop readNo ltac:(lia)) as (_ & Hcache & Hdone). cbv zeta in Hcache, Hdone.
  set (st := fold_left _ (zrange 0 readNo) _) in *.
  destruct (Hdone k Hk) as (e & He & Heq & Hsame).
  destruct (Hcache e He) as (Hidx & Hkey & Hfirst & Hval).
  rewrite Hsame, Hval by done.
  rewrite Hkey in Heq.
  assert (Hle : snd e <= k).
  { destruct (Z.le_gt_cases (snd e) k) as [?|Hgt]; [done|].
    pose proof (Hfirst k ltac:(lia)) as Hc.
    rewrite (expandedStringEqualKey_sym _ _ Heq) in Hc. done. }
  assert (Hm : snd e = firstEqualRead reads_ k).
  { unfold firstEqualRead. destruct (find _ (zrange 0 k)) as [m|] eqn:Hfind; simpl.
    - apply find_zrange_Some in Hfind as (Hm & Hmk & Hleast).
      destruct (Z.lt_trichotomy m (snd e)) as [Hlt|[->|Hgt]]; [|done|].
      + pose proof (Hfirst m ltac:(lia)) as Hc.
        rewrite (expandedStringEqualKey_trans _ _ _ Hmk
                   (expandedStringEqualKey_sym _ _ Heq)) in Hc. done.
      + rewrite (Hleast (snd e)) in Heq by lia. done.
    - destruct (decide (snd e = k)) as [Hek|Hek]; [done|].
      pose proof (find_zrange_None _ _ _ Hfind (snd e) ltac:(lia)) as Hno.
      simpl in Hno. rewrite Heq in Hno. done. }
  by rewrite Hm.
Qed.
End SupportCache.

Lemma firstEqualRead_spec (reads_ : list BamChunkReadSubstring) (k : Z) :
  0 <= k ->
  let sub k := bamChunkReadSubstring_getRleString (znth emptyReadSubstring reads_ k) in
  let m := firstEqualRead reads_ k in
  0 <= m <= k /\ rleString_expandedStringEqualKey (sub m) (sub k) = true /\
  forall m', 0 <= m' < m -> rleString_expandedStringEqualKey (sub m') (sub k) = false.
Proof.
  intros Hk. cbv zeta. unfold firstEqualRead.
  destruct (find _ (zrange 0 k)) as [m|] eqn:Hfind; simpl.
  - apply find_zrange_Some in Hfind as (Hm & Hmk & Hleast). split; [lia|]. done.
  - split; [lia|]. split; [apply expandedStringEqualKey_refl|].
    intros m' Hm'. by apply (find_zrange_None _ _ _ Hfind).
Qed.

Lemma firstEqualRead_equal (reads_ : list BamChunkReadSubstring) (k1 k2 : Z) :
  0 <= k1 -> 0 <= k2 ->
  rleString_expandedStringEqualKey
    (bamChunkReadSubstring_getRleString (znth emptyReadSubstring reads_ k1))
    (bamChunkReadSubstring_getRleString (znth emptyReadSubstring reads_ k2)) = true ->
  firstEqualRead reads_ k1 = firstEqualRead reads_ k2.
Proof.
  intros H1 H2 Heq.
  destruct (firstEqualRead_spec reads_ k1 H1) as (Hm1 & He1 & Hl1).
  destruct (firstEqualRead_spec reads_ k2 H2) as (Hm2 & He2 & Hl2).
  cbv zeta in *. set (m1 := firstEqualRead reads_ k1) in *.
  set (m2 := firstEqualRead reads_ k2) in *.
  pose proof (expandedStringEqualKey_sym _ _ Heq) as Heq'.
  destruct (Z.lt_trichotomy m1 m2) as [Hlt|[?|Hgt]]; [|done|].
  - pose proof (expandedStringEqualKey_trans _ _ _ He1 Heq) as Hc.
    rewrite Hl2 in Hc by lia. done.
  - pose proof (expandedStringEqualKey_trans _ _ _ He2 Heq') as Hc.
    rewrite Hl1 in Hc by lia. done.
Qed.

(** X18: The support loop of the builders scores a read substring once: the
    supports of read [k] are the forward probabilities of the first
    read whose substring equals, with its repeat counts, the substring
    of read [k], computed for the strand of that first read.  Reads
    with equal substrings have equal supports, whatever their
    strands. *)
Theorem X_supports_come_from_the_first_equal_read (F : Type) (fzero : F)
    (computeForwardProbability : RleString -> RleString -> bool -> F)
    (alleleNo_ readNo : Z) (alleles_ : list RleString)
    (reads_ : list BamChunkReadSubstring) (j k : Z) :
  0 <= j < alleleNo_ -> 0 <= k < readNo ->
  let supports :=
    computeAlleleReadSupports F fzero computeForwardProbability alleleNo_ readNo
      alleles_ reads_ in
  let sub k := bamChunkReadSubstring_getRleString (znth emptyReadSubstring reads_ k) in
  let m := firstEqualRead reads_ k in
  znth fzero supports (j * readNo + k)
  = computeForwardProbability (znth emptyRle alleles_ j) (sub m)
      (forwardStrand (read (znth emptyReadSubstring reads_ m))) /\
  forall k', 0 <= k' < readNo ->
    rleString_expandedStringEqualKey (sub k) (sub k') = true ->
    znth fzero supports (j * readNo + k) = znth fzero supports (j * readNo + k').
Proof.
  intros Hj Hk. cbv zeta. split.
  - apply supports_first_equal_read; [lia|done|done].
  - intros k' Hk' Heq. rewrite !supports_first_equal_read by (try lia; done).
    by rewrite (firstEqualRead_equal reads_ k k') by (try lia; done).
Qed.

Lemma X_supports_come_from_the_first_equal_read_witness :
  let supports :=
    computeAlleleReadSupports Z 0 ex_strand_probability 1 2
      [mkRle (cstr "AC") [1; 1]] ex_strand_reads in
  let sub k :=
    bamChunkReadSubstring_getRleString (znth emptyReadSubstring ex_strand_reads k) in
  let m := firstEqualRead ex_strand_reads 1 in
  znth 0 supports (0 * 2 + 1)
  = ex_strand_probability (znth emptyRle [mkRle (cstr "AC") [1; 1]] 0) (sub m)
      (forwardStrand (read (znth emptyReadSubstring ex_strand_reads m))) /\
  forall k', 0 <= k' < 2 ->
    rleString_expandedStringEqualKey (sub 1) (sub k') = true ->
    znth 0 supports (0 * 2 + 1) = znth 0 supports (0 * 2 + k').
Proof.
  apply (X_supports_come_from_the_first_equal_read Z 0 ex_strand_probability 1 2
           [mkRle (cstr "AC") [1; 1]] ex_strand_reads 0 1); lia.
Defined.

(** The read on the reverse strand takes the score of the read on the
    forward strand that has the same substring. *)
Example ex_strand_supports :
  computeAlleleReadSupports Z 0 ex_strand_probability 1 2
    [mkRle (cstr "AC") [1; 1]] ex_strand_reads = [1; 1].
Proof. reflexivity. Qed.

(** ** Rescue of the filtered reads from VCF entries *)

Lemma addToReadScore_other (m : gmap nat Q) (bcr : BamChunkRead) (x : Q) (r : nat) :
  read_id bcr <> r -> addToReadScore m bcr x !! r = m !! r.
Proof.
  intros H. unfold addToReadScore. destruct (m !! read_id bcr); [|done].
  by rewrite lookup_insert_ne.
Qed.

Lemma to_uint64_length_le (n : nat) : to_uint64 (Z.of_nat n) <= Z.of_nat n.
Proof. unfold to_uint64. apply Z.mod_le; lia. Qed.

Lemma In_znth {A} (d : A) (l : list A) (k : Z) :
  0 <= k < Z.of_nat (length l) -> In (znth d l k) l.
Proof.
  intros H. unfold znth. destruct (Z.ltb_spec k 0); [lia|]. apply nth_In. lia.
Qed.

Lemma has_substring_for_In (bcr : BamChunkRead) (id : nat) (s : cstring) (q : list Z) :
  In (id, s, q) (bamChunkReadVcfEntrySubstrings bcr) -> has_substring_for bcr id.
Proof. intros H. by exists s, q. Qed.

Lemma buildVcfEntryToReadSubstringsMap_ok (bamChunkReads : list BamChunkRead)
    (params : PolishParams) :
  substrings_map_ok bamChunkReads (buildVcfEntryToReadSubstringsMap bamChunkReads params).
Proof.
  unfold buildVcfEntryToReadSubstringsMap.
  apply (fold_left_preserves_In (substrings_map_ok bamChunkReads)).
  - intros m bcr Hbcr Hm.
    apply (fold_left_preserves_In (substrings_map_ok bamChunkReads)); [|done].
    intros m' [[id s] q] Hin Hm' id' rs.
    destruct (decide (id = id')) as [->|Hne].
    + rewrite lookup_insert_eq. simpl. rewrite in_app_iff. intros [H|[<-|[]]].
      * by apply Hm'.
      * simpl. split; [done|]. by eapply has_substring_for_In.
    + rewrite lookup_insert_ne by done. apply Hm'.
  - intros id rs. rewrite lookup_empty. by intros [].
Qed.

Section PartitionFromVcfEntriesProofs.
Variable computeForwardProbability : RleString -> RleString -> bool -> Q.
Variable stMath_logAddExact : Q -> Q -> Q.

Lemma rankRead_fold_other (b : Bubble Q) (r : nat) (ks : list Z) :
  (forall k, In k ks -> read_id (read (znth emptyReadSubstring (reads b) k)) <> r) ->
  forall scores : gmap nat Q * gmap nat Q,
    (fold_left (rankRead stMath_logAddExact b) ks scores).1 !! r = scores.1 !! r /\
    (fold_left (rankRead stMath_logAddExact b) ks scores).2 !! r = scores.2 !! r.
Proof.
  induction ks as [|k ks IH]; intros Hks [s1 s2]; [done|].
  cbn [fold_left].
  destruct (IH (fun k' H => Hks k' (or_intror H))
               (rankRead stMath_logAddExact b (s1, s2) k)) as [-> ->].
  unfold rankRead. simpl.
  rewrite !addToReadScore_other by (apply Hks; by left). done.
Qed.

Local Abbreviation scoreEntry := (scoreVcfEntryBubble computeForwardProbability stMath_logAddExact).

(** One round of the loop: the hash keeps its invariant, and a read
    whose score moves has a substring for the entry, which is
    heterozygous. *)
Lemma scoreVcfEntryBubble_step (bamChunkReads : list BamChunkRead) (params : PolishParams)
    (primaryBubble : Bubble Q) (vcfEntry : VcfEntry) (hap1AlleleNo hap2AlleleNo : Z)
    (scores : gmap nat Q * gmap nat Q) (m : gmap nat (list BamChunkReadSubstring)) :
  substrings_map_ok bamChunkReads m ->
  let st := scoreEntry params primaryBubble vcfEntry hap1AlleleNo hap2AlleleNo (scores, m) in
  substrings_map_ok bamChunkReads st.2 /\
  forall r : nat,
    (st.1.1 !! r = scores.1 !! r /\ st.1.2 !! r = scores.2 !! r) \/
    (hap1AlleleNo <> hap2AlleleNo /\
     exists bcr, In bcr bamChunkReads /\ read_id bcr = r /\
                 has_substring_for bcr (vcf_id vcfEntry)).
Proof.
  intros Hm. unfold scoreVcfEntryBubble.
  destruct (Z.eqb_spec hap1AlleleNo hap2AlleleNo) as [E|E]; [split; [done|by left]|].
  destruct (Z.eqb_spec (Z.of_nat (length (default [] (m !! vcf_id vcfEntry)))) 0) as [E0|E0];
    [split; [done|by left]|].
  cbn [fst snd]. split.
  - intros id rs. destruct (decide (vcf_id vcfEntry = id)) as [->|Hne].
    + rewrite lookup_insert_eq. by intros [].
    + rewrite lookup_insert_ne by done. apply Hm.
  - intros r. unfold rankReads. cbn [readNo_ reads].
    set (rss := default [] (m !! vcf_id vcfEntry)) in *.
    set (b := mkBubble _ _ _ _ _ _ _ _ _ _).
    destruct (List.Exists_dec
                (fun k => read_id (read (znth emptyReadSubstring (rev rss) k)) = r)
                (zrange 0 (to_uint64 (Z.of_nat (length rss))))
                (fun k => Nat.eq_dec _ r)) as [Hex|Hno].
    + apply List.Exists_exists in Hex. destruct Hex as (k & Hk & Hr).
      right. split; [done|]. apply In_zrange in Hk.
      pose proof (to_uint64_length_le (length rss)).
      assert (Hin : In (znth emptyReadSubstring (rev rss) k) rss).
      { apply in_rev. apply In_znth. rewrite length_rev. lia. }
      destruct (Hm _ _ Hin) as [H1 H2]. eauto.
    + left. apply (rankRead_fold_other b r). intros k Hk Hr. apply Hno. apply List.Exists_exists. by exists k.
Qed.

(** The whole loop, over any way of picking the bubble, the entry and
    the two allele numbers of a round. *)
Lemma scoreVcfEntryBubble_fold (bamChunkReads : list BamChunkRead) (params : PolishParams)
    (pb : Z -> Bubble Q) (ve : Z -> VcfEntry) (h1 h2 : Z -> Z) (idxs : list Z)
    (scores : gmap nat Q * gmap nat Q) (m : gmap nat (list BamChunkReadSubstring)) :
  substrings_map_ok bamChunkReads m ->
  let st := fold_left (fun st idx => scoreEntry params (pb idx) (ve idx) (h1 idx) (h2 idx) st)
                      idxs (scores, m) in
  forall r : nat,
    (st.1.1 !! r = scores.1 !! r /\ st.1.2 !! r = scores.2 !! r) \/
    spans_het bamChunkReads ve h1 h2 idxs r.
Proof.
  revert scores m. induction idxs as [|idx idxs IH]; intros scores m Hm; cbn [fold_left].
  - intros r. by left.
  - intros r.
    destruct (scoreEntry params (pb idx) (ve idx) (h1 idx) (h2 idx) (scores, m))
      as [scores' m'] eqn:E.
    pose proof (scoreVcfEntryBubble_step bamChunkReads params (pb idx) (ve idx)
                  (h1 idx) (h2 idx) scores m Hm) as Hstep.
    cbv zeta in Hstep. rewrite E in Hstep. cbn [fst snd] in Hstep.
    destruct Hstep as [Hm' Hr].
    destruct (IH scores' m' Hm' r) as [[I1 I2]|(bcr & i & ? & ? & ? & ? & ?)].
    + destruct (Hr r) as [[R1 R2]|(Hhet & bcr & ? & ? & ?)].
      * left. by rewrite I1, I2, R1, R2.
      * right. exists bcr, idx. repeat split; try done. by left.
    + right. exists bcr, i. repeat split; try done. by right.
Qed.

(** What the closing loop makes of scores that the rounds left alone
    for every read that spans no heterozygous entry. *)
Lemma rescue_sets (bamChunkReads : list BamChunkRead) (scores : gmap nat Q * gmap nat Q)
    (hap1Reads hap2Reads : gset nat) (touched : nat -> Prop) :
  (forall r, (scores.1 !! r = initialReadScores bamChunkReads !! r /\
              scores.2 !! r = initialReadScores bamChunkReads !! r) \/ touched r) ->
  let res := saveToSets bamChunkReads scores hap1Reads hap2Reads in
  hap1Reads ⊆ res.1 /\ hap2Reads ⊆ res.2 /\
  (forall r, r ∈ res.1 -> r ∈ res.2 -> r ∈ hap1Reads \/ r ∈ hap2Reads) /\
  (forall r, (r ∈ res.1 /\ r ∉ hap1Reads) \/ (r ∈ res.2 /\ r ∉ hap2Reads) ->
             In r (map read_id bamChunkReads) /\ touched r).
Proof.
  intros Hsc res.
  assert (Hspec := fun r => saveToSets_spec bamChunkReads scores r hap1Reads hap2Reads).
  cbv zeta in Hspec. fold res in Hspec.
  split; [|split; [|split]].
  - intros r Hr. apply (Hspec r). by left.
  - intros r Hr. apply (Hspec r). by left.
  - intros r H1 H2. apply (Hspec r) in H1, H2.
    destruct H1 as [?|[_ H1]]; [by left|]. destruct H2 as [?|[_ H2]]; [by right|].
    exfalso. apply (Qlt_irrefl (default 0%Q (scores.1 !! r))). by etransitivity.
  - intros r Hr.
    assert (Hadd : In r (map read_id bamChunkReads) /\
                   ~ (default 0%Q (scores.1 !! r) == default 0%Q (scores.2 !! r))%Q).
    { destruct Hr as [[Hr Hn]|[Hr Hn]]; apply (Hspec r) in Hr;
        destruct Hr as [?|[Hin Hlt]]; try done; split; try done;
        intros Heq; rewrite Heq in Hlt; by apply Qlt_irrefl in Hlt. }
    destruct Hadd as [Hin Hne]. split; [done|].
    destruct (Hsc r) as [[E1 E2]|?]; [|done].
    exfalso. apply Hne. by rewrite E1, E2.
Qed.
End PartitionFromVcfEntriesProofs.

(** X19: [bubbleGraph_partitionFilteredReadsFromVcfEntries] only adds
    to the two sets, never adds a read to both, and every read it adds
    is a read of the list with a substring cut for the entry of a bubble
    of the fragment at which the two haplotypes differ. *)
Theorem X_vcf_rescue_needs_a_het_substring
    (computeForwardProbability : RleString -> RleString -> bool -> Q)
    (stMath_logAddExact : Q -> Q -> Q)
    (bamChunkReads : list BamChunkRead) (gF : stGenomeFragment) (bg : BubbleGraph Q)
    (vcfEntriesToBubbles : list VcfEntry) (hap1Reads hap2Reads : gset nat)
    (params : PolishParams) :
  let res := bubbleGraph_partitionFilteredReadsFromVcfEntries
               computeForwardProbability stMath_logAddExact
               bamChunkReads gF bg vcfEntriesToBubbles hap1Reads hap2Reads params in
  hap1Reads ⊆ res.1 /\ hap2Reads ⊆ res.2 /\
  (forall r, r ∈ res.1 -> r ∈ res.2 -> r ∈ hap1Reads \/ r ∈ hap2Reads) /\
  (forall r, (r ∈ res.1 /\ r ∉ hap1Reads) \/ (r ∈ res.2 /\ r ∉ hap2Reads) ->
     exists (bcr : BamChunkRead) (primaryBubbleIdx : Z),
       In bcr bamChunkReads /\ read_id bcr = r /\
       0 <= primaryBubbleIdx < gf_length gF /\
       znth 0 (haplotypeString1 gF) primaryBubbleIdx
         <> znth 0 (haplotypeString2 gF) primaryBubbleIdx /\
       has_substring_for bcr
         (vcf_id (znth emptyVcfEntry vcfEntriesToBubbles (gf_refStart gF + primaryBubbleIdx)))).
Proof.
  intros res. unfold bubbleGraph_partitionFilteredReadsFromVcfEntries in res.
  set (st := fold_left _ _ _) in res.
  pose proof (scoreVcfEntryBubble_fold computeForwardProbability stMath_logAddExact
                bamChunkReads params
                (fun idx => znth emptyBubble (bubbles bg) (gf_refStart gF + idx))
                (fun idx => znth emptyVcfEntry vcfEntriesToBubbles (gf_refStart gF + idx))
                (fun idx => znth 0 (haplotypeString1 gF) idx)
                (fun idx => znth 0 (haplotypeString2 gF) idx)
                (zrange 0 (gf_length gF))
                (initialReadScores bamChunkReads, initialReadScores bamChunkReads) _
                (buildVcfEntryToReadSubstringsMap_ok bamChunkReads params)) as Hfold.
  cbv zeta in Hfold. fold st in Hfold. cbn [fst snd] in Hfold.
  destruct (rescue_sets bamChunkReads st.1 hap1Reads hap2Reads _ Hfold) as (S1 & S2 & S3 & S4).
  fold res in S1, S2, S3, S4. repeat split; try done.
  intros r Hr. destruct (S4 r Hr) as [_ (bcr & idx & ? & ? & Hidx & ? & ?)].
  apply In_zrange in Hidx. by exists bcr, idx.
Qed.

(** X20: [bubbleGraph_partitionFilteredReadsFromPhasedVcfEntries] only
    adds to the two sets, never adds a read to both, and every read it
    adds is a read of the list with a substring cut for an entry whose
    genotype is heterozygous. *)
Theorem X_phased_vcf_rescue_needs_a_het_substring
    (computeForwardProbability : RleString -> RleString -> bool -> Q)
    (stMath_logAddExact : Q -> Q -> Q)
    (bamChunkReads : list BamChunkRead) (bg : BubbleGraph Q)
    (vcfEntriesToBubbles : list VcfEntry) (hap1Reads hap2Reads : gset nat)
    (params : PolishParams) :
  let res := bubbleGraph_partitionFilteredReadsFromPhasedVcfEntries
               computeForwardProbability stMath_logAddExact
               bamChunkReads bg vcfEntriesToBubbles hap1Reads hap2Reads params in
  hap1Reads ⊆ res.1 /\ hap2Reads ⊆ res.2 /\
  (forall r, r ∈ res.1 -> r ∈ res.2 -> r ∈ hap1Reads \/ r ∈ hap2Reads) /\
  (forall r, (r ∈ res.1 /\ r ∉ hap1Reads) \/ (r ∈ res.2 /\ r ∉ hap2Reads) ->
     exists (bcr : BamChunkRead) (primaryBubbleIdx : Z),
       In bcr bamChunkReads /\ read_id bcr = r /\
       0 <= primaryBubbleIdx < bubbleNo bg /\
       gt1 (znth emptyVcfEntry vcfEntriesToBubbles primaryBubbleIdx)
         <> gt2 (znth emptyVcfEntry vcfEntriesToBubbles primaryBubbleIdx) /\
       has_substring_for bcr
         (vcf_id (znth emptyVcfEntry vcfEntriesToBubbles primaryBubbleIdx))).
Proof.
  intros res. unfold bubbleGraph_partitionFilteredReadsFromPhasedVcfEntries in res.
  set (st := fold_left _ _ _) in res.
  pose proof (scoreVcfEntryBubble_fold computeForwardProbability stMath_logAddExact
                bamChunkReads params
                (fun idx => znth emptyBubble (bubbles bg) idx)
                (fun idx => znth emptyVcfEntry vcfEntriesToBubbles idx)
                (fun idx => gt1 (znth emptyVcfEntry vcfEntriesToBubbles idx))
                (fun idx => gt2 (znth emptyVcfEntry vcfEntriesToBubbles idx))
                (zrange 0 (bubbleNo bg))
                (initialReadScores bamChunkReads, initialReadScores bamChunkReads) _
                (buildVcfEntryToReadSubstringsMap_ok bamChunkReads params)) as Hfold.
  cbv zeta in Hfold. fold st in Hfold. cbn [fst snd] in Hfold.
  destruct (rescue_sets bamChunkReads st.1 hap1Reads hap2Reads _ Hfold) as (S1 & S2 & S3 & S4).
  fold res in S1, S2, S3, S4. repeat split; try done.
  intros r Hr. destruct (S4 r Hr) as [_ (bcr & idx & ? & ? & Hidx & ? & ?)].
  apply In_zrange in Hidx. by exists bcr, idx.
Qed.

Example ex_vcf_rescue :
  bubbleGraph_partitionFilteredReadsFromVcfEntries ex_forwardProbabilityQ ex_logAdd
    ex_vcf_reads ex_fragment ex_het_graph [ex_het_entry] ∅ ∅ ex_params
  = ({[0%nat]}, {[1%nat]}).
Proof. by vm_compute. Qed.

(** X21: on a fragment that starts at the first bubble, spans the whole
    graph and carries the genotypes of the entries as its haplotype
    strings, the rescue from the fragment gives the sets of the rescue
    from the phased entries. *)
Theorem X_vcf_rescues_agree
    (computeForwardProbability : RleString -> RleString -> bool -> Q)
    (stMath_logAddExact : Q -> Q -> Q)
    (bamChunkReads : list BamChunkRead) (gF : stGenomeFragment) (bg : BubbleGraph Q)
    (vcfEntriesToBubbles : list VcfEntry) (hap1Reads hap2Reads : gset nat)
    (params : PolishParams) :
  gf_refStart gF = 0 ->
  gf_length gF = bubbleNo bg ->
  (forall i, 0 <= i < bubbleNo bg ->
     znth 0 (haplotypeString1 gF) i = gt1 (znth emptyVcfEntry vcfEntriesToBubbles i) /\
     znth 0 (haplotypeString2 gF) i = gt2 (znth emptyVcfEntry vcfEntriesToBubbles i)) ->
  bubbleGraph_partitionFilteredReadsFromVcfEntries computeForwardProbability stMath_logAddExact
    bamChunkReads gF bg vcfEntriesToBubbles hap1Reads hap2Reads params
  = bubbleGraph_partitionFilteredReadsFromPhasedVcfEntries
      computeForwardProbability stMath_logAddExact
      bamChunkReads bg vcfEntriesToBubbles hap1Reads hap2Reads params.
Proof.
  intros Hstart Hlen Hgt.
  unfold bubbleGraph_partitionFilteredReadsFromVcfEntries,
         bubbleGraph_partitionFilteredReadsFromPhasedVcfEntries.
  rewrite Hstart, Hlen. do 2 f_equal.
  apply fold_left_ext_in. intros st idx Hidx. apply In_zrange in Hidx.
  destruct (Hgt idx Hidx) as [-> ->]. by rewrite Z.add_0_l.
Qed.

Lemma X_vcf_rescues_agree_witness :
  bubbleGraph_partitionFilteredReadsFromVcfEntries ex_forwardProbabilityQ ex_logAdd
    ex_vcf_reads ex_fragment ex_het_graph [ex_het_entry] ∅ ∅ ex_params
  = bubbleGraph_partitionFilteredReadsFromPhasedVcfEntries ex_forwardProbabilityQ ex_logAdd
      ex_vcf_reads ex_het_graph [ex_het_entry] ∅ ∅ ex_params.
Proof.
  apply X_vcf_rescues_agree; [reflexivity|reflexivity|].
  intros i Hi. change (bubbleNo ex_het_graph) with 1 in Hi.
  assert (i = 0) as -> by lia. split; reflexivity.
Defined.

(** ** The reference allele in the bubbles of the builders *)

Lemma getReferenceAlleleIndex_found {F} (b : Bubble F) :
  In (refAllele b) (alleles b) -> alleleNo b = Z.of_nat (length (alleles b)) ->
  0 <= bubble_getReferenceAlleleIndex b < alleleNo b /\
  znth emptyRle (alleles b) (bubble_getReferenceAlleleIndex b) = refAllele b.
Proof.
  intros Hin Hno. unfold bubble_getReferenceAlleleIndex.
  destruct (find _ _) as [i|] eqn:Hfind.
  - apply find_zrange_Some in Hfind as (Hi & Heq & _). split; [done|].
    symmetry. by apply rleString_eq_true.
  - exfalso. apply (In_nth _ _ emptyRle) in Hin as (n & Hn & Hnth).
    pose proof (find_zrange_None _ _ _ Hfind (Z.of_nat n) ltac:(lia)) as Hf.
    cbv beta in Hf. unfold znth in Hf.
    destruct (Z.ltb_spec (Z.of_nat n) 0); [lia|].
    rewrite Nat2Z.id, Hnth, rleString_eq_refl in Hf. done.
Qed.

Lemma bubbleBetweenAnchors_alleleNo
    (stList_sort : forall A : Type, (A -> A -> Z) -> list A -> list A)
    {F : Type} (fzero : F) (computeForwardProbability : RleString -> RleString -> bool -> F)
    (poa : Poa) (bamChunkReads : list BamChunkRead)
    (params : PolishParams) (phasing : bool) (cws : list Q) (cvp : list bool)
    (rounds : nat) (pAnchor i : Z) (b : Bubble F) :
  bubbleBetweenAnchors stList_sort F fzero computeForwardProbability poa bamChunkReads params
    phasing cws cvp rounds pAnchor i = Some (Some b) ->
  alleleNo b = Z.of_nat (length (alleles b)).
Proof.
  unfold bubbleBetweenAnchors.
  destruct (0 <? _); [|done].
  match goal with |- match ?o with Some _ => _ | None => _ end = _ -> _ =>
    destruct o as [alleles_|] end; [|done].
  destruct (1 <? _); [|done].
  intros Hb. injection Hb as <-. simpl. by rewrite length_map.
Qed.

(** X22: in every bubble that [bubbleGraph_constructFromPoaAndVCF]
    makes from an alignment whose reference string is well formed for
    the mode, [bubble_getReferenceAlleleIndex] finds the reference
    allele among the at least two alleles of the bubble. *)
Theorem X_poa_builder_finds_reference_allele
    (stList_sort : forall A : Type, (A -> A -> Z) -> list A -> list A)
    (F : Type) (fzero : F) (computeForwardProbability : RleString -> RleString -> bool -> F)
    (poa : Poa) (bamChunkReads : list BamChunkRead) (vcfEntries : option (list VcfEntry))
    (params : PolishParams) (phasing : bool) (rounds : nat) (bg : BubbleGraph F) :
  rle_wf (useRunLengthEncoding params) (refString poa) ->
  bubbleGraph_constructFromPoaAndVCF stList_sort F fzero computeForwardProbability poa
    bamChunkReads vcfEntries params phasing rounds = Some bg ->
  forall b, In b (bubbles bg) ->
    2 <= alleleNo b /\
    0 <= bubble_getReferenceAlleleIndex b < alleleNo b /\
    znth emptyRle (alleles b) (bubble_getReferenceAlleleIndex b) = refAllele b.
Proof.
  intros Hwf Hbg.
  set (P := fun b : Bubble F =>
              (In (refAllele b) (alleles b) /\ 2 <= alleleNo b) /\
              alleleNo b = Z.of_nat (length (alleles b))).
  assert (Hall : Forall P (bubbles bg)).
  { revert Hbg. unfold bubbleGraph_constructFromPoaAndVCF.
    destruct (getFilteredAnchorPositions _ _ _ _) as [anchors cvp].
    destruct (bubblesFromAnchors _ _ _ _ _ _ _ _ _ _ _ _) as [bs|] eqn:Hbs; [|done].
    pose proof (fillAlleleOffsets_each P bs) as Hoff.
    destruct (fillAlleleOffsets bs) as [bs' off]. intros H. injection H as <-. simpl.
    apply Hoff; [done|].
    eapply bubblesFromAnchors_each; [|exact Hbs].
    intros pAnchor i b Hb. split.
    - eapply bubbleBetweenAnchors_reference; [|exact Hb]. exact Hwf.
    - eapply bubbleBetweenAnchors_alleleNo. exact Hb. }
  intros b Hb. rewrite List.Forall_forall in Hall.
  destruct (Hall b Hb) as [[Hin H2] Hno]. split; [done|].
  by apply getReferenceAlleleIndex_found.
Qed.

Lemma X_poa_builder_finds_reference_allele_witness :
  exists bg, ex_graph = Some bg /\ bubbles bg <> [] /\
    forall b, In b (bubbles bg) ->
      2 <= alleleNo b /\
      0 <= bubble_getReferenceAlleleIndex b < alleleNo b /\
      znth emptyRle (alleles b) (bubble_getReferenceAlleleIndex b) = refAllele b.
Proof.
  eexists. split; [vm_compute; reflexivity|]. split; [discriminate|].
  apply (X_poa_builder_finds_reference_allele (@insertion_sort) Z 0 ex_forwardProbability
           ex_read_poa ex_reads None ex_params false 3).
  - split; [reflexivity|]. split.
    + repeat (constructor; [lia|]). constructor.
    + intros i a b Ha Hb.
      do 5 (destruct i as [|i]; [vm_compute in Ha, Hb; congruence|]). done.
  - vm_compute. reflexivity.
Defined.

(** X23: in every bubble that
    [bubbleGraph_constructFromPoaAndVCFOnlyVCFAllele] makes, the
    reference allele is the first allele, so that
    [bubble_getReferenceAlleleIndex] is 0 whenever the bubble has an
    allele. *)
Theorem X_vcf_allele_builder_reference_allele_first
    (stList_sort : forall A : Type, (A -> A -> Z) -> list A -> list A)
    (F : Type) (fzero : F) (computeForwardProbability : RleString -> RleString -> bool -> F)
    (getAlleleSubstrings2 : VcfEntry -> cstring -> Z -> Z -> bool -> list AlleleCell * Z * Z)
    (poa : Poa) (bamChunkReads : list BamChunkRead) (referenceSeqRLE : RleString)
    (vcfEntries : list VcfEntry) (params : PolishParams) :
  Forall (fun b => refAllele b = znth emptyRle (alleles b) 0 /\
                   (0 < alleleNo b -> bubble_getReferenceAlleleIndex b = 0))
         (bubbles (bubbleGraph_constructFromPoaAndVCFOnlyVCFAllele stList_sort F fzero
                     computeForwardProbability getAlleleSubstrings2 poa bamChunkReads
                     referenceSeqRLE vcfEntries params)).
Proof.
  eapply List.Forall_impl;
    [|apply constructFromPoaAndVCFOnlyVCFAllele_reference_allele].
  intros b [Href Hno]. split; [exact Href|].
  intros Hpos. unfold bubble_getReferenceAlleleIndex.
  rewrite zrange_cons by lia. simpl.
  change (znth emptyRle (alleles b) 0) with (nth 0 (alleles b) emptyRle).
  by rewrite <- Href, rleString_eq_refl.
Qed.

(** ** The widening of the flagged positions *)

(** X24: [expand] returns [length] flags and marks exactly the
    positions of the half-open windows [i - expansion, i + expansion)
    around the marked positions [i]. *)
Theorem X_expand_marks_half_open_windows (b : list bool) (len e k : Z) :
  0 <= k < len ->
  length (expand b len e) = Z.to_nat len /\
  (znth false (expand b len e) k = true <->
   exists i, 0 <= i < len /\ znth false b i = true /\ i - e <= k < i + e).
Proof. intros Hk. split; [apply length_expand|by apply expand_spec]. Qed.

Lemma X_expand_marks_half_open_windows_witness :
  length (expand ex_flags 6 2) = Z.to_nat 6 /\
  (znth false (expand ex_flags 6 2) 1 = true <->
   exists i, 0 <= i < 6 /\ znth false ex_flags i = true /\ i - 2 <= 1 < i + 2).
Proof. apply (X_expand_marks_half_open_windows ex_flags 6 2 1). lia. Defined.

Example ex_expand : expand ex_flags 6 2 = [false; true; true; true; true; false].
Proof. reflexivity. Qed.

(** ** The candidate iterators *)

(** X25: driven to exhaustion, [getNextCandidateBase] yields in the
    order of the alphabet the symbols whose weight exceeds the
    candidate weight, together with the base of the node, and
    [getNextCandidateRepeatCount] started at 1 yields in ascending
    order the repeat counts whose weight exceeds twice the candidate
    weight, together with the repeat count of the node. *)
Theorem X_candidate_bases_and_repeat_counts (poa : Poa) (node : PoaNode) (cw : Q) :
  ~ In "-"%char (alphabet poa) ->
  node_wf poa node ->
  candidateBases poa node cw
  = flat_map (fun k => if admit_base poa node cw k then [convertSymbolToChar poa k] else [])
             (seq 0 (alphabetSize poa)) /\
  candidateRepeatCounts poa node cw 1
  = flat_map (fun k => if admit_repeatCount node cw k then [Z.of_nat k] else [])
             (seq 1 (maxRepeatCount poa - 1)) /\
  In (base node) (candidateBases poa node cw) /\
  In (repeatCount node) (candidateRepeatCounts poa node cw 1).
Proof.
  intros Hgap Hwf. split; [by apply candidateBases_spec|].
  split; [apply candidateRepeatCounts_spec|].
  split; [by apply referenceBase_is_candidate|by apply referenceRepeatCount_is_candidate].
Qed.

Lemma X_candidate_bases_and_repeat_counts_witness :
  candidateBases ex_poa ex_variant_node 5
  = flat_map (fun k => if admit_base ex_poa ex_variant_node 5 k
                       then [convertSymbolToChar ex_poa k] else [])
             (seq 0 (alphabetSize ex_poa)) /\
  candidateRepeatCounts ex_poa ex_variant_node 5 1
  = flat_map (fun k => if admit_repeatCount ex_variant_node 5 k then [Z.of_nat k] else [])
             (seq 1 (maxRepeatCount ex_poa - 1)) /\
  In (base ex_variant_node) (candidateBases ex_poa ex_variant_node 5) /\
  In (repeatCount ex_variant_node) (candidateRepeatCounts ex_poa ex_variant_node 5 1).
Proof.
  apply (X_candidate_bases_and_repeat_counts ex_poa ex_variant_node 5).
  - vm_compute. intuition discriminate.
  - split; [vm_compute; tauto|]. split; [reflexivity|]. vm_compute. split; [discriminate|reflexivity].
Defined.

Example ex_candidates :
  candidateBases ex_poa ex_variant_node 5 = cstr "CG" /\
  candidateRepeatCounts ex_poa ex_variant_node 5 1 = [1; 2].
Proof. split; reflexivity. Qed.

(** ** The consensus string of the reference path *)

(** X26: on a graph whose bubbles lie on the reference string in order,
    each at the 0-based coordinate of its reference allele, the
    consensus string of a path that picks the reference allele at
    every bubble is the reference string, with every position of it
    counted. *)
Theorem X_reference_path_gives_reference (ref : RleString) (useRLE : bool)
    (F : Type) (bg : BubbleGraph F) (consensusPath : list Z) :
  rle_wf useRLE ref ->
  ~ In "-"%char (rleString ref) ->
  bg_refString bg = Some ref ->
  bubbleNo bg = Z.of_nat (length (bubbles bg)) ->
  bubbles_on_reference ref 0 (bubbles bg) ->
  picks_reference (bubbles bg) consensusPath ->
  fst (fst (bubbleGraph_getConsensusString bg consensusPath useRLE)) = ref /\
  snd (bubbleGraph_getConsensusString bg consensusPath useRLE) = rle_length ref.
Proof. intros. by apply getConsensusString_reference. Qed.

Lemma X_reference_path_gives_reference_witness :
  fst (fst (bubbleGraph_getConsensusString ex_reference_graph [1] true))
  = mkRle (cstr "ACGTA") [1; 1; 1; 1; 1] /\
  snd (bubbleGraph_getConsensusString ex_reference_graph [1] true)
  = rle_length (mkRle (cstr "ACGTA") [1; 1; 1; 1; 1]).
Proof.
  apply (X_reference_path_gives_reference (mkRle (cstr "ACGTA") [1; 1; 1; 1; 1]) true
           Z ex_reference_graph [1]).
  - split; [reflexivity|]. split.
    + repeat (constructor; [lia|]). constructor.
    + intros i a b Ha Hb.
      do 5 (destruct i as [|i]; [vm_compute in Ha, Hb; congruence|]). done.
  - vm_compute. intuition discriminate.
  - reflexivity.
  - reflexivity.
  - vm_compute. repeat split; discriminate.
  - intros i b Hb. destruct i as [|i]; [|done].
    vm_compute in Hb. injection Hb as <-. reflexivity.
Defined.

(** ** The profile sequences of a graph *)

(** X27: in a graph as the builders leave it,
    [bubbleGraph_getProfileSeqs] makes a profile sequence for exactly
    the reads attached to some bubble; the sequence of a read starts at
    the allele offset of a bubble that is no later than any bubble of
    the read, and its length reaches the end of the alleles of the last
    bubble of the read. *)
Theorem X_profile_seqs_span_the_bubbles_of_the_read
    (F : Type) (LOG_ZERO : F) (stMath_logAddExact : F -> F -> F) (PROFILE_PROB_SCALAR : F)
    (fsub fmul : F -> F -> F) (roundf : F -> Z) (bg : BubbleGraph F) :
  graph_wf bg ->
  let B i := znth emptyBubble (bubbles bg) i in
  let readsToPSeqs :=
    bubbleGraph_getProfileSeqs F LOG_ZERO stMath_logAddExact PROFILE_PROB_SCALAR fsub fmul
      roundf bg (bubbleGraph_getReferenceSites bg) in
  (forall r, is_Some (readsToPSeqs !! r) <->
     exists i j, 0 <= i < bubbleNo bg /\ 0 <= j < readNo_ (B i) /\ r = readAt bg i j) /\
  (forall r pSeq, readsToPSeqs !! r = Some pSeq ->
     exists f e,
       0 <= f <= e /\ e < bubbleNo bg /\ getReadEnds F bg !! r = Some e /\
       pseq_alleleOffset pSeq = alleleOffset (B f) /\
       Z.of_nat (length (profileProbs pSeq))
       = alleleOffset (B e) + alleleNo (B e) - alleleOffset (B f) /\
       forall i j, 0 <= i < bubbleNo bg -> 0 <= j < readNo_ (B i) -> readAt bg i j = r ->
         f <= i).
Proof.
  intros Hwf B readsToPSeqs.
  pose proof (getProfileSeqs_upto F LOG_ZERO stMath_logAddExact PROFILE_PROB_SCALAR fsub fmul
                roundf bg Hwf) as [Hdom Hent].
  fold readsToPSeqs in Hdom, Hent. subst B. cbv beta. split.
  - intros r. split.
    + apply getProfileSeqs_keys.
    + intros (i & j & Hi & Hj & ->). apply Hdom. repeat split; lia.
  - intros r pSeq Hp.
    destruct (Hent r pSeq Hp) as (f & e & Hf & He & Hfe & Hoff & Hl & Hstrips).
    exists f, e. repeat split; try done; try lia.
    intros i j Hi Hj Hr.
    assert (Hh : handled bg (bubbleNo bg) 0 i j) by (repeat split; lia).
    by destruct (Hstrips i j Hh Hr).
Qed.

Lemma X_profile_seqs_span_the_bubbles_of_the_read_witness :
  graph_wf (tie_graph (Fin 0)) /\
  forall r,
    is_Some (bubbleGraph_getProfileSeqs xreal xLOG_ZERO xlogAddExact (Fin 30) xsub xmul xroundf
               (tie_graph (Fin 0)) (bubbleGraph_getReferenceSites (tie_graph (Fin 0))) !! r) <->
    exists i j, 0 <= i < bubbleNo (tie_graph (Fin 0)) /\
                0 <= j < readNo_ (znth emptyBubble (bubbles (tie_graph (Fin 0))) i) /\
                r = readAt (tie_graph (Fin 0)) i j.
Proof.
  split; [apply tie_graph_wf|].
  exact (proj1 (X_profile_seqs_span_the_bubbles_of_the_read xreal xLOG_ZERO xlogAddExact
                  (Fin 30) xsub xmul xroundf (tie_graph (Fin 0)) tie_graph_wf)).
Defined.

(** ** Switch correctness of a list against itself *)

(** X28: [switchCorrectness] of a list of at least two heterozygous
    variants against itself is 1, over as many variants as the list
    has. *)
Theorem X_switch_correctness_of_self (l : list PhasedVariant) :
  Forall heterozygous l ->
  (2 <= length l)%nat ->
  exists q : Q, switchCorrectness l l = (Finite q, Z.of_nat (length l)) /\ (q == 1)%Q.
Proof. apply switchCorrectness_self. Qed.

Lemma X_switch_correctness_of_self_witness :
  exists q : Q,
    switchCorrectness ex_two_sets ex_two_sets = (Finite q, Z.of_nat (length ex_two_sets)) /\
    (q == 1)%Q.
Proof.
  apply (X_switch_correctness_of_self ex_two_sets).
  - apply ex_two_sets_heterozygous.
  - simpl. lia.
Defined.

(** ** The reads between two nodes *)

Lemma skipDupes_In (obs : list PoaBaseObservation) (r : Z) (o : PoaBaseObservation) :
  In o (skipDupes obs r) -> In o obs.
Proof.
  induction obs as [|x obs IH]; simpl; [done|].
  destruct (negb _); [done|]. intros H. right. by apply IH.
Qed.

Lemma skipDupes_sorted (obs : list PoaBaseObservation) (r : Z) :
  by_readNo obs -> by_readNo (skipDupes obs r).
Proof.
  unfold by_readNo. induction 1 as [|x obs Hs IH Hx]; simpl; [constructor|].
  destruct (negb _); [by constructor|done].
Qed.

Lemma skipDupes_above (obs : list PoaBaseObservation) (r : Z) :
  by_readNo obs -> List.Forall (fun o => r <= readNo o) obs ->
  List.Forall (fun o => r < readNo o) (skipDupes obs r).
Proof.
  unfold by_readNo. induction 1 as [|x obs Hs IH Hx]; intros Hge; simpl; [constructor|].
  apply List.Forall_cons_iff in Hge as [Hxr Hge].
  destruct (Z.eqb_spec (readNo x) r) as [E|E]; simpl.
  - by apply IH.
  - constructor; [lia|].
    rewrite List.Forall_forall in Hx. apply List.Forall_forall. intros o Ho.
    specialize (Hx o Ho). simpl in Hx. lia.
Qed.

Lemma by_readNo_tail (o : PoaBaseObservation) (obs : list PoaBaseObservation) :
  by_readNo (o :: obs) ->
  by_readNo obs /\ List.Forall (fun o' => readNo o <= readNo o') obs.
Proof. intros H. by apply StronglySorted_inv in H. Qed.

(** The two-pointer walk over observations in read-number order. *)
Lemma twoNodeWalk_spec (bamChunkReads : list BamChunkRead) (fuel : nat) :
  forall (obsFrom obsTo : list PoaBaseObservation) (acc : list BamChunkReadSubstring),
  by_readNo obsFrom -> by_readNo obsTo ->
  exists pairs : list (PoaBaseObservation * PoaBaseObservation),
    twoNodeWalk bamChunkReads fuel obsFrom obsTo acc
    = acc ++ map (substringBetween bamChunkReads) pairs /\
    List.Forall (fun p => In (fst p) obsFrom /\ In (snd p) obsTo /\
                          readNo (fst p) = readNo (snd p) /\
                          0 < offset (snd p) - offset (fst p)) pairs /\
    StronglySorted Z.lt (map (fun p => readNo (fst p)) pairs).
Proof.
  induction fuel as [|fuel IH]; intros obsFrom obsTo acc HF HT.
  { exists []. simpl. rewrite app_nil_r. repeat split; constructor. }
  destruct obsFrom as [|oF restF]; [|destruct obsTo as [|oT restT]].
  1, 2: exists []; simpl; rewrite app_nil_r; repeat split; constructor.
  cbn [twoNodeWalk].
  destruct (by_readNo_tail _ _ HF) as [HF' HgeF].
  destruct (by_readNo_tail _ _ HT) as [HT' HgeT].
  assert (HaboveF := skipDupes_above restF (readNo oF) HF' HgeF).
  assert (HaboveT := skipDupes_above restT (readNo oT) HT' HgeT).
  destruct (Z.eqb_spec (readNo oF) (readNo oT)) as [E|E];
    [|destruct (Z.ltb_spec (readNo oF) (readNo oT)) as [L|L]].
  - match goal with |- context [twoNodeWalk _ _ _ _ ?acc'] =>
      destruct (IH (skipDupes restF (readNo oF)) (skipDupes restT (readNo oT)) acc'
                   (skipDupes_sorted _ _ HF') (skipDupes_sorted _ _ HT'))
        as (pairs & Heq & Hall & Hsorted) end.
    assert (Hall' : List.Forall
                      (fun p => In (fst p) (oF :: restF) /\ In (snd p) (oT :: restT) /\
                                readNo (fst p) = readNo (snd p) /\
                                0 < offset (snd p) - offset (fst p)) pairs).
    { eapply List.Forall_impl; [|exact Hall]. intros p (H1 & H2 & H3 & H4).
      repeat split; try done; right; by eapply skipDupes_In. }
    assert (Hgt : List.Forall (fun k => readNo oF < k) (map (fun p => readNo (fst p)) pairs)).
    { apply List.Forall_map. eapply List.Forall_impl; [|exact Hall].
      intros p (H1 & _). rewrite List.Forall_forall in HaboveF. by apply HaboveF. }
    destruct (Z.ltb_spec 0 (offset oT - offset oF)) as [Hpos|Hpos].
    + exists ((oF, oT) :: pairs). rewrite Heq, <- app_assoc. split; [done|]. split.
      * constructor; [|done]. simpl. repeat split; try done; by left.
      * simpl. by constructor.
    + exists pairs. by rewrite Heq.
  - destruct (IH (skipDupes restF (readNo oF)) (oT :: restT) acc
                 (skipDupes_sorted _ _ HF') HT) as (pairs & Heq & Hall & Hsorted).
    exists pairs. rewrite Heq. split; [done|]. split; [|done].
    eapply List.Forall_impl; [|exact Hall]. intros p (H1 & H2 & H3 & H4).
    repeat split; try done. right. by eapply skipDupes_In.
  - destruct (IH (oF :: restF) (skipDupes restT (readNo oT)) acc
                 HF (skipDupes_sorted _ _ HT')) as (pairs & Heq & Hall & Hsorted).
    exists pairs. rewrite Heq. split; [done|]. split; [|done].
    eapply List.Forall_impl; [|exact Hall]. intros p (H1 & H2 & H3 & H4).
    repeat split; try done. right. by eapply skipDupes_In.
Qed.

(** X29: between two inner nodes whose observations are in read-number
    order, [getReadSubstrings2] without the quality filter returns, in
    strictly ascending order of the read number, one substring for a
    read with an observation at both nodes, from the offset of the one
    to the offset of the other, which lies behind it; no read gives two
    substrings. *)
Theorem X_reads_between_two_nodes
    (stList_sort : forall A : Type, (A -> A -> Z) -> list A -> list A)
    (bamChunkReads : list BamChunkRead) (poa : Poa) (from to : Z) (params : PolishParams) :
  from <> 0 -> to < node_count poa ->
  by_readNo (observations (getNode poa from)) ->
  by_readNo (observations (getNode poa to)) ->
  exists pairs : list (PoaBaseObservation * PoaBaseObservation),
    getReadSubstrings2 stList_sort bamChunkReads poa from to params false
    = map (substringBetween bamChunkReads) pairs /\
    List.Forall (fun p => In (fst p) (observations (getNode poa from)) /\
                          In (snd p) (observations (getNode poa to)) /\
                          readNo (fst p) = readNo (snd p) /\
                          0 < offset (snd p) - offset (fst p)) pairs /\
    StronglySorted Z.lt (map (fun p => readNo (fst p)) pairs).
Proof.
  intros Hfrom Hto HF HT. unfold getReadSubstrings2.
  destruct (Z.eqb_spec from 0); [done|].
  destruct (Z.leb_spec (node_count poa) to); [lia|].
  apply (twoNodeWalk_spec bamChunkReads _ _ _ [] HF HT).
Qed.

Lemma X_reads_between_two_nodes_witness :
  exists pairs : list (PoaBaseObservation * PoaBaseObservation),
    getReadSubstrings2 (@insertion_sort) ex_reads ex_read_poa 2 4 ex_params false
    = map (substringBetween ex_reads) pairs /\
    List.Forall (fun p => In (fst p) (observations (getNode ex_read_poa 2)) /\
                          In (snd p) (observations (getNode ex_read_poa 4)) /\
                          readNo (fst p) = readNo (snd p) /\
                          0 < offset (snd p) - offset (fst p)) pairs /\
    StronglySorted Z.lt (map (fun p => readNo (fst p)) pairs).
Proof.
  apply (X_reads_between_two_nodes (@insertion_sort) ex_reads ex_read_poa 2 4 ex_params).
  - lia.
  - vm_compute. reflexivity.
  - repeat constructor; vm_compute; discriminate.
  - repeat constructor; vm_compute; discriminate.
Defined.

Example ex_reads_between_two_nodes :
  map (fun rs => (read_id (read rs), start rs, length_ rs))
      (getReadSubstrings2 (@insertion_sort) ex_reads ex_read_poa 2 4 ex_params false)
  = [(0%nat, 1, 2); (1%nat, 1, 2)].
Proof. reflexivity. Qed.

(** ** The quality filter *)

Lemma passes_quality_bool (params : PolishParams) (rs : BamChunkReadSubstring) :
  (Qle_bool (minAvgBaseQuality params) (qualValue rs) || Qeq_bool (qualValue rs) (-1))%bool = true
  <-> passes_quality params rs.
Proof.
  unfold passes_quality. rewrite orb_true_iff, Qle_bool_iff, Qeq_bool_iff. done.
Qed.

(** The tail-trimming loop, run for as many rounds as the list is long. *)
Lemma dropLowQualityTail_spec (params : PolishParams) (fuel : nat) :
  forall l : list BamChunkReadSubstring,
  (length l <= fuel)%nat ->
  0 <= filterReadsWhileHaveAtLeastThisCoverage params ->
  let out := dropLowQualityTail params fuel l in
  (exists dropped, l = out ++ dropped /\
                   List.Forall (fun rs => ~ passes_quality params rs) dropped) /\
  Z.min (filterReadsWhileHaveAtLeastThisCoverage params) (Z.of_nat (length l))
    <= Z.of_nat (length out) /\
  (filterReadsWhileHaveAtLeastThisCoverage params < Z.of_nat (length out) ->
   exists rs, last out = Some rs /\ passes_quality params rs).
Proof.
  induction fuel as [|fuel IH]; intros l Hlen Hcov; cbv zeta.
  { destruct l; [|simpl in Hlen; lia]. simpl. split; [by exists []|]. split; lia. }
  cbn [dropLowQualityTail].
  destruct (Z.ltb_spec (filterReadsWhileHaveAtLeastThisCoverage params) (Z.of_nat (length l)))
    as [Hlt|Hge].
  - destruct (last l) as [rs|] eqn:Hlast.
    + destruct (_ || _)%bool eqn:Hpass.
      * split; [exists []; by rewrite app_nil_r|]. split; [lia|].
        intros _. exists rs. split; [done|]. by apply passes_quality_bool.
      * apply last_Some in Hlast as [l' ->]. rewrite removelast_last.
        rewrite length_app in Hlen, Hlt |- *. simpl in Hlen, Hlt |- *.
        destruct (IH l' ltac:(lia) Hcov) as ((dropped & Hd & Hlow) & Hmin & Hstop).
        split; [|split; [lia|done]].
        exists (dropped ++ [rs]). split.
        -- rewrite app_assoc. by rewrite <- Hd.
        -- apply List.Forall_app. split; [done|]. constructor; [|constructor].
           intros Hp. apply passes_quality_bool in Hp. by rewrite Hp in Hpass.
    + apply last_None in Hlast as ->. simpl in Hlt. lia.
  - split; [exists []; by rewrite app_nil_r|]. split; lia.
Qed.

(** X30: whatever sorting function orders by the comparison it is
    given, [filterReadSubstrings] drops only substrings whose quality
    is below [minAvgBaseQuality] and not -1, keeps at least
    [filterReadsWhileHaveAtLeastThisCoverage] of them (all of them when
    there are fewer), and where it keeps more than that many, the last
    one passes the quality test. *)
Theorem X_quality_filter_drops_only_low_quality
    (stList_sort : forall A : Type, (A -> A -> Z) -> list A -> list A)
    (readSubstrings : list BamChunkReadSubstring) (params : PolishParams) :
  sorts_with readSubstrings_cmpByQual stList_sort ->
  0 <= filterReadsWhileHaveAtLeastThisCoverage params ->
  let out := filterReadSubstrings stList_sort readSubstrings params in
  (exists dropped, Permutation readSubstrings (out ++ dropped) /\
                   List.Forall (fun rs => ~ passes_quality params rs) dropped) /\
  Z.min (filterReadsWhileHaveAtLeastThisCoverage params) (Z.of_nat (length readSubstrings))
    <= Z.of_nat (length out) /\
  (filterReadsWhileHaveAtLeastThisCoverage params < Z.of_nat (length out) ->
   exists rs, last out = Some rs /\ passes_quality params rs).
Proof.
  intros Hsort Hcov. unfold filterReadSubstrings.
  destruct (Hsort readSubstrings) as [Hperm _].
  set (sorted := stList_sort _ readSubstrings_cmpByQual readSubstrings) in *.
  destruct (dropLowQualityTail_spec params (length sorted) sorted ltac:(lia) Hcov)
    as ((dropped & Hd & Hlow) & Hmin & Hstop).
  cbv zeta. split; [|split; [|done]].
  - exists dropped. split; [|done]. rewrite <- Hd. by symmetry.
  - rewrite <- (Permutation_length Hperm). done.
Qed.

Lemma X_quality_filter_drops_only_low_quality_witness :
  (exists dropped,
     Permutation ex_read_substrings
       (filterReadSubstrings (@insertion_sort) ex_read_substrings ex_strict_params ++ dropped) /\
     List.Forall (fun rs => ~ passes_quality ex_strict_params rs) dropped) /\
  Z.min (filterReadsWhileHaveAtLeastThisCoverage ex_strict_params)
        (Z.of_nat (length ex_read_substrings))
    <= Z.of_nat (length (filterReadSubstrings (@insertion_sort) ex_read_substrings
                           ex_strict_params)) /\
  (filterReadsWhileHaveAtLeastThisCoverage ex_strict_params
     < Z.of_nat (length (filterReadSubstrings (@insertion_sort) ex_read_substrings
                           ex_strict_params)) ->
   exists rs,
     last (filterReadSubstrings (@insertion_sort) ex_read_substrings ex_strict_params) = Some rs /\
     passes_quality ex_strict_params rs).
Proof.
  apply (X_quality_filter_drops_only_low_quality (@insertion_sort) ex_read_substrings
           ex_strict_params).
  - apply insertion_sort_sorts_with. apply cmpByQual_total.
  - simpl. lia.
Defined.

Example ex_quality_filter :
  map qualValue (filterReadSubstrings (@insertion_sort) ex_read_substrings ex_strict_params)
  = [30%Q; 30%Q].
Proof. reflexivity. Qed.
